(** * Reverse Tetris: the board engine of [index.js] and of its restyled twin

    A shallow embedding of the game's engine (grid model, flood fill, row
    generation, gravity, line clearing, settling, the single slot falling
    animation and the drag/drop controller), followed by the properties of
    the engine that the specification states.

    Conventions of the embedding

    - JavaScript numbers that hold integers are [Z]; loop fuel is [nat].
    - The global variables of the script are the fields of [State].
    - A function that can read a property of [undefined], write outside
      the grid array, or loop, returns a [result]; the three ways of not
      returning normally are kept apart.
    - [Math.random()] is a tape of rationals of the unit interval held in the
      state; the n-th call reads the n-th entry.
    - Closures stored in the animation slot are first-order values
      ([OnComplete], [Continuation], [Finalize]) run by [settleBoard],
      [finalizePlacement] and [render].
    - The two source files differ, for the engine, in the palette and in how
      [dropSelectedBlock] decides [shouldSpawn]; [SourceFile] selects one. *)

From Stdlib Require Import ZArith QArith Qround Qminmax Lia.
From stdpp Require Import base tactics option list strings.

Open Scope Z_scope.

(** ** Outcomes *)

Inductive result (A : Type) : Type :=
| Ok (a : A)
| TypeError     (* a property of [undefined] was read *)
| RangeFault    (* an array element outside the array was assigned *)
| OutOfFuel.    (* the loop did not finish within the fuel *)

Arguments Ok {A} a.
Arguments TypeError {A}.
Arguments RangeFault {A}.
Arguments OutOfFuel {A}.

Definition result_bind {A B} (f : A → result B) (m : result A) : result B :=
  match m with
  | Ok a => f a
  | TypeError => TypeError
  | RangeFault => RangeFault
  | OutOfFuel => OutOfFuel
  end.

#[export] Instance result_ret : MRet result := λ A a, Ok a.
#[export] Instance result_mbind : MBind result := λ A B f m, result_bind f m.

Definition fromOption {A} (o : option A) : result A :=
  match o with Some a => Ok a | None => TypeError end.

(** [for (const a of l) s = body(a, s)] with early failure. *)
Fixpoint forEachM {A S} (body : A → S → result S) (l : list A) (s : S) : result S :=
  match l with
  | [] => Ok s
  | a :: l' => s' ← body a s; forEachM body l' s'
  end.

(** [for (let i = lo; i < hi; i++) s = body(i, s)]. *)
Definition forZ {S} (lo hi : Z) (body : Z → S → result S) (s : S) : result S :=
  forEachM body (seqZ lo (hi - lo)) s.

(** ** Constants *)

Inductive SourceFile := IndexJs | Part000.

Definition WIDTH : Z := 10.
Definition HEIGHT : Z := 20.
Definition CELL_SIZE : Z := 35.
Definition MAX_BLOCK_SPAWN : Z := 7.
Definition FALL_ANIMATION_PER_ROW : Z := 120.
Definition MIN_FALL_DURATION : Z := 120.
Definition BORDER_SELECTED (v : SourceFile) : string :=
  match v with IndexJs => "#5de6ff" | Part000 => "#7bdff2" end.

Definition COLOR_BACKGROUND (v : SourceFile) : string :=
  match v with IndexJs => "black" | Part000 => "#1b1f32" end.

Definition BLOCK_COLORS : list string := ["#8ab6f9"; "#f5b0e3"; "#9fd8c0"; "#f8d89e"].

Definition colors (v : SourceFile) : list string :=
  match v with
  | IndexJs => ["green"; "white"; "blue"; COLOR_BACKGROUND IndexJs]
  | Part000 => BLOCK_COLORS ++ [COLOR_BACKGROUND Part000]
  end.

Definition idx (x y : Z) : Z := y * WIDTH + x.

(** ** Cells and the grid array *)

Record Cell := mkCell { color : string; blockId : option nat }.

Abbreviation pos := (Z * Z)%type.

(** A JavaScript array of cells.  Reading outside it yields [undefined]
    ([None] here); assigning outside it would grow the array or create a
    stray property, which the model reports as [RangeFault]. *)
Definition arrayGet {A} (a : list A) (i : Z) : option A :=
  if bool_decide (0 ≤ i) then a !! Z.to_nat i else None.

Definition arraySet {A} (a : list A) (i : Z) (c : A) : result (list A) :=
  if bool_decide (0 ≤ i < Z.of_nat (length a)) then Ok (<[Z.to_nat i := c]> a)
  else RangeFault.

(** ** Transient entities *)

Record Selection := mkSelection {
  selColor : string;
  selBlockId : option nat;
  baseCells : list pos;
  selCells : list pos;
  offset : Z;
  pointerStartX : Q;
}.

Record Hover := mkHover {
  hovColor : string;
  hovBlockId : option nat;
  hovCells : list pos;
}.

Record Move := mkMove {
  moveCells : list pos;
  moveColor : string;
  moveBlockId : option nat;
  dropDistance : Z;
}.

(** [onComplete] of [settleBoard]: absent, or the arrow function
    [() => { if (shouldSpawn) spawnBlocks(); }] of [finalizePlacement]. *)
Inductive OnComplete := NoCallback | SpawnIf (shouldSpawn : bool).

(** The arrow function [() => settleBoard({ animate: true, onComplete })]. *)
Inductive Continuation := SettleAfter (onComplete : OnComplete).

(** The arrow function
    [() => finalizePlacement(cells, color, blockId, dropDistance, shouldSpawn)]. *)
Record Finalize := mkFinalize {
  finCells : list pos;
  finColor : string;
  finBlockId : option nat;
  finDrop : Z;
  finShouldSpawn : bool;
}.

Record Animation := mkAnimation {
  moves : list Move;
  finalize : option Finalize;
  after : list Continuation;
  strokeStyle : option string;
  startTime : option Q;
  duration : Z;
}.

(** [Math.random()]: a rational of the interval from 0 (included) to 1
    (excluded). *)
Definition unitInterval : Type := { u : Q | (0 <= u)%Q ∧ (u < 1)%Q }.

(** ** The global variables *)

Record State := mkState {
  grid : list Cell;
  topLine : Z;
  selectedBlock : option Selection;
  hoveredBlock : option Hover;
  score : Z;
  nextRow : option (list Cell);
  selectionMoved : bool;          (* declared in index.js only *)
  fallingAnimation : option Animation;
  blockCounter : nat;
  randomTape : nat → unitInterval;
  randomCalls : nat;
}.

Definition setGrid (g : list Cell) (s : State) : State :=
  mkState g (topLine s) (selectedBlock s) (hoveredBlock s) (score s) (nextRow s)
    (selectionMoved s) (fallingAnimation s) (blockCounter s) (randomTape s) (randomCalls s).
Definition setTopLine (t : Z) (s : State) : State :=
  mkState (grid s) t (selectedBlock s) (hoveredBlock s) (score s) (nextRow s)
    (selectionMoved s) (fallingAnimation s) (blockCounter s) (randomTape s) (randomCalls s).
Definition setSelectedBlock (b : option Selection) (s : State) : State :=
  mkState (grid s) (topLine s) b (hoveredBlock s) (score s) (nextRow s)
    (selectionMoved s) (fallingAnimation s) (blockCounter s) (randomTape s) (randomCalls s).
Definition setHoveredBlock (h : option Hover) (s : State) : State :=
  mkState (grid s) (topLine s) (selectedBlock s) h (score s) (nextRow s)
    (selectionMoved s) (fallingAnimation s) (blockCounter s) (randomTape s) (randomCalls s).
Definition setScore (n : Z) (s : State) : State :=
  mkState (grid s) (topLine s) (selectedBlock s) (hoveredBlock s) n (nextRow s)
    (selectionMoved s) (fallingAnimation s) (blockCounter s) (randomTape s) (randomCalls s).
Definition setNextRow (r : option (list Cell)) (s : State) : State :=
  mkState (grid s) (topLine s) (selectedBlock s) (hoveredBlock s) (score s) r
    (selectionMoved s) (fallingAnimation s) (blockCounter s) (randomTape s) (randomCalls s).
Definition setSelectionMoved (b : bool) (s : State) : State :=
  mkState (grid s) (topLine s) (selectedBlock s) (hoveredBlock s) (score s) (nextRow s)
    b (fallingAnimation s) (blockCounter s) (randomTape s) (randomCalls s).
Definition setFallingAnimation (a : option Animation) (s : State) : State :=
  mkState (grid s) (topLine s) (selectedBlock s) (hoveredBlock s) (score s) (nextRow s)
    (selectionMoved s) a (blockCounter s) (randomTape s) (randomCalls s).
Definition setBlockCounter (n : nat) (s : State) : State :=
  mkState (grid s) (topLine s) (selectedBlock s) (hoveredBlock s) (score s) (nextRow s)
    (selectionMoved s) (fallingAnimation s) n (randomTape s) (randomCalls s).
Definition setRandomCalls (n : nat) (s : State) : State :=
  mkState (grid s) (topLine s) (selectedBlock s) (hoveredBlock s) (score s) (nextRow s)
    (selectionMoved s) (fallingAnimation s) (blockCounter s) (randomTape s) n.

(** ** The engine *)

Section Engine.

Variable v : SourceFile.

Definition makeCell (c : string) (b : option nat) : Cell := mkCell c b.

Definition emptyCell : Cell := makeCell (COLOR_BACKGROUND v) None.

Definition copyCell (cell : Cell) : Cell := mkCell (color cell) (blockId cell).

Definition isEmptyCell (cell : Cell) : bool :=
  bool_decide (color cell = COLOR_BACKGROUND v).

(** [Math.floor(Math.random() * n)] *)
Definition mathRandom (s : State) : unitInterval * State :=
  (randomTape s (randomCalls s), setRandomCalls (S (randomCalls s)) s).

Definition floorTimes (u : unitInterval) (n : Z) : Z :=
  Qfloor (proj1_sig u * inject_Z n)%Q.

Definition nextBlockId (s : State) : nat * State :=
  (S (blockCounter s), setBlockCounter (S (blockCounter s)) s).

(** [grid[idx(x, y)]], read and assigned. *)
Definition gridGet (g : list Cell) (x y : Z) : result Cell :=
  fromOption (arrayGet g (idx x y)).

Definition gridSet (g : list Cell) (x y : Z) (c : Cell) : result (list Cell) :=
  arraySet g (idx x y) c.

Definition moveBlocksUp (s : State) : result State :=
  let s := setTopLine (topLine s + 1) s in
  g ← forZ 1 HEIGHT (λ y g,
         forZ 0 WIDTH (λ x g,
           c ← gridGet g x y;
           gridSet g x (y - 1) (copyCell c)) g) (grid s);
  g ← forZ 0 WIDTH (λ x g, gridSet g x (HEIGHT - 1) emptyCell) g;
  Ok (setGrid g s).

(** The loop of [generateNextRow]; its variables are [row], [spawned] and
    [x], next to the globals it updates. *)
Fixpoint generateLoop (fuel : nat) (row : list Cell) (spawned x : Z) (s : State)
  : result (list Cell * State) :=
  match fuel with
  | O => OutOfFuel
  | S fuel =>
    if bool_decide (x < WIDTH) && bool_decide (spawned < MAX_BLOCK_SPAWN) then
      let maxLen := Z.min (Z.min 4 (MAX_BLOCK_SPAWN - spawned)) (WIDTH - x) in
      if bool_decide (maxLen ≤ 0) then Ok (row, s) else
      let '(u1, s) := mathRandom s in
      c ← fromOption (arrayGet (colors v) (floorTimes u1 (Z.of_nat (length (colors v)))));
      let '(u2, s) := mathRandom s in
      let len := 1 + floorTimes u2 maxLen in
      let '(bid, s) :=
        if bool_decide (c = COLOR_BACKGROUND v) then (None, s)
        else let '(n, s) := nextBlockId s in (Some n, s) in
      row ← forEachM (λ bx row,
               (* the loop test [x + bx < WIDTH], false from some [bx] on *)
               if bool_decide (x + bx < WIDTH) then
                 arraySet row (x + bx)
                   (if bool_decide (c = COLOR_BACKGROUND v)
                    then makeCell (COLOR_BACKGROUND v) None
                    else makeCell c bid)
               else Ok row) (seqZ 0 len) row;
      let spawned := if bool_decide (c ≠ COLOR_BACKGROUND v) then spawned + len else spawned in
      generateLoop fuel row spawned (x + len) s
    else Ok (row, s)
  end.

Definition generateNextRow (s : State) : result (list Cell * State) :=
  generateLoop (S (Z.to_nat WIDTH))
    (replicate (Z.to_nat WIDTH) (makeCell (COLOR_BACKGROUND v) None)) 0 0 s.

Definition cloneGridCells (sourceGrid : list Cell) : list Cell :=
  copyCell <$> sourceGrid.

(** [for (let i = 0; i < grid.length; i++) grid[i] = copyCell(snapshotGrid[i])] *)
Definition restoreGridFromSnapshot (snapshotGrid : list Cell) (s : State) : result State :=
  g ← forZ 0 (Z.of_nat (length (grid s))) (λ i g,
         c ← fromOption (arrayGet snapshotGrid i);
         arraySet g i (copyCell c)) (grid s);
  Ok (setGrid g s).

Definition inBounds (x y : Z) : bool :=
  negb (bool_decide (x < 0) || bool_decide (x >= WIDTH) ||
        bool_decide (y < 0) || bool_decide (y >= HEIGHT)).

Definition neighbors (x y : Z) : list pos :=
  [(x + 1, y); (x - 1, y); (x, y + 1); (x, y - 1)].

(** [for (const neighbor of neighbors)]: [seen] is the [Set] of cell keys
    (a key determines its cell), in insertion order; the head of [toVisit]
    is the top of the stack. *)
Definition visitNeighbors (ns : list pos) (toVisit seen : list pos) : list pos * list pos :=
  foldl (λ '(toVisit, seen) n,
           if bool_decide (n ∈ seen) then (toVisit, seen)
           else (n :: toVisit, seen ++ [n])) (toVisit, seen) ns.

Fixpoint collectLoop (fuel : nat) (g : list Cell) (bid : option nat)
    (toVisit seen cells : list pos) : result (list pos) :=
  match fuel with
  | O => OutOfFuel
  | S fuel =>
    match toVisit with
    | [] => Ok cells
    | (x, y) :: toVisit =>
      if negb (inBounds x y) then collectLoop fuel g bid toVisit seen cells else
      cell ← gridGet g x y;
      if bool_decide (blockId cell ≠ bid) then collectLoop fuel g bid toVisit seen cells else
      let cells := cells ++ [(x, y)] in
      let '(toVisit, seen) := visitNeighbors (neighbors x y) toVisit seen in
      collectLoop fuel g bid toVisit seen cells
    end
  end.

(** Every key put in [seen] but the first is a neighbour of a cell of the
    grid, so the stack is popped at most once per cell of the grid enlarged
    by a border of one cell, and once for the start. *)
Definition collectFuel : nat := Z.to_nat ((WIDTH + 2) * (HEIGHT + 2) + 2).

Definition collectBlockCells (g : list Cell) (startX startY : Z) (bid : option nat)
  : result (list pos) :=
  match bid with
  | None => Ok []
  | Some _ => collectLoop collectFuel g bid [(startX, startY)] [(startX, startY)] []
  end.

(** The pointer position returned by [getPointerPosition] is an input. *)
Definition cellOfPointer (p : Q) : Z := Qfloor (p / inject_Z CELL_SIZE)%Q.

Definition clearCells (cells : list pos) (g : list Cell) : result (list Cell) :=
  forEachM (λ '(x, y) g, gridSet g x y (makeCell (COLOR_BACKGROUND v) None)) cells g.

Definition writeCells (cells : list pos) (d : Z) (c : string) (bid : option nat)
    (g : list Cell) : result (list Cell) :=
  forEachM (λ '(x, y) g, gridSet g x (y + d) (makeCell c bid)) cells g.

Definition trySelectBlock (button : Z) (pointer : Q * Q) (s : State) : result State :=
  if bool_decide (is_Some (selectedBlock s)) || bool_decide (is_Some (fallingAnimation s))
  then Ok s else
  if bool_decide (button ≠ 0) then Ok s else
  let cellX := cellOfPointer (fst pointer) in
  let cellY := cellOfPointer (snd pointer) in
  if negb (inBounds cellX cellY) then Ok s else
  startCell ← gridGet (grid s) cellX cellY;
  if isEmptyCell startCell then Ok s else
  cells ← collectBlockCells (grid s) cellX cellY (blockId startCell);
  if bool_decide (cells = []) then Ok s else
  g ← clearCells cells (grid s);
  let s := setGrid g s in
  let s := setSelectedBlock (Some
    (mkSelection (color startCell) (blockId startCell) cells cells 0 (fst pointer))) s in
  let s := setHoveredBlock None s in
  Ok (match v with IndexJs => setSelectionMoved false s | Part000 => s end).

Fixpoint canPlaceOffset (g : list Cell) (cells : list pos) (wanted : Z) : result bool :=
  match cells with
  | [] => Ok true
  | (x, y) :: rest =>
    let targetX := x + wanted in
    if bool_decide (targetX < 0) || bool_decide (targetX >= WIDTH) then Ok false else
    c ← gridGet g targetX y;
    if negb (isEmptyCell c) then Ok false else canPlaceOffset g rest wanted
  end.

Fixpoint offsetLoop (fuel : nat) (g : list Cell) (cells : list pos)
    (direction wanted newOffset : Z) : result Z :=
  match fuel with
  | O => OutOfFuel
  | S fuel =>
    if bool_decide (newOffset ≠ wanted) then
      let candidate := newOffset + direction in
      ok ← canPlaceOffset g cells candidate;
      if negb ok then Ok newOffset
      else offsetLoop fuel g cells direction wanted candidate
    else Ok newOffset
  end.

(** The parameter [offset] of the source is [wanted] here; [offset] is the
    field of the selection. *)
Definition applyOffset (wanted : Z) (s : State) : result State :=
  match selectedBlock s with
  | None => Ok s
  | Some sel =>
    if bool_decide (wanted = offset sel) then Ok s else
    let direction := if bool_decide (wanted > offset sel) then 1 else -1 in
    (* the loop moves [newOffset] one unit toward [wanted] per turn *)
    newOffset ← offsetLoop (S (Z.abs_nat (wanted - offset sel))) (grid s)
                  (baseCells sel) direction wanted (offset sel);
    if bool_decide (newOffset = offset sel) then Ok s else
    let sel := mkSelection (selColor sel) (selBlockId sel) (baseCells sel)
                 ((λ '(x, y), (x + newOffset, y)) <$> baseCells sel)
                 newOffset (pointerStartX sel) in
    let s := setSelectedBlock (Some sel) s in
    Ok (match v with IndexJs => setSelectionMoved true s | Part000 => s end)
  end.

(** [Math.round] *)
Definition mathRound (q : Q) : Z := Qfloor (q + (1 # 2))%Q.

Definition handleDrag (pointer : Q * Q) (s : State) : result State :=
  match selectedBlock s with
  | None => Ok s
  | Some sel =>
    let desiredOffset :=
      mathRound ((fst pointer - pointerStartX sel) / inject_Z CELL_SIZE)%Q in
    applyOffset desiredOffset s
  end.

Definition updateHoveredBlock (pointer : Q * Q) (s : State) : result State :=
  if bool_decide (is_Some (fallingAnimation s)) then Ok (setHoveredBlock None s) else
  let cellX := cellOfPointer (fst pointer) in
  let cellY := cellOfPointer (snd pointer) in
  if negb (inBounds cellX cellY) then Ok (setHoveredBlock None s) else
  cell ← gridGet (grid s) cellX cellY;
  if isEmptyCell cell then Ok (setHoveredBlock None s) else
  cells ← collectBlockCells (grid s) cellX cellY (blockId cell);
  Ok (setHoveredBlock (Some (mkHover (color cell) (blockId cell) cells)) s).

Definition clearHover (s : State) : State := setHoveredBlock None s.

(** The body of the labelled [outer] loop: [true] when the [for] loop ran
    to its end, [false] on [break outer]. *)
Fixpoint canFall (g : list Cell) (cells : list pos) (dropDistance : Z) : result bool :=
  match cells with
  | [] => Ok true
  | (x, y) :: rest =>
    let targetY := y + dropDistance + 1 in
    if bool_decide (targetY >= HEIGHT) then Ok false else
    c ← gridGet g x targetY;
    if negb (isEmptyCell c) then Ok false else canFall g rest dropDistance
  end.

Fixpoint dropLoop (fuel : nat) (g : list Cell) (cells : list pos) (dropDistance : Z)
  : result Z :=
  match fuel with
  | O => OutOfFuel
  | S fuel =>
    ok ← canFall g cells dropDistance;
    if (ok : bool) then dropLoop fuel g cells (dropDistance + 1) else Ok dropDistance
  end.

(** The first cell alone leaves the loop once its target row reaches
    [HEIGHT]; with no cell at all the loop never ends. *)
Definition dropFuel (cells : list pos) : nat :=
  match cells with
  | [] => O
  | (_, y) :: _ => S (Z.to_nat (HEIGHT - y))
  end.

Definition computeDropDistance (g : list Cell) (cells : list pos) : result Z :=
  dropLoop (dropFuel cells) g cells 0.

Record Sweep := mkSweep {
  swGrid : list Cell;
  swProcessed : list nat;     (* the [Set] processedBlocks *)
  swMoved : bool;
  swMoves : list Move;
}.

(** The body of the two nested [for] loops of [applyGravity]. *)
Definition gravityVisit (collectMoves : bool) (x y : Z) (sw : Sweep) : result Sweep :=
  cell ← gridGet (swGrid sw) x y;
  if isEmptyCell cell then Ok sw else
  match blockId cell with
  | None => Ok sw
  | Some bid =>
    if bool_decide (bid ∈ swProcessed sw) then Ok sw else
    cells ← collectBlockCells (swGrid sw) x y (Some bid);
    if bool_decide (cells = []) then Ok sw else
    let processed := swProcessed sw ++ [bid] in
    d ← dropLoop (dropFuel cells) (swGrid sw) cells 0;
    if bool_decide (d = 0) then Ok (mkSweep (swGrid sw) processed (swMoved sw) (swMoves sw)) else
    g ← clearCells cells (swGrid sw);
    g ← writeCells cells d (color cell) (Some bid) g;
    let moves :=
      if collectMoves then swMoves sw ++ [mkMove cells (color cell) (Some bid) d]
      else swMoves sw in
    Ok (mkSweep g processed true moves)
  end.

(** One turn of the [do ... while (moved)] loop: rows from the bottom up,
    columns from the left. *)
Definition gravitySweep (collectMoves : bool) (g : list Cell) (moves : list Move)
  : result Sweep :=
  forEachM (λ y sw, forZ 0 WIDTH (λ x sw, gravityVisit collectMoves x y sw) sw)
    (reverse (seqZ 0 HEIGHT)) (mkSweep g [] false moves).

Fixpoint gravityLoop (fuel : nat) (collectMoves : bool) (g : list Cell)
    (movedAny : bool) (moves : list Move) : result (list Cell * bool * list Move) :=
  match fuel with
  | O => OutOfFuel
  | S fuel =>
    sw ← gravitySweep collectMoves g moves;
    let movedAny := movedAny || swMoved sw in
    if swMoved sw then gravityLoop fuel collectMoves (swGrid sw) movedAny (swMoves sw)
    else Ok (swGrid sw, movedAny, swMoves sw)
  end.

(** Every move lowers the sum, over the cells that hold a block, of their
    distance to the floor; see [gravityMeasure]. *)
Definition gravityFuel : nat := S (Z.to_nat (WIDTH * HEIGHT * HEIGHT)).

Definition applyGravity (collectMoves : bool) (s : State)
  : result (bool * list Move * State) :=
  if bool_decide (is_Some (selectedBlock s)) || bool_decide (is_Some (fallingAnimation s))
  then Ok (false, [], s) else
  '(g, movedAny, moves) ← gravityLoop gravityFuel collectMoves (grid s) false [];
  Ok (movedAny, moves, setGrid g s).

(** [isFull] of [clearFullLines], with its [break]. *)
Fixpoint rowIsFull (g : list Cell) (y : Z) (xs : list Z) : result bool :=
  match xs with
  | [] => Ok true
  | x :: xs =>
    c ← gridGet g x y;
    if isEmptyCell c then Ok false else rowIsFull g y xs
  end.

Definition clearFullLines (s : State) : result (Z * State) :=
  '(g, cleared) ← forZ 0 HEIGHT (λ y '(g, cleared),
      isFull ← rowIsFull g y (seqZ 0 WIDTH);
      if negb isFull then Ok (g, cleared) else
      g ← forZ 0 WIDTH (λ x g, gridSet g x y (makeCell (COLOR_BACKGROUND v) None)) g;
      Ok (g, cleared + 1)) (grid s, 0);
  let s := setGrid g s in
  Ok (cleared, if bool_decide (cleared > 0) then setHoveredBlock None s else s).

(** The options object of [startFallAnimation]; [optStrokeStyle] is [None]
    when the object has no own property [strokeStyle]. *)
Record FallOptions := mkFallOptions {
  optFinalize : option Finalize;
  optAfter : option Continuation;
  optStrokeStyle : option (option string);
}.

Definition startFallAnimation (ms : list Move) (options : FallOptions) (s : State) : State :=
  if bool_decide (ms = []) then s else
  let clonedMoves :=
    (λ m, mkMove ((λ c : pos, c) <$> moveCells m) (moveColor m) (moveBlockId m) (dropDistance m))
      <$> ms in
  let maxDrop := foldl (λ mx m, Z.max mx (dropDistance m)) 0 clonedMoves in
  let duration := Z.max MIN_FALL_DURATION (maxDrop * FALL_ANIMATION_PER_ROW) in
  setFallingAnimation (Some (mkAnimation
    clonedMoves
    (optFinalize options)
    (match optAfter options with Some k => [k] | None => [] end)
    (match optStrokeStyle options with Some st => st | None => Some (BORDER_SELECTED v) end)
    None
    duration)) s.

Definition runOnComplete (spawn : State → result State) (k : OnComplete) (s : State)
  : result State :=
  match k with
  | NoCallback => Ok s
  | SpawnIf shouldSpawn => if shouldSpawn then spawn s else Ok s
  end.

(** The [while (true)] loop of the unanimated branch of [settleBoard]. *)
Fixpoint settleSyncLoop (fuel : nat) (totalCleared : Z) (s : State) : result (Z * State) :=
  match fuel with
  | O => OutOfFuel
  | S fuel =>
    '(_, _, s) ← applyGravity false s;
    '(cleared, s) ← clearFullLines s;
    if bool_decide (cleared = 0) then Ok (totalCleared, s)
    else settleSyncLoop fuel (totalCleared + cleared) s
  end.

(** The animated branch; its tail call [settleBoard({ animate: true,
    onComplete })] is the recursive call. *)
Fixpoint settleAnimated (spawn : State → result State) (fuel : nat) (k : OnComplete)
    (s : State) : result (Z * State) :=
  match fuel with
  | O => OutOfFuel
  | S fuel =>
    match fallingAnimation s with
    | Some a =>
      let a := mkAnimation (moves a) (finalize a) (after a ++ [SettleAfter k])
                 (strokeStyle a) (startTime a) (duration a) in
      Ok (0, setFallingAnimation (Some a) s)
    | None =>
      '(_, ms, s) ← applyGravity true s;
      if bool_decide (Z.of_nat (length ms) > 0) then
        let s := setHoveredBlock None s in
        Ok (0, startFallAnimation ms
                 (mkFallOptions None (Some (SettleAfter k)) (Some None)) s)
      else
        '(cleared, s) ← clearFullLines s;
        if bool_decide (cleared > 0) then
          settleAnimated spawn fuel k (setScore (score s + cleared) s)
        else
          s ← runOnComplete spawn k s;
          Ok (0, s)
    end
  end.

(** A turn that clears a line empties at least [WIDTH] cells and gravity
    fills none, so there are at most [HEIGHT] such turns. *)
Definition settleFuel : nat := S (Z.to_nat HEIGHT).

(** [settleBoard], given what the call [spawnBlocks()] made by [onComplete]
    does. *)
Definition settleBoardWith (spawn : State → result State) (animate : bool) (k : OnComplete)
    (s : State) : result (Z * State) :=
  if negb animate then
    '(totalCleared, s) ← settleSyncLoop settleFuel 0 s;
    let s := if bool_decide (totalCleared ≠ 0) then setScore (score s + totalCleared) s else s in
    s ← runOnComplete spawn k s;
    Ok (totalCleared, s)
  else settleAnimated spawn settleFuel k s.

(** [settleBoard] called without [onComplete], as [rowWouldClearLines] and
    [spawnBlocks] call it: nothing is spawned. *)
Definition settleBoardPlain (animate : bool) (s : State) : result (Z * State) :=
  settleBoardWith (λ s, Ok s) animate NoCallback s.

Definition insertRow (row : list Cell) (s : State) : result State :=
  g ← forZ 0 WIDTH (λ x g,
         c ← fromOption (arrayGet row x);
         gridSet g x (HEIGHT - 1) (copyCell c)) (grid s);
  Ok (setGrid g s).

Definition rowWouldClearLines (row : option (list Cell)) (s : State) : result (bool * State) :=
  match row with
  | None => Ok (false, s)
  | Some row =>
    let snapshotGrid := cloneGridCells (grid s) in
    let snapshotTopLine := topLine s in
    let snapshotScore := score s in
    let snapshotHoveredBlock := hoveredBlock s in
    let snapshotSelectedBlock := selectedBlock s in
    let snapshotFallingAnimation := fallingAnimation s in
    let s := setHoveredBlock None s in
    let s := setSelectedBlock None s in
    let s := setFallingAnimation None s in
    s ← moveBlocksUp s;
    s ← insertRow row s;
    '(cleared, s) ← settleBoardPlain false s;
    s ← restoreGridFromSnapshot snapshotGrid s;
    let s := setTopLine snapshotTopLine s in
    let s := setScore snapshotScore s in
    let s := setHoveredBlock snapshotHoveredBlock s in
    let s := setSelectedBlock snapshotSelectedBlock s in
    let s := setFallingAnimation snapshotFallingAnimation s in
    Ok (bool_decide (cleared > 0), s)
  end.

(** The [while] loop of [spawnBlocks]. *)
Fixpoint rerollLoop (fuel : nat) (attempts : Z) (s : State) : result (Z * State) :=
  match fuel with
  | O => OutOfFuel
  | S fuel =>
    '(clears, s) ← rowWouldClearLines (nextRow s) s;
    if clears && bool_decide (attempts < 20) then
      '(row, s) ← generateNextRow s;
      rerollLoop fuel (attempts + 1) (setNextRow (Some row) s)
    else Ok (attempts, s)
  end.

Definition spawnBlocks (animateSettle : bool) (s : State) : result State :=
  s ← match nextRow s with
      | Some _ => Ok s
      | None => '(row, s) ← generateNextRow s; Ok (setNextRow (Some row) s)
      end;
  '(attempts, s) ← rerollLoop 21%nat 0 s;
  let s :=
    if bool_decide (attempts >= 20)
    then setNextRow (Some (replicate (Z.to_nat WIDTH) (makeCell (COLOR_BACKGROUND v) None))) s
    else s in
  s ← moveBlocksUp s;
  row ← fromOption (nextRow s);
  s ← insertRow row s;
  '(_, s) ← settleBoardPlain animateSettle s;
  '(row, s) ← generateNextRow s;
  Ok (setNextRow (Some row) s).

Definition settleBoard (animate : bool) (k : OnComplete) (s : State) : result (Z * State) :=
  settleBoardWith (spawnBlocks true) animate k s.

Definition finalizePlacement (cells : list pos) (c : string) (bid : option nat)
    (d : Z) (shouldSpawn : bool) (s : State) : result State :=
  g ← writeCells cells d c bid (grid s);
  '(_, s) ← settleBoard true (SpawnIf shouldSpawn) (setGrid g s);
  Ok (match v with IndexJs => setSelectionMoved false s | Part000 => s end).

Record Placement := mkPlacement {
  plCells : list pos;
  plColor : string;
  plBlockId : option nat;
  plDropDistance : Z;
  shouldSpawn : bool;
}.

Definition dropSelectedBlock (s : State) : result (option Placement * State) :=
  match selectedBlock s with
  | None => Ok (None, s)
  | Some sel =>
    d ← computeDropDistance (grid s) (selCells sel);
    let movedHorizontally := bool_decide (offset sel ≠ 0) in
    let placement := mkPlacement (selCells sel) (selColor sel) (selBlockId sel) d
      (match v with IndexJs => selectionMoved s | Part000 => movedHorizontally end) in
    Ok (Some placement, setSelectedBlock None s)
  end.

(** The [mouseup] listener. *)
Definition handleMouseUp (s : State) : result State :=
  match selectedBlock s with
  | None => Ok s
  | Some _ =>
    '(placement, s) ← dropSelectedBlock s;
    match placement with
    | None => Ok s
    | Some p =>
      s ← (if bool_decide (plDropDistance p = 0) then
             finalizePlacement (plCells p) (plColor p) (plBlockId p) (plDropDistance p)
               (shouldSpawn p) s
           else
             Ok (startFallAnimation
                   [mkMove (plCells p) (plColor p) (plBlockId p) (plDropDistance p)]
                   (mkFallOptions
                      (Some (mkFinalize (plCells p) (plColor p) (plBlockId p)
                               (plDropDistance p) (shouldSpawn p)))
                      None (Some (Some (BORDER_SELECTED v)))) s));
      Ok (clearHover s)
    end
  end.

Definition runFinalize (f : Finalize) (s : State) : result State :=
  finalizePlacement (finCells f) (finColor f) (finBlockId f) (finDrop f) (finShouldSpawn f) s.

Definition runContinuation (k : Continuation) (s : State) : result State :=
  match k with
  | SettleAfter onComplete => '(_, s) ← settleBoard true onComplete s; Ok s
  end.

(** The part of [render] that changes the globals: the ghost of the
    selection is measured, the preview row is created when missing, and the
    falling animation is advanced and, once over, completed. *)
Definition render (timestamp : Q) (s : State) : result State :=
  _ ← match selectedBlock s with
      | Some sel => computeDropDistance (grid s) (selCells sel)
      | None => Ok 0
      end;
  s ← match nextRow s with
      | Some _ => Ok s
      | None => '(row, s) ← generateNextRow s; Ok (setNextRow (Some row) s)
      end;
  match fallingAnimation s with
  | None => Ok s
  | Some anim =>
    let start := match startTime anim with Some t => t | None => timestamp end in
    let anim := mkAnimation (moves anim) (finalize anim) (after anim) (strokeStyle anim)
                  (Some start) (duration anim) in
    let s := setFallingAnimation (Some anim) s in
    let elapsed := (timestamp - start)%Q in
    let dur := if bool_decide (duration anim = 0) then MIN_FALL_DURATION else duration anim in
    let progress := Qmin 1 (elapsed / inject_Z dur)%Q in
    if Qle_bool 1 progress then
      let s := setFallingAnimation None s in
      s ← match finalize anim with
          | Some f => runFinalize f s
          | None => Ok s
          end;
      forEachM runContinuation (after anim) s
    else Ok s
  end.

(** The script body after the declarations: five unanimated spawns.  The
    call of [render] that ends it finds a preview row and no animation, and
    changes no global. *)
Definition initialState (tape : nat → unitInterval) : State :=
  mkState (replicate (Z.to_nat (WIDTH * HEIGHT)) (makeCell (COLOR_BACKGROUND v) None))
    (-1) None None 0 None false None 0 tape 0.

Definition bootstrap (tape : nat → unitInterval) : result State :=
  forEachM (λ _ s, spawnBlocks false s) (seq 0 5) (initialState tape).

End Engine.

(** ** Vocabulary of the properties *)

(** Number of cells of a row that hold a colour. *)
Definition filledCount (v : SourceFile) (row : list Cell) : Z :=
  Z.of_nat (length (filter (λ c, isEmptyCell v c = false) row)).

(** The cells [a], ..., [b - 1] of [row] are a maximal run of cells that
    carry block id [id]. *)
Definition isRun (row : list Cell) (a b : Z) (id : nat) : Prop :=
  0 ≤ a < b ∧ b ≤ Z.of_nat (length row) ∧
  (∀ k, a ≤ k < b → blockId <$> arrayGet row k = Some (Some id)) ∧
  blockId <$> arrayGet row (a - 1) ≠ Some (Some id) ∧
  blockId <$> arrayGet row b ≠ Some (Some id).

Definition hasId (row : list Cell) (k : nat) (id : nat) : Prop :=
  blockId <$> row !! k = Some (Some id).

(** What [generateNextRow] has built after some turns of its loop: the ids
    handed out since [bc0] each label one stretch of one to four coloured
    cells, and [sp] cells are coloured. *)
Record RowShape (v : SourceFile) (bc0 bc : nat) (sp : Z) (p : list Cell) : Prop := {
  rs_count : filledCount v p = sp;
  rs_cells : ∀ k c, p !! k = Some c →
    (blockId c = None ∧ color c = COLOR_BACKGROUND v) ∨
    (∃ id, blockId c = Some id ∧ color c ≠ COLOR_BACKGROUND v ∧ (bc0 < id ≤ bc)%nat);
  rs_runs : ∀ id, (bc0 < id ≤ bc)%nat →
    ∃ a len, (1 ≤ len ≤ 4)%nat ∧ ∀ k, hasId p k id ↔ (a ≤ k < a + len)%nat;
  rs_mono : (bc0 ≤ bc)%nat;
}.

(** The offset of the selection, if any. *)
Definition selOffset (s : State) : option Z := offset <$> selectedBlock s.

(** A drag: the calls [applyOffset(d)] for the requested offsets [drags] in
    turn.  The flag tells whether one of the calls changed the offset of the
    selection. *)
Inductive dragRun (v : SourceFile) : State → list Z → bool → State → Prop :=
| dragRun_nil s : dragRun v s [] false s
| dragRun_cons s d s1 ds b s2 :
    applyOffset v d s = Ok s1 →
    dragRun v s1 ds b s2 →
    dragRun v s (d :: ds) (bool_decide (selOffset s1 ≠ selOffset s) || b) s2.

(** The claim on [shouldSpawn] as the specification words it, for one source
    file: after a press that selects a block and a drag, the flag of the
    placement is set exactly when the final offset is not zero. *)
Definition spawnFlagFollowsFinalOffset (v : SourceFile) : Prop :=
  ∀ s0 button pointer s1 drags moved s sel p s',
    selectedBlock s0 = None →
    trySelectBlock v button pointer s0 = Ok s1 →
    dragRun v s1 drags moved s →
    selectedBlock s = Some sel →
    dropSelectedBlock v s = Ok (Some p, s') →
    (shouldSpawn p = true ↔ offset sel ≠ 0).

(** Concrete inputs used by the examples: a tape of [Math.random()] that
    always returns 0, a palette colour, and a board built from rows. *)
Definition zeroUnit : unitInterval :=
  exist _ 0%Q (conj (Qle_refl 0) (eq_refl : (0 < 1)%Q)).

Definition zeroTape : nat → unitInterval := λ _, zeroUnit.

Definition blockCell (id : nat) : Cell := mkCell "green" (Some id).

(** A row of [WIDTH] cells from block ids, 0 standing for an empty cell. *)
Definition rowOf (v : SourceFile) (ids : list nat) : list Cell :=
  (λ id, match id with O => emptyCell v | S _ => mkCell "green" (Some id) end) <$> ids.

Definition emptyRows (v : SourceFile) (n : nat) : list Cell :=
  replicate (n * Z.to_nat WIDTH) (emptyCell v).

Definition stateOfGrid (g : list Cell) (counter : nat) : State :=
  mkState g 0 None None 0 None false None counter zeroTape 0.

(** Pointer position over the middle of cell [(x, y)]. *)
Definition pointerAt (x y : Z) : Q * Q :=
  (inject_Z (x * CELL_SIZE + 17), inject_Z (y * CELL_SIZE + 17)).

(** Bottom row: block 1 on columns 0-1, block 2 on column 3. *)
Definition dragBoard (v : SourceFile) : State :=
  stateOfGrid (emptyRows v 19 ++ rowOf v [1; 1; 0; 2; 0; 0; 0; 0; 0; 0]%nat) 2.

(** The grid array has its [WIDTH * HEIGHT] cells. *)
Definition gridOk (g : list Cell) : Prop := Z.of_nat (length g) = WIDTH * HEIGHT.

(** The cells lie in rows of the grid. *)
Definition rowsOk (cells : list pos) : Prop :=
  ∀ x y, (x, y) ∈ cells → 0 ≤ y < HEIGHT.

(** Shifted by [o] columns, the cells stay on the board and cover empty
    cells of the grid only. *)
Definition placeable (v : SourceFile) (g : list Cell) (cells : list pos) (o : Z) : Prop :=
  ∀ x y, (x, y) ∈ cells →
    0 ≤ x + o < WIDTH ∧ ∃ c, gridGet g (x + o) y = Ok c ∧ isEmptyCell v c = true.

(** [dragBoard] with block 1 picked up. *)
Definition draggingState (v : SourceFile) : State :=
  match trySelectBlock v 0 (pointerAt 0 19) (dragBoard v) with
  | Ok s => s
  | _ => dragBoard v
  end.

(** The cell at a position, when the index is one of the array. *)
Definition cellAt (g : list Cell) (p : pos) : option Cell := arrayGet g (idx p.1 p.2).

Definition onBoard (p : pos) : Prop := 0 ≤ p.1 < WIDTH ∧ 0 ≤ p.2 < HEIGHT.

(** The positions of the board, row by row. *)
Definition boardPositions : list pos :=
  y ← seqZ 0 HEIGHT; x ← seqZ 0 WIDTH; [(x, y)].

(** The board and a border of one cell around it. *)
Definition borderedPositions : list pos :=
  y ← seqZ (-1) (HEIGHT + 2); x ← seqZ (-1) (WIDTH + 2); [(x, y)].

(** The cell at [p] carries block id [bid]. *)
Definition carries (g : list Cell) (bid : option nat) (p : pos) : Prop :=
  onBoard p ∧ ∃ c, cellAt g p = Some c ∧ blockId c = bid.

(** The invariant of the loop of [collectBlockCells], for a search of the
    block [bid] started at [start]. *)
Record CollectInv (g : list Cell) (bid : option nat) (start : pos)
    (toVisit seen cells : list pos) : Prop := {
  ci_seen_nodup : NoDup seen;
  ci_seen_box : ∀ p, p ∈ seen → p ∈ start :: borderedPositions;
  ci_nodup : NoDup (toVisit ++ cells);
  ci_in_seen : ∀ p, p ∈ toVisit ++ cells → p ∈ seen;
  ci_cells : ∀ p, p ∈ cells → carries g bid p;
  ci_neighbors : ∀ p n, p ∈ cells → n ∈ neighbors p.1 p.2 → n ∈ seen;
  ci_sorted : ∀ p, p ∈ seen → p ∈ toVisit ∨ p ∈ cells ∨ ¬ carries g bid p;
  ci_start : start ∈ seen;
}.

(** What [collectBlockCells] returns: cells of the block, each once, closed
    under the four neighbours, with the start cell when it is of the block. *)
Record Collected (g : list Cell) (bid : option nat) (start : pos) (cells : list pos)
  : Prop := {
  co_nodup : NoDup cells;
  co_carries : ∀ p, p ∈ cells → carries g bid p;
  co_start : carries g bid start → start ∈ cells;
  co_closed : ∀ p n, p ∈ cells → n ∈ neighbors p.1 p.2 → carries g bid n → n ∈ cells;
}.

(** Lowered by [d] rows, every cell is on the board and over an empty cell
    of the grid. *)
Definition landsFree (v : SourceFile) (g : list Cell) (cells : list pos) (d : Z) : Prop :=
  ∀ x y, (x, y) ∈ cells →
    y + d < HEIGHT ∧ ∃ c, gridGet g x (y + d) = Ok c ∧ isEmptyCell v c = true.

(** [d] is the largest distance at which the cells land free. *)
Definition maximalLanding (v : SourceFile) (g : list Cell) (cells : list pos) (d : Z) : Prop :=
  0 ≤ d ∧ landsFree v g cells d ∧ ∀ d', 0 ≤ d' → landsFree v g cells d' → d' ≤ d.

(** The cells can be lowered row by row [d] times, and not once more: [d]
    is the distance to the first obstruction. *)
Definition fallsTo (v : SourceFile) (g : list Cell) (cells : list pos) (d : Z) : Prop :=
  0 ≤ d ∧ (∀ j, 1 ≤ j ≤ d → landsFree v g cells j) ∧ ¬ landsFree v g cells (d + 1).

(** The grid after the cells were emptied, and after a block was written
    [d] rows below the cells. *)
Definition vacate (v : SourceFile) (cells : list pos) (g : list Cell) : list Cell :=
  foldl (λ g p, <[Z.to_nat (idx p.1 p.2) := emptyCell v]> g) g cells.

Definition place (cells : list pos) (d : Z) (c : string) (bid : option nat)
    (g : list Cell) : list Cell :=
  foldl (λ g p, <[Z.to_nat (idx p.1 (p.2 + d)) := makeCell c bid]> g) g cells.

Definition sameRow (cells : list pos) : Prop :=
  ∀ p q, p ∈ cells → q ∈ cells → p.2 = q.2.

(** The claim on the drop distance as the specification words it, for
    [computeDropDistance] at release (the cells of the selection are off the
    grid): the distance is the largest one at which the block lands free. *)
Definition dropIsMaximalLanding (v : SourceFile) : Prop :=
  ∀ g cells d,
    gridOk g → cells ≠ [] → (∀ p, p ∈ cells → onBoard p) →
    landsFree v g cells 0 →
    computeDropDistance v g cells = Ok d →
    maximalLanding v g cells d.

(** Rows 18 and 19: block 2 rests on block 1 and overhangs columns 4-5. *)
Definition overhangBoard (v : SourceFile) : list Cell :=
  emptyRows v 18 ++ rowOf v [0; 0; 2; 2; 2; 2; 0; 0; 0; 0]%nat
                 ++ rowOf v [1; 1; 1; 1; 0; 0; 0; 0; 0; 0]%nat.

(** What one visit of the sweep of [applyGravity] does at [(x, y)]: nothing,
    when the cell is empty, has no id, or its id was processed in this
    sweep; else the block found from the cell is marked as processed, and
    is lowered to its first obstruction when that is at least a row away. *)
Inductive VisitOutcome (v : SourceFile) (collect : bool) (x y : Z) (sw sw' : Sweep) : Prop :=
| visit_skip cell :
    cellAt (swGrid sw) (x, y) = Some cell →
    isEmptyCell v cell = true ∨ blockId cell = None ∨
      (∃ bid, blockId cell = Some bid ∧ bid ∈ swProcessed sw) →
    sw' = sw →
    VisitOutcome v collect x y sw sw'
| visit_rest cell bid cells :
    cellAt (swGrid sw) (x, y) = Some cell →
    isEmptyCell v cell = false → blockId cell = Some bid → bid ∉ swProcessed sw →
    collectBlockCells (swGrid sw) x y (Some bid) = Ok cells →
    Collected (swGrid sw) (Some bid) (x, y) cells →
    fallsTo v (swGrid sw) cells 0 →
    sw' = mkSweep (swGrid sw) (swProcessed sw ++ [bid]) (swMoved sw) (swMoves sw) →
    VisitOutcome v collect x y sw sw'
| visit_move cell bid cells d :
    cellAt (swGrid sw) (x, y) = Some cell →
    isEmptyCell v cell = false → blockId cell = Some bid → bid ∉ swProcessed sw →
    collectBlockCells (swGrid sw) x y (Some bid) = Ok cells →
    Collected (swGrid sw) (Some bid) (x, y) cells →
    fallsTo v (swGrid sw) cells d → 0 < d →
    sw' = mkSweep (place cells d (color cell) (Some bid) (vacate v cells (swGrid sw)))
            (swProcessed sw ++ [bid]) true
            (if collect then swMoves sw ++ [mkMove cells (color cell) (Some bid) d]
             else swMoves sw) →
    VisitOutcome v collect x y sw sw'.

(** Sum of [f] over a list of positions. *)
Definition sumOver (f : pos → Z) (l : list pos) : Z := foldr (λ p acc, f p + acc) 0 l.

(** Sum over the board of a weight given to each cell and its row. *)
Definition boardSum (W : Cell → Z → Z) (g : list Cell) : Z :=
  sumOver (λ p, match cellAt g p with Some c => W c p.2 | None => 0 end) boardPositions.

(** The termination measure of [applyGravity]: a coloured cell weighs its
    distance to the floor; a cell without colour that still carries an id
    weighs [HEIGHT], since a move of its block turns it into coloured
    cells. *)
Definition fallWeight (v : SourceFile) (c : Cell) (y : Z) : Z :=
  if isEmptyCell v c then
    match blockId c with Some _ => HEIGHT | None => 0 end
  else HEIGHT - 1 - y.

Definition gravityMeasure (v : SourceFile) (g : list Cell) : Z := boardSum (fallWeight v) g.

(** The termination measure of the settle loops: the number of cells that
    hold a colour or an id. *)
Definition usedWeight (v : SourceFile) (c : Cell) (y : Z) : Z :=
  if isEmptyCell v c then
    match blockId c with Some _ => 1 | None => 0 end
  else 1.

Definition usedCells (v : SourceFile) (g : list Cell) : Z := boardSum (usedWeight v) g.

(** The effect of a recorded move on the grid. *)
Definition applyMove (v : SourceFile) (m : Move) (g : list Cell) : list Cell :=
  place (moveCells m) (dropDistance m) (moveColor m) (moveBlockId m)
    (vacate v (moveCells m) g).

(** A move of the sweep, seen on the grid it is applied to: the cells are
    distinct cells of the board that carry the id of the block, the block
    goes down, and each cell goes to a cell of the board that is empty. *)
Record SafeMove (v : SourceFile) (g : list Cell) (m : Move) : Prop := {
  sm_cells : moveCells m ≠ [];
  sm_nodup : NoDup (moveCells m);
  sm_id : is_Some (moveBlockId m);
  sm_color : moveColor m ≠ COLOR_BACKGROUND v;
  sm_down : 0 < dropDistance m;
  sm_source : ∀ p, p ∈ moveCells m → carries g (moveBlockId m) p;
  sm_target : ∀ p, p ∈ moveCells m →
    onBoard (p.1, p.2 + dropDistance m) ∧
    ∃ c, cellAt g (p.1, p.2 + dropDistance m) = Some c ∧ isEmptyCell v c = true;
  sm_origin : ∃ x y cell,
    onBoard (x, y) ∧ cellAt g (x, y) = Some cell ∧ isEmptyCell v cell = false ∧
    blockId cell = moveBlockId m ∧ color cell = moveColor m ∧
    Collected g (moveBlockId m) (x, y) (moveCells m);
}.

(** The grid [g'] is [g] after the moves, each safe when it is made. *)
Inductive Replay (v : SourceFile) : list Cell → list Move → list Cell → Prop :=
| replay_nil g : Replay v g [] g
| replay_cons g m ms g' :
    SafeMove v g m → Replay v (applyMove v m g) ms g' → Replay v g (m :: ms) g'.

(** The order in which a sweep of [applyGravity] visits the board: rows
    from the bottom up, columns from the left. *)
Definition scanOrder : list pos :=
  y ← reverse (seqZ 0 HEIGHT); x ← seqZ 0 WIDTH; [(x, y)].

(** The block with id [bid], found from one of its cells, cannot go down
    one row. *)
Definition StuckId (v : SourceFile) (g : list Cell) (bid : nat) : Prop :=
  ∃ x y cells,
    carries g (Some bid) (x, y) ∧
    collectBlockCells g x y (Some bid) = Ok cells ∧
    Collected g (Some bid) (x, y) cells ∧
    ¬ landsFree v g cells 1.

(** The invariant of a sweep started on [g0] with the moves [ms0], after
    the positions [seen] were visited. *)
Record SweepInv (v : SourceFile) (collect : bool) (g0 : list Cell) (ms0 : list Move)
    (seen : list pos) (sw : Sweep) : Prop := {
  si_ok : gridOk (swGrid sw);
  si_log : ∃ log,
    Replay v g0 log (swGrid sw) ∧
    swMoves sw = (if collect then ms0 ++ log else ms0) ∧
    (swMoved sw = true ↔ log ≠ []);
  si_still : swMoved sw = false →
    (∀ bid, bid ∈ swProcessed sw → StuckId v g0 bid) ∧
    (∀ p cell bid, p ∈ seen → cellAt g0 p = Some cell →
       isEmptyCell v cell = false → blockId cell = Some bid → bid ∈ swProcessed sw);
}.

(** Every id labels one connected block: the flood fill from a cell that
    carries an id reaches every cell that carries it. *)
Definition blocksConnected (g : list Cell) : Prop :=
  ∀ bid x y q cells,
    carries g (Some bid) (x, y) → carries g (Some bid) q →
    collectBlockCells g x y (Some bid) = Ok cells → q ∈ cells.

(** No block of the grid can go down: this is what a sweep without move
    establishes. *)
Definition Settled (v : SourceFile) (g : list Cell) : Prop :=
  ∀ p cell bid, onBoard p → cellAt g p = Some cell →
    isEmptyCell v cell = false → blockId cell = Some bid → StuckId v g bid.

(** [overhangBoard] with block 3, one cell, afloat in row 10 above the
    overhang. *)
Definition floatingBoard (v : SourceFile) : list Cell :=
  emptyRows v 10 ++ rowOf v [0; 0; 0; 0; 3; 0; 0; 0; 0; 0]%nat ++ emptyRows v 7
    ++ rowOf v [0; 0; 2; 2; 2; 2; 0; 0; 0; 0]%nat
    ++ rowOf v [1; 1; 1; 1; 0; 0; 0; 0; 0; 0]%nat.

(** The cells of row [y], and whether all of them hold a colour. *)
Definition rowCells (y : Z) : list pos := (λ x, (x, y)) <$> seqZ 0 WIDTH.

Definition rowFullb (v : SourceFile) (g : list Cell) (y : Z) : bool :=
  forallb (λ x, match cellAt g (x, y) with
                | Some c => negb (isEmptyCell v c)
                | None => false
                end) (seqZ 0 WIDTH).

(** Number of full rows among the rows [0], ..., [n - 1]. *)
Definition fullRowsBelow (v : SourceFile) (g : list Cell) (n : Z) : Z :=
  Z.of_nat (length (filter (λ y, rowFullb v g y = true) (seqZ 0 n))).

(** The globals that the board functions ([moveBlocksUp], [applyGravity],
    [clearFullLines], the unanimated [settleBoard]) leave alone. *)
Definition sameControl (s s' : State) : Prop :=
  selectedBlock s' = selectedBlock s ∧ nextRow s' = nextRow s ∧
  selectionMoved s' = selectionMoved s ∧ fallingAnimation s' = fallingAnimation s ∧
  blockCounter s' = blockCounter s ∧ randomTape s' = randomTape s ∧
  randomCalls s' = randomCalls s.

(** The turns of the loop of the unanimated [settleBoard]: gravity, then a
    line clear; the list holds the numbers of lines cleared by the turns that
    cleared some, and the loop ends with the first turn that clears none. *)
Inductive SettlePasses (v : SourceFile) : State → list Z → State → Prop :=
| passes_done s mv ms s1 s2 :
    applyGravity v false s = Ok (mv, ms, s1) →
    clearFullLines v s1 = Ok (0, s2) →
    SettlePasses v s [] s2
| passes_more s mv ms s1 n s2 ns s3 :
    applyGravity v false s = Ok (mv, ms, s1) →
    clearFullLines v s1 = Ok (n, s2) → n ≠ 0 →
    SettlePasses v s2 ns s3 →
    SettlePasses v s (n :: ns) s3.

(** Block 3 floats above the three free cells of the bottom row. *)
Definition clearingBoard (v : SourceFile) : list Cell :=
  emptyRows v 10 ++ rowOf v [0; 0; 0; 0; 0; 0; 0; 3; 3; 3]%nat ++ emptyRows v 8
    ++ rowOf v [1; 1; 1; 1; 2; 2; 2; 0; 0; 0]%nat.

(** The state in which [rowWouldClearLines] runs its simulation. *)
Definition suspended (s : State) : State :=
  setFallingAnimation None (setSelectedBlock None (setHoveredBlock None s)).

(** A board whose bottom row holds block 3 on columns 7-9, and a row that
    fills the other seven columns: inserted under the board, it is completed
    by block 3 and cleared. *)
Definition probeBoard (v : SourceFile) : list Cell :=
  emptyRows v 19 ++ rowOf v [0; 0; 0; 0; 0; 0; 0; 3; 3; 3]%nat.

Definition clearingRow (v : SourceFile) : list Cell :=
  rowOf v [4; 4; 4; 4; 5; 5; 5; 0; 0; 0]%nat.

(** A tape of [Math.random()]: by turns 0 and 3/4 for the first 76 calls,
    which makes 19 rows like [clearingRow]; then 0 twice and 3/4 for ever,
    which makes a row with one coloured cell, in column 0. *)
Definition threeQuarters : unitInterval :=
  exist _ (3 # 4)%Q
    (conj (λ H : (0 * 4 ?= 3 * 1) = Gt, eq_ind Lt (λ c, if c is Gt then False else True) I _ H)
          (eq_refl : (3 # 4 < 1)%Q)).

Definition rerollTape : nat → unitInterval := λ n,
  if (n <? 76)%nat then (if Nat.even n then zeroUnit else threeQuarters)
  else if (n <? 78)%nat then zeroUnit else threeQuarters.

Definition rerollState : State :=
  mkState (probeBoard IndexJs) 0 None None 0 (Some (clearingRow IndexJs)) false None 5
    rerollTape 0.

(** ** The event loop *)

(** What the browser delivers: the pointer events, with the pointer position
    computed by [getPointerPosition], and the animation frames. *)
Inductive Event :=
| MouseDown (button : Z) (pointer : Q * Q)
| MouseMove (pointer : Q * Q) (overCanvas : bool)
| MouseLeave
| MouseUp
| Frame (timestamp : Q).

(** The listeners: [mousedown], [mousemove] and [mouseleave] on the canvas,
    [mousemove] and [mouseup] on the window, and [render] for a frame. *)
Definition handleEvent (v : SourceFile) (e : Event) (s : State) : result State :=
  match e with
  | MouseDown button pointer => trySelectBlock v button pointer s
  | MouseMove pointer overCanvas =>
    s ← (if overCanvas then updateHoveredBlock v pointer s else Ok s);
    handleDrag v pointer s
  | MouseLeave => Ok (clearHover s)
  | MouseUp => handleMouseUp v s
  | Frame timestamp => render v timestamp s
  end.

(** The states of the globals between two listeners. *)
Inductive reachable (v : SourceFile) : State → Prop :=
| reach_boot tape s : bootstrap v tape = Ok s → reachable v s
| reach_step s e s' : reachable v s → handleEvent v e s = Ok s' → reachable v s'.

(** ** The invariant of the board *)

(** No cell of the grid carries [id]. *)
Definition absent (g : list Cell) (id : nat) : Prop := ∀ p, ¬ carries g (Some id) p.

(** The grid has its cells; a cell is empty exactly when it has no id; the
    ids are at most [bc]; the cells that carry one id are one stretch of one
    row. *)
Record BoardInv (v : SourceFile) (bc : nat) (g : list Cell) : Prop := {
  bi_ok : gridOk g;
  bi_cells : ∀ p c, onBoard p → cellAt g p = Some c →
    (isEmptyCell v c = true ↔ blockId c = None);
  bi_ids : ∀ p id, carries g (Some id) p → (id ≤ bc)%nat;
  bi_row : ∀ id p q, carries g (Some id) p → carries g (Some id) q → p.2 = q.2;
  bi_run : ∀ id p q x, carries g (Some id) p → carries g (Some id) q →
    p.1 ≤ x ≤ q.1 → carries g (Some id) (x, p.2);
}.

(** The cells of a block: at least one cell, all in one row, without a gap. *)
Record BlockShape (cells : list pos) : Prop := {
  bs_cells : cells ≠ [];
  bs_row : sameRow cells;
  bs_run : ∀ p q x, p ∈ cells → q ∈ cells → p.1 ≤ x ≤ q.1 → (x, p.2) ∈ cells;
}.

(** [g'] is [g] with whole blocks emptied. *)
Definition Emptied (v : SourceFile) (g g' : list Cell) : Prop :=
  gridOk g' ∧
  ∀ p, onBoard p →
    cellAt g' p = cellAt g p ∨
    (cellAt g' p = Some (emptyCell v) ∧
     ∀ id q, carries g (Some id) p → carries g (Some id) q →
             cellAt g' q = Some (emptyCell v)).

(** A preview row made with the ids from [bc0] (excluded) to [bc]: its
    cells are empty without id or coloured with one of these ids, and the
    cells with one id are a stretch of the row. *)
Record RowOk (v : SourceFile) (bc0 bc : nat) (row : list Cell) : Prop := {
  ro_mono : (bc0 ≤ bc)%nat;
  ro_length : Z.of_nat (length row) = WIDTH;
  ro_cells : ∀ k c, row !! k = Some c →
    (blockId c = None ∧ color c = COLOR_BACKGROUND v) ∨
    (∃ id, blockId c = Some id ∧ color c ≠ COLOR_BACKGROUND v ∧ (bc0 < id ≤ bc)%nat);
  ro_runs : ∀ id (i j k : nat),
    hasId row i id → hasId row j id → (i ≤ k ≤ j)%nat → hasId row k id;
}.

(** What the board functions do to the grid: they keep its size, add no
    used cell and keep the invariant of the board. *)
Definition gridStep (v : SourceFile) (g g' : list Cell) : Prop :=
  gridOk g' ∧ usedCells v g' ≤ usedCells v g ∧
  ∀ bc0, BoardInv v bc0 g → BoardInv v bc0 g'.

(** ** The invariant of the globals *)

(** The board and the preview row: the ids of the board are at most [bc0],
    the ids of the preview row are above [bc0], and the counter is beyond
    both. *)
Record CoreOf (v : SourceFile) (bc0 : nat) (g : list Cell) (bc : nat)
    (next : option (list Cell)) : Prop := {
  core_counter : (bc0 ≤ bc)%nat;
  core_board : BoardInv v bc0 g;
  core_next : ∀ row, next = Some row → RowOk v bc0 bc row;
}.

Definition Core (v : SourceFile) (s : State) : Prop :=
  ∃ bc0, CoreOf v bc0 (grid s) (blockCounter s) (nextRow s).

(** No block is held and no animation runs. *)
Definition Idle (s : State) : Prop :=
  selectedBlock s = None ∧ fallingAnimation s = None.

(** No block is off the grid: none is held, and the animation, if any, has
    no placement to finish. *)
Definition Quiet (v : SourceFile) (s : State) : Prop :=
  Core v s ∧ selectedBlock s = None ∧
  ∀ a, fallingAnimation s = Some a → finalize a = None.

(** The held block: its id is off the grid, its base cells are a stretch of
    a row, and it hovers, shifted by its offset, over empty cells of the
    board. *)
Record Held (v : SourceFile) (bc0 : nat) (g : list Cell) (sel : Selection) : Prop := {
  held_id : ∃ id, selBlockId sel = Some id ∧ (id ≤ bc0)%nat ∧ absent g id;
  held_color : selColor sel ≠ COLOR_BACKGROUND v;
  held_shape : BlockShape (baseCells sel);
  held_rows : rowsOk (baseCells sel);
  held_place : placeable v g (baseCells sel) (offset sel);
  held_cells : selCells sel = (λ '(x, y), (x + offset sel, y)) <$> baseCells sel;
}.

(** The placement that the animation of a released block has to finish:
    the block is still off the grid, and the cells it is to be written to
    are empty cells of the board. *)
Record Pending (v : SourceFile) (bc0 : nat) (g : list Cell) (f : Finalize) : Prop := {
  pend_id : ∃ id, finBlockId f = Some id ∧ (id ≤ bc0)%nat ∧ absent g id;
  pend_color : finColor f ≠ COLOR_BACKGROUND v;
  pend_shape : BlockShape (finCells f);
  pend_free : ∀ p, p ∈ finCells f →
    onBoard (p.1, p.2 + finDrop f) ∧
    ∃ c, cellAt g (p.1, p.2 + finDrop f) = Some c ∧ isEmptyCell v c = true;
}.

(** The invariant of the globals between two listeners. *)
Definition Inv (v : SourceFile) (s : State) : Prop :=
  ∃ bc0,
    CoreOf v bc0 (grid s) (blockCounter s) (nextRow s) ∧
    (∀ sel, selectedBlock s = Some sel →
       fallingAnimation s = None ∧ Held v bc0 (grid s) sel) ∧
    (∀ a f, fallingAnimation s = Some a → finalize a = Some f → Pending v bc0 (grid s) f).

(** A session: the script body, then the listeners on the events in turn. *)
Definition play (v : SourceFile) (tape : nat → unitInterval) (events : list Event)
  : result State :=
  s ← bootstrap v tape; forEachM (handleEvent v) events s.

(** A tape of [Math.random()]: 0 and 3/4 by turns, which makes every row a
    block of four cells and a block of three, then three empty cells. *)
Definition alternatingTape : nat → unitInterval := λ n,
  if Nat.even n then zeroUnit else threeQuarters.

(** The three-cell block of the top row is picked up, dragged three columns
    to the right and released; it falls four rows and completes the bottom
    row.  The last frame ends the fall: the block is written, the bottom row
    is cleared, and the blocks above start to fall. *)
Definition playedEvents : list Event :=
  [MouseDown 0 (pointerAt 4 15); MouseMove (pointerAt 7 15) true; MouseUp;
   Frame 0; Frame 1000].

Definition playedState : State :=
  match play IndexJs alternatingTape playedEvents with
  | Ok s => s
  | _ => initialState IndexJs alternatingTape
  end.

(** More values of [Math.random()], and a tape given by its first values;
    it returns 3/4, which selects the background colour, from then on. *)
Definition oneHalf : unitInterval :=
  exist _ (1 # 2)%Q
    (conj (λ H : (0 * 2 ?= 1 * 1) = Gt, eq_ind Lt (λ c, if c is Gt then False else True) I _ H)
          (eq_refl : (1 # 2 < 1)%Q)).

Definition oneQuarter : unitInterval :=
  exist _ (1 # 4)%Q
    (conj (λ H : (0 * 4 ?= 1 * 1) = Gt, eq_ind Lt (λ c, if c is Gt then False else True) I _ H)
          (eq_refl : (1 # 4 < 1)%Q)).

Definition tapeOf (l : list unitInterval) : nat → unitInterval :=
  λ n, nth n l threeQuarters.

(** The rows of the script body, first to last: two empty rows, block 1 on
    column 0, block 2 on columns 0-2, block 3 on columns 0-1.  Block 2 rests
    on block 3 and overhangs column 2; block 1 rests on block 2. *)
Definition overhangTape : nat → unitInterval :=
  tapeOf (replicate 6 threeQuarters ++ replicate 6 threeQuarters
          ++ [zeroUnit; zeroUnit] ++ replicate 6 threeQuarters
          ++ [zeroUnit; oneHalf] ++ replicate 4 threeQuarters
          ++ [zeroUnit; oneQuarter] ++ replicate 4 threeQuarters).

(** Block 1 is picked up and dragged two columns to the right, above the
    overhang. *)
Definition overhangEvents : list Event :=
  [MouseDown 0 (pointerAt 0 17); MouseMove (pointerAt 2 17) true].

(** The three-cell block of the top row is picked up, dragged one column to
    the right and back. *)
Definition returnTripEvents : list Event :=
  [MouseDown 0 (pointerAt 4 15); MouseMove (pointerAt 5 15) true;
   MouseMove (pointerAt 4 15) true].

(** The first row of the script body holds block 1 on columns 7-9; the next
    20 rows generated hold a block on columns 0-3 and one on columns 4-6, and
    the row after them a single cell in column 0. *)
Definition stubbornTape : nat → unitInterval := λ n,
  if (n <? 6)%nat then
    nth n [threeQuarters; threeQuarters; threeQuarters; oneHalf; zeroUnit; threeQuarters]
      zeroUnit
  else if (n <? 86)%nat then (if Nat.even n then zeroUnit else threeQuarters)
  else if (n <? 88)%nat then zeroUnit else threeQuarters.

(** States of a session with [alternatingTape]: after the script body; with
    the three-cell block of the top row held three columns to the right; and
    with that block released and falling. *)
Definition settledState : State :=
  match play IndexJs alternatingTape [] with
  | Ok s => s
  | _ => initialState IndexJs alternatingTape
  end.

Definition heldEvents : list Event :=
  [MouseDown 0 (pointerAt 4 15); MouseMove (pointerAt 7 15) true].

Definition heldState : State :=
  match play IndexJs alternatingTape heldEvents with
  | Ok s => s
  | _ => initialState IndexJs alternatingTape
  end.

Definition fallingState : State :=
  match play IndexJs alternatingTape (heldEvents ++ [MouseUp]) with
  | Ok s => s
  | _ => initialState IndexJs alternatingTape
  end.

(** From [s] to [s'] the score, the count of rows spawned and the counter
    of ids have not gone back, and the preview row, once there, has not been
    taken away. *)
Definition Advances (s s' : State) : Prop :=
  score s ≤ score s' ∧ topLine s ≤ topLine s' ∧ (blockCounter s ≤ blockCounter s')%nat ∧
  (is_Some (nextRow s) → is_Some (nextRow s')).

(** The animation, if any, has at most one continuation, and none next to
    a placement to finish. *)
Definition Single (s : State) : Prop :=
  ∀ a, fallingAnimation s = Some a →
    (length (after a) ≤ 1)%nat ∧ (is_Some (finalize a) → after a = []).

(** ** Cell margins and draw rectangles of the restyled twin

    [part_000] draws a cell inside its square of [CELL_SIZE] pixels, at a
    margin from each side that is 0 toward a cell of the same block.  These
    functions are not in [index.js].

    - The margins and the sizes of a rectangle are integers.  The cell
      coordinates given to [computeDrawRect] are integers but for the row of
      a cell of a running animation, so they are rationals.
    - A [Set] of cell keys is the list of its cells in insertion order, as
      in [collectBlockCells].
    - The canvas calls of [strokeRectWithMargins] are the list of the
      segments of the path it strokes, each from its [moveTo] to its
      [lineTo]; the list is empty when nothing is stroked. *)

Definition CELL_MARGIN : Z := 4.

Record Margins := mkMargins {
  marginLeft : Z;
  marginRight : Z;
  marginTop : Z;
  marginBottom : Z;
}.

Record Rect := mkRect { rectX : Q; rectY : Q; rectWidth : Z; rectHeight : Z }.

Definition defaultCellMargins : Margins :=
  mkMargins CELL_MARGIN CELL_MARGIN CELL_MARGIN CELL_MARGIN.

(** The arrow function [isSameBlockNeighbor] of [computeGridCellMargins];
    [cell] is the variable it closes over. *)
Definition isSameBlockNeighbor (g : list Cell) (cell : Cell) (neighborX neighborY : Z) : bool :=
  if bool_decide (neighborX < 0) || bool_decide (neighborX >= WIDTH) ||
     bool_decide (neighborY < 0) || bool_decide (neighborY >= HEIGHT) then false else
  match arrayGet g (idx neighborX neighborY) with
  | None => false
  | Some neighbor =>
    if isEmptyCell Part000 neighbor || bool_decide (blockId neighbor = None) then false
    else bool_decide (blockId neighbor = blockId cell)
  end.

Definition computeGridCellMargins (g : list Cell) (x y : Z) : Margins :=
  match arrayGet g (idx x y) with
  | None => defaultCellMargins
  | Some cell =>
    if isEmptyCell Part000 cell || bool_decide (blockId cell = None) then defaultCellMargins
    else
      mkMargins
        (if isSameBlockNeighbor g cell (x - 1) y then 0 else CELL_MARGIN)
        (if isSameBlockNeighbor g cell (x + 1) y then 0 else CELL_MARGIN)
        (if isSameBlockNeighbor g cell x (y - 1) then 0 else CELL_MARGIN)
        (if isSameBlockNeighbor g cell x (y + 1) then 0 else CELL_MARGIN)
  end.

Definition computeDrawRect (cellX cellY : Q) (margins : Margins) : Rect :=
  mkRect
    (cellX * inject_Z CELL_SIZE + inject_Z (marginLeft margins))%Q
    (cellY * inject_Z CELL_SIZE + inject_Z (marginTop margins))%Q
    (Z.max 0 (CELL_SIZE - marginLeft margins - marginRight margins))
    (Z.max 0 (CELL_SIZE - marginTop margins - marginBottom margins)).

Abbreviation Segment := ((Q * Q) * (Q * Q))%type.

Definition strokeRectWithMargins (rect : Rect) (margins : Margins) : list Segment :=
  if bool_decide (rectWidth rect ≤ 0) || bool_decide (rectHeight rect ≤ 0) then [] else
  let x0 := rectX rect in
  let y0 := rectY rect in
  let x1 := (rectX rect + inject_Z (rectWidth rect))%Q in
  let y1 := (rectY rect + inject_Z (rectHeight rect))%Q in
  (if bool_decide (marginTop margins > 0) then [((x0, y0), (x1, y0))] else []) ++
  (if bool_decide (marginRight margins > 0) then [((x1, y0), (x1, y1))] else []) ++
  (if bool_decide (marginBottom margins > 0) then [((x1, y1), (x0, y1))] else []) ++
  (if bool_decide (marginLeft margins > 0) then [((x0, y1), (x0, y0))] else []).

(** [offset] is [None] when the argument is left out or null; every caller
    gives an array for [cells]. *)
Definition cellSetFromCells (cells : list pos) (offset : option pos) : list pos :=
  let offsetX := match offset with Some o => o.1 | None => 0 end in
  let offsetY := match offset with Some o => o.2 | None => 0 end in
  foldl (λ set '(x, y),
           let key := (x + offsetX, y + offsetY) in
           if bool_decide (key ∈ set) then set else set ++ [key]) [] cells.

(** [cellSet] is [None] for [undefined], the value of a [Map] without the
    key. *)
Definition computeMarginsForCellInSet (cell : pos) (cellSet : option (list pos)) : Margins :=
  match cellSet with
  | None => defaultCellMargins
  | Some set =>
    if bool_decide (length set = 0%nat) then defaultCellMargins else
    let hasNeighbor (dx dy : Z) := bool_decide ((cell.1 + dx, cell.2 + dy) ∈ set) in
    mkMargins
      (if hasNeighbor (-1) 0 then 0 else CELL_MARGIN)
      (if hasNeighbor 1 0 then 0 else CELL_MARGIN)
      (if hasNeighbor 0 (-1) then 0 else CELL_MARGIN)
      (if hasNeighbor 0 1 then 0 else CELL_MARGIN)
  end.

(** The state of the restyled twin after the script body, with
    [alternatingTape]: the five rows hold a block on columns 0-3 and a block
    on columns 4-6. *)
Definition restyledState : State :=
  match play Part000 alternatingTape [] with
  | Ok s => s
  | _ => initialState Part000 alternatingTape
  end.

(** * Properties *)

(** ** The [result] monad and the loops *)

Lemma bind_Ok {A B} (m : result A) (f : A → result B) r :
  (m ≫= f) = Ok r ↔ ∃ a, m = Ok a ∧ f a = Ok r.
Proof.
  destruct m; simpl; split; try (intros [? [? ?]]); try discriminate; eauto.
  intros; simplify_eq. done.
Qed.

Lemma forEachM_app {A S} (body : A → S → result S) l1 l2 s :
  forEachM body (l1 ++ l2) s = (forEachM body l1 s ≫= forEachM body l2).
Proof.
  revert s. induction l1 as [|a l1 IH]; intros s; simpl; [done|].
  destruct (body a s); simpl; auto.
Qed.

(** Invariant rule for [forEachM]: [P] holds of the elements still to visit
    and the state. *)
Lemma forEachM_inv {A S} (P : list A → S → Prop) (body : A → S → result S) l s :
  P l s →
  (∀ a rest s, P (a :: rest) s → ∃ s', body a s = Ok s' ∧ P rest s') →
  ∃ s', forEachM body l s = Ok s' ∧ P [] s'.
Proof.
  intros HP Hstep. revert s HP. induction l as [|a l IH]; intros s HP; simpl.
  - eauto.
  - destruct (Hstep _ _ _ HP) as (s' & -> & HP'). simpl. auto.
Qed.

Lemma forZ_inv {S} (P : Z → S → Prop) (body : Z → S → result S) lo hi s :
  lo ≤ hi →
  P lo s →
  (∀ i s, lo ≤ i < hi → P i s → ∃ s', body i s = Ok s' ∧ P (i + 1) s') →
  ∃ s', forZ lo hi body s = Ok s' ∧ P hi s'.
Proof.
  intros Hle HP Hstep. unfold forZ.
  destruct (forEachM_inv
    (λ rest s, ∃ i, lo ≤ i ≤ hi ∧ rest = seqZ i (hi - i) ∧ P i s) body
    (seqZ lo (hi - lo)) s) as (s' & Hrun & i & Hi & Hnil & HPi).
  - exists lo. split; [lia|done].
  - intros a rest s0 (i & Hi & Heq & HPi).
    destruct (decide (i < hi)) as [Hlt|Hge].
    + rewrite seqZ_cons in Heq by lia. simplify_eq.
      destruct (Hstep i s0) as (s' & Hb & HP'); [lia|done|].
      exists s'. split; [done|]. exists (i + 1). split; [lia|].
      split; [|done]. f_equal; lia.
    + rewrite seqZ_nil in Heq by lia. done.
  - exists s'. split; [done|].
    assert (i = hi) as ->; [|done].
    destruct (decide (i < hi)); [|lia].
    rewrite seqZ_cons in Hnil by lia. done.
Qed.

(** ** Arrays *)

Lemma arrayGet_Some {A} (a : list A) i c :
  arrayGet a i = Some c ↔ 0 ≤ i ∧ a !! Z.to_nat i = Some c.
Proof. unfold arrayGet. case_bool_decide; [tauto|]. split; [done|]. tauto. Qed.

Lemma arrayGet_nat {A} (a : list A) (k : nat) : arrayGet a (Z.of_nat k) = a !! k.
Proof. unfold arrayGet. rewrite bool_decide_eq_true_2 by lia. by rewrite Nat2Z.id. Qed.

Lemma arraySet_Ok {A} (a : list A) i c :
  0 ≤ i < Z.of_nat (length a) → arraySet a i c = Ok (<[Z.to_nat i := c]> a).
Proof. intros. unfold arraySet. by rewrite bool_decide_eq_true_2. Qed.

Lemma arraySet_inv {A} (a a' : list A) i c :
  arraySet a i c = Ok a' → 0 ≤ i < Z.of_nat (length a) ∧ a' = <[Z.to_nat i := c]> a.
Proof. unfold arraySet. case_bool_decide; [|done]. intros [= <-]. done. Qed.

(** ** Row generation *)

Lemma floorTimes_range (u : unitInterval) (n : Z) : 0 < n → 0 ≤ floorTimes u n < n.
Proof.
  intros Hn. destruct u as [q [H0 H1]]. unfold floorTimes. cbn [proj1_sig].
  split.
  - rewrite <- (Qfloor_Z 0). apply Qfloor_resp_le.
    apply Qmult_le_0_compat; [done|]. change 0%Q with (inject_Z 0). rewrite <- Zle_Qle. lia.
  - assert (inject_Z (Qfloor (q * inject_Z n)) < inject_Z n)%Q as Hlt.
    { eapply Qle_lt_trans; [apply Qfloor_le|].
      rewrite <- (Qmult_1_l (inject_Z n)) at 2.
      apply Qmult_lt_compat_r; [|done]. change 0%Q with (inject_Z 0). rewrite <- Zlt_Qlt. lia. }
    rewrite <- Zlt_Qlt in Hlt. lia.
Qed.

Lemma colors_lookup v (k : Z) :
  0 ≤ k < Z.of_nat (length (colors v)) → ∃ c, arrayGet (colors v) k = Some c.
Proof.
  intros Hk. unfold arrayGet. rewrite bool_decide_eq_true_2 by lia.
  apply lookup_lt_is_Some. lia.
Qed.

Lemma filledCount_app v p q : filledCount v (p ++ q) = filledCount v p + filledCount v q.
Proof. unfold filledCount. rewrite filter_app, length_app. lia. Qed.

Lemma filledCount_replicate_empty v n : filledCount v (replicate n (emptyCell v)) = 0.
Proof.
  unfold filledCount. induction n as [|n IH]; [done|]. simpl.
  rewrite filter_cons_False; [done|].
  unfold isEmptyCell, emptyCell. simpl. rewrite bool_decide_eq_true_2; done.
Qed.

Lemma filledCount_replicate_block v n c bid :
  c ≠ COLOR_BACKGROUND v → filledCount v (replicate n (makeCell c bid)) = Z.of_nat n.
Proof.
  intros Hc. unfold filledCount. f_equal. induction n as [|n IH]; [done|]. simpl.
  rewrite filter_cons_True; [simpl; by rewrite IH|].
  unfold isEmptyCell. simpl. by rewrite bool_decide_eq_false_2.
Qed.

Lemma hasId_app_l p q k id : (k < length p)%nat → hasId (p ++ q) k id ↔ hasId p k id.
Proof. intros. unfold hasId. by rewrite lookup_app_l. Qed.

Lemma hasId_lt p k id : hasId p k id → (k < length p)%nat.
Proof.
  unfold hasId. intros H. apply lookup_lt_is_Some.
  destruct (p !! k); [eauto|done].
Qed.

Lemma RowShape_nil v bc0 : RowShape v bc0 bc0 0 [].
Proof. split; [done|done| |done]. intros id ?. lia. Qed.

Lemma RowShape_gap v bc0 bc sp p n :
  RowShape v bc0 bc sp p → RowShape v bc0 bc sp (p ++ replicate n (emptyCell v)).
Proof.
  intros [Hc Hcells Hruns Hm]. split; [| | |done].
  - rewrite filledCount_app, filledCount_replicate_empty. lia.
  - intros k c Hk. apply lookup_app_Some in Hk as [Hk|[_ Hk]]; [eauto|].
    apply lookup_replicate in Hk as [-> _]. by left.
  - intros id Hid. destruct (Hruns id Hid) as (a & len & Hlen & Hiff).
    exists a, len. split; [done|]. intros k. rewrite <- Hiff.
    destruct (decide (k < length p)%nat) as [Hlt|Hge]; [by apply hasId_app_l|].
    split; [|by intros ?%hasId_lt].
    unfold hasId. rewrite lookup_app_r by lia. intros H.
    destruct (replicate n (emptyCell v) !! (k - length p)%nat) as [c|] eqn:E; [|done].
    apply lookup_replicate in E as [-> _]. done.
Qed.

Lemma RowShape_block v bc0 bc sp p n c :
  c ≠ COLOR_BACKGROUND v → (1 ≤ n ≤ 4)%nat →
  RowShape v bc0 bc sp p →
  RowShape v bc0 (S bc) (sp + Z.of_nat n) (p ++ replicate n (makeCell c (Some (S bc)))).
Proof.
  intros Hcol Hn [Hc Hcells Hruns Hm]. split; [| | |lia].
  - rewrite filledCount_app, filledCount_replicate_block by done. lia.
  - intros k c' Hk. apply lookup_app_Some in Hk as [Hk|[_ Hk]].
    + destruct (Hcells _ _ Hk) as [?|(id & ? & ? & ?)]; [by left|].
      right. exists id. split_and!; [done|done|lia|lia].
    + apply lookup_replicate in Hk as [-> _]. right. exists (S bc).
      split_and!; [done|done|lia|lia].
  - intros id Hid. destruct (decide (id = S bc)) as [->|Hne].
    + exists (length p), n. split; [done|]. intros k. unfold hasId.
      destruct (decide (k < length p)%nat) as [Hlt|Hge].
      * rewrite lookup_app_l by done. split; [|lia]. intros H.
        destruct (p !! k) as [c'|] eqn:E; [|done].
        simpl in H. destruct (Hcells _ _ E) as [[? ?]|(id & ? & ? & ?)]; [congruence|].
        assert (id = S bc) by congruence. lia.
      * rewrite lookup_app_r by lia.
        destruct (decide (k - length p < n)%nat) as [Hlt|Hge'].
        -- rewrite lookup_replicate_2 by done. simpl. split; [lia|done].
        -- rewrite (proj1 (lookup_replicate_None _ _ _)) by lia. simpl. split; [done|lia].
    + destruct (Hruns id ltac:(lia)) as (a & len & Hlen & Hiff).
      exists a, len. split; [done|]. intros k. rewrite <- Hiff.
      destruct (decide (k < length p)%nat) as [Hlt|Hge]; [by apply hasId_app_l|].
      split; [|by intros ?%hasId_lt].
      unfold hasId. rewrite lookup_app_r by lia. intros H.
      destruct (replicate n _ !! (k - length p)%nat) as [c'|] eqn:E; [|done].
      apply lookup_replicate in E as [-> _]. simpl in H. congruence.
Qed.

(** The inner [for] loop writes [n] copies of one cell from column [x] on. *)
Lemma fillSegment_spec (n : nat) (x i : Z) (cell : Cell) (row : list Cell) :
  0 ≤ x → 0 ≤ i → x + i + Z.of_nat n ≤ WIDTH → x + i + Z.of_nat n ≤ Z.of_nat (length row) →
  forEachM (λ bx row,
      if bool_decide (x + bx < WIDTH) then arraySet row (x + bx) cell else Ok row)
    (seqZ i (Z.of_nat n)) row
  = Ok (take (Z.to_nat (x + i)) row ++ replicate n cell
          ++ drop (Z.to_nat (x + i) + n) row).
Proof.
  revert i row. induction n as [|n IH]; intros i row Hx Hi Hw Hl.
  - simpl. rewrite Nat.add_0_r. by rewrite take_drop.
  - rewrite seqZ_cons by lia. cbn [forEachM].
    rewrite bool_decide_eq_true_2 by lia.
    rewrite arraySet_Ok by lia. simpl.
    replace (Z.pred (Z.of_nat (S n))) with (Z.of_nat n) by lia.
    rewrite IH; [|lia|lia|lia|rewrite length_insert; lia].
    f_equal.
    replace (Z.to_nat (x + Z.succ i)) with (S (Z.to_nat (x + i))) by lia.
    rewrite drop_insert_lt by lia.
    assert (Z.to_nat (x + i) < length row)%nat as Hlt by lia.
    rewrite (take_S_r _ _ cell).
    2:{ rewrite list_lookup_insert_eq; [done|lia]. }
    rewrite take_insert_ge by lia.
    rewrite <- app_assoc. simpl. do 4 f_equal. lia.
Qed.

Lemma generateLoop_spec v bc0 fuel : ∀ row spawned x s p,
  row = p ++ replicate (Z.to_nat (WIDTH - x)) (emptyCell v) →
  Z.of_nat (length p) = x → 0 ≤ x ≤ WIDTH → 0 ≤ spawned ≤ MAX_BLOCK_SPAWN →
  RowShape v bc0 (blockCounter s) spawned p →
  (Z.to_nat (WIDTH - x) < fuel)%nat →
  ∃ row' s' sp',
    generateLoop v fuel row spawned x s = Ok (row', s') ∧
    sp' ≤ MAX_BLOCK_SPAWN ∧
    RowShape v bc0 (blockCounter s') sp' row' ∧
    Z.of_nat (length row') = WIDTH ∧
    grid s' = grid s ∧ topLine s' = topLine s ∧ selectedBlock s' = selectedBlock s ∧
    hoveredBlock s' = hoveredBlock s ∧ score s' = score s ∧ nextRow s' = nextRow s ∧
    selectionMoved s' = selectionMoved s ∧ fallingAnimation s' = fallingAnimation s ∧
    randomTape s' = randomTape s.
Proof.
  induction fuel as [|fuel IH]; intros row spawned x s p Hrow Hlen Hx Hsp Hshape Hfuel; [lia|].
  assert (Z.of_nat (length row) = WIDTH) as Hrowlen.
  { subst row. rewrite length_app, length_replicate. lia. }
  cbn [generateLoop].
  destruct (bool_decide (x < WIDTH) && bool_decide (spawned < MAX_BLOCK_SPAWN)) eqn:Hcond.
  2:{ exists row, s, spawned. split_and!; try done; [lia|]. subst row. by apply RowShape_gap. }
  apply andb_true_iff in Hcond as [Hx1%bool_decide_eq_true Hs1%bool_decide_eq_true].
  set (maxLen := Z.min (Z.min 4 (MAX_BLOCK_SPAWN - spawned)) (WIDTH - x)).
  assert (1 ≤ maxLen ≤ 4 ∧ maxLen ≤ MAX_BLOCK_SPAWN - spawned ∧ maxLen ≤ WIDTH - x)
    as (Hm1 & Hm2 & Hm3) by (unfold maxLen; lia).
  rewrite bool_decide_eq_false_2 by lia.
  unfold mathRandom at 1. cbn beta iota.
  pose proof (floorTimes_range (randomTape s (randomCalls s))
                (Z.of_nat (length (colors v)))) as Hk.
  destruct (colors_lookup v (floorTimes (randomTape s (randomCalls s))
                               (Z.of_nat (length (colors v))))) as [c Hc].
  { apply Hk. destruct v; simpl; lia. }
  cbn [setRandomCalls randomTape randomCalls]. rewrite Hc. cbn [fromOption mbind result_mbind result_bind].
  unfold mathRandom. cbn beta iota. cbn [setRandomCalls randomTape randomCalls].
  set (u2 := randomTape s (S (randomCalls s))).
  pose proof (floorTimes_range u2 maxLen ltac:(lia)) as Hr.
  set (len := 1 + floorTimes u2 maxLen) in *.
  assert (1 ≤ len ≤ maxLen) as Hl by (unfold len; lia).
  destruct (bool_decide (c = COLOR_BACKGROUND v)) eqn:Hbg.
  - (* a gap *)
    apply bool_decide_eq_true in Hbg.
    replace (seqZ 0 len) with (seqZ 0 (Z.of_nat (Z.to_nat len))) by (f_equal; lia).
    rewrite fillSegment_spec by lia. cbn [mbind result_mbind result_bind].
    rewrite bool_decide_eq_false_2 by (intros ?; done).
    match goal with |- context [generateLoop v fuel ?r spawned (x + len) ?s1] =>
      destruct (IH r spawned (x + len) s1 (p ++ replicate (Z.to_nat len) (emptyCell v)))
        as (row' & s' & sp' & Hrun & ?) end.
    + subst row. rewrite Z.add_0_r.
      rewrite take_app_length' by lia.
      rewrite drop_app_ge by lia.
      rewrite <- app_assoc. f_equal. f_equal.
      rewrite drop_replicate. f_equal. lia.
    + rewrite length_app, length_replicate. lia.
    + lia.
    + lia.
    + simpl. by apply RowShape_gap.
    + lia.
    + exists row', s', sp'. split; [done|]. simpl in *. done.
  - (* a block *)
    apply bool_decide_eq_false in Hbg.
    unfold nextBlockId. cbn beta iota.
    replace (seqZ 0 len) with (seqZ 0 (Z.of_nat (Z.to_nat len))) by (f_equal; lia).
    rewrite fillSegment_spec by lia. cbn [mbind result_mbind result_bind].
    rewrite bool_decide_eq_true_2 by done.
    match goal with |- context [generateLoop v fuel ?r (spawned + len) (x + len) ?s1] =>
      destruct (IH r (spawned + len) (x + len) s1
                  (p ++ replicate (Z.to_nat len) (makeCell c (Some (S (blockCounter s))))))
        as (row' & s' & sp' & Hrun & ?) end.
    + subst row. rewrite Z.add_0_r.
      rewrite take_app_length' by lia.
      rewrite drop_app_ge by lia.
      rewrite <- app_assoc. f_equal. f_equal.
      rewrite drop_replicate. f_equal. lia.
    + rewrite length_app, length_replicate. lia.
    + lia.
    + lia.
    + simpl. replace (spawned + len) with (spawned + Z.of_nat (Z.to_nat len)) by lia.
      apply RowShape_block; [done|lia|done].
    + lia.
    + exists row', s', sp'. split; [done|]. simpl in *. done.
Qed.

Lemma hasId_arrayGet row (k : Z) id :
  blockId <$> arrayGet row k = Some (Some id) ↔ 0 ≤ k ∧ hasId row (Z.to_nat k) id.
Proof.
  unfold arrayGet, hasId. case_bool_decide; [tauto|]. simpl. split; [done|]. tauto.
Qed.

(** A maximal run with id [id] is the whole stretch labelled [id]. *)
Lemma isRun_stretch row a b id (a0 len : nat) :
  (1 ≤ len)%nat →
  (∀ k, hasId row k id ↔ (a0 ≤ k < a0 + len)%nat) →
  isRun row a b id ↔ a = Z.of_nat a0 ∧ b = Z.of_nat (a0 + len).
Proof.
  intros Hlen Hiff. split.
  - intros (Hab & Hb & Hin & Hlo & Hhi).
    assert (∀ k, (blockId <$> arrayGet row k = Some (Some id)) ↔
                 Z.of_nat a0 ≤ k < Z.of_nat (a0 + len)) as Hz.
    { intros k. rewrite hasId_arrayGet, Hiff. lia. }
    pose proof (proj1 (Hz a) (Hin a ltac:(lia))).
    pose proof (proj1 (Hz (b - 1)) (Hin (b - 1) ltac:(lia))).
    split.
    + destruct (decide (a = Z.of_nat a0)); [done|].
      exfalso. apply Hlo. apply Hz. lia.
    + destruct (decide (b = Z.of_nat (a0 + len))); [done|].
      exfalso. apply Hhi. apply Hz. lia.
  - intros [-> ->].
    assert (a0 + len ≤ length row)%nat.
    { pose proof (proj2 (Hiff (a0 + len - 1)%nat) ltac:(lia)) as H%hasId_lt. lia. }
    split_and!; [lia|lia|lia| | |].
    + intros k Hk. apply hasId_arrayGet. split; [lia|]. apply Hiff. lia.
    + rewrite hasId_arrayGet, Hiff. lia.
    + rewrite hasId_arrayGet, Hiff. lia.
Qed.

Lemma RowShape_runs v bc0 bc sp row :
  RowShape v bc0 bc sp row →
  (∀ a b id, isRun row a b id → 1 ≤ b - a ≤ 4 ∧ (bc0 < id ≤ bc)%nat) ∧
  (∀ a b a' b' id, isRun row a b id → isRun row a' b' id → a = a' ∧ b = b') ∧
  (∀ k c, arrayGet row k = Some c →
     (blockId c = None ∧ isEmptyCell v c = true) ∨
     (isEmptyCell v c = false ∧
      ∃ a b id, isRun row a b id ∧ a ≤ k < b ∧ blockId c = Some id)).
Proof.
  intros [Hc Hcells Hruns Hm].
  assert (∀ a b id, isRun row a b id → (bc0 < id ≤ bc)%nat) as Hfresh.
  { intros a b id (Hab & Hb & Hin & _).
    pose proof (Hin a ltac:(lia)) as [_ H]%hasId_arrayGet. unfold hasId in H.
    destruct (row !! Z.to_nat a) as [c|] eqn:E; [|done]. simpl in H.
    destruct (Hcells _ _ E) as [[? ?]|(id' & ? & ? & ?)]; [congruence|].
    assert (id' = id) by congruence. lia. }
  split_and!.
  - intros a b id Hrun. pose proof (Hfresh _ _ _ Hrun) as Hid. split; [|done].
    destruct (Hruns id Hid) as (a0 & len & Hlen & Hiff).
    apply (isRun_stretch row a b id a0 len) in Hrun as [-> ->]; [lia|lia|done].
  - intros a b a' b' id Hrun Hrun'. pose proof (Hfresh _ _ _ Hrun) as Hid.
    destruct (Hruns id Hid) as (a0 & len & Hlen & Hiff).
    apply (isRun_stretch row a b id a0 len) in Hrun as [-> ->]; [|lia|done].
    apply (isRun_stretch row a' b' id a0 len) in Hrun' as [-> ->]; [done|lia|done].
  - intros k c Hk. apply arrayGet_Some in Hk as [Hk0 Hk].
    destruct (Hcells _ _ Hk) as [[Hn Hcol]|(id & Hid & Hcol & Hrange)].
    + left. split; [done|]. unfold isEmptyCell. by rewrite bool_decide_eq_true_2.
    + right. split; [unfold isEmptyCell; by rewrite bool_decide_eq_false_2|].
      destruct (Hruns id Hrange) as (a0 & len & Hlen & Hiff).
      exists (Z.of_nat a0), (Z.of_nat (a0 + len)), id. split_and!; [|..|done].
      * apply (isRun_stretch row _ _ id a0 len); [lia|done|done].
      * assert (hasId row (Z.to_nat k) id) as H%Hiff; [|lia].
        unfold hasId. rewrite Hk. simpl. by rewrite Hid.
      * assert (hasId row (Z.to_nat k) id) as H%Hiff; [|lia].
        unfold hasId. rewrite Hk. simpl. by rewrite Hid.
Qed.

(** C6.  Whatever [Math.random()] returns, [generateNextRow] returns a row
    of [WIDTH] cells in which at most [MAX_BLOCK_SPAWN] cells are coloured,
    every maximal run of cells with one block id has one to four cells and
    an id allocated during the call, two different runs never share their
    id, and every cell outside the runs is empty and has no id. *)
Theorem generateNextRow_runs (v : SourceFile) (s : State) :
  ∃ row s',
    generateNextRow v s = Ok (row, s') ∧
    Z.of_nat (length row) = WIDTH ∧
    filledCount v row ≤ MAX_BLOCK_SPAWN ∧
    (∀ a b id, isRun row a b id →
       1 ≤ b - a ≤ 4 ∧ (blockCounter s < id ≤ blockCounter s')%nat) ∧
    (∀ a b a' b' id, isRun row a b id → isRun row a' b' id → a = a' ∧ b = b') ∧
    (∀ k c, arrayGet row k = Some c →
       (blockId c = None ∧ isEmptyCell v c = true) ∨
       (isEmptyCell v c = false ∧
        ∃ a b id, isRun row a b id ∧ a ≤ k < b ∧ blockId c = Some id)).
Proof.
  unfold generateNextRow.
  destruct (generateLoop_spec v (blockCounter s) (S (Z.to_nat WIDTH))
              (replicate (Z.to_nat WIDTH) (makeCell (COLOR_BACKGROUND v) None)) 0 0 s [])
    as (row & s' & sp & Hrun & Hsp & Hshape & Hlen & _).
  - simpl. done.
  - done.
  - unfold WIDTH; lia.
  - unfold MAX_BLOCK_SPAWN; lia.
  - apply RowShape_nil.
  - unfold WIDTH; lia.
  - exists row, s'. split; [done|]. split; [done|].
    split; [by rewrite (rs_count _ _ _ _ _ Hshape)|].
    by apply (RowShape_runs v _ _ sp).
Qed.

(** ** Release of the selection: [shouldSpawn] *)

Lemma trySelectBlock_moved s0 button pointer s1 :
  selectedBlock s0 = None →
  trySelectBlock IndexJs button pointer s0 = Ok s1 →
  is_Some (selectedBlock s1) →
  selectionMoved s1 = false ∧ selOffset s1 = Some 0.
Proof.
  intros Hnone Hsel Hsome. unfold trySelectBlock in Hsel.
  rewrite Hnone in Hsel.
  repeat match type of Hsel with
  | (if ?b then _ else _) = _ => destruct b
  | (_ ≫= _) = Ok _ => apply bind_Ok in Hsel as (? & ? & Hsel)
  | Ok _ = Ok _ => injection Hsel as <-
  end; simpl in *; try (rewrite Hnone in Hsome; by destruct Hsome); done.
Qed.

Lemma applyOffset_IndexJs_moved d s s1 :
  applyOffset IndexJs d s = Ok s1 →
  selectionMoved s1 = bool_decide (selOffset s1 ≠ selOffset s) || selectionMoved s.
Proof.
  unfold applyOffset, selOffset. destruct (selectedBlock s) as [sel|] eqn:Hs.
  2:{ intros [= <-]. rewrite Hs. simpl. done. }
  case_bool_decide.
  { intros [= <-]. rewrite Hs. by rewrite bool_decide_eq_false_2 by (intros ?; done). }
  intros (o & Ho & H')%bind_Ok. case_bool_decide.
  { injection H' as <-. rewrite Hs.
    by rewrite bool_decide_eq_false_2 by (intros ?; done). }
  injection H' as <-. simpl. rewrite bool_decide_eq_true_2; [done|]. congruence.
Qed.

Lemma applyOffset_Part000_moved d s s1 :
  applyOffset Part000 d s = Ok s1 → selectionMoved s1 = selectionMoved s.
Proof.
  unfold applyOffset. destruct (selectedBlock s) as [sel|]; [|by intros [= <-]].
  case_bool_decide; [by intros [= <-]|].
  intros (o & Ho & H')%bind_Ok. case_bool_decide; by injection H' as <-.
Qed.

Lemma dragRun_moved s drags moved s' :
  dragRun IndexJs s drags moved s' → selectionMoved s' = moved || selectionMoved s.
Proof.
  induction 1 as [|s d s1 ds b s2 Hd _ IH]; [done|].
  rewrite IH, (applyOffset_IndexJs_moved _ _ _ Hd).
  destruct b, (bool_decide _), (selectionMoved s); done.
Qed.

(** C1, as amended.  In the restyled file the flag of the placement is set
    exactly when the offset at release is not zero.  In [index.js] it is set
    exactly when some [applyOffset] call of the drag changed the offset; so
    it is set whenever the offset at release is not zero, and it stays set
    when the block was dragged away and back. *)
Theorem shouldSpawn_at_release (v : SourceFile) s0 button pointer s1 drags moved s sel p s' :
  selectedBlock s0 = None →
  trySelectBlock v button pointer s0 = Ok s1 →
  dragRun v s1 drags moved s →
  selectedBlock s = Some sel →
  dropSelectedBlock v s = Ok (Some p, s') →
  match v with
  | Part000 => shouldSpawn p = true ↔ offset sel ≠ 0
  | IndexJs => shouldSpawn p = moved ∧ (offset sel ≠ 0 → shouldSpawn p = true)
  end.
Proof.
  intros Hnone Hsel Hdrag Hs Hdrop.
  unfold dropSelectedBlock in Hdrop. rewrite Hs in Hdrop.
  apply bind_Ok in Hdrop as (d & _ & [= <- <-]).
  destruct v; cbn [shouldSpawn].
  - assert (is_Some (selectedBlock s1)) as Hsome.
    { clear -Hdrag Hs. induction Hdrag as [|s d s1 ds b s2 Hd _ IH]; [by eexists|].
      unfold applyOffset in Hd.
      destruct (selectedBlock s) eqn:E; [by eexists|]. injection Hd as <-.
      rewrite E in IH. by apply IH. }
    destruct (trySelectBlock_moved _ _ _ _ Hnone Hsel Hsome) as [Hm H0].
    rewrite (dragRun_moved _ _ _ _ Hdrag), Hm, orb_false_r. split; [done|].
    intros Hoff. destruct moved; [done|]. exfalso. apply Hoff.
    assert (selOffset s = selOffset s1) as Heq.
    { clear -Hdrag. remember false as b eqn:Hb.
      induction Hdrag as [|s d s1 ds b s2 Hd _ IH]; [done|].
      apply orb_false_iff in Hb as [Hb1 ->]. rewrite IH by done.
      apply bool_decide_eq_false in Hb1. by apply dec_stable in Hb1. }
    rewrite H0 in Heq. unfold selOffset in Heq. rewrite Hs in Heq. by injection Heq.
  - rewrite bool_decide_eq_true. done.
Qed.

(** Block 1 of [dragBoard] is picked up, dragged by one column and back,
    and released. *)
Example return_trip_run :
  ∃ s1 s2 s3 sel p s',
    trySelectBlock IndexJs 0 (pointerAt 0 19) (dragBoard IndexJs) = Ok s1 ∧
    applyOffset IndexJs 1 s1 = Ok s2 ∧
    applyOffset IndexJs 0 s2 = Ok s3 ∧
    selOffset s2 = Some 1 ∧
    selectedBlock s3 = Some sel ∧
    offset sel = 0 ∧
    dropSelectedBlock IndexJs s3 = Ok (Some p, s') ∧
    shouldSpawn p = true.
Proof.
  do 6 eexists.
  split; [vm_compute; reflexivity|].
  split; [vm_compute; reflexivity|].
  split; [vm_compute; reflexivity|].
  split; [vm_compute; reflexivity|].
  split; [vm_compute; reflexivity|].
  split; [vm_compute; reflexivity|].
  split; vm_compute; reflexivity.
Qed.

(** C1 fails for [index.js]: released at offset 0 after a return trip, the
    block still carries the flag. *)
Lemma shouldSpawn_after_return_trip : ¬ spawnFlagFollowsFinalOffset IndexJs.
Proof.
  intros H.
  destruct return_trip_run as (s1 & s2 & s3 & sel & p & s' & H1 & H2 & H3 & _ & Hs & Ho & Hd & Hp).
  apply (proj1 (H (dragBoard IndexJs) 0 (pointerAt 0 19) s1 [1; 0] _ s3 sel p s'
                 eq_refl H1
                 (dragRun_cons _ _ _ _ _ _ _ H2
                    (dragRun_cons _ _ _ _ _ _ _ H3 (dragRun_nil _ _)))
                 Hs Hd) Hp Ho).
Qed.

(** The hypotheses of [shouldSpawn_at_release] hold of that run. *)
Lemma shouldSpawn_at_release_witness :
  ∃ s1 moved s sel p s',
    selectedBlock (dragBoard IndexJs) = None ∧
    trySelectBlock IndexJs 0 (pointerAt 0 19) (dragBoard IndexJs) = Ok s1 ∧
    dragRun IndexJs s1 [1; 0] moved s ∧
    selectedBlock s = Some sel ∧
    dropSelectedBlock IndexJs s = Ok (Some p, s') ∧
    shouldSpawn p = moved ∧ (offset sel ≠ 0 → shouldSpawn p = true).
Proof.
  destruct return_trip_run as (s1 & s2 & s3 & sel & p & s' & H1 & H2 & H3 & _ & Hs & Ho & Hd & Hp).
  pose proof (dragRun_cons _ _ _ _ _ _ _ H2
                (dragRun_cons _ _ _ _ _ _ _ H3 (dragRun_nil _ _))) as Hrun.
  eexists s1, _, s3, sel, p, s'.
  split; [reflexivity|]. split; [exact H1|]. split; [exact Hrun|].
  split; [exact Hs|]. split; [exact Hd|].
  exact (shouldSpawn_at_release IndexJs (dragBoard IndexJs) 0 (pointerAt 0 19) s1 [1; 0] _
           s3 sel p s' eq_refl H1 Hrun Hs Hd).
Defined.

(** ** The single animation slot *)

(** C9.  The animation slot holds at most one animation.  Called while it is
    occupied, [settleBoard({ animate: true, onComplete })] returns 0 and
    leaves every global as it was, but for its own continuation added at the
    end of the queue of the animation in flight. *)
Theorem settleBoard_queues_behind_animation (v : SourceFile) k s a :
  fallingAnimation s = Some a →
  settleBoard v true k s =
  Ok (0, setFallingAnimation
           (Some (mkAnimation (moves a) (finalize a) (after a ++ [SettleAfter k])
                    (strokeStyle a) (startTime a) (duration a))) s).
Proof.
  intros Ha. unfold settleBoard, settleBoardWith, settleFuel.
  cbn [negb settleAnimated]. by rewrite Ha.
Qed.

Lemma settleBoard_queues_behind_animation_witness :
  let a := mkAnimation [mkMove [(0, 3)] "green" (Some 1%nat) 2] None [] None None 240 in
  let s := setFallingAnimation (Some a) (dragBoard IndexJs) in
  fallingAnimation s = Some a ∧
  settleBoard IndexJs true NoCallback s =
  Ok (0, setFallingAnimation
           (Some (mkAnimation (moves a) (finalize a) [SettleAfter NoCallback]
                    (strokeStyle a) (startTime a) (duration a))) s).
Proof.
  intros a s. split; [reflexivity|].
  exact (settleBoard_queues_behind_animation IndexJs NoCallback s a eq_refl).
Defined.

(** ** Reading the grid *)

Lemma idx_range x y :
  0 ≤ x < WIDTH → 0 ≤ y < HEIGHT → 0 ≤ idx x y < WIDTH * HEIGHT.
Proof. unfold idx, WIDTH, HEIGHT. lia. Qed.

Lemma idx_inj x y x' y' :
  0 ≤ x < WIDTH → 0 ≤ x' < WIDTH → idx x y = idx x' y' → x = x' ∧ y = y'.
Proof. unfold idx, WIDTH. lia. Qed.

Lemma gridGet_Ok g x y :
  gridOk g → 0 ≤ x < WIDTH → 0 ≤ y < HEIGHT → ∃ c, gridGet g x y = Ok c.
Proof.
  intros Hg Hx Hy. pose proof (idx_range x y Hx Hy). unfold gridGet, arrayGet.
  rewrite bool_decide_eq_true_2 by lia.
  destruct (lookup_lt_is_Some_2 g (Z.to_nat (idx x y))) as [c ->]; [unfold gridOk in Hg; lia|].
  by exists c.
Qed.

Lemma gridGet_lookup g x y c :
  gridGet g x y = Ok c ↔ 0 ≤ idx x y ∧ g !! Z.to_nat (idx x y) = Some c.
Proof.
  unfold gridGet. rewrite <- arrayGet_Some.
  destruct (arrayGet g (idx x y)); simpl; split; intros; simplify_eq; done.
Qed.

(** ** Drag: [canPlaceOffset] and [applyOffset] *)

Lemma canPlaceOffset_spec v g cells o :
  gridOk g → rowsOk cells →
  ∃ b, canPlaceOffset v g cells o = Ok b ∧ (b = true ↔ placeable v g cells o).
Proof.
  intros Hg. induction cells as [|[x y] rest IH]; intros Hrows.
  - exists true. split; [done|]. split; [|done]. intros _ x y Hin. by apply elem_of_nil in Hin.
  - destruct IH as (b & Hb & Hiff).
    { intros x' y' Hin. apply (Hrows x' y'). by right. }
    cbn [canPlaceOffset].
    destruct (bool_decide (x + o < 0) || bool_decide (x + o >= WIDTH)) eqn:Hx.
    { exists false. split; [done|]. split; [done|]. intros Hp.
      destruct (Hp x y) as [Hr _]; [by left|].
      apply orb_true_iff in Hx as [Hx%bool_decide_eq_true|Hx%bool_decide_eq_true]; lia. }
    apply orb_false_iff in Hx as [Hx1%bool_decide_eq_false Hx2%bool_decide_eq_false].
    destruct (gridGet_Ok g (x + o) y) as [c Hc]; [done|lia|apply (Hrows x y); by left|].
    rewrite Hc. cbn [mbind result_mbind result_bind].
    destruct (isEmptyCell v c) eqn:He; cbn [negb].
    + exists b. split; [done|]. rewrite Hiff. split.
      * intros Hp x' y' [[= -> ->]|Hin]%elem_of_cons; [|by apply Hp].
        split; [lia|]. by exists c.
      * intros Hp x' y' Hin. apply Hp. by right.
    + exists false. split; [done|]. split; [done|]. intros Hp.
      destruct (Hp x y) as [_ (c' & Hc' & He')]; [by left|]. congruence.
Qed.

Lemma offsetLoop_spec v g cells dir wanted :
  gridOk g → rowsOk cells → (dir = 1 ∨ dir = -1) →
  ∀ (fuel n : nat) cur,
    wanted - cur = dir * Z.of_nat n → (n < fuel)%nat →
    ∃ m : nat,
      (m ≤ n)%nat ∧
      offsetLoop v fuel g cells dir wanted cur = Ok (cur + dir * Z.of_nat m) ∧
      (∀ j, 1 ≤ j ≤ Z.of_nat m → placeable v g cells (cur + dir * j)) ∧
      ((m < n)%nat → ¬ placeable v g cells (cur + dir * (Z.of_nat m + 1))).
Proof.
  intros Hg Hrows Hdir. induction fuel as [|fuel IH]; intros n cur Hn Hfuel; [lia|].
  cbn [offsetLoop]. case_bool_decide as Hne.
  - destruct n as [|n]; [lia|].
    destruct (canPlaceOffset_spec v g cells (cur + dir) Hg Hrows) as (b & -> & Hb).
    cbn [mbind result_mbind result_bind]. destruct b; cbn [negb].
    + destruct (IH n (cur + dir)) as (m & Hm & Hrun & Hall & Hstop); [lia|lia|].
      exists (S m). split; [lia|]. split; [rewrite Hrun; f_equal; lia|]. split.
      * intros j Hj. destruct (decide (j = 1)) as [->|Hj1].
        -- replace (cur + dir * 1) with (cur + dir) by lia. by apply Hb.
        -- replace (cur + dir * j) with (cur + dir + dir * (j - 1)) by lia.
           apply Hall. lia.
      * intros Hlt.
        replace (cur + dir * (Z.of_nat (S m) + 1))
          with (cur + dir + dir * (Z.of_nat m + 1)) by lia.
        apply Hstop. lia.
    + exists O. split; [lia|]. split; [f_equal; lia|]. split; [intros j Hj; lia|].
      intros _. replace (cur + dir * (Z.of_nat 0 + 1)) with (cur + dir) by lia.
      rewrite <- Hb. done.
  - exists O. split; [lia|].
    split; [f_equal; lia|]. split; [intros j Hj; lia|].
    intros Hlt. destruct Hdir; subst dir; lia.
Qed.

(** C7.  [applyOffset] moves the offset of the selection toward the
    requested one by single columns: every offset it passes, and the one it
    stops at, keeps the block on the board and over empty cells, and when it
    stops short of the request the next offset does not.  A request of three
    columns, when one column is free and the second is not, moves the block
    by one column. *)
Theorem applyOffset_walks (v : SourceFile) s sel wanted :
  gridOk (grid s) →
  selectedBlock s = Some sel →
  rowsOk (baseCells sel) →
  placeable v (grid s) (baseCells sel) (offset sel) →
  let dir := if bool_decide (wanted > offset sel) then 1 else -1 in
  ∃ s' sel' (n : nat),
    applyOffset v wanted s = Ok s' ∧
    selectedBlock s' = Some sel' ∧ grid s' = grid s ∧
    baseCells sel' = baseCells sel ∧
    offset sel' = offset sel + dir * Z.of_nat n ∧
    Z.of_nat n ≤ Z.abs (wanted - offset sel) ∧
    (∀ j, 1 ≤ j ≤ Z.of_nat n →
       placeable v (grid s) (baseCells sel) (offset sel + dir * j)) ∧
    (Z.of_nat n < Z.abs (wanted - offset sel) →
       ¬ placeable v (grid s) (baseCells sel) (offset sel + dir * (Z.of_nat n + 1))) ∧
    placeable v (grid s') (baseCells sel') (offset sel') ∧
    (offset sel' ≠ offset sel →
       selCells sel' = (λ '(x, y), (x + offset sel', y)) <$> baseCells sel) ∧
    (wanted = offset sel + 3 →
     placeable v (grid s) (baseCells sel) (offset sel + 1) →
     ¬ placeable v (grid s) (baseCells sel) (offset sel + 2) →
     offset sel' = offset sel + 1).
Proof.
  intros Hg Hs Hrows Hcur dir. unfold applyOffset. rewrite Hs.
  case_bool_decide as Heq.
  { exists s, sel, O. rewrite Hs. split_and!; try done; try lia. }
  fold dir.
  assert (dir = 1 ∨ dir = -1) as Hdir by (unfold dir; case_bool_decide; auto).
  destruct (offsetLoop_spec v (grid s) (baseCells sel) dir wanted Hg Hrows Hdir
              (S (Z.abs_nat (wanted - offset sel))) (Z.abs_nat (wanted - offset sel))
              (offset sel))
    as (m & Hm & Hrun & Hall & Hstop).
  { unfold dir. case_bool_decide; lia. }
  { lia. }
  rewrite Hrun. cbn [mbind result_mbind result_bind].
  assert (wanted = offset sel + 3 →
          placeable v (grid s) (baseCells sel) (offset sel + 1) →
          ¬ placeable v (grid s) (baseCells sel) (offset sel + 2) →
          offset sel + dir * Z.of_nat m = offset sel + 1) as Hscen.
  { intros Hw H1 H2. assert (dir = 1) as Hd1 by (unfold dir; case_bool_decide; lia).
    destruct (decide (m = 1%nat)) as [->|Hm1]; [lia|]. exfalso.
    destruct (decide (m = 0%nat)) as [->|Hm0].
    - apply Hstop; [lia|]. rewrite Hd1. by replace (offset sel + 1 * (Z.of_nat 0 + 1))
        with (offset sel + 1) by lia.
    - apply H2. replace (offset sel + 2) with (offset sel + dir * 2) by lia.
      apply Hall. lia. }
  case_bool_decide as Hsame.
  - exists s, sel, m. rewrite Hs.
    split_and!; try done; try lia.
    + intros Hlt. apply Hstop. lia.
    + intros Hw H1 H2. pose proof (Hscen Hw H1 H2). lia.
  - match goal with |- context [Ok ?st] => exists st end.
    eexists _, m. split; [done|].
    destruct v; cbn [selectedBlock setSelectionMoved setSelectedBlock grid baseCells
                     offset selCells];
      (split_and!; try done; try lia;
       [intros Hlt; apply Hstop; lia | apply Hall; lia]).
Qed.

Lemma rowsOk_check cells :
  forallb (λ '(_, y), bool_decide (0 ≤ y < HEIGHT)) cells = true → rowsOk cells.
Proof.
  intros H x y Hin. rewrite forallb_forall in H.
  apply list_elem_of_In in Hin. apply H in Hin. by apply bool_decide_eq_true in Hin.
Qed.

Lemma placeable_check v g cells o b :
  gridOk g → rowsOk cells → canPlaceOffset v g cells o = Ok b →
  if b then placeable v g cells o else ¬ placeable v g cells o.
Proof.
  intros Hg Hrows Hrun.
  destruct (canPlaceOffset_spec v g cells o Hg Hrows) as (b' & Hb' & Hiff).
  assert (b' = b) as -> by congruence.
  destruct b; [by apply Hiff|]. intros Hp%Hiff. done.
Qed.

(** The scenario of the specification: block 1 of [dragBoard] is selected,
    one column to its right is free, block 2 stands two columns further. *)
Lemma applyOffset_walks_witness :
  ∃ sel s' sel',
    gridOk (grid (draggingState IndexJs)) ∧
    selectedBlock (draggingState IndexJs) = Some sel ∧
    rowsOk (baseCells sel) ∧
    placeable IndexJs (grid (draggingState IndexJs)) (baseCells sel) (offset sel) ∧
    applyOffset IndexJs 3 (draggingState IndexJs) = Ok s' ∧
    selectedBlock s' = Some sel' ∧
    offset sel' = 1.
Proof.
  pose (s := draggingState IndexJs).
  assert (gridOk (grid s)) as Hg by (vm_compute; reflexivity).
  pose (sel := mkSelection "green" (Some 1%nat) [(0, 19); (1, 19)] [(0, 19); (1, 19)] 0
                 (inject_Z 17)).
  assert (selectedBlock s = Some sel) as Hs by (vm_compute; reflexivity).
  assert (rowsOk (baseCells sel)) as Hrows by (apply rowsOk_check; vm_compute; reflexivity).
  pose proof (placeable_check IndexJs (grid s) (baseCells sel) 0 true Hg Hrows
                ltac:(vm_compute; reflexivity)) as H0.
  pose proof (placeable_check IndexJs (grid s) (baseCells sel) 1 true Hg Hrows
                ltac:(vm_compute; reflexivity)) as H1.
  pose proof (placeable_check IndexJs (grid s) (baseCells sel) 2 false Hg Hrows
                ltac:(vm_compute; reflexivity)) as H2.
  destruct (applyOffset_walks IndexJs s sel 3 Hg Hs Hrows H0)
    as (s' & sel' & n & Hrun & Hs' & _ & _ & _ & _ & _ & _ & _ & _ & Hscen).
  exists sel, s', sel'. split_and!; try done.
  rewrite (Hscen eq_refl H1 H2). reflexivity.
Defined.

(** ** Positions of the board *)

Lemma inBounds_spec x y : inBounds x y = true ↔ onBoard (x, y).
Proof.
  unfold inBounds, onBoard. simpl. rewrite negb_true_iff, !orb_false_iff.
  rewrite !bool_decide_eq_false. lia.
Qed.

Lemma inBounds_false x y : inBounds x y = false ↔ ¬ onBoard (x, y).
Proof. rewrite <- inBounds_spec. by destruct (inBounds x y). Qed.

Lemma gridGet_cellAt g x y : gridGet g x y = fromOption (cellAt g (x, y)).
Proof. done. Qed.

Lemma cellAt_is_Some g p : gridOk g → onBoard p → is_Some (cellAt g p).
Proof.
  intros Hg [Hx Hy]. pose proof (idx_range _ _ Hx Hy). unfold cellAt, arrayGet.
  rewrite bool_decide_eq_true_2 by lia. apply lookup_lt_is_Some. unfold gridOk in Hg. lia.
Qed.

Lemma gridSet_spec g x y c :
  gridOk g → onBoard (x, y) →
  ∃ g', gridSet g x y c = Ok g' ∧ gridOk g' ∧ cellAt g' (x, y) = Some c ∧
        ∀ q, onBoard q → q ≠ (x, y) → cellAt g' q = cellAt g q.
Proof.
  intros Hg [Hx Hy]. simpl in Hx, Hy. pose proof (idx_range _ _ Hx Hy) as Hi.
  unfold gridOk in Hg. unfold gridSet. rewrite arraySet_Ok by lia.
  eexists. split; [done|]. split_and!.
  - unfold gridOk. rewrite length_insert. done.
  - unfold cellAt, arrayGet. simpl. rewrite bool_decide_eq_true_2 by lia.
    apply list_lookup_insert_eq. lia.
  - intros [qx qy] [Hqx Hqy] Hne. simpl in Hqx, Hqy.
    pose proof (idx_range _ _ Hqx Hqy).
    unfold cellAt, arrayGet. simpl. rewrite bool_decide_eq_true_2 by lia.
    apply list_lookup_insert_ne. intros Heq.
    destruct (idx_inj x y qx qy Hx Hqx) as [-> ->]; [lia|done].
Qed.

Lemma gridSet_inv g x y c g' :
  gridOk g → gridSet g x y c = Ok g' → 0 ≤ idx x y < WIDTH * HEIGHT.
Proof. intros Hg [H _]%arraySet_inv. unfold gridOk in Hg. lia. Qed.

Lemma grid_ext g g' :
  gridOk g → gridOk g' → (∀ p, onBoard p → cellAt g p = cellAt g' p) → g = g'.
Proof.
  intros Hg Hg' Hext. apply list_eq. intros i.
  destruct (decide (i < length g)%nat) as [Hlt|Hge].
  - unfold gridOk in *.
    pose (x := Z.of_nat i `mod` WIDTH). pose (y := Z.of_nat i `div` WIDTH).
    assert (onBoard (x, y)) as Hon.
    { unfold onBoard, x, y, WIDTH, HEIGHT in *. simpl.
      pose proof (Z.mod_pos_bound (Z.of_nat i) 10 ltac:(lia)).
      pose proof (Z.div_lt_upper_bound (Z.of_nat i) 10 20 ltac:(lia) ltac:(lia)).
      pose proof (Z.div_pos (Z.of_nat i) 10 ltac:(lia) ltac:(lia)). lia. }
    specialize (Hext _ Hon). unfold cellAt, arrayGet in Hext. simpl in Hext.
    assert (idx x y = Z.of_nat i) as Hi.
    { unfold idx, x, y, WIDTH. pose proof (Z.div_mod (Z.of_nat i) 10 ltac:(lia)). lia. }
    rewrite Hi, bool_decide_eq_true_2, Nat2Z.id in Hext by lia. done.
  - rewrite !lookup_ge_None_2; [done| |lia]. unfold gridOk in *. lia.
Qed.

Lemma elem_of_boardPositions p : p ∈ boardPositions ↔ onBoard p.
Proof.
  unfold boardPositions, onBoard. destruct p as [x y]. cbn [fst snd].
  rewrite list_elem_of_bind. split.
  - intros (y' & Hin & Hy'%elem_of_seqZ).
    apply list_elem_of_bind in Hin as (x' & Hin & Hx'%elem_of_seqZ).
    apply list_elem_of_singleton in Hin as [= -> ->]. lia.
  - intros [Hx Hy]. exists y. split; [|apply elem_of_seqZ; lia].
    apply list_elem_of_bind. exists x. split; [by apply list_elem_of_singleton|].
    apply elem_of_seqZ. lia.
Qed.

Lemma NoDup_boardPositions : NoDup boardPositions.
Proof. apply (bool_decide_unpack _). vm_compute. exact I. Qed.

Lemma elem_of_borderedPositions p :
  p ∈ borderedPositions ↔ -1 ≤ p.1 ≤ WIDTH ∧ -1 ≤ p.2 ≤ HEIGHT.
Proof.
  unfold borderedPositions. destruct p as [x y]. cbn [fst snd].
  rewrite list_elem_of_bind. split.
  - intros (y' & Hin & Hy'%elem_of_seqZ).
    apply list_elem_of_bind in Hin as (x' & Hin & Hx'%elem_of_seqZ).
    apply list_elem_of_singleton in Hin as [= -> ->]. lia.
  - intros [Hx Hy]. exists y. split; [|apply elem_of_seqZ; lia].
    apply list_elem_of_bind. exists x. split; [by apply list_elem_of_singleton|].
    apply elem_of_seqZ. lia.
Qed.

Lemma length_borderedPositions :
  Z.of_nat (length borderedPositions) = (WIDTH + 2) * (HEIGHT + 2).
Proof. vm_compute. done. Qed.

(** ** Flood fill *)

Lemma visitNeighbors_spec ns : ∀ toVisit seen,
  ∃ new,
    visitNeighbors ns toVisit seen = (reverse new ++ toVisit, seen ++ new) ∧
    (∀ n, n ∈ new ↔ n ∈ ns ∧ n ∉ seen) ∧ NoDup new.
Proof.
  induction ns as [|n ns IH]; intros toVisit seen.
  - exists []. split; [by rewrite app_nil_r|]. split; [|constructor].
    intros n. split; [by intros ?%elem_of_nil|]. by intros [?%elem_of_nil _].
  - unfold visitNeighbors. cbn [foldl]. case_bool_decide as Hin.
    + destruct (IH toVisit seen) as (new & Hrun & Hiff & Hnd).
      exists new. split; [done|]. split; [|done]. intros m. rewrite Hiff, elem_of_cons.
      split; [intros [? ?]; auto|]. intros [[->|?] ?]; [done|auto].
    + destruct (IH (n :: toVisit) (seen ++ [n])) as (new & Hrun & Hiff & Hnd).
      exists (n :: new). split_and!.
      * unfold visitNeighbors in Hrun. rewrite Hrun. rewrite reverse_cons, <- !app_assoc. done.
      * intros m. rewrite !elem_of_cons, Hiff, elem_of_app, list_elem_of_singleton.
        split.
        -- intros [->|[? Hm]]; [auto|]. split; [auto|]. intros ?. apply Hm. by left.
        -- intros [[->|?] Hm]; [by left|].
           destruct (decide (m = n)) as [->|Hne]; [by left|]. right. split; [done|].
           intros [?|?]; done.
      * constructor; [|done]. rewrite Hiff, elem_of_app, list_elem_of_singleton.
        intros [_ Hm]. apply Hm. by right.
Qed.

Lemma neighbors_bordered x y n :
  onBoard (x, y) → n ∈ neighbors x y → n ∈ borderedPositions.
Proof.
  intros [Hx Hy] Hin. simpl in *. apply elem_of_borderedPositions.
  unfold neighbors in Hin. rewrite !elem_of_cons in Hin.
  destruct Hin as [->|[->|[->|[->|Hin]]]]; simpl; try lia. by apply elem_of_nil in Hin.
Qed.

Lemma carries_gridGet g bid x y c :
  onBoard (x, y) → gridGet g x y = Ok c → (carries g bid (x, y) ↔ blockId c = bid).
Proof.
  intros Hon Hget. rewrite gridGet_cellAt in Hget. unfold carries.
  destruct (cellAt g (x, y)) as [c'|]; [|done]. injection Hget as ->.
  split; [intros [_ (c' & [= <-] & ?)]; done|]. intros ?. split; [done|]. by exists c.
Qed.

Lemma collectLoop_spec g bid start :
  gridOk g →
  ∀ (fuel : nat) toVisit seen cells,
    CollectInv g bid start toVisit seen cells →
    Z.of_nat (length toVisit) + ((WIDTH + 2) * (HEIGHT + 2) + 1 - Z.of_nat (length seen))
      < Z.of_nat fuel →
    ∃ res, collectLoop fuel g bid toVisit seen cells = Ok res ∧
           Collected g bid start res ∧ ∃ more, res = cells ++ more.
Proof.
  intros Hg. induction fuel as [|fuel IH]; intros toVisit seen cells Hinv Hfuel.
  { destruct Hinv. assert (seen ⊆+ start :: borderedPositions) as Hsub
      by (by apply NoDup_submseteq).
    apply submseteq_length in Hsub. simpl in Hsub.
    unfold WIDTH, HEIGHT in *. lia. }
  assert (Z.of_nat (length seen) ≤ (WIDTH + 2) * (HEIGHT + 2) + 1) as Hseen.
  { destruct Hinv. assert (seen ⊆+ start :: borderedPositions) as Hsub
      by (by apply NoDup_submseteq).
    apply submseteq_length in Hsub. simpl in Hsub.
    unfold WIDTH, HEIGHT in *. lia. }
  cbn [collectLoop]. destruct toVisit as [|[x y] rest].
  { exists cells. split; [done|]. split; [|exists []; by rewrite app_nil_r].
    destruct Hinv. split.
    - done.
    - done.
    - intros Hc. destruct (ci_sorted0 start ci_start0) as [?%elem_of_nil|[?|?]]; done.
    - intros p n Hp Hn Hc.
      destruct (ci_sorted0 n (ci_neighbors0 p n Hp Hn)) as [?%elem_of_nil|[?|?]]; done. }
  assert (¬ carries g bid (x, y) → CollectInv g bid start rest seen cells) as Hskip.
  { intros Hrej. destruct Hinv. split; [done|done| | |done|done| |done].
    - by apply NoDup_cons in ci_nodup0 as [_ ?].
    - intros p Hp. apply ci_in_seen0. by right.
    - intros p Hp. destruct (ci_sorted0 p Hp) as [[->|?]%elem_of_cons|[?|?]]; auto. }
  destruct (inBounds x y) eqn:Hb; cbn [negb].
  2:{ apply inBounds_false in Hb.
      apply IH; [|cbn [length] in Hfuel; lia]. apply Hskip. by intros [? _]. }
  apply inBounds_spec in Hb.
  rewrite gridGet_cellAt. destruct (cellAt_is_Some g (x, y) Hg Hb) as [c Hc].
  rewrite Hc. cbn [fromOption mbind result_mbind result_bind].
  case_bool_decide as Hid.
  { apply IH; [|cbn [length] in Hfuel; lia]. apply Hskip.
    intros [_ (c' & Hc' & ?)]. congruence. }
  destruct (visitNeighbors_spec (neighbors x y) rest seen) as (new & -> & Hnew & Hnd).
  destruct (IH (reverse new ++ rest) (seen ++ new) (cells ++ [(x, y)]))
    as (res & Hrun & Hcol & more & Hmore).
  - destruct Hinv. split.
    + apply NoDup_app. split; [done|]. split; [|done]. intros p Hp Hp'. apply Hnew in Hp' as [_ Hp']. done.
    + intros p [Hp|Hp]%elem_of_app; [auto|]. right.
      apply (neighbors_bordered x y); [done|]. by apply Hnew.
    + assert (NoDup (rest ++ cells) ∧ (x, y) ∉ rest ++ cells) as [Hnd' Hxy].
      { by apply NoDup_cons in ci_nodup0 as [? ?]. }
      rewrite <- app_assoc, app_assoc. apply NoDup_app. split_and!.
      * apply NoDup_app. split; [by rewrite reverse_Permutation|]. split.
        -- intros p Hp Hp'. rewrite elem_of_reverse in Hp. apply Hnew in Hp as [_ Hp]. apply Hp.
           apply ci_in_seen0. right. apply elem_of_app. by left.
        -- by apply NoDup_app in Hnd' as (? & ? & ?).
      * intros p [Hp|Hp]%elem_of_app [Hp'|Hp']%elem_of_app;
          try rewrite elem_of_reverse in Hp.
        -- apply Hnew in Hp as [_ Hp]. apply Hp. apply ci_in_seen0. right.
           apply elem_of_app. by right.
        -- apply list_elem_of_singleton in Hp' as ->. apply Hnew in Hp as [_ Hp].
           apply Hp. apply ci_in_seen0. by left.
        -- apply NoDup_app in Hnd' as (_ & Hd & _). by apply (Hd p).
        -- apply list_elem_of_singleton in Hp' as ->. apply Hxy. apply elem_of_app. by left.
      * apply NoDup_app. split; [by apply NoDup_app in Hnd' as (? & ? & ?)|].
        split; [|apply NoDup_singleton].
        intros p Hp ->%list_elem_of_singleton. apply Hxy. apply elem_of_app. by right.
    + intros p Hp. apply elem_of_app.
      rewrite !elem_of_app, elem_of_reverse, list_elem_of_singleton in Hp.
      destruct Hp as [[Hp|Hp]|[Hp| ->]]; [by right|left..].
      * apply ci_in_seen0. right. apply elem_of_app. by left.
      * apply ci_in_seen0. right. apply elem_of_app. by right.
      * apply ci_in_seen0. by left.
    + intros p [Hp| ->%list_elem_of_singleton]%elem_of_app; [auto|].
      split; [done|]. exists c. split; done.
    + intros p n [Hp| ->%list_elem_of_singleton]%elem_of_app Hn.
      * apply elem_of_app. left. by apply (ci_neighbors0 p).
      * simpl in Hn. apply elem_of_app.
        destruct (decide (n ∈ seen)); [by left|]. right. by apply Hnew.
    + intros p [Hp|Hp]%elem_of_app.
      * destruct (ci_sorted0 p Hp) as [[->|?]%elem_of_cons|[?|?]].
        -- right. left. apply elem_of_app. right. by apply list_elem_of_singleton.
        -- left. apply elem_of_app. by right.
        -- right. left. apply elem_of_app. by left.
        -- by right; right.
      * left. apply elem_of_app. left. by apply elem_of_reverse.
    + apply elem_of_app. by left.
  - rewrite !length_app, length_reverse. cbn [length] in Hfuel. lia.
  - exists res. split; [done|]. split; [done|].
    exists ((x, y) :: more). rewrite Hmore, <- app_assoc. done.
Qed.

Lemma collectBlockCells_spec g x y bid :
  gridOk g →
  ∃ cells, collectBlockCells g x y (Some bid) = Ok cells ∧
           Collected g (Some bid) (x, y) cells.
Proof.
  intros Hg. unfold collectBlockCells.
  destruct (collectLoop_spec g (Some bid) (x, y) Hg collectFuel [(x, y)] [(x, y)] [])
    as (res & Hrun & Hcol & _).
  - split.
    + apply NoDup_singleton.
    + intros p ->%list_elem_of_singleton. by left.
    + apply NoDup_singleton.
    + done.
    + by intros p ?%elem_of_nil.
    + by intros p n ?%elem_of_nil.
    + intros p ->%list_elem_of_singleton. left. by left.
    + by left.
  - unfold collectFuel, WIDTH, HEIGHT. simpl. lia.
  - by exists res.
Qed.

(** ** Dropping a block: [canFall], [dropLoop], [computeDropDistance] *)

Lemma landsFree_perm v g cells cells' d :
  (∀ p, p ∈ cells ↔ p ∈ cells') → landsFree v g cells d ↔ landsFree v g cells' d.
Proof. intros H. unfold landsFree. split; intros Hl x y Hin; apply Hl, H, Hin. Qed.

Lemma canFall_spec v g cells d :
  gridOk g → (∀ p, p ∈ cells → onBoard p) → 0 ≤ d →
  ∃ b, canFall v g cells d = Ok b ∧ (b = true ↔ landsFree v g cells (d + 1)).
Proof.
  intros Hg Hon Hd. induction cells as [|[x y] rest IH].
  - exists true. split; [done|]. split; [|done]. by intros _ x y ?%elem_of_nil.
  - destruct IH as (b & Hb & Hiff); [intros p Hp; apply Hon; by right|].
    destruct (Hon (x, y)) as [Hx Hy]; [by left|]. simpl in Hx, Hy.
    cbn [canFall]. case_bool_decide as Hh.
    { exists false. split; [done|]. split; [done|]. intros Hl.
      destruct (Hl x y) as [? _]; [by left|]. lia. }
    destruct (gridGet_Ok g x (y + d + 1)) as [c Hc]; [done|done|lia|].
    rewrite Hc. cbn [mbind result_mbind result_bind].
    destruct (isEmptyCell v c) eqn:He; cbn [negb].
    + exists b. split; [done|]. rewrite Hiff. split.
      * intros Hl x' y' [[= -> ->]|Hin]%elem_of_cons; [|by apply Hl].
        split; [lia|]. exists c. by rewrite Z.add_assoc.
      * intros Hl x' y' Hin. apply Hl. by right.
    + exists false. split; [done|]. split; [done|]. intros Hl.
      destruct (Hl x y) as [_ (c' & Hc' & He')]; [by left|].
      rewrite Z.add_assoc in Hc'. congruence.
Qed.

Lemma dropLoop_spec v g cells x0 y0 rest :
  gridOk g → (∀ p, p ∈ cells → onBoard p) → cells = (x0, y0) :: rest →
  ∀ (fuel : nat) d,
    0 ≤ d → (Z.to_nat (HEIGHT - y0 - d) < fuel)%nat →
    (∀ j, 1 ≤ j ≤ d → landsFree v g cells j) →
    ∃ d', dropLoop v fuel g cells d = Ok d' ∧ d ≤ d' ∧
          (∀ j, 1 ≤ j ≤ d' → landsFree v g cells j) ∧
          ¬ landsFree v g cells (d' + 1).
Proof.
  intros Hg Hon Hcells. induction fuel as [|fuel IH]; intros d Hd Hfuel Hall; [lia|].
  cbn [dropLoop]. destruct (canFall_spec v g cells d Hg Hon Hd) as (b & -> & Hb).
  cbn [mbind result_mbind result_bind]. destruct b.
  - assert (landsFree v g cells (d + 1)) as Hl by (by apply Hb).
    assert (y0 + (d + 1) < HEIGHT) as Hy.
    { destruct (Hl x0 y0) as [? _]; [rewrite Hcells; by left|]. done. }
    destruct (IH (d + 1)) as (d' & Hrun & Hle & Hall' & Hstop); [lia|lia| |].
    { intros j Hj. destruct (decide (j = d + 1)) as [->|?]; [done|]. apply Hall. lia. }
    exists d'. split; [done|]. split; [lia|]. done.
  - exists d. split; [done|]. split; [lia|]. split; [done|].
    intros Hl%Hb. done.
Qed.

Lemma computeDropDistance_spec v g cells :
  gridOk g → cells ≠ [] → (∀ p, p ∈ cells → onBoard p) →
  ∃ d, computeDropDistance v g cells = Ok d ∧ fallsTo v g cells d.
Proof.
  intros Hg Hne Hon. destruct cells as [|[x0 y0] rest] eqn:Hcells; [done|].
  rewrite <- Hcells in *.
  destruct (dropLoop_spec v g cells x0 y0 rest Hg Hon Hcells (dropFuel cells) 0)
    as (d & Hrun & Hd & Hall & Hstop).
  - done.
  - rewrite Hcells. cbn [dropFuel]. lia.
  - intros j Hj. lia.
  - exists d. split; [done|]. split; [lia|]. done.
Qed.

Lemma fallsTo_unique v g cells d d' :
  fallsTo v g cells d → fallsTo v g cells d' → d = d'.
Proof.
  intros (Hd & Hall & Hstop) (Hd' & Hall' & Hstop').
  destruct (Z.lt_trichotomy d d') as [Hlt|[->|Hlt]]; [|done|].
  - exfalso. apply Hstop, Hall'. lia.
  - exfalso. apply Hstop', Hall. lia.
Qed.

(** ** Emptying and writing the cells of a block *)

Lemma vacate_spec v cells : ∀ g,
  gridOk g → (∀ p, p ∈ cells → onBoard p) →
  clearCells v cells g = Ok (vacate v cells g) ∧ gridOk (vacate v cells g) ∧
  ∀ q, onBoard q →
    cellAt (vacate v cells g) q = if decide (q ∈ cells) then Some (emptyCell v) else cellAt g q.
Proof.
  induction cells as [|[x y] rest IH]; intros g Hg Hon.
  - split; [done|]. split; [done|]. intros q _. by rewrite decide_False by apply not_elem_of_nil.
  - destruct (gridSet_spec g x y (emptyCell v) Hg) as (g' & Hset & Hg' & Hat & Hother).
    { apply Hon. by left. }
    destruct (IH g' Hg') as (Hrun & Hok & Hcell); [intros p Hp; apply Hon; by right|].
    assert (g' = <[Z.to_nat (idx x y) := emptyCell v]> g) as Hg'eq.
    { unfold gridSet in Hset. by apply arraySet_inv in Hset as [_ ->]. }
    unfold clearCells, vacate in *. cbn [forEachM foldl fst snd].
    unfold emptyCell, makeCell in *. rewrite Hset. cbn [mbind result_mbind result_bind].
    rewrite <- Hg'eq. split; [done|]. split; [done|].
    intros q Hq. rewrite Hcell by done.
    destruct (decide (q = (x, y))) as [->|Hne].
    + rewrite (decide_True (P := (x, y) ∈ (x, y) :: rest)) by (by left).
      by destruct (decide ((x, y) ∈ rest)).
    + rewrite Hother by done.
      destruct (decide (q ∈ rest)) as [Hin|Hnin].
      * by rewrite decide_True by (by right).
      * rewrite decide_False; [done|]. by intros [?|?]%elem_of_cons.
Qed.

Lemma place_spec cells d c bid : ∀ g,
  gridOk g → (∀ p, p ∈ cells → onBoard (p.1, p.2 + d)) →
  writeCells cells d c bid g = Ok (place cells d c bid g) ∧
  gridOk (place cells d c bid g) ∧
  ∀ q, onBoard q →
    cellAt (place cells d c bid g) q =
    if decide ((q.1, q.2 - d) ∈ cells) then Some (makeCell c bid) else cellAt g q.
Proof.
  induction cells as [|[x y] rest IH]; intros g Hg Hon.
  - split; [done|]. split; [done|]. intros q _. by rewrite decide_False by apply not_elem_of_nil.
  - destruct (gridSet_spec g x (y + d) (makeCell c bid) Hg) as (g' & Hset & Hg' & Hat & Hother).
    { apply (Hon (x, y)). by left. }
    destruct (IH g' Hg') as (Hrun & Hok & Hcell); [intros p Hp; apply Hon; by right|].
    assert (g' = <[Z.to_nat (idx x (y + d)) := makeCell c bid]> g) as Hg'eq.
    { unfold gridSet in Hset. by apply arraySet_inv in Hset as [_ ->]. }
    unfold writeCells, place in *. cbn [forEachM foldl fst snd].
    rewrite Hset. cbn [mbind result_mbind result_bind].
    rewrite <- Hg'eq. split; [done|]. split; [done|].
    intros [qx qy] Hq. rewrite Hcell by done. cbn [fst snd].
    destruct (decide ((qx, qy) = (x, y + d))) as [[= -> ->]|Hne].
    + replace (y + d - d) with y by lia.
      rewrite (decide_True (P := (x, y) ∈ (x, y) :: rest)) by (by left).
      by destruct (decide ((x, y) ∈ rest)).
    + rewrite Hother by done.
      destruct (decide ((qx, qy - d) ∈ rest)) as [Hin|Hnin].
      * by rewrite decide_True by (by right).
      * rewrite decide_False; [done|]. intros [[= -> Heq]|?]%elem_of_cons; [|done].
        apply Hne. f_equal. lia.
Qed.

(** ** One visit of the gravity sweep *)

Lemma gravityVisit_cases v collect x y sw :
  gridOk (swGrid sw) → onBoard (x, y) →
  ∃ sw', gravityVisit v collect x y sw = Ok sw' ∧ VisitOutcome v collect x y sw sw'.
Proof.
  intros Hg Hon. unfold gravityVisit. rewrite gridGet_cellAt.
  destruct (cellAt_is_Some _ _ Hg Hon) as [cell Hcell]. rewrite Hcell.
  cbn [fromOption mbind result_mbind result_bind].
  destruct (isEmptyCell v cell) eqn:He.
  { exists sw. split; [done|]. apply (visit_skip _ _ _ _ _ _ cell); auto. }
  destruct (blockId cell) as [bid|] eqn:Hbid.
  2:{ exists sw. split; [done|]. apply (visit_skip _ _ _ _ _ _ cell); auto. }
  case_bool_decide as Hproc.
  { exists sw. split; [done|]. apply (visit_skip _ _ _ _ _ _ cell); eauto. }
  destruct (collectBlockCells_spec (swGrid sw) x y bid Hg) as (cells & Hcol & Hcd).
  rewrite Hcol. cbn [mbind result_mbind result_bind].
  assert ((x, y) ∈ cells) as Hstart.
  { apply (co_start _ _ _ _ Hcd). split; [done|]. by exists cell. }
  assert (∀ p, p ∈ cells → onBoard p) as Hcon.
  { intros p Hp. by destruct (co_carries _ _ _ _ Hcd p Hp). }
  rewrite bool_decide_eq_false_2 by (intros ->; by apply elem_of_nil in Hstart).
  destruct (computeDropDistance_spec v (swGrid sw) cells Hg) as (d & Hd & Hfall);
    [intros ->; by apply elem_of_nil in Hstart|done|].
  unfold computeDropDistance in Hd. rewrite Hd. cbn [mbind result_mbind result_bind].
  case_bool_decide as Hd0.
  { eexists. split; [done|]. subst d.
    by apply (visit_rest _ _ _ _ _ _ cell bid cells). }
  destruct (vacate_spec v cells (swGrid sw) Hg Hcon) as (Hclr & Hg1 & _).
  rewrite Hclr. cbn [mbind result_mbind result_bind].
  destruct Hfall as (Hd1 & Hall & Hstop).
  destruct (place_spec cells d (color cell) (Some bid) (vacate v cells (swGrid sw)) Hg1)
    as (Hwr & _ & _).
  { intros [px py] Hp. destruct (Hcon _ Hp) as [Hpx Hpy].
    destruct (Hall d ltac:(lia) px py Hp) as [? _]. unfold onBoard in *.
    cbn [fst snd] in *. lia. }
  rewrite Hwr. cbn [mbind result_mbind result_bind].
  eexists. split; [done|].
  apply (visit_move _ _ _ _ _ _ cell bid cells d); try done. lia.
Qed.

(** A block that lies in one row is no obstacle to its own fall. *)
Lemma landsFree_vacate v g cells j :
  gridOk g → (∀ p, p ∈ cells → onBoard p) → sameRow cells → 1 ≤ j →
  landsFree v g cells j ↔ landsFree v (vacate v cells g) cells j.
Proof.
  intros Hg Hon Hrow Hj.
  destruct (vacate_spec v cells g Hg Hon) as (_ & _ & Hcell).
  assert (∀ x y, (x, y) ∈ cells → y + j < HEIGHT →
                 gridGet (vacate v cells g) x (y + j) = gridGet g x (y + j)) as Hsame.
  { intros x y Hin Hlt. rewrite !gridGet_cellAt. rewrite Hcell.
    - rewrite decide_False; [done|]. intros Hin'.
      pose proof (Hrow _ _ Hin Hin') as Heq. simpl in Heq. lia.
    - destruct (Hon _ Hin) as [? ?]. split; simpl in *; lia. }
  split; intros Hl x y Hin; destruct (Hl x y Hin) as [Hlt (c & Hc & He)];
    (split; [done|]); exists c; (split; [|done]).
  - by rewrite Hsame.
  - by rewrite <- Hsame.
Qed.

Lemma fallsTo_vacate v g cells d :
  gridOk g → (∀ p, p ∈ cells → onBoard p) → sameRow cells →
  fallsTo v g cells d ↔ fallsTo v (vacate v cells g) cells d.
Proof.
  intros Hg Hon Hrow. unfold fallsTo.
  split; intros (Hd & Hall & Hstop); (split; [done|]); split.
  - intros j Hj. apply (proj1 (landsFree_vacate v g cells j Hg Hon Hrow ltac:(lia))).
    by apply Hall.
  - intros Hl. apply Hstop.
    by apply (proj2 (landsFree_vacate v g cells (d + 1) Hg Hon Hrow ltac:(lia))).
  - intros j Hj. apply (proj2 (landsFree_vacate v g cells j Hg Hon Hrow ltac:(lia))).
    by apply Hall.
  - intros Hl. apply Hstop.
    by apply (proj1 (landsFree_vacate v g cells (d + 1) Hg Hon Hrow ltac:(lia))).
Qed.

(** C4, as amended.  The drop distance of a block, at release and in the
    gravity sweep, is the distance to the first obstruction: the largest [d]
    such that, lowered by each of 1, ..., [d] rows, the cells stay on the
    board and over empty cells.  The grid is read as it stands: at release
    the cells of the selection are off the grid; in the sweep the block is
    on the grid, which makes no difference for a block that lies in one
    row.  The sweep lowers the block found at [(x, y)] by exactly that
    distance and records it. *)
Theorem dropDistance_first_obstruction (v : SourceFile) g cells :
  gridOk g → cells ≠ [] → (∀ p, p ∈ cells → onBoard p) →
  ∃ d,
    computeDropDistance v g cells = Ok d ∧
    fallsTo v g cells d ∧
    (sameRow cells → fallsTo v (vacate v cells g) cells d) ∧
    ∀ collect x y sw sw' cell bid,
      swGrid sw = g → onBoard (x, y) →
      cellAt g (x, y) = Some cell → isEmptyCell v cell = false →
      blockId cell = Some bid → bid ∉ swProcessed sw →
      collectBlockCells g x y (Some bid) = Ok cells →
      gravityVisit v collect x y sw = Ok sw' →
      swGrid sw' =
        (if decide (d = 0) then g
         else place cells d (color cell) (Some bid) (vacate v cells g)) ∧
      swMoves sw' =
        (if collect && negb (bool_decide (d = 0))
         then swMoves sw ++ [mkMove cells (color cell) (Some bid) d]
         else swMoves sw).
Proof.
  intros Hg Hne Hon.
  destruct (computeDropDistance_spec v g cells Hg Hne Hon) as (d & Hd & Hfall).
  exists d. split; [done|]. split; [done|].
  split; [intros Hrow; by apply (proj1 (fallsTo_vacate v g cells d Hg Hon Hrow))|].
  intros collect x y sw sw' cell bid <- Hxy Hcell He Hbid Hproc Hcol Hvisit.
  destruct (gravityVisit_cases v collect x y sw Hg Hxy) as (sw'' & Hrun & Hout).
  assert (sw'' = sw') as -> by congruence.
  destruct Hout as [cell' Hc' Hskip _|cell' bid' cells' Hc' _ Hb' _ Hcol' _ Hf' ->
                   |cell' bid' cells' d' Hc' _ Hb' _ Hcol' _ Hf' Hd' ->].
  - assert (cell' = cell) as -> by congruence.
    destruct Hskip as [?|[?|(b & ? & ?)]]; [congruence|congruence|].
    assert (b = bid) as -> by congruence. done.
  - assert (cell' = cell) as -> by congruence.
    assert (bid' = bid) as -> by congruence.
    assert (cells' = cells) as -> by congruence.
    pose proof (fallsTo_unique _ _ _ _ _ Hfall Hf') as ->.
    cbn [swGrid swMoves]. rewrite bool_decide_eq_true_2 by done.
    by rewrite andb_false_r.
  - assert (cell' = cell) as -> by congruence.
    assert (bid' = bid) as -> by congruence.
    assert (cells' = cells) as -> by congruence.
    pose proof (fallsTo_unique _ _ _ _ _ Hfall Hf') as ->.
    cbn [swGrid swMoves]. rewrite decide_False by lia.
    rewrite bool_decide_eq_false_2 by lia. by rewrite andb_true_r.
Qed.

(** Block 2 of [overhangBoard], found by the flood fill from its left end. *)
Lemma dropDistance_first_obstruction_witness :
  let g := overhangBoard IndexJs in
  let cells := [(2, 18); (3, 18); (4, 18); (5, 18)] in
  gridOk g ∧ cells ≠ [] ∧ (∀ p, p ∈ cells → onBoard p) ∧
  ∃ d, computeDropDistance IndexJs g cells = Ok d ∧ fallsTo IndexJs g cells d.
Proof.
  intros g cells.
  assert (gridOk g) as Hg by (vm_compute; reflexivity).
  assert (cells ≠ []) as Hne by discriminate.
  assert (∀ p, p ∈ cells → onBoard p) as Hon.
  { intros p Hp. apply elem_of_boardPositions.
    unfold cells in Hp. rewrite !elem_of_cons in Hp.
    destruct Hp as [->|[->|[->|[->|Hp]]]]; [..|by apply elem_of_nil in Hp];
      apply (bool_decide_unpack _); vm_compute; exact I. }
  split; [exact Hg|]. split; [exact Hne|]. split; [exact Hon|].
  destruct (dropDistance_first_obstruction IndexJs g cells Hg Hne Hon) as (d & Hd & Hf & _).
  exists d. split; [exact Hd|exact Hf].
Defined.

(** C4 fails as worded: a single cell released from row 10 above the
    overhang of [overhangBoard] stops on block 2, seven rows down, although
    the cell nine rows down, under the overhang, is free as well. *)
Lemma drop_stops_at_first_obstruction : ¬ dropIsMaximalLanding IndexJs.
Proof.
  intros H.
  destruct (H (overhangBoard IndexJs) [(4, 10)] 7) as (_ & _ & Hmax).
  - vm_compute; reflexivity.
  - discriminate.
  - intros p ->%list_elem_of_singleton. split; simpl; unfold WIDTH, HEIGHT; lia.
  - intros x y [= -> ->]%list_elem_of_singleton. split; [unfold HEIGHT; lia|].
    eexists. split; [vm_compute; reflexivity|reflexivity].
  - vm_compute; reflexivity.
  - specialize (Hmax 9 ltac:(lia)). cut (9 ≤ 7); [lia|]. apply Hmax.
    intros x y [= -> ->]%list_elem_of_singleton. split; [unfold HEIGHT; lia|].
    eexists. split; [vm_compute; reflexivity|reflexivity].
Qed.

(** ** Sums over the board *)

Lemma sumOver_ext f f' l : (∀ p, p ∈ l → f p = f' p) → sumOver f l = sumOver f' l.
Proof.
  induction l as [|p l IH]; intros H; [done|]. simpl.
  rewrite H by (by left). rewrite IH; [done|]. intros q Hq. apply H. by right.
Qed.

Lemma sumOver_update f f' l p :
  NoDup l → p ∈ l → (∀ q, q ∈ l → q ≠ p → f' q = f q) →
  sumOver f' l = sumOver f l - f p + f' p.
Proof.
  induction l as [|a l IH]; intros Hnd Hin H; [by apply elem_of_nil in Hin|].
  apply NoDup_cons in Hnd as [Ha Hnd]. simpl.
  destruct (decide (a = p)) as [->|Hne].
  - rewrite (sumOver_ext f' f l); [lia|]. intros q Hq. apply H; [by right|].
    intros ->. done.
  - apply elem_of_cons in Hin as [->|Hin]; [done|].
    rewrite IH; [|done|done|]. 2:{ intros q Hq. apply H. by right. }
    rewrite H; [lia|by left|done].
Qed.

Lemma sumOver_override (a b : pos → Z) l cells :
  NoDup l → NoDup cells → (∀ p, p ∈ cells → p ∈ l) →
  sumOver (λ q, if decide (q ∈ cells) then a q else b q) l =
  sumOver b l + sumOver (λ q, a q - b q) cells.
Proof.
  intros Hl. induction cells as [|p rest IH]; intros Hnd Hsub.
  - cbn [sumOver foldr]. rewrite Z.add_0_r. apply sumOver_ext. intros q _.
    destruct (decide (q ∈ [])) as [Hq|]; [by apply elem_of_nil in Hq|done].
  - apply NoDup_cons in Hnd as [Hp Hnd].
    rewrite (sumOver_update (λ q, if decide (q ∈ rest) then a q else b q) _ l p);
      [|done|apply Hsub; by left|].
    + rewrite IH; [|done|intros q Hq; apply Hsub; by right].
      rewrite decide_False by done. rewrite decide_True by (by left). simpl. lia.
    + intros q Hq Hne. destruct (decide (q ∈ rest)) as [Hin|Hnin].
      * by rewrite decide_True by (by right).
      * rewrite decide_False; [done|]. by intros [?|?]%elem_of_cons.
Qed.

Lemma sumOver_le f f' l : (∀ p, p ∈ l → f p ≤ f' p) → sumOver f l ≤ sumOver f' l.
Proof.
  induction l as [|p l IH]; intros H; [done|]. simpl.
  pose proof (H p ltac:(by left)). pose proof (IH ltac:(intros q Hq; apply H; by right)). lia.
Qed.

Lemma sumOver_lt f f' l :
  l ≠ [] → (∀ p, p ∈ l → f p < f' p) → sumOver f l < sumOver f' l.
Proof.
  intros Hne H. destruct l as [|p l]; [done|]. simpl.
  pose proof (H p ltac:(by left)).
  pose proof (sumOver_le f f' l ltac:(intros q Hq; apply Z.lt_le_incl, H; by right)). lia.
Qed.

Lemma sumOver_const c l : sumOver (λ _, c) l = c * Z.of_nat (length l).
Proof. induction l as [|p l IH]; simpl; [lia|]. rewrite IH. lia. Qed.

Lemma sumOver_fmap f (h : pos → pos) l : sumOver f (h <$> l) = sumOver (f ∘ h) l.
Proof. induction l as [|p l IH]; csimpl; [done|]. by rewrite IH. Qed.

Lemma length_boardPositions : Z.of_nat (length boardPositions) = WIDTH * HEIGHT.
Proof. vm_compute. done. Qed.

Lemma boardSum_bounds W g B :
  (∀ c y, 0 ≤ y < HEIGHT → 0 ≤ W c y ≤ B) →
  0 ≤ boardSum W g ≤ B * (WIDTH * HEIGHT).
Proof.
  intros HW. unfold boardSum. rewrite <- length_boardPositions. split.
  - rewrite <- (Z.mul_0_l (Z.of_nat (length boardPositions))), <- sumOver_const.
    apply sumOver_le. intros p [_ Hy]%elem_of_boardPositions.
    destruct (cellAt g p); [apply HW; done|done].
  - rewrite <- sumOver_const. apply sumOver_le. intros p [_ Hy]%elem_of_boardPositions.
    destruct (cellAt g p) as [c|]; [apply HW; done|].
    destruct (HW (mkCell "" None) 0) as [? ?]; [unfold HEIGHT; lia|lia].
Qed.

(** Emptying cells takes their weight away, when empty cells weigh
    nothing. *)
Lemma boardSum_vacate v W g cells :
  (∀ y, W (emptyCell v) y = 0) →
  gridOk g → NoDup cells → (∀ p, p ∈ cells → onBoard p) →
  boardSum W (vacate v cells g) =
  boardSum W g - sumOver (λ p, match cellAt g p with Some c => W c p.2 | None => 0 end) cells.
Proof.
  intros HW Hg Hnd Hon. destruct (vacate_spec v cells g Hg Hon) as (_ & _ & Hcell).
  unfold boardSum.
  rewrite (sumOver_ext _ (λ q, if decide (q ∈ cells) then 0
             else match cellAt g q with Some c => W c q.2 | None => 0 end)).
  - rewrite sumOver_override; [|apply NoDup_boardPositions|done|].
    2:{ intros p Hp. apply elem_of_boardPositions. auto. }
    cut (∀ l, sumOver (λ q, 0 - match cellAt g q with Some c => W c q.2 | None => 0 end) l
              = - sumOver (λ p, match cellAt g p with Some c => W c p.2 | None => 0 end) l).
    { intros ->. lia. }
    induction l as [|p l IH]; simpl; [done|]. rewrite IH. lia.
  - intros q Hq%elem_of_boardPositions. rewrite Hcell by done.
    destruct (decide (q ∈ cells)); [by rewrite HW|done].
Qed.

(** Writing a block adds at most the weight of its new cells, when weights
    are not negative. *)
Lemma boardSum_place W cells d c bid g :
  (∀ c y, 0 ≤ y < HEIGHT → 0 ≤ W c y) →
  gridOk g → NoDup cells → (∀ p, p ∈ cells → onBoard (p.1, p.2 + d)) →
  boardSum W (place cells d c bid g) ≤
  boardSum W g + sumOver (λ p, W (makeCell c bid) (p.2 + d)) cells.
Proof.
  intros HW Hg Hnd Hon. destruct (place_spec cells d c bid g Hg Hon) as (_ & _ & Hcell).
  unfold boardSum.
  pose (dests := (λ p : pos, (p.1, p.2 + d)) <$> cells).
  assert (∀ q, q ∈ dests ↔ (q.1, q.2 - d) ∈ cells) as Hd.
  { intros [qx qy]. unfold dests. rewrite list_elem_of_fmap. simpl. split.
    - intros ([px py] & [= -> ->] & Hin). simpl. by replace (py + d - d) with py by lia.
    - intros Hin. exists (qx, qy - d). split; [simpl; f_equal; lia|done]. }
  rewrite (sumOver_ext _ (λ q, if decide (q ∈ dests) then W (makeCell c bid) q.2
             else match cellAt g q with Some c => W c q.2 | None => 0 end)).
  - rewrite sumOver_override; [|apply NoDup_boardPositions| |].
    + apply Z.add_le_mono_l. unfold dests. rewrite sumOver_fmap.
      apply sumOver_le. intros p Hp. simpl.
      destruct (Hon p Hp) as [_ Hy]. simpl in Hy.
      destruct (cellAt g (p.1, p.2 + d)) as [c'|]; [|lia].
      pose proof (HW c' (p.2 + d) Hy). lia.
    + unfold dests. apply NoDup_fmap_2; [|done]. intros [] [] [= -> ?]. f_equal. lia.
    + intros q Hq. apply elem_of_boardPositions. unfold dests in Hq.
      apply list_elem_of_fmap in Hq as (p & -> & Hp). by apply Hon.
  - intros q Hq%elem_of_boardPositions. rewrite Hcell by done.
    destruct (decide ((q.1, q.2 - d) ∈ cells)) as [Hin|Hnin].
    + by rewrite decide_True by (by apply Hd).
    + rewrite decide_False; [done|]. by rewrite Hd.
Qed.

(** ** Moves *)

Lemma applyMove_gridOk v g m : gridOk g → SafeMove v g m → gridOk (applyMove v m g).
Proof.
  intros Hg [? ? ? ? ? Hsrc Htgt _]. unfold applyMove.
  destruct (vacate_spec v (moveCells m) g Hg) as (_ & Hg1 & _).
  { intros p Hp. by destruct (Hsrc p Hp). }
  destruct (place_spec (moveCells m) (dropDistance m) (moveColor m) (moveBlockId m)
              (vacate v (moveCells m) g) Hg1) as (_ & Hg2 & _); [|done].
  intros p Hp. by destruct (Htgt p Hp).
Qed.

Lemma fallWeight_range v c y : 0 ≤ y < HEIGHT → 0 ≤ fallWeight v c y ≤ HEIGHT.
Proof.
  intros Hy. unfold fallWeight. destruct (isEmptyCell v c); [|lia].
  destruct (blockId c); unfold HEIGHT in *; lia.
Qed.

Lemma usedWeight_range v c y : 0 ≤ usedWeight v c y ≤ 1.
Proof. unfold usedWeight. destruct (isEmptyCell v c), (blockId c); lia. Qed.

Lemma emptyCell_weights v y : fallWeight v (emptyCell v) y = 0 ∧ usedWeight v (emptyCell v) y = 0.
Proof.
  unfold fallWeight, usedWeight, isEmptyCell, emptyCell, makeCell. simpl.
  by rewrite bool_decide_eq_true_2.
Qed.

(** A move lowers the gravity measure and does not raise the number of used
    cells. *)
Lemma applyMove_measures v g m :
  gridOk g → SafeMove v g m →
  gravityMeasure v (applyMove v m g) < gravityMeasure v g ∧
  usedCells v (applyMove v m g) ≤ usedCells v g.
Proof.
  intros Hg [Hne Hnd [bid Hbid] Hcol Hdown Hsrc Htgt _]. unfold applyMove.
  assert (∀ p, p ∈ moveCells m → onBoard p) as Hon.
  { intros p Hp. by destruct (Hsrc p Hp). }
  assert (∀ p, p ∈ moveCells m → onBoard (p.1, p.2 + dropDistance m)) as Hon'.
  { intros p Hp. by destruct (Htgt p Hp). }
  destruct (vacate_spec v (moveCells m) g Hg Hon) as (_ & Hg1 & _).
  assert (isEmptyCell v (makeCell (moveColor m) (moveBlockId m)) = false) as Hfull.
  { unfold isEmptyCell. simpl. by rewrite bool_decide_eq_false_2. }
  split.
  - unfold gravityMeasure.
    pose proof (boardSum_place (fallWeight v) (moveCells m) (dropDistance m) (moveColor m)
                  (moveBlockId m) (vacate v (moveCells m) g)
                  (λ c y Hy, proj1 (fallWeight_range v c y Hy)) Hg1 Hnd Hon') as Hle.
    rewrite (boardSum_vacate v (fallWeight v) g) in Hle;
      [|intros y; apply emptyCell_weights|done..].
    cut (sumOver (λ p, fallWeight v (makeCell (moveColor m) (moveBlockId m))
                         (p.2 + dropDistance m)) (moveCells m)
         < sumOver (λ p, match cellAt g p with
                         | Some c => fallWeight v c p.2 | None => 0 end) (moveCells m));
      [lia|].
    apply sumOver_lt; [done|]. intros p Hp.
    destruct (Hsrc p Hp) as [[_ Hy] (c & -> & Hc)].
    unfold fallWeight at 1. rewrite Hfull. unfold fallWeight.
    destruct (isEmptyCell v c); [|lia]. rewrite Hc, Hbid. lia.
  - unfold usedCells.
    pose proof (boardSum_place (usedWeight v) (moveCells m) (dropDistance m) (moveColor m)
                  (moveBlockId m) (vacate v (moveCells m) g)
                  (λ c y _, proj1 (usedWeight_range v c y)) Hg1 Hnd Hon') as Hle.
    rewrite (boardSum_vacate v (usedWeight v) g) in Hle;
      [|intros y; apply emptyCell_weights|done..].
    cut (sumOver (λ p, usedWeight v (makeCell (moveColor m) (moveBlockId m))
                         (p.2 + dropDistance m)) (moveCells m)
         ≤ sumOver (λ p, match cellAt g p with
                         | Some c => usedWeight v c p.2 | None => 0 end) (moveCells m));
      [lia|].
    apply sumOver_le. intros p Hp.
    destruct (Hsrc p Hp) as [_ (c & -> & Hc)].
    unfold usedWeight. rewrite Hfull, Hc, Hbid. destruct (isEmptyCell v c); lia.
Qed.

Lemma Replay_snoc v g ms g1 m :
  Replay v g ms g1 → SafeMove v g1 m → Replay v g (ms ++ [m]) (applyMove v m g1).
Proof.
  induction 1 as [g|g m' ms g' Hsafe _ IH]; intros Hm.
  - simpl. apply replay_cons; [done|]. apply replay_nil.
  - simpl. apply replay_cons; [done|]. by apply IH.
Qed.

Lemma Replay_measures v g ms g' :
  gridOk g → Replay v g ms g' →
  gridOk g' ∧
  gravityMeasure v g' + Z.of_nat (length ms) ≤ gravityMeasure v g ∧
  usedCells v g' ≤ usedCells v g.
Proof.
  intros Hg. induction 1 as [g|g m ms g' Hsafe _ IH].
  - split; [done|]. simpl. lia.
  - destruct (IH (applyMove_gridOk v g m Hg Hsafe)) as (Hg' & Hm & Hu).
    destruct (applyMove_measures v g m Hg Hsafe) as [Hm1 Hu1].
    split; [done|]. cbn [length]. lia.
Qed.

(** ** The gravity sweep *)

Lemma elem_of_scanOrder p : p ∈ scanOrder ↔ onBoard p.
Proof.
  unfold scanOrder, onBoard. destruct p as [x y]. cbn [fst snd].
  rewrite list_elem_of_bind. split.
  - intros (y' & Hin & Hy'). rewrite elem_of_reverse, elem_of_seqZ in Hy'.
    apply list_elem_of_bind in Hin as (x' & Hin & Hx'%elem_of_seqZ).
    apply list_elem_of_singleton in Hin as [= -> ->]. lia.
  - intros [Hx Hy]. exists y. split; [|rewrite elem_of_reverse; apply elem_of_seqZ; lia].
    apply list_elem_of_bind. exists x. split; [by apply list_elem_of_singleton|].
    apply elem_of_seqZ. lia.
Qed.

Lemma forEachM_nested {S} (V : Z → Z → S → result S) (ys xs : list Z) (s : S) :
  forEachM (λ y s, forEachM (λ x s, V x y s) xs s) ys s =
  forEachM (λ p s, V p.1 p.2 s) (y ← ys; x ← xs; [(x, y)]) s.
Proof.
  revert s. induction ys as [|y ys IH]; intros s; [done|].
  cbn [forEachM]. change ((y :: ys) ≫= _) with
    ((x ← xs; [(x, y)]) ++ (y ← ys; x ← xs; [(x, y)])).
  rewrite forEachM_app.
  assert (∀ s, forEachM (λ x s, V x y s) xs s
               = forEachM (λ p s, V p.1 p.2 s) (x ← xs; [(x, y)]) s) as ->.
  { clear. induction xs as [|x xs IH]; intros s; [done|].
    cbn [forEachM]. change ((x :: xs) ≫= _) with ([(x, y)] ++ (x ← xs; [(x, y)])).
    cbn [app forEachM fst snd]. destruct (V x y s); simpl; auto. }
  destruct (forEachM _ (x ← xs; [(x, y)]) s); simpl; auto.
Qed.

Lemma gravitySweep_flat v collect g ms :
  gravitySweep v collect g ms =
  forEachM (λ p sw, gravityVisit v collect p.1 p.2 sw) scanOrder (mkSweep g [] false ms).
Proof. unfold gravitySweep, forZ, scanOrder. apply forEachM_nested. Qed.

Lemma Replay_nil_inv v g g' : Replay v g [] g' → g' = g.
Proof. by inversion 1. Qed.

Lemma Replay_app v g l1 g1 l2 g2 :
  Replay v g l1 g1 → Replay v g1 l2 g2 → Replay v g (l1 ++ l2) g2.
Proof.
  induction 1 as [g|g m ms g' Hsafe _ IH]; intros H2; [done|].
  simpl. apply replay_cons; [done|]. by apply IH.
Qed.

Lemma cellAt_gridGet g x y c : cellAt g (x, y) = Some c ↔ gridGet g x y = Ok c.
Proof.
  rewrite gridGet_cellAt. destruct (cellAt g (x, y)); simpl; split; intros; simplify_eq; done.
Qed.

Lemma visit_move_safe v g x y cell bid cells d :
  gridOk g → onBoard (x, y) →
  cellAt g (x, y) = Some cell → isEmptyCell v cell = false → blockId cell = Some bid →
  Collected g (Some bid) (x, y) cells → fallsTo v g cells d → 0 < d →
  SafeMove v g (mkMove cells (color cell) (Some bid) d).
Proof.
  intros Hg Hon Hcell He Hbid Hcol (Hd & Hall & _) Hpos.
  assert ((x, y) ∈ cells) as Hstart.
  { apply (co_start _ _ _ _ Hcol). split; [done|]. by exists cell. }
  split; cbn [moveCells moveColor moveBlockId dropDistance].
  - intros ->. by apply elem_of_nil in Hstart.
  - apply (co_nodup _ _ _ _ Hcol).
  - by eexists.
  - unfold isEmptyCell in He. by apply bool_decide_eq_false in He.
  - done.
  - apply (co_carries _ _ _ _ Hcol).
  - intros [px py] Hp. cbn [fst snd].
    destruct (co_carries _ _ _ _ Hcol _ Hp) as [[Hpx Hpy] _].
    destruct (Hall d ltac:(lia) px py Hp) as [Hlt (c & Hc & Hce)].
    split; [split; cbn [fst snd] in *; lia|]. exists c. split; [|done].
    by apply cellAt_gridGet.
  - by exists x, y, cell.
Qed.

Lemma SweepInv_step v collect g0 ms0 seen sw x y sw' :
  SweepInv v collect g0 ms0 seen sw → onBoard (x, y) →
  VisitOutcome v collect x y sw sw' →
  SweepInv v collect g0 ms0 (seen ++ [(x, y)]) sw'.
Proof.
  intros [Hok (log & Hrep & Hms & Hmv) Hstill] Hon Hout.
  assert (swMoved sw = false → swGrid sw = g0) as Hsame.
  { intros Hf. destruct log as [|m log]; [by apply Replay_nil_inv in Hrep|].
    assert (swMoved sw = true) by (by apply Hmv). congruence. }
  destruct Hout as [cell Hc Hskip ->|cell bid cells Hc He Hb Hp Hcol Hcd Hf ->
                   |cell bid cells d Hc He Hb Hp Hcol Hcd Hf Hd ->].
  - split; [done|by exists log|]. intros Hm. destruct (Hstill Hm) as [Hst Hseen].
    split; [done|]. intros p cell' bid' [Hin| ->%list_elem_of_singleton]%elem_of_app Hc' He' Hb'.
    + by apply (Hseen p cell').
    + rewrite (Hsame Hm) in Hc. assert (cell' = cell) as -> by congruence.
      destruct Hskip as [?|[?|(b & ? & ?)]]; [congruence|congruence|].
      by assert (bid' = b) as -> by congruence.
  - split; cbn [swGrid swProcessed swMoved swMoves]; [done|by exists log|].
    intros Hm. destruct (Hstill Hm) as [Hst Hseen]. rewrite (Hsame Hm) in *.
    split.
    + intros b [Hin| ->%list_elem_of_singleton]%elem_of_app; [auto|].
      exists x, y, cells. split_and!; [|done|done|].
      * split; [done|]. by exists cell.
      * by destruct Hf as (_ & _ & Hstop).
    + intros p cell' bid' [Hin| ->%list_elem_of_singleton]%elem_of_app Hc' He' Hb'.
      * apply elem_of_app. left. by apply (Hseen p cell').
      * apply elem_of_app. right. apply list_elem_of_singleton. congruence.
  - pose proof (visit_move_safe v _ x y cell bid cells d Hok Hon Hc He Hb Hcd Hf Hd) as Hsafe.
    split; cbn [swGrid swProcessed swMoved swMoves].
    + by apply (applyMove_gridOk v _ _ Hok Hsafe).
    + exists (log ++ [mkMove cells (color cell) (Some bid) d]). split_and!.
      * by apply Replay_snoc.
      * rewrite Hms. destruct collect; [by rewrite app_assoc|done].
      * split; [|done]. intros _ H. by destruct log.
    + done.
Qed.

Lemma gravitySweep_spec v collect g ms :
  gridOk g →
  ∃ sw, gravitySweep v collect g ms = Ok sw ∧ SweepInv v collect g ms scanOrder sw.
Proof.
  intros Hg. rewrite gravitySweep_flat.
  destruct (forEachM_inv
    (λ rest sw, ∃ seen, scanOrder = seen ++ rest ∧ SweepInv v collect g ms seen sw)
    (λ p sw, gravityVisit v collect p.1 p.2 sw) scanOrder (mkSweep g [] false ms))
    as (sw & Hrun & seen & Hseen & Hinv).
  - exists []. split; [done|]. split; cbn [swGrid swProcessed swMoved swMoves].
    + done.
    + exists []. split; [apply replay_nil|]. split; [by destruct collect; rewrite ?app_nil_r|].
      split; done.
    + intros _. split; [by intros b ?%elem_of_nil|]. by intros p c b ?%elem_of_nil.
  - intros [x y] rest sw (seen & Hseen & Hinv).
    assert (onBoard (x, y)) as Hon.
    { apply elem_of_scanOrder. rewrite Hseen. apply elem_of_app. right. by left. }
    destruct (gravityVisit_cases v collect x y sw (si_ok _ _ _ _ _ _ Hinv) Hon)
      as (sw' & Hrun & Hout).
    exists sw'. split; [done|]. exists (seen ++ [(x, y)]).
    split; [by rewrite <- app_assoc|]. by apply SweepInv_step with sw.
  - exists sw. split; [done|]. rewrite app_nil_r in Hseen. by subst seen.
Qed.

(** The grid, the processed ids and the flag after a visit do not depend on
    the moves recorded so far, nor on whether moves are recorded. *)
Lemma VisitOutcome_agree v c1 c2 x y sw1 sw2 sw1' sw2' :
  swGrid sw1 = swGrid sw2 → swProcessed sw1 = swProcessed sw2 → swMoved sw1 = swMoved sw2 →
  VisitOutcome v c1 x y sw1 sw1' → VisitOutcome v c2 x y sw2 sw2' →
  swGrid sw1' = swGrid sw2' ∧ swProcessed sw1' = swProcessed sw2' ∧
  swMoved sw1' = swMoved sw2'.
Proof.
  intros Hg Hp Hm H1 H2.
  destruct H1 as [cell Hc Hskip ->|cell bid cells Hc He Hb Hpr Hcol Hcd Hf ->
                 |cell bid cells d Hc He Hb Hpr Hcol Hcd Hf Hd ->];
  destruct H2 as [cell' Hc' Hskip' ->|cell' bid' cells' Hc' He' Hb' Hpr' Hcol' Hcd' Hf' ->
                 |cell' bid' cells' d' Hc' He' Hb' Hpr' Hcol' Hcd' Hf' Hd' ->];
  rewrite <- ?Hg, <- ?Hp in *;
  assert (cell' = cell) as -> by congruence;
  try (destruct Hskip as [?|[?|(b & ? & ?)]];
       [congruence|congruence|assert (b = bid') by congruence; by subst]);
  try (destruct Hskip' as [?|[?|(b & ? & ?)]];
       [congruence|congruence|assert (b = bid) by congruence; by subst]);
  try done;
  assert (bid' = bid) as -> by congruence;
  assert (cells' = cells) as -> by congruence;
  cbn [swGrid swProcessed swMoved].
  - done.
  - pose proof (fallsTo_unique _ _ _ _ _ Hf Hf'). lia.
  - pose proof (fallsTo_unique _ _ _ _ _ Hf Hf'). lia.
  - pose proof (fallsTo_unique _ _ _ _ _ Hf Hf') as ->. done.
Qed.

Lemma VisitOutcome_gridOk v collect x y sw sw' :
  gridOk (swGrid sw) → onBoard (x, y) → VisitOutcome v collect x y sw sw' →
  gridOk (swGrid sw').
Proof.
  intros Hg Hon [cell Hc Hskip ->|cell bid cells Hc He Hb Hpr Hcol Hcd Hf ->
                |cell bid cells d Hc He Hb Hpr Hcol Hcd Hf Hd ->]; [done|done|].
  cbn [swGrid].
  apply (applyMove_gridOk v _ (mkMove cells (color cell) (Some bid) d) Hg).
  by apply (visit_move_safe v _ x y).
Qed.

Lemma gravitySweep_agree v c1 c2 g ms1 ms2 sw1 sw2 :
  gridOk g →
  gravitySweep v c1 g ms1 = Ok sw1 → gravitySweep v c2 g ms2 = Ok sw2 →
  swGrid sw1 = swGrid sw2 ∧ swMoved sw1 = swMoved sw2.
Proof.
  intros Hg. rewrite !gravitySweep_flat.
  pose proof (λ p, proj1 (elem_of_scanOrder p)) as Hon. revert Hon.
  cut (∀ l s1 s2, (∀ p, p ∈ l → onBoard p) →
         gridOk (swGrid s1) →
         swGrid s1 = swGrid s2 → swProcessed s1 = swProcessed s2 → swMoved s1 = swMoved s2 →
         forEachM (λ p sw, gravityVisit v c1 p.1 p.2 sw) l s1 = Ok sw1 →
         forEachM (λ p sw, gravityVisit v c2 p.1 p.2 sw) l s2 = Ok sw2 →
         swGrid sw1 = swGrid sw2 ∧ swMoved sw1 = swMoved sw2).
  { intros H Hon H1 H2.
    by apply (H scanOrder (mkSweep g [] false ms1) (mkSweep g [] false ms2) Hon Hg
                eq_refl eq_refl eq_refl H1 H2). }
  induction l as [|[x y] l IH]; intros s1 s2 Hon Hg1 Hgr Hpr Hmv H1 H2.
  - injection H1 as <-. injection H2 as <-. done.
  - cbn [forEachM fst snd] in H1, H2.
    assert (onBoard (x, y)) as Hxy by (apply Hon; by left).
    destruct (gravityVisit_cases v c1 x y s1 Hg1 Hxy) as (s1' & Hr1 & Ho1).
    destruct (gravityVisit_cases v c2 x y s2 ltac:(by rewrite <- Hgr) Hxy) as (s2' & Hr2 & Ho2).
    rewrite Hr1 in H1. rewrite Hr2 in H2. cbn [mbind result_mbind result_bind] in H1, H2.
    destruct (VisitOutcome_agree v c1 c2 x y s1 s2 s1' s2' Hgr Hpr Hmv Ho1 Ho2)
      as (? & ? & ?).
    apply (IH s1' s2'); try done.
    + intros p Hp. apply Hon. by right.
    + by apply (VisitOutcome_gridOk v c1 x y s1).
Qed.

(** ** The loop of [applyGravity] *)

Lemma SweepInv_still v collect g ms sw :
  SweepInv v collect g ms scanOrder sw → swMoved sw = false →
  swGrid sw = g ∧ swMoves sw = ms ∧ Settled v g.
Proof.
  intros [Hok (log & Hrep & Hms & Hmv) Hstill] Hf.
  destruct log as [|m log].
  2:{ assert (swMoved sw = true) by (by apply Hmv). congruence. }
  apply Replay_nil_inv in Hrep. split; [done|].
  split; [rewrite Hms; destruct collect; by rewrite ?app_nil_r|].
  destruct (Hstill Hf) as [Hst Hseen].
  intros p cell bid Hp Hc He Hb. apply Hst. apply (Hseen p cell); try done.
  by apply elem_of_scanOrder.
Qed.

Lemma gravityLoop_spec v collect : ∀ (fuel : nat) g movedAny ms,
  gridOk g → gravityMeasure v g < Z.of_nat fuel →
  ∃ g' log,
    gravityLoop v fuel collect g movedAny ms =
      Ok (g', movedAny || negb (bool_decide (log = [])), if collect then ms ++ log else ms) ∧
    gridOk g' ∧ Replay v g log g' ∧ Settled v g' ∧
    ∃ sw, gravitySweep v collect g' [] = Ok sw ∧ swMoved sw = false.
Proof.
  induction fuel as [|fuel IH]; intros g movedAny ms Hg Hfuel.
  { pose proof (boardSum_bounds (fallWeight v) g HEIGHT (fallWeight_range v)).
    unfold gravityMeasure in Hfuel. lia. }
  cbn [gravityLoop].
  destruct (gravitySweep_spec v collect g ms Hg) as (sw & Hrun & Hinv).
  rewrite Hrun. cbn [mbind result_mbind result_bind].
  destruct (swMoved sw) eqn:Hmv.
  - destruct Hinv as [Hok (log & Hrep & Hms & Hlog) _].
    assert (log ≠ []) as Hne by (by apply Hlog).
    destruct (Replay_measures v g log _ Hg Hrep) as (_ & Hm & _).
    destruct (IH (swGrid sw) (movedAny || true) (swMoves sw)) as (g' & log' & Hloop & Hg' & Hrep' & Hset & Hsw);
      [done| |].
    { destruct log; [done|]. cbn [length] in Hm. lia. }
    exists g', (log ++ log'). rewrite Hloop. split_and!; try done.
    + rewrite (bool_decide_eq_false_2 (log ++ log' = [])) by (by destruct log).
      rewrite Hms. cbn [negb]. rewrite !orb_true_r. cbn [orb].
      destruct collect; by rewrite ?app_assoc.
    + by apply Replay_app with (swGrid sw).
  - destruct (SweepInv_still v collect g ms sw Hinv Hmv) as (Hgr & Hms & Hset).
    exists g, []. rewrite Hgr, Hms, orb_false_r. split_and!; try done.
    + rewrite bool_decide_eq_true_2 by done. cbn [negb]. rewrite orb_false_r.
      destruct collect; by rewrite ?app_nil_r.
    + apply replay_nil.
    + destruct (gravitySweep_spec v collect g [] Hg) as (sw0 & Hrun0 & _).
      exists sw0. split; [done|].
      destruct (gravitySweep_agree v collect collect g ms [] sw sw0 Hg Hrun Hrun0) as [_ <-].
      done.
Qed.

Lemma gravityFuel_enough v g : gridOk g → gravityMeasure v g < Z.of_nat gravityFuel.
Proof.
  intros _. pose proof (boardSum_bounds (fallWeight v) g HEIGHT (fallWeight_range v)) as H.
  unfold gravityMeasure, gravityFuel. rewrite Nat2Z.inj_succ, Z2Nat.id; unfold WIDTH, HEIGHT in *; lia.
Qed.

Lemma applyGravity_spec v collect s :
  gridOk (grid s) → selectedBlock s = None → fallingAnimation s = None →
  ∃ g' log,
    applyGravity v collect s =
      Ok (negb (bool_decide (log = [])), if collect then log else [], setGrid g' s) ∧
    gridOk g' ∧ Replay v (grid s) log g' ∧ Settled v g' ∧
    applyGravity v collect (setGrid g' s) = Ok (false, [], setGrid g' s).
Proof.
  intros Hg Hsel Hanim.
  destruct (gravityLoop_spec v collect gravityFuel (grid s) false [] Hg
              (gravityFuel_enough v _ Hg)) as (g' & log & Hloop & Hg' & Hrep & Hset & sw & Hsw & Hmv).
  exists g', log. unfold applyGravity. rewrite Hsel, Hanim.
  rewrite (bool_decide_eq_false_2 (is_Some (@None Selection))) by apply is_Some_None.
  rewrite (bool_decide_eq_false_2 (is_Some (@None Animation))) by apply is_Some_None.
  cbn [orb].
  rewrite Hloop. cbn [mbind result_mbind result_bind orb app grid setGrid
                      selectedBlock fallingAnimation].
  rewrite Hsel, Hanim. rewrite (bool_decide_eq_false_2 (is_Some (@None Selection))) by apply is_Some_None.
  rewrite (bool_decide_eq_false_2 (is_Some (@None Animation))) by apply is_Some_None.
  cbn [orb].
  split; [by destruct collect|]. split; [done|]. split; [done|]. split; [done|].
  unfold gravityFuel. cbn [gravityLoop]. rewrite Hsw.
  cbn [mbind result_mbind result_bind]. rewrite Hmv.
  destruct (gravitySweep_spec v collect g' [] Hg') as (sw' & Hsw' & Hinv).
  assert (sw' = sw) as -> by congruence.
  destruct (SweepInv_still v collect g' [] sw Hinv Hmv) as (-> & -> & _).
  done.
Qed.

(** On [floatingBoard] the sweep lowers block 3 by seven rows, onto block 2,
    and records that one move. *)
Example applyGravity_floatingBoard :
  ∃ s', applyGravity IndexJs true (stateOfGrid (floatingBoard IndexJs) 3)
        = Ok (true, [mkMove [(4, 10)] "green" (Some 3%nat) 7], s') ∧
        cellAt (grid s') (4, 17) = Some (mkCell "green" (Some 3%nat)) ∧
        cellAt (grid s') (4, 10) = Some (emptyCell IndexJs).
Proof. eexists. split; [vm_compute; reflexivity|]. split; vm_compute; reflexivity. Qed.

(** ** Clearing full lines *)

Lemma sameControl_refl s : sameControl s s.
Proof. by repeat split. Qed.

Lemma sameControl_trans s1 s2 s3 : sameControl s1 s2 → sameControl s2 s3 → sameControl s1 s3.
Proof. unfold sameControl. intros (?&?&?&?&?&?&?) (?&?&?&?&?&?&?). split_and!; congruence. Qed.

Lemma setGrid_id s : setGrid (grid s) s = s.
Proof. by destruct s. Qed.

Lemma forEachM_fmap {A B S} (h : A → B) (body : B → S → result S) l s :
  forEachM body (h <$> l) s = forEachM (λ a, body (h a)) l s.
Proof.
  revert s. induction l as [|a l IH]; intros s; csimpl; [done|].
  destruct (body (h a) s); simpl; auto.
Qed.

Lemma elem_of_rowCells p y : p ∈ rowCells y ↔ 0 ≤ p.1 < WIDTH ∧ p.2 = y.
Proof.
  unfold rowCells. rewrite list_elem_of_fmap. destruct p as [px py]. simpl. split.
  - intros (x & [= -> ->] & Hx%elem_of_seqZ). lia.
  - intros [Hx ->]. exists px. split; [done|]. apply elem_of_seqZ. lia.
Qed.

Lemma NoDup_rowCells y : NoDup (rowCells y).
Proof.
  unfold rowCells. apply NoDup_fmap_2; [|apply NoDup_seqZ]. by intros ?? [= ?].
Qed.

Lemma clearRow_spec v g y :
  gridOk g → 0 ≤ y < HEIGHT →
  forZ 0 WIDTH (λ x g, gridSet g x y (makeCell (COLOR_BACKGROUND v) None)) g
    = Ok (vacate v (rowCells y) g).
Proof.
  intros Hg Hy. unfold forZ. rewrite Z.sub_0_r.
  destruct (vacate_spec v (rowCells y) g Hg) as (Hrun & _).
  { intros p [? Hp2]%elem_of_rowCells. split; [done|by rewrite Hp2]. }
  unfold clearCells, rowCells in Hrun. rewrite forEachM_fmap in Hrun. done.
Qed.

Lemma rowIsFull_spec v g y :
  gridOk g → 0 ≤ y < HEIGHT →
  rowIsFull v g y (seqZ 0 WIDTH) = Ok (rowFullb v g y).
Proof.
  intros Hg Hy. unfold rowFullb.
  assert (∀ x, x ∈ seqZ 0 WIDTH → 0 ≤ x < WIDTH) as Hxs.
  { intros x Hx%elem_of_seqZ. lia. }
  induction (seqZ 0 WIDTH) as [|x xs IH]; [done|]. cbn [rowIsFull forallb].
  destruct (cellAt_is_Some g (x, y) Hg) as [c Hc]; [split; [apply Hxs; by left|done]|].
  rewrite gridGet_cellAt, Hc. cbn [fromOption mbind result_mbind result_bind].
  destruct (isEmptyCell v c); cbn [negb andb]; [done|].
  apply IH. intros x' Hx'. apply Hxs. by right.
Qed.

Lemma rowFullb_ext v g g' y :
  (∀ x, 0 ≤ x < WIDTH → cellAt g' (x, y) = cellAt g (x, y)) →
  rowFullb v g' y = rowFullb v g y.
Proof.
  intros H. unfold rowFullb.
  assert (∀ x, x ∈ seqZ 0 WIDTH → 0 ≤ x < WIDTH) as Hxs.
  { intros x Hx%elem_of_seqZ. lia. }
  induction (seqZ 0 WIDTH) as [|x xs IH]; [done|]. cbn [forallb].
  rewrite H by (apply Hxs; by left). f_equal. apply IH. intros x' Hx'. apply Hxs. by right.
Qed.

Lemma rowFullb_true v g y :
  rowFullb v g y = true ↔
  ∀ x, 0 ≤ x < WIDTH → ∃ c, cellAt g (x, y) = Some c ∧ isEmptyCell v c = false.
Proof.
  unfold rowFullb. rewrite forallb_forall. split.
  - intros H x Hx. specialize (H x).
    destruct (cellAt g (x, y)) as [c|].
    + exists c. split; [done|]. apply negb_true_iff, H.
      apply list_elem_of_In, elem_of_seqZ. lia.
    + discriminate H. apply list_elem_of_In, elem_of_seqZ. lia.
  - intros H x Hx%list_elem_of_In%elem_of_seqZ.
    destruct (H x ltac:(lia)) as (c & -> & ->). done.
Qed.

Lemma fullRowsBelow_succ v g n :
  0 ≤ n →
  fullRowsBelow v g (n + 1) = fullRowsBelow v g n + (if rowFullb v g n then 1 else 0).
Proof.
  intros Hn. unfold fullRowsBelow.
  assert (seqZ 0 (n + 1) = seqZ 0 n ++ [n]) as ->.
  { rewrite seqZ_app by lia. by f_equal. }
  rewrite filter_app, length_app.
  destruct (rowFullb v g n) eqn:E.
  - rewrite filter_cons_True by done. simpl. lia.
  - rewrite filter_cons_False by (by rewrite E). simpl. lia.
Qed.

Lemma fullRowsBelow_range v g n : 0 ≤ n → 0 ≤ fullRowsBelow v g n ≤ n.
Proof.
  intros Hn. unfold fullRowsBelow. split; [lia|].
  pose proof (length_filter (λ y, rowFullb v g y = true) (seqZ 0 n)) as H.
  rewrite length_seqZ in H. lia.
Qed.

Lemma usedCells_vacate_fullRow v g y :
  gridOk g → 0 ≤ y < HEIGHT → rowFullb v g y = true →
  usedCells v (vacate v (rowCells y) g) = usedCells v g - WIDTH.
Proof.
  intros Hg Hy Hfull. unfold usedCells.
  rewrite (boardSum_vacate v (usedWeight v) g (rowCells y));
    [|intros z; apply emptyCell_weights|done|apply NoDup_rowCells|].
  2:{ intros p [? Hp2]%elem_of_rowCells. split; [done|by rewrite Hp2]. }
  f_equal.
  rewrite (sumOver_ext _ (λ _, 1)).
  - rewrite sumOver_const. unfold rowCells. rewrite length_fmap, length_seqZ.
    unfold WIDTH. lia.
  - intros [px py] [Hx Hpy]%elem_of_rowCells. cbn [fst snd] in Hx, Hpy. subst py.
    destruct (proj1 (rowFullb_true v g y) Hfull px Hx) as (c & -> & He).
    unfold usedWeight. by rewrite He.
Qed.

Lemma clearFullLines_spec v s :
  gridOk (grid s) →
  ∃ g' n,
    clearFullLines v s =
      Ok (n, if bool_decide (n > 0) then setHoveredBlock None (setGrid g' s)
             else setGrid g' s) ∧
    gridOk g' ∧ n = fullRowsBelow v (grid s) HEIGHT ∧
    (∀ p, onBoard p →
       cellAt g' p = if rowFullb v (grid s) p.2 then Some (emptyCell v)
                     else cellAt (grid s) p) ∧
    usedCells v g' = usedCells v (grid s) - WIDTH * n.
Proof.
  intros Hg. unfold clearFullLines.
  destruct (forZ_inv
    (λ i '(gi, ci),
       gridOk gi ∧ ci = fullRowsBelow v (grid s) i ∧
       (∀ p, onBoard p →
          cellAt gi p = if bool_decide (p.2 < i) && rowFullb v (grid s) p.2
                        then Some (emptyCell v) else cellAt (grid s) p) ∧
       usedCells v gi = usedCells v (grid s) - WIDTH * ci)
    (λ y '(g, cleared),
       isFull ← rowIsFull v g y (seqZ 0 WIDTH);
       if negb isFull then Ok (g, cleared)
       else g ← forZ 0 WIDTH (λ x g, gridSet g x y (makeCell (COLOR_BACKGROUND v) None)) g;
            Ok (g, cleared + 1))
    0 HEIGHT (grid s, 0)) as ([g' n] & Hrun & Hg' & Hn & Hcells & Hused).
  - unfold HEIGHT. lia.
  - split; [done|]. split; [done|]. split; [|lia]. intros p Hp.
    rewrite bool_decide_eq_false_2; [done|]. destruct Hp as [_ ?]. lia.
  - intros i [gi ci] Hi (Hgi & Hci & Hcells & Hused).
    rewrite rowIsFull_spec by done.
    assert (rowFullb v gi i = rowFullb v (grid s) i) as Hsame.
    { apply rowFullb_ext. intros x Hx. rewrite Hcells by (split; simpl; lia). simpl.
      by rewrite bool_decide_eq_false_2 by lia. }
    cbn [mbind result_mbind result_bind]. rewrite Hsame.
    destruct (rowFullb v (grid s) i) eqn:Hfull; cbn [negb].
    + rewrite clearRow_spec by done. cbn [mbind result_mbind result_bind].
      eexists. split; [done|].
      destruct (vacate_spec v (rowCells i) gi Hgi) as (_ & Hg1 & Hc1).
      { intros p [? Hp2]%elem_of_rowCells. split; [done|by rewrite Hp2]. }
      split; [done|]. split; [rewrite fullRowsBelow_succ, Hfull by lia; lia|]. split.
      * intros p Hp. rewrite Hc1 by done. destruct (decide (p ∈ rowCells i)) as [Hin|Hnin].
        -- apply elem_of_rowCells in Hin as [_ ->].
           by rewrite bool_decide_eq_true_2, Hfull by lia.
        -- rewrite Hcells by done.
           assert (p.2 ≠ i) as Hne.
           { intros Heq. apply Hnin. apply elem_of_rowCells. by destruct Hp. }
           destruct (decide (p.2 < i)).
           ++ by rewrite !bool_decide_eq_true_2 by lia.
           ++ by rewrite !bool_decide_eq_false_2 by lia.
      * rewrite usedCells_vacate_fullRow; [lia|done|done|by rewrite Hsame].
    + eexists. split; [done|]. split; [done|].
      split; [rewrite fullRowsBelow_succ, Hfull by lia; lia|]. split; [|done].
      intros p Hp. rewrite Hcells by done.
      destruct (decide (p.2 = i)) as [->|Hne].
      * rewrite Hfull, !andb_false_r. done.
      * destruct (decide (p.2 < i)).
        -- by rewrite !bool_decide_eq_true_2 by lia.
        -- by rewrite !bool_decide_eq_false_2 by lia.
  - exists g', n. rewrite Hrun. cbn [mbind result_mbind result_bind].
    split; [done|]. split; [done|]. split; [done|]. split; [|done].
    intros p Hp. rewrite Hcells by done.
    rewrite bool_decide_eq_true_2; [done|]. destruct Hp. lia.
Qed.

(** ** The unanimated [settleBoard] *)

Lemma applyGravity_frame v collect s :
  gridOk (grid s) →
  ∃ mv ms g',
    applyGravity v collect s = Ok (mv, ms, setGrid g' s) ∧
    gridOk g' ∧ usedCells v g' ≤ usedCells v (grid s) ∧
    (is_Some (selectedBlock s) ∨ is_Some (fallingAnimation s) → g' = grid s).
Proof.
  intros Hg.
  destruct (selectedBlock s) as [sel|] eqn:Hsel.
  { exists false, [], (grid s). unfold applyGravity. rewrite Hsel.
    rewrite bool_decide_eq_true_2 by (by eexists). cbn [orb]. rewrite setGrid_id.
    split_and!; [done|done|lia|done]. }
  destruct (fallingAnimation s) as [a|] eqn:Ha.
  { exists false, [], (grid s). unfold applyGravity. rewrite Ha.
    rewrite (bool_decide_eq_true_2 (is_Some (Some a))) by (by eexists).
    rewrite orb_true_r. rewrite setGrid_id. split_and!; [done|done|lia|done]. }
  destruct (applyGravity_spec v collect s Hg Hsel Ha) as (g' & log & Hrun & Hg' & Hrep & _).
  eexists _, _, g'. split; [exact Hrun|]. split; [done|].
  split; [by destruct (Replay_measures v _ _ _ Hg Hrep) as (_ & _ & ?)|].
  intros [[? [=]]|[? [=]]].
Qed.

Lemma settleSyncLoop_spec v : ∀ (fuel : nat) total s,
  gridOk (grid s) → usedCells v (grid s) < WIDTH * Z.of_nat fuel →
  ∃ ns s',
    settleSyncLoop v fuel total s = Ok (total + foldr Z.add 0 ns, s') ∧
    SettlePasses v s ns s' ∧ Forall (λ n, 0 < n) ns ∧
    gridOk (grid s') ∧ sameControl s s' ∧ score s' = score s ∧ topLine s' = topLine s ∧
    usedCells v (grid s') ≤ usedCells v (grid s).
Proof.
  induction fuel as [|fuel IH]; intros total s Hg Hfuel.
  { pose proof (boardSum_bounds (usedWeight v) (grid s) 1
                  (λ c y _, usedWeight_range v c y)) as H.
    unfold usedCells in Hfuel. lia. }
  cbn [settleSyncLoop].
  destruct (applyGravity_frame v false s Hg) as (mv & ms & g1 & Hgrav & Hg1 & Hu1 & _).
  rewrite Hgrav. cbn [mbind result_mbind result_bind].
  destruct (clearFullLines_spec v (setGrid g1 s) Hg1) as (g2 & n & Hclr & Hg2 & Hn & _ & Hu2).
  cbn [grid setGrid] in Hn, Hu2.
  rewrite Hclr. cbn [mbind result_mbind result_bind].
  pose proof (fullRowsBelow_range v g1 HEIGHT ltac:(unfold HEIGHT; lia)) as Hrange.
  rewrite <- Hn in Hrange.
  destruct (decide (n = 0)) as [Hn0|Hn0].
  - rewrite (bool_decide_eq_true_2 (n = 0)) by done.
    rewrite Hn0 in Hclr |- *. exists [], (setGrid g2 (setGrid g1 s)).
    rewrite (bool_decide_eq_false_2 (0 > 0)) in Hclr by lia.
    rewrite (bool_decide_eq_false_2 (0 > 0)) by lia.
    split; [simpl; f_equal; f_equal; lia|]. split.
    { eapply passes_done; [exact Hgrav|exact Hclr]. }
    split; [constructor|]. split; [done|]. split; [by repeat split|].
    cbn [score topLine grid setGrid]. split; [done|]. split; [done|].
    unfold WIDTH in *. lia.
  - rewrite (bool_decide_eq_false_2 (n = 0)) by done.
    match goal with |- context [settleSyncLoop v fuel _ ?st] => set (s2 := st) in * end.
    assert (grid s2 = g2 ∧ sameControl s s2 ∧ score s2 = score s ∧ topLine s2 = topLine s)
      as (Hgs2 & Hsc & Hscore & Htop).
    { unfold s2. case_bool_decide; cbn; repeat split. }
    destruct (IH (total + n) s2) as (ns & s' & Hloop & Hpass & Hpos & Hg' & Hsc' & Hscore' & Htop' & Hu');
      [by rewrite Hgs2| |].
    { rewrite Hgs2. unfold WIDTH in *. lia. }
    exists (n :: ns), s'. split; [rewrite Hloop; simpl; f_equal; f_equal; lia|].
    split; [eapply passes_more; [exact Hgrav|exact Hclr|done|done]|].
    split; [constructor; [lia|done]|]. split; [done|].
    split; [by apply sameControl_trans with s2|].
    split; [congruence|]. split; [congruence|]. rewrite Hgs2 in Hu'. unfold WIDTH in *. lia.
Qed.

Lemma settleFuel_enough v g : gridOk g → usedCells v g < WIDTH * Z.of_nat settleFuel.
Proof.
  intros _. pose proof (boardSum_bounds (usedWeight v) g 1 (λ c y _, usedWeight_range v c y)).
  unfold usedCells, settleFuel. rewrite Nat2Z.inj_succ, Z2Nat.id; unfold WIDTH, HEIGHT in *; lia.
Qed.

Lemma settleBoard_unanimated_aux v s :
  gridOk (grid s) →
  ∃ ns s1,
    settleSyncLoop v settleFuel 0 s = Ok (foldr Z.add 0 ns, s1) ∧
    SettlePasses v s ns s1 ∧ Forall (λ n, 0 < n) ns ∧
    gridOk (grid s1) ∧ sameControl s s1 ∧ score s1 = score s.
Proof.
  intros Hg.
  destruct (settleSyncLoop_spec v settleFuel 0 s Hg (settleFuel_enough v _ Hg))
    as (ns & s1 & Hloop & Hpass & Hpos & Hg1 & Hsc & Hscore & _).
  rewrite Z.add_0_l in Hloop. by exists ns, s1.
Qed.

(** C8.  [settleBoard({ animate: false })] returns: it runs gravity and the
    line clear in turn until a turn clears no line, starts no animation,
    returns the sum of the numbers of lines cleared by the turns, and adds
    that sum to the score, once, after the last turn; the score is left as
    it was when the sum is zero. *)
Theorem settleBoard_unanimated (v : SourceFile) s :
  gridOk (grid s) →
  ∃ ns s1 s',
    settleBoard v false NoCallback s = Ok (foldr Z.add 0 ns, s') ∧
    SettlePasses v s ns s1 ∧ Forall (λ n, 0 < n) ns ∧
    score s1 = score s ∧
    s' = (if bool_decide (foldr Z.add 0 ns ≠ 0)
          then setScore (score s + foldr Z.add 0 ns) s1 else s1) ∧
    score s' = score s + foldr Z.add 0 ns ∧
    fallingAnimation s' = fallingAnimation s ∧
    gridOk (grid s').
Proof.
  intros Hg. unfold settleBoard, settleBoardWith. cbn [negb].
  destruct (settleSyncLoop_spec v settleFuel 0 s Hg (settleFuel_enough v _ Hg))
    as (ns & s1 & Hloop & Hpass & Hpos & Hg1 & Hsc & Hscore & _).
  rewrite Hloop. cbn [mbind result_mbind result_bind runOnComplete].
  rewrite Z.add_0_l. exists ns, s1. eexists. split; [done|].
  split; [done|]. split; [done|]. split; [done|]. rewrite Hscore. split; [done|].
  destruct Hsc as (_ & _ & _ & Hanim & _).
  case_bool_decide as Hz; cbn [score fallingAnimation grid setScore].
  - done.
  - split; [lia|done].
Qed.

Lemma settleBoard_unanimated_witness :
  let s := stateOfGrid (clearingBoard IndexJs) 3 in
  gridOk (grid s) ∧
  ∃ s', settleBoard IndexJs false NoCallback s = Ok (1, s') ∧ score s' = score s + 1.
Proof.
  intros s. assert (gridOk (grid s)) as Hg by (vm_compute; reflexivity).
  split; [exact Hg|].
  destruct (settleBoard_unanimated IndexJs s Hg)
    as (ns & s1 & s' & Hrun & _ & _ & _ & _ & Hscore & _).
  assert (settleBoard IndexJs false NoCallback s
          = Ok (1, setScore 1 (setGrid (emptyRows IndexJs 20) s))) as Hval
    by (vm_compute; reflexivity).
  rewrite Hval in Hrun. injection Hrun as Hsum <-.
  eexists. split; [reflexivity|]. reflexivity.
Defined.

(** ** Shifting rows, inserting a row, restoring a snapshot *)

Lemma copyCell_id c : copyCell c = c.
Proof. by destruct c. Qed.

Lemma moveBlocksUp_spec v s :
  gridOk (grid s) →
  ∃ g', moveBlocksUp v s = Ok (setGrid g' (setTopLine (topLine s + 1) s)) ∧ gridOk g' ∧
        ∀ p, onBoard p →
          cellAt g' p = if bool_decide (p.2 < HEIGHT - 1) then cellAt (grid s) (p.1, p.2 + 1)
                        else Some (emptyCell v).
Proof.
  intros Hg. unfold moveBlocksUp. cbn [grid setTopLine].
  destruct (forZ_inv
    (λ i gi, gridOk gi ∧ ∀ p, onBoard p →
       cellAt gi p = if bool_decide (p.2 < i - 1) then cellAt (grid s) (p.1, p.2 + 1)
                     else cellAt (grid s) p)
    (λ y g, forZ 0 WIDTH (λ x g, c ← gridGet g x y; gridSet g x (y - 1) (copyCell c)) g)
    1 HEIGHT (grid s)) as (g1 & Hrun & Hg1 & Hc1).
  - unfold HEIGHT. lia.
  - split; [done|]. intros p [_ Hp]. by rewrite bool_decide_eq_false_2 by lia.
  - intros i gi Hi (Hgi & Hci).
    destruct (forZ_inv
      (λ j gj, gridOk gj ∧ ∀ p, onBoard p →
         cellAt gj p =
           if bool_decide (p.2 < i - 1) || (bool_decide (p.2 = i - 1) && bool_decide (p.1 < j))
           then cellAt (grid s) (p.1, p.2 + 1) else cellAt (grid s) p)
      (λ x g, c ← gridGet g x i; gridSet g x (i - 1) (copyCell c))
      0 WIDTH gi) as (g2 & Hrun2 & Hg2 & Hc2).
    + unfold WIDTH. lia.
    + split; [done|]. intros p Hp. rewrite Hci by done.
      rewrite (bool_decide_eq_false_2 (p.1 < 0)) by (destruct Hp; lia).
      by rewrite andb_false_r, orb_false_r.
    + intros j gj Hj (Hgj & Hcj).
      assert (onBoard (j, i)) as Hji by (split; simpl; lia).
      assert (onBoard (j, i - 1)) as Hji' by (split; simpl; lia).
      rewrite gridGet_cellAt, (Hcj _ Hji). cbn [fst snd].
      rewrite (bool_decide_eq_false_2 (i < i - 1)), (bool_decide_eq_false_2 (i = i - 1)) by lia.
      cbn [andb orb].
      destruct (cellAt_is_Some (grid s) (j, i) Hg Hji) as [c Hc]. rewrite Hc.
      cbn [fromOption mbind result_mbind result_bind]. rewrite copyCell_id.
      destruct (gridSet_spec gj j (i - 1) c Hgj Hji') as (g3 & Hset & Hg3 & Hat & Hoth).
      exists g3. split; [done|]. split; [done|]. intros [px py] Hp.
      destruct (decide ((px, py) = (j, i - 1))) as [[= -> ->]|Hne].
      * rewrite Hat. cbn [fst snd].
        rewrite (bool_decide_eq_true_2 (i - 1 = i - 1)), (bool_decide_eq_true_2 (j < j + 1)) by lia.
        rewrite orb_true_r. by replace (i - 1 + 1) with i by lia.
      * rewrite Hoth, Hcj by done. cbn [fst snd].
        destruct (decide (py = i - 1)) as [->|Hpy].
        -- assert (px ≠ j) by (intros ->; done).
           destruct (decide (px < j)).
           ++ by rewrite !(bool_decide_eq_true_2 (px < _)) by lia.
           ++ by rewrite !(bool_decide_eq_false_2 (px < _)) by lia.
        -- by rewrite !(bool_decide_eq_false_2 (py = i - 1)) by done.
    + exists g2. split; [done|]. split; [done|]. intros p Hp. rewrite Hc2 by done.
      rewrite (bool_decide_eq_true_2 (p.1 < WIDTH)) by (destruct Hp; lia).
      rewrite andb_true_r. replace (i + 1 - 1) with i by lia.
      destruct (decide (p.2 < i - 1)).
      * by rewrite (bool_decide_eq_true_2 (p.2 < i - 1)), (bool_decide_eq_true_2 (p.2 < i))
          by lia.
      * rewrite (bool_decide_eq_false_2 (p.2 < i - 1)) by lia. cbn [orb].
        destruct (decide (p.2 = i - 1)).
        -- by rewrite (bool_decide_eq_true_2 (p.2 = i - 1)), (bool_decide_eq_true_2 (p.2 < i))
             by lia.
        -- by rewrite (bool_decide_eq_false_2 (p.2 = i - 1)), (bool_decide_eq_false_2 (p.2 < i))
             by lia.
  - rewrite Hrun. cbn [mbind result_mbind result_bind].
    pose proof (clearRow_spec v g1 (HEIGHT - 1) Hg1 ltac:(unfold HEIGHT; lia)) as Hclr.
    unfold emptyCell. rewrite Hclr. cbn [mbind result_mbind result_bind].
    destruct (vacate_spec v (rowCells (HEIGHT - 1)) g1 Hg1) as (_ & Hg2 & Hc2).
    { intros p [? Hp2]%elem_of_rowCells. split; [done|]. rewrite Hp2. unfold HEIGHT. lia. }
    eexists. split; [done|]. split; [done|]. intros p Hp. rewrite Hc2 by done.
    destruct (decide (p ∈ rowCells (HEIGHT - 1))) as [Hin|Hnin].
    + apply elem_of_rowCells in Hin as [_ Hin]. by rewrite bool_decide_eq_false_2 by lia.
    + assert (p.2 ≠ HEIGHT - 1).
      { intros Heq. apply Hnin. apply elem_of_rowCells. by destruct Hp. }
      rewrite Hc1 by done. destruct Hp as [_ Hp].
      by rewrite !bool_decide_eq_true_2 by lia.
Qed.

Lemma insertRow_spec row s :
  gridOk (grid s) → Z.of_nat (length row) = WIDTH →
  ∃ g', insertRow row s = Ok (setGrid g' s) ∧ gridOk g' ∧
        ∀ p, onBoard p →
          cellAt g' p = if bool_decide (p.2 = HEIGHT - 1) then arrayGet row p.1
                        else cellAt (grid s) p.
Proof.
  intros Hg Hrow. unfold insertRow.
  destruct (forZ_inv
    (λ j gj, gridOk gj ∧ ∀ p, onBoard p →
       cellAt gj p = if bool_decide (p.2 = HEIGHT - 1) && bool_decide (p.1 < j)
                     then arrayGet row p.1 else cellAt (grid s) p)
    (λ x g, c ← fromOption (arrayGet row x); gridSet g x (HEIGHT - 1) (copyCell c))
    0 WIDTH (grid s)) as (g' & Hrun & Hg' & Hc').
  - unfold WIDTH. lia.
  - split; [done|]. intros p Hp.
    rewrite (bool_decide_eq_false_2 (p.1 < 0)) by (destruct Hp; lia).
    by rewrite andb_false_r.
  - intros j gj Hj (Hgj & Hcj).
    assert (is_Some (arrayGet row j)) as [c Hc].
    { unfold arrayGet. rewrite bool_decide_eq_true_2 by lia. apply lookup_lt_is_Some. lia. }
    rewrite Hc. cbn [fromOption mbind result_mbind result_bind]. rewrite copyCell_id.
    destruct (gridSet_spec gj j (HEIGHT - 1) c Hgj) as (g3 & Hset & Hg3 & Hat & Hoth).
    { split; simpl; unfold HEIGHT; lia. }
    exists g3. split; [done|]. split; [done|]. intros [px py] Hp.
    destruct (decide ((px, py) = (j, HEIGHT - 1))) as [[= -> ->]|Hne].
    + rewrite Hat. cbn [fst snd]. by rewrite !bool_decide_eq_true_2 by lia.
    + rewrite Hoth, Hcj by done. cbn [fst snd].
      destruct (decide (py = HEIGHT - 1)) as [->|Hpy].
      * assert (px ≠ j) by (intros ->; done).
        destruct (decide (px < j)).
        -- by rewrite !(bool_decide_eq_true_2 (px < _)) by lia.
        -- by rewrite !(bool_decide_eq_false_2 (px < _)) by lia.
      * by rewrite !(bool_decide_eq_false_2 (py = HEIGHT - 1)) by done.
  - rewrite Hrun. cbn [mbind result_mbind result_bind]. exists g'.
    split; [done|]. split; [done|]. intros p Hp. rewrite Hc' by done.
    rewrite (bool_decide_eq_true_2 (p.1 < WIDTH)) by (destruct Hp; lia).
    by rewrite andb_true_r.
Qed.

Lemma restoreGridFromSnapshot_spec snap s :
  length (grid s) = length snap →
  restoreGridFromSnapshot snap s = Ok (setGrid (copyCell <$> snap) s).
Proof.
  intros Hlen. unfold restoreGridFromSnapshot.
  destruct (forZ_inv
    (λ i gi, gi = (copyCell <$> take (Z.to_nat i) snap) ++ drop (Z.to_nat i) (grid s))
    (λ i g, c ← fromOption (arrayGet snap i); arraySet g i (copyCell c))
    0 (Z.of_nat (length (grid s))) (grid s)) as (g' & Hrun & Hg').
  - lia.
  - done.
  - intros i gi Hi ->.
    assert (is_Some (arrayGet snap i)) as [c Hc].
    { unfold arrayGet. rewrite bool_decide_eq_true_2 by lia. apply lookup_lt_is_Some. lia. }
    rewrite Hc. cbn [fromOption mbind result_mbind result_bind].
    apply arrayGet_Some in Hc as [_ Hc].
    assert (length (copyCell <$> take (Z.to_nat i) snap) = Z.to_nat i) as Hl.
    { rewrite length_fmap, length_take. lia. }
    rewrite arraySet_Ok by (rewrite length_app, Hl, length_drop; lia).
    eexists. split; [done|].
    replace (Z.to_nat (i + 1)) with (S (Z.to_nat i)) by lia.
    rewrite (take_S_r _ _ c) by done. rewrite fmap_app. cbn [fmap list_fmap].
    rewrite <- app_assoc. cbn [app].
    rewrite insert_app_r_alt by lia. rewrite Hl, Nat.sub_diag.
    destruct (drop (Z.to_nat i) (grid s)) as [|c0 rest] eqn:Hd.
    { apply (f_equal length) in Hd. rewrite length_drop in Hd. simpl in Hd. lia. }
    cbn [insert list_insert]. f_equal. f_equal.
    change (S (Z.to_nat i)) with (1 + Z.to_nat i)%nat.
    rewrite Nat.add_comm, <- drop_drop, Hd. done.
  - rewrite Hrun. cbn [mbind result_mbind result_bind]. f_equal. f_equal.
    rewrite Hg', Nat2Z.id, Hlen, take_ge, drop_ge by lia. by rewrite app_nil_r.
Qed.

Lemma state_eq s s' :
  grid s' = grid s → topLine s' = topLine s → hoveredBlock s' = hoveredBlock s →
  score s' = score s → sameControl s s' → s' = s.
Proof.
  destruct s, s'. unfold sameControl. simpl. intros -> -> -> -> (->&->&->&->&->&->&->). done.
Qed.

(** C2.  For a board of [WIDTH * HEIGHT] cells and a row of [WIDTH] cells,
    [rowWouldClearLines] returns and leaves every global as it found it:
    the cells of the grid, [topLine], [score], the selection, the hover, the
    animation, and the rest.  Its answer is whether the unanimated settle of
    the board with the rows shifted up and the row inserted, selection and
    animation suspended, clears at least one line. *)
Theorem rowWouldClearLines_probe (v : SourceFile) row s :
  gridOk (grid s) → Z.of_nat (length row) = WIDTH →
  ∃ b s1 s2 ns s3,
    rowWouldClearLines v (Some row) s = Ok (b, s) ∧
    moveBlocksUp v (suspended s) = Ok s1 ∧
    insertRow row s1 = Ok s2 ∧
    SettlePasses v s2 ns s3 ∧
    settleBoard v false NoCallback s2
      = Ok (foldr Z.add 0 ns,
            if bool_decide (foldr Z.add 0 ns ≠ 0)
            then setScore (score s2 + foldr Z.add 0 ns) s3 else s3) ∧
    Forall (λ n, 0 < n) ns ∧
    b = bool_decide (foldr Z.add 0 ns > 0) ∧
    (b = true ↔ ns ≠ []).
Proof.
  intros Hg Hrow. unfold rowWouldClearLines.
  change (setFallingAnimation None (setSelectedBlock None (setHoveredBlock None s)))
    with (suspended s).
  destruct (moveBlocksUp_spec v (suspended s) Hg) as (g1 & Hup & Hg1 & _).
  rewrite Hup. cbn [mbind result_mbind result_bind].
  match type of Hup with _ = Ok ?st => set (s1 := st) in * end.
  destruct (insertRow_spec row s1 Hg1 Hrow) as (g2 & Hins & Hg2 & _).
  rewrite Hins. cbn [mbind result_mbind result_bind].
  match type of Hins with _ = Ok ?st => set (s2 := st) in * end.
  destruct (settleBoard_unanimated_aux v s2 Hg2)
    as (ns & s3 & Hrun & Hpass & Hpos & Hg3 & Hsc & Hscore).
  change (settleBoardPlain v false s2) with (settleBoardWith v (λ s, Ok s) false NoCallback s2).
  unfold settleBoardWith. cbn [negb]. rewrite Hrun.
  cbn [mbind result_mbind result_bind runOnComplete].
  match goal with |- context [restoreGridFromSnapshot _ ?st] => set (s4 := st) in * end.
  assert (grid s4 = grid s3 ∧ sameControl s3 s4) as [Hg4 Hsc4].
  { unfold s4. case_bool_decide; cbn; repeat split. }
  rewrite restoreGridFromSnapshot_spec.
  2:{ rewrite Hg4. unfold cloneGridCells. rewrite length_fmap.
      unfold gridOk in Hg, Hg3. lia. }
  cbn [mbind result_mbind result_bind].
  exists (bool_decide (foldr Z.add 0 ns > 0)), s1, s2, ns, s3.
  split.
  { f_equal. f_equal. apply state_eq; cbn [grid topLine hoveredBlock score setGrid
      setTopLine setScore setHoveredBlock setSelectedBlock setFallingAnimation]; try done.
    - unfold cloneGridCells. rewrite <- list_fmap_compose.
      rewrite (list_fmap_ext _ id); [by rewrite list_fmap_id|].
      intros i c _. simpl. by rewrite !copyCell_id.
    - assert (sameControl (suspended s) s4) as (_ & Hnr & Hsm & _ & Hbc & Hrt & Hrc).
      { apply sameControl_trans with s3; [|done].
        apply sameControl_trans with s2; [|done]. by repeat split. }
      repeat split; cbn; try done. }
  split; [done|]. split; [done|]. split; [done|].
  split.
  { unfold settleBoard, settleBoardWith. cbn [negb]. rewrite Hrun.
    cbn [mbind result_mbind result_bind runOnComplete]. by rewrite Hscore. }
  split; [done|]. split; [done|].
  rewrite bool_decide_eq_true. destruct Hpos as [|n ns Hn Hns]; [split; [simpl; lia|done]|].
  split; [done|]. intros _. simpl.
  assert (0 ≤ foldr Z.add 0 ns); [|lia].
  clear -Hns. induction Hns; simpl; lia.
Qed.

Lemma rowWouldClearLines_probe_witness :
  let s := stateOfGrid (probeBoard IndexJs) 3 in
  gridOk (grid s) ∧ Z.of_nat (length (clearingRow IndexJs)) = WIDTH ∧
  rowWouldClearLines IndexJs (Some (clearingRow IndexJs)) s = Ok (true, s).
Proof.
  intros s. assert (gridOk (grid s)) as Hg by (vm_compute; reflexivity).
  assert (Z.of_nat (length (clearingRow IndexJs)) = WIDTH) as Hrow by reflexivity.
  split; [exact Hg|]. split; [exact Hrow|].
  destruct (rowWouldClearLines_probe IndexJs (clearingRow IndexJs) s Hg Hrow)
    as (b & s1 & s2 & ns & s3 & Hrun & _).
  assert (rowWouldClearLines IndexJs (Some (clearingRow IndexJs)) s = Ok (true, s)) as Hval
    by (vm_compute; reflexivity).
  exact Hval.
Defined.

Lemma rowWouldClearLines_null v s : rowWouldClearLines v None s = Ok (false, s).
Proof. done. Qed.

(** ** The retry loop of [spawnBlocks] *)

(** C5 fails on [rerollState].  The held row and the 19 rows generated next
    would each clear a line; the row of the twentieth retry, with one
    coloured cell in column 0, would not, and the loop leaves it in
    [nextRow] with [attempts] equal to 20.  [spawnBlocks] then replaces it by
    the all-empty row: after the call cell (0, 19) is empty and the bottom
    row holds block 3 only. *)
Theorem spawnBlocks_discards_twentieth_retry :
  ∃ s1 c20 s2,
    rerollLoop IndexJs 21 0 rerollState = Ok (20, s1) ∧
    nextRow s1 = Some c20 ∧
    arrayGet c20 0 = Some (mkCell "green" (Some 44%nat)) ∧
    rowWouldClearLines IndexJs (Some c20) s1 = Ok (false, s1) ∧
    spawnBlocks IndexJs false rerollState = Ok s2 ∧
    grid s2 = probeBoard IndexJs ∧
    cellAt (grid s2) (0, 19) = Some (emptyCell IndexJs).
Proof.
  do 3 eexists.
  split; [vm_compute; reflexivity|].
  split; [vm_compute; reflexivity|].
  split; [vm_compute; reflexivity|].
  split; [vm_compute; reflexivity|].
  split; [vm_compute; reflexivity|].
  split; vm_compute; reflexivity.
Qed.

(** ** Blocks are stretches of a row: the board operations *)

Lemma isEmptyCell_emptyCell v : isEmptyCell v (emptyCell v) = true.
Proof. unfold isEmptyCell, emptyCell. simpl. by rewrite bool_decide_eq_true_2. Qed.

Lemma carries_empty v g id p : cellAt g p = Some (emptyCell v) → ¬ carries g (Some id) p.
Proof. intros H [_ (c & Hc & Hid)]. rewrite H in Hc. by simplify_eq. Qed.

Lemma BoardInv_mono v bc bc' g : (bc ≤ bc')%nat → BoardInv v bc g → BoardInv v bc' g.
Proof.
  intros Hle [? ? Hids ? ?]. split; try done.
  intros p id Hp. specialize (Hids p id Hp). lia.
Qed.

Lemma BoardInv_emptied v bc g g' :
  BoardInv v bc g → Emptied v g g' →
  BoardInv v bc g' ∧
  (∀ id p, carries g' (Some id) p → carries g (Some id) p) ∧
  (∀ id, absent g id → absent g' id).
Proof.
  intros [Hok Hcells Hids Hrow Hrun] [Hok' Hem].
  assert (∀ id p, carries g' (Some id) p → carries g (Some id) p) as Hsub.
  { intros id p [Hon (c & Hc & Hid)]. split; [done|].
    destruct (Hem p Hon) as [Heq|[Heq _]].
    - exists c. by rewrite <- Heq.
    - rewrite Heq in Hc. by simplify_eq. }
  split; [|split; [done|]].
  - split; [done| | | |].
    + intros p c Hon Hc. destruct (Hem p Hon) as [Heq|[Heq _]].
      * apply (Hcells p); [done|]. by rewrite <- Heq.
      * rewrite Heq in Hc. simplify_eq. by rewrite isEmptyCell_emptyCell.
    + intros p id Hp. by apply (Hids p), Hsub.
    + intros id p q Hp Hq. by apply (Hrow id); apply Hsub.
    + intros id p q x Hp Hq Hx.
      pose proof (Hrun id p q x (Hsub _ _ Hp) (Hsub _ _ Hq) Hx) as Hc.
      destruct Hc as [Hon (c & Hc & Hid)]. split; [done|].
      destruct (Hem (x, p.2) Hon) as [Heq|[_ Hall]].
      * exists c. by rewrite Heq.
      * exfalso. apply (carries_empty v g' id p); [|done].
        apply (Hall id p); [|by apply Hsub]. split; [done|]. by exists c.
  - intros id Hab p Hp. by apply (Hab p), Hsub.
Qed.

(** Under the invariant the flood fill from a cell of a block returns the
    whole block. *)
Lemma Collected_complete v bc g id start cells :
  BoardInv v bc g → Collected g (Some id) start cells → carries g (Some id) start →
  ∀ q, q ∈ cells ↔ carries g (Some id) q.
Proof.
  intros Hinv Hcol Hstart q. split; [apply (co_carries _ _ _ _ Hcol)|].
  intros Hq. pose proof (bi_row _ _ _ Hinv id start q Hstart Hq) as Hy.
  assert (start ∈ cells) as Hs by (by apply (co_start _ _ _ _ Hcol)).
  destruct start as [sx sy], q as [qx qy]. simpl in Hy. subst qy.
  assert (∀ n : nat, ∀ x, Z.abs (x - sx) = Z.of_nat n →
            (sx ≤ x ≤ qx ∨ qx ≤ x ≤ sx) → (x, sy) ∈ cells) as Hind.
  { induction n as [|n IH]; intros x Hn Hbetween.
    - by replace x with sx by lia.
    - assert (carries g (Some id) (x, sy)) as Hx.
      { destruct Hbetween.
        + by apply (bi_run _ _ _ Hinv id (sx, sy) (qx, sy) x).
        + by apply (bi_run _ _ _ Hinv id (qx, sy) (sx, sy) x). }
      destruct (decide (sx ≤ x)).
      + apply (co_closed _ _ _ _ Hcol (x - 1, sy)); [apply IH; lia| |done].
        unfold neighbors. simpl. replace (x - 1 + 1) with x by lia. by left.
      + apply (co_closed _ _ _ _ Hcol (x + 1, sy)); [apply IH; lia| |done].
        unfold neighbors. simpl. replace (x + 1 - 1) with x by lia. right. by left. }
  apply (Hind (Z.abs_nat (qx - sx))); lia.
Qed.

Lemma BoardInv_blockShape v bc g id cells :
  BoardInv v bc g → cells ≠ [] → (∀ q, q ∈ cells ↔ carries g (Some id) q) →
  BlockShape cells.
Proof.
  intros Hinv Hne Hiff. split; [done| |].
  - intros p q Hp Hq. apply (bi_row _ _ _ Hinv id); by apply Hiff.
  - intros p q x Hp Hq Hx. apply Hiff. apply (bi_run _ _ _ Hinv id p q); try done; by apply Hiff.
Qed.

(** Taking a whole block off the grid. *)
Lemma BoardInv_vacate v bc g id cells :
  BoardInv v bc g → (∀ q, q ∈ cells ↔ carries g (Some id) q) →
  BoardInv v bc (vacate v cells g) ∧ absent (vacate v cells g) id ∧
  (∀ id' p, carries (vacate v cells g) (Some id') p → carries g (Some id') p) ∧
  (∀ id', absent g id' → absent (vacate v cells g) id').
Proof.
  intros Hinv Hiff.
  assert (∀ p, p ∈ cells → onBoard p) as Hon by (intros p Hp; by destruct (proj1 (Hiff p) Hp)).
  destruct (vacate_spec v cells g (bi_ok _ _ _ Hinv) Hon) as (_ & Hok & Hcell).
  assert (Emptied v g (vacate v cells g)) as Hem.
  { split; [done|]. intros p Hp. rewrite Hcell by done.
    destruct (decide (p ∈ cells)) as [Hin|Hnin]; [right|by left]. split; [done|].
    intros id' q Hp' Hq.
    assert (id' = id) as ->.
    { apply Hiff in Hin. destruct Hin as [_ (c & Hc & Hid)], Hp' as [_ (c' & Hc' & Hid')].
      congruence. }
    destruct Hq as [Hqon ?]. rewrite Hcell by done. rewrite decide_True; [done|].
    apply Hiff. by split. }
  destruct (BoardInv_emptied v bc g _ Hinv Hem) as (Hinv' & Hsub & Hab).
  split; [done|]. split; [|split; done].
  intros p Hp. pose proof (Hsub _ _ Hp) as Hp0. apply Hiff in Hp0.
  destruct Hp as [Hpon (c & Hc & Hid)]. rewrite Hcell, decide_True in Hc by done.
  by simplify_eq.
Qed.

(** Writing a block that is off the grid onto empty cells of one row. *)
Lemma BoardInv_place v bc g id cells d c :
  BoardInv v bc g → absent g id → (id ≤ bc)%nat → c ≠ COLOR_BACKGROUND v →
  BlockShape cells → (∀ p, p ∈ cells → onBoard (p.1, p.2 + d)) →
  (∀ p, p ∈ cells → ∃ c', cellAt g (p.1, p.2 + d) = Some c' ∧ isEmptyCell v c' = true) →
  BoardInv v bc (place cells d c (Some id) g) ∧
  (∀ id' p, id' ≠ id →
     (carries (place cells d c (Some id) g) (Some id') p ↔ carries g (Some id') p)) ∧
  (∀ p, carries (place cells d c (Some id) g) (Some id) p ↔ (p.1, p.2 - d) ∈ cells).
Proof.
  intros Hinv Hab Hid Hcol Hshape Hon Hfree.
  destruct (place_spec cells d c (Some id) g (bi_ok _ _ _ Hinv) Hon) as (_ & Hok & Hcell).
  assert (∀ p, (p.1, p.2 - d) ∈ cells → onBoard p) as Hback.
  { intros [px py] Hp. specialize (Hon _ Hp). simpl in Hon.
    by replace (py - d + d) with py in Hon by lia. }
  assert (∀ p, carries (place cells d c (Some id) g) (Some id) p ↔ (p.1, p.2 - d) ∈ cells)
    as Hnew.
  { intros p. split.
    - intros [Hpon (c' & Hc' & Hid')]. rewrite Hcell in Hc' by done.
      destruct (decide ((p.1, p.2 - d) ∈ cells)); [done|].
      exfalso. apply (Hab p). split; [done|]. by exists c'.
    - intros Hin. split; [by apply Hback|]. rewrite Hcell by (by apply Hback).
      rewrite decide_True by done. by eexists. }
  assert (∀ id' p, id' ≠ id →
     (carries (place cells d c (Some id) g) (Some id') p ↔ carries g (Some id') p)) as Hold.
  { intros id' p Hne. split.
    - intros [Hpon (c' & Hc' & Hid')]. rewrite Hcell in Hc' by done.
      destruct (decide ((p.1, p.2 - d) ∈ cells)); [simplify_eq; simpl in *; congruence|].
      split; [done|]. by exists c'.
    - intros [Hpon (c' & Hc' & Hid')]. split; [done|]. rewrite Hcell by done.
      destruct (decide ((p.1, p.2 - d) ∈ cells)) as [Hin|]; [|by exists c'].
      exfalso. destruct (Hfree _ Hin) as (c0 & Hc0 & He0). simpl in Hc0.
      replace (p.2 - d + d) with p.2 in Hc0 by lia.
      assert ((p.1, p.2) = p) as Hp by (by destruct p). rewrite Hp in Hc0.
      assert (c0 = c') as -> by congruence.
      apply (bi_cells _ _ _ Hinv p c' Hpon Hc') in He0. congruence. }
  split; [|split; done].
  split; [done| | | |].
  - intros p c' Hpon Hc'. rewrite Hcell in Hc' by done.
    destruct (decide ((p.1, p.2 - d) ∈ cells)).
    + simplify_eq. unfold isEmptyCell. simpl. rewrite bool_decide_eq_false_2 by done. done.
    + by apply (bi_cells _ _ _ Hinv p).
  - intros p id' Hp. destruct (decide (id' = id)) as [->|Hne]; [done|].
    apply (bi_ids _ _ _ Hinv p). by apply Hold.
  - intros id' p q Hp Hq. destruct (decide (id' = id)) as [->|Hne].
    + apply Hnew in Hp, Hq. pose proof (bs_row _ Hshape _ _ Hp Hq) as H. simpl in H. lia.
    + apply (bi_row _ _ _ Hinv id'); by apply Hold.
  - intros id' p q x Hp Hq Hx. destruct (decide (id' = id)) as [->|Hne].
    + apply Hnew in Hp, Hq. apply Hnew. simpl.
      by apply (bs_run _ Hshape (p.1, p.2 - d) (q.1, q.2 - d) x).
    + apply Hold; [done|]. apply (bi_run _ _ _ Hinv id' p q); try done; by apply Hold.
Qed.

(** A move of the gravity sweep. *)
Lemma BoardInv_applyMove v bc g m :
  BoardInv v bc g → SafeMove v g m →
  BoardInv v bc (applyMove v m g) ∧
  (∀ id, absent g id → absent (applyMove v m g) id).
Proof.
  intros Hinv [Hne Hnd [id Hid] Hcol Hdown Hsrc Htgt (x & y & cell & Hon & Hcell & He & Hb & Hc & Hcd)].
  rewrite Hid in *.
  assert (carries g (Some id) (x, y)) as Hstart by (split; [done|]; by exists cell).
  pose proof (Collected_complete v bc g id (x, y) _ Hinv Hcd Hstart) as Hiff.
  destruct (BoardInv_vacate v bc g id _ Hinv Hiff) as (Hinv1 & Hab1 & Hsub1 & Habs1).
  pose proof (BoardInv_blockShape v bc g id _ Hinv Hne Hiff) as Hshape.
  assert (∀ p, p ∈ moveCells m → ∃ c', cellAt (vacate v (moveCells m) g)
            (p.1, p.2 + dropDistance m) = Some c' ∧ isEmptyCell v c' = true) as Hfree.
  { intros p Hp. destruct (Htgt p Hp) as [Hpon (c' & Hc' & He')].
    destruct (vacate_spec v (moveCells m) g (bi_ok _ _ _ Hinv)) as (_ & _ & Hcellv).
    { intros q Hq. by destruct (Hsrc q Hq). }
    rewrite Hcellv by done. destruct (decide _).
    - exists (emptyCell v). split; [done|apply isEmptyCell_emptyCell].
    - by exists c'. }
  destruct (BoardInv_place v bc _ id (moveCells m) (dropDistance m) (moveColor m) Hinv1 Hab1)
    as (Hinv2 & Hold & Hnew); try done.
  { apply (bi_ids _ _ _ Hinv (x, y)). done. }
  { intros p Hp. by destruct (Htgt p Hp). }
  unfold applyMove. rewrite Hid. split; [done|].
  intros id' Hab p Hp. destruct (decide (id' = id)) as [->|Hne'].
  - by apply (Hab (x, y)).
  - apply Hold in Hp; [|done]. apply (Habs1 id' Hab p Hp).
Qed.

Lemma Replay_BoardInv v bc g log g' :
  BoardInv v bc g → Replay v g log g' →
  BoardInv v bc g' ∧ (∀ id, absent g id → absent g' id).
Proof.
  intros Hinv Hrep. revert Hinv. induction Hrep as [g|g m ms g' Hsafe _ IH]; intros Hinv.
  - done.
  - destruct (BoardInv_applyMove v bc g m Hinv Hsafe) as [Hinv1 Hab1].
    destruct (IH Hinv1) as [Hinv2 Hab2]. split; [done|]. intros id Hab. by apply Hab2, Hab1.
Qed.

(** Clearing the full lines. *)
Lemma BoardInv_cleared v bc g g' :
  BoardInv v bc g → gridOk g' →
  (∀ p, onBoard p →
     cellAt g' p = if rowFullb v g p.2 then Some (emptyCell v) else cellAt g p) →
  BoardInv v bc g' ∧ (∀ id, absent g id → absent g' id).
Proof.
  intros Hinv Hok Hcell.
  destruct (BoardInv_emptied v bc g g' Hinv) as (Hinv' & _ & Hab); [|done].
  split; [done|]. intros p Hp. rewrite Hcell by done.
  destruct (rowFullb v g p.2) eqn:Hfull; [right|by left]. split; [done|].
  intros id q Hp' Hq. rewrite Hcell by (by destruct Hq).
  by rewrite <- (bi_row _ _ _ Hinv id p q Hp' Hq), Hfull.
Qed.

(** Shifting the rows up. *)
Lemma BoardInv_shifted v bc g g' :
  BoardInv v bc g → gridOk g' →
  (∀ p, onBoard p →
     cellAt g' p = if bool_decide (p.2 < HEIGHT - 1) then cellAt g (p.1, p.2 + 1)
                   else Some (emptyCell v)) →
  BoardInv v bc g' ∧ (∀ id, absent g id → absent g' id).
Proof.
  intros Hinv Hok Hcell.
  assert (∀ id p, carries g' (Some id) p ↔
            p.2 < HEIGHT - 1 ∧ onBoard p ∧ carries g (Some id) (p.1, p.2 + 1)) as Hiff.
  { intros id p. split.
    - intros [Hon (c & Hc & Hid)]. rewrite Hcell in Hc by done.
      case_bool_decide; [|by simplify_eq]. split; [done|]. split; [done|].
      split; [destruct Hon; split; simpl; lia|]. by exists c.
    - intros (Hlt & Hon & [_ (c & Hc & Hid)]). split; [done|]. rewrite Hcell by done.
      rewrite bool_decide_eq_true_2 by done. by exists c. }
  split.
  - split; [done| | | |].
    + intros p c Hon Hc. rewrite Hcell in Hc by done. case_bool_decide.
      * apply (bi_cells _ _ _ Hinv (p.1, p.2 + 1)); [|done]. destruct Hon; split; simpl; lia.
      * simplify_eq. by rewrite isEmptyCell_emptyCell.
    + intros p id (_ & _ & Hp)%Hiff. by apply (bi_ids _ _ _ Hinv _ _ Hp).
    + intros id p q (_ & _ & Hp)%Hiff (_ & _ & Hq)%Hiff.
      pose proof (bi_row _ _ _ Hinv id _ _ Hp Hq) as H. simpl in H. lia.
    + intros id p q x Hp Hq Hx. pose proof Hp as (Hlt & Hon & Hp')%Hiff.
      apply Hiff in Hq as (_ & Hqon & Hq'). apply Hiff. split; [done|].
      split; [destruct Hon, Hqon; split; simpl; lia|].
      by apply (bi_run _ _ _ Hinv id (p.1, p.2 + 1) (q.1, q.2 + 1) x).
  - intros id Hab p (_ & _ & Hp)%Hiff. by apply (Hab _ Hp).
Qed.

Lemma carries_fmap g bid p :
  carries g bid p ↔ onBoard p ∧ blockId <$> cellAt g p = Some bid.
Proof.
  unfold carries. rewrite fmap_Some.
  split; intros [Hon (c & Hc & Hid)]; (split; [done|]); by exists c.
Qed.

Lemma isEmptyCell_cases v c :
  (blockId c = None ∧ color c = COLOR_BACKGROUND v) ∨
  (∃ id, blockId c = Some id ∧ color c ≠ COLOR_BACKGROUND v) →
  (isEmptyCell v c = true ↔ blockId c = None).
Proof.
  unfold isEmptyCell. rewrite bool_decide_eq_true.
  intros [[-> ->]|(id & -> & Hc)]; [done|]. split; [done|]. intros; discriminate.
Qed.

(** Writing a preview row under the shifted board. *)
Lemma BoardInv_inserted v bc0 bc g g' row :
  BoardInv v bc0 g → RowOk v bc0 bc row → gridOk g' →
  (∀ p, onBoard p → p.2 = HEIGHT - 1 → cellAt g p = Some (emptyCell v)) →
  (∀ p, onBoard p →
     cellAt g' p = if bool_decide (p.2 = HEIGHT - 1) then arrayGet row p.1 else cellAt g p) →
  BoardInv v bc g'.
Proof.
  intros Hinv Hrow Hok Hbot Hcell.
  assert (∀ id p, carries g' (Some id) p ↔
            onBoard p ∧ ((p.2 = HEIGHT - 1 ∧ hasId row (Z.to_nat p.1) id) ∨
                         (p.2 ≠ HEIGHT - 1 ∧ carries g (Some id) p))) as Hiff.
  { intros id p. rewrite !carries_fmap. split.
    - intros [Hon Hc]. split; [done|]. rewrite Hcell in Hc by done.
      case_bool_decide; [left|right; done]. split; [done|].
      by apply hasId_arrayGet in Hc as [_ Hc].
    - intros [Hon Hc]. split; [done|]. rewrite Hcell by done.
      destruct Hc as [[Hy Hc]|[Hy [_ Hc]]].
      + rewrite bool_decide_eq_true_2 by done. apply hasId_arrayGet. split; [|done].
        destruct Hon; lia.
      + by rewrite bool_decide_eq_false_2. }
  assert (∀ k id, hasId row k id → (bc0 < id ≤ bc)%nat) as Hfresh.
  { intros k id Hk. unfold hasId in Hk. apply fmap_Some in Hk as (c & Hc & Hid).
    destruct (ro_cells _ _ _ _ Hrow k c Hc) as [[Hn _]|(id' & Hid' & _ & Hr)]; [congruence|].
    assert (id' = id) as <- by congruence. done. }
  pose proof (ro_mono _ _ _ _ Hrow) as Hmono.
  split; [done| | | |].
  - intros p c Hon Hc. rewrite Hcell in Hc by done. case_bool_decide.
    + apply arrayGet_Some in Hc as [_ Hc]. apply isEmptyCell_cases.
      destruct (ro_cells _ _ _ _ Hrow _ c Hc) as [?|(id & ? & ? & _)]; [by left|right; eauto].
    + by apply (bi_cells _ _ _ Hinv p).
  - intros p id [_ [[_ Hp]|[_ Hp]]]%Hiff.
    + apply Hfresh in Hp. lia.
    + apply (bi_ids _ _ _ Hinv) in Hp. lia.
  - intros id p q [_ Hp]%Hiff [_ Hq]%Hiff.
    destruct Hp as [[Hpy Hp]|[Hpy Hp]], Hq as [[Hqy Hq]|[Hqy Hq]].
    + lia.
    + apply Hfresh in Hp. apply (bi_ids _ _ _ Hinv) in Hq. lia.
    + apply Hfresh in Hq. apply (bi_ids _ _ _ Hinv) in Hp. lia.
    + by apply (bi_row _ _ _ Hinv id).
  - intros id p q x [Hpon Hp]%Hiff [Hqon Hq]%Hiff Hx. apply Hiff.
    destruct Hp as [[Hpy Hp]|[Hpy Hp]], Hq as [[Hqy Hq]|[Hqy Hq]].
    + split; [destruct Hpon, Hqon; split; simpl; lia|]. left. split; [done|]. simpl.
      apply (ro_runs _ _ _ _ Hrow id (Z.to_nat p.1) (Z.to_nat q.1)); try done.
      destruct Hpon, Hqon. lia.
    + apply Hfresh in Hp. apply (bi_ids _ _ _ Hinv) in Hq. lia.
    + apply Hfresh in Hq. apply (bi_ids _ _ _ Hinv) in Hp. lia.
    + pose proof (bi_run _ _ _ Hinv id p q x Hp Hq Hx) as Hc.
      split; [by destruct Hc|]. right. done.
Qed.

Lemma RowOk_empty v bc :
  RowOk v bc bc (replicate (Z.to_nat WIDTH) (makeCell (COLOR_BACKGROUND v) None)).
Proof.
  split; [done|by rewrite length_replicate| |].
  - intros k c [-> _]%lookup_replicate. by left.
  - intros id i j k Hi. unfold hasId in Hi. apply fmap_Some in Hi as (c & Hc & Hid).
    apply lookup_replicate in Hc as [-> _]. done.
Qed.

Lemma RowShape_RowOk v bc0 bc sp row :
  Z.of_nat (length row) = WIDTH → RowShape v bc0 bc sp row → RowOk v bc0 bc row.
Proof.
  intros Hlen [_ Hcells Hruns Hmono]. split; [done|done|done|].
  intros id i j k Hi Hj Hk.
  assert ((bc0 < id ≤ bc)%nat) as Hid.
  { unfold hasId in Hi. apply fmap_Some in Hi as (c & Hc & Hid).
    destruct (Hcells i c Hc) as [[Hn _]|(id' & Hid' & _ & Hr)]; [congruence|].
    assert (id' = id) as <- by congruence. done. }
  destruct (Hruns id Hid) as (a & len & _ & Hiff).
  apply Hiff in Hi, Hj. apply Hiff. lia.
Qed.

(** [generateNextRow] returns a row made with fresh ids, and touches the
    block counter and the tape only. *)
Lemma generateNextRow_shape v s :
  ∃ row s',
    generateNextRow v s = Ok (row, s') ∧
    RowOk v (blockCounter s) (blockCounter s') row ∧
    grid s' = grid s ∧ selectedBlock s' = selectedBlock s ∧
    fallingAnimation s' = fallingAnimation s ∧ nextRow s' = nextRow s.
Proof.
  unfold generateNextRow.
  destruct (generateLoop_spec v (blockCounter s) (S (Z.to_nat WIDTH))
              (replicate (Z.to_nat WIDTH) (makeCell (COLOR_BACKGROUND v) None)) 0 0 s [])
    as (row & s' & sp & Hrun & Hsp & Hshape & Hlen & Hg & _ & Hsel & _ & _ & Hnr & _ & Han & _).
  - simpl. done.
  - done.
  - unfold WIDTH; lia.
  - unfold MAX_BLOCK_SPAWN; lia.
  - apply RowShape_nil.
  - unfold WIDTH; lia.
  - exists row, s'. split; [done|]. split; [by apply (RowShape_RowOk v _ _ sp)|]. done.
Qed.

(** ** The board functions keep the invariant of the board *)

Lemma gridStep_refl v g : gridOk g → gridStep v g g.
Proof. intros Hg. split; [done|]. split; [lia|done]. Qed.

Lemma gridStep_trans v g1 g2 g3 : gridStep v g1 g2 → gridStep v g2 g3 → gridStep v g1 g3.
Proof.
  intros (_ & Hu1 & H1) (Hg & Hu2 & H2). split; [done|]. split; [lia|].
  intros bc0 Hinv. by apply H2, H1.
Qed.

Lemma applyGravity_gridStep v collect s :
  gridOk (grid s) →
  ∃ mv ms g', applyGravity v collect s = Ok (mv, ms, setGrid g' s) ∧ gridStep v (grid s) g'.
Proof.
  intros Hg.
  destruct (selectedBlock s) as [sel|] eqn:Hsel.
  { exists false, [], (grid s). split; [|by apply gridStep_refl].
    unfold applyGravity. rewrite Hsel. rewrite bool_decide_eq_true_2 by eauto.
    by rewrite setGrid_id. }
  destruct (fallingAnimation s) as [an|] eqn:Han.
  { exists false, [], (grid s). split; [|by apply gridStep_refl].
    unfold applyGravity. rewrite Han. rewrite (bool_decide_eq_true_2 (is_Some (Some an))) by eauto.
    by rewrite orb_true_r, setGrid_id. }
  destruct (applyGravity_spec v collect s Hg Hsel Han) as (g' & log & Hrun & Hg' & Hrep & _).
  eexists _, _, g'. split; [exact Hrun|]. split; [done|].
  split; [by apply (Replay_measures v _ log)|].
  intros bc0 Hinv. apply (proj1 (Replay_BoardInv v bc0 _ log _ Hinv Hrep)).
Qed.

Lemma clearFullLines_gridStep v s :
  gridOk (grid s) →
  ∃ g' n,
    clearFullLines v s =
      Ok (n, if bool_decide (n > 0) then setHoveredBlock None (setGrid g' s)
             else setGrid g' s) ∧
    gridStep v (grid s) g' ∧ 0 ≤ n ∧ usedCells v g' = usedCells v (grid s) - WIDTH * n.
Proof.
  intros Hg. destruct (clearFullLines_spec v s Hg) as (g' & n & Hrun & Hg' & Hn & Hcell & Hu).
  pose proof (fullRowsBelow_range v (grid s) HEIGHT ltac:(unfold HEIGHT; lia)) as Hrange.
  rewrite <- Hn in Hrange.
  exists g', n. split; [done|]. split; [|split; [lia|done]].
  split; [done|]. split; [unfold WIDTH in *; lia|].
  intros bc0 Hinv. by apply (BoardInv_cleared v bc0 (grid s) g').
Qed.

Lemma usedCells_nonneg v g : 0 ≤ usedCells v g.
Proof.
  pose proof (boardSum_bounds (usedWeight v) g 1 (λ c y _, usedWeight_range v c y)) as H.
  unfold usedCells. lia.
Qed.

Lemma settleSyncLoop_gridStep v : ∀ (fuel : nat) total s,
  gridOk (grid s) → usedCells v (grid s) < WIDTH * Z.of_nat fuel →
  ∃ n s', settleSyncLoop v fuel total s = Ok (n, s') ∧
          sameControl s s' ∧ gridStep v (grid s) (grid s').
Proof.
  induction fuel as [|fuel IH]; intros total s Hg Hfuel.
  { pose proof (usedCells_nonneg v (grid s)). lia. }
  cbn [settleSyncLoop].
  destruct (applyGravity_gridStep v false s Hg) as (mv & ms & g1 & Hgrav & Hs1).
  rewrite Hgrav. cbn [mbind result_mbind result_bind].
  destruct (clearFullLines_gridStep v (setGrid g1 s) (proj1 Hs1))
    as (g2 & n & Hclr & Hs2 & Hn & Hu2).
  cbn [grid setGrid] in Hs2, Hu2.
  rewrite Hclr. cbn [mbind result_mbind result_bind].
  pose proof (gridStep_trans v _ _ _ Hs1 Hs2) as Hs12.
  match goal with |- context [settleSyncLoop v fuel _ ?st] => set (s2 := st) in * end.
  assert (grid s2 = g2 ∧ sameControl s s2) as (Hgs2 & Hsc).
  { unfold s2. case_bool_decide; cbn; repeat split. }
  case_bool_decide as Hn0.
  - exists total, s2. split; [done|]. split; [done|]. by rewrite Hgs2.
  - destruct (IH (total + n) s2) as (n' & s' & Hloop & Hsc' & Hs').
    + rewrite Hgs2. apply Hs2.
    + rewrite Hgs2. destruct Hs1 as (_ & Hu1 & _). unfold WIDTH in *. lia.
    + exists n', s'. split; [done|]. split; [by apply sameControl_trans with s2|].
      rewrite Hgs2 in Hs'. by apply gridStep_trans with g2.
Qed.

(** The animated [settleBoard] on a board without animation: after some
    turns of gravity and line clear it starts an animation of the moves of
    the last gravity, or calls [onComplete]. *)
Lemma settleAnimated_spec v spawn : ∀ (fuel : nat) k s,
  gridOk (grid s) → fallingAnimation s = None →
  usedCells v (grid s) < WIDTH * Z.of_nat fuel →
  ∃ s1,
    gridStep v (grid s) (grid s1) ∧ sameControl s s1 ∧
    ((∃ ms, ms ≠ [] ∧
        settleAnimated v spawn fuel k s =
          Ok (0, startFallAnimation v ms
                   (mkFallOptions None (Some (SettleAfter k)) (Some None)) s1)) ∨
     settleAnimated v spawn fuel k s = (s' ← runOnComplete spawn k s1; Ok (0, s'))).
Proof.
  induction fuel as [|fuel IH]; intros k s Hg Han Hfuel.
  { pose proof (usedCells_nonneg v (grid s)). lia. }
  cbn [settleAnimated]. rewrite Han.
  destruct (applyGravity_gridStep v true s Hg) as (mv & ms & g1 & Hgrav & Hs1).
  rewrite Hgrav. cbn [mbind result_mbind result_bind].
  case_bool_decide as Hms.
  { exists (setHoveredBlock None (setGrid g1 s)). split; [done|]. split; [by repeat split|].
    left. exists ms. split; [|done]. intros ->. simpl in Hms. lia. }
  destruct (clearFullLines_gridStep v (setGrid g1 s) (proj1 Hs1))
    as (g2 & n & Hclr & Hs2 & Hn & Hu2).
  cbn [grid setGrid] in Hs2, Hu2.
  rewrite Hclr. cbn [mbind result_mbind result_bind].
  pose proof (gridStep_trans v _ _ _ Hs1 Hs2) as Hs12.
  match goal with |- context [runOnComplete spawn k ?st] => set (s2 := st) in * end.
  assert (grid s2 = g2 ∧ sameControl s s2) as (Hgs2 & Hsc).
  { unfold s2. case_bool_decide; cbn; repeat split. }
  case_bool_decide as Hn0.
  - destruct (IH k (setScore (score s2 + n) s2)) as (s3 & Hs3 & Hsc3 & Hres).
    + cbn [grid setScore]. rewrite Hgs2. apply Hs2.
    + cbn [fallingAnimation setScore]. destruct Hsc as (_ & _ & _ & -> & _). done.
    + cbn [grid setScore]. rewrite Hgs2. destruct Hs1 as (_ & Hu1 & _). unfold WIDTH in *. lia.
    + exists s3. cbn [grid setScore] in Hs3. rewrite Hgs2 in Hs3.
      split; [by apply gridStep_trans with g2|].
      split; [apply sameControl_trans with s2; [done|]|done].
      apply sameControl_trans with (setScore (score s2 + n) s2); [by repeat split|done].
  - exists s2. rewrite Hgs2. split; [done|]. split; [done|]. by right.
Qed.

(** [rowWouldClearLines] returns and restores every global. *)
Lemma rowWouldClearLines_restores v row s :
  gridOk (grid s) → Z.of_nat (length row) = WIDTH →
  ∃ b, rowWouldClearLines v (Some row) s = Ok (b, s).
Proof.
  intros Hg Hrow. unfold rowWouldClearLines.
  change (setFallingAnimation None (setSelectedBlock None (setHoveredBlock None s)))
    with (suspended s).
  destruct (moveBlocksUp_spec v (suspended s) Hg) as (g1 & Hup & Hg1 & _).
  rewrite Hup. cbn [mbind result_mbind result_bind].
  match type of Hup with _ = Ok ?st => set (s1 := st) in * end.
  destruct (insertRow_spec row s1 Hg1 Hrow) as (g2 & Hins & Hg2 & _).
  rewrite Hins. cbn [mbind result_mbind result_bind].
  match type of Hins with _ = Ok ?st => set (s2 := st) in * end.
  destruct (settleBoard_unanimated_aux v s2 Hg2)
    as (ns & s3 & Hrun & Hpass & Hpos & Hg3 & Hsc & Hscore).
  change (settleBoardPlain v false s2) with (settleBoardWith v (λ s, Ok s) false NoCallback s2).
  unfold settleBoardWith. cbn [negb]. rewrite Hrun.
  cbn [mbind result_mbind result_bind runOnComplete].
  match goal with |- context [restoreGridFromSnapshot _ ?st] => set (s4 := st) in * end.
  assert (grid s4 = grid s3 ∧ sameControl s3 s4) as [Hg4 Hsc4].
  { unfold s4. case_bool_decide; cbn; repeat split. }
  rewrite restoreGridFromSnapshot_spec.
  2:{ rewrite Hg4. unfold cloneGridCells. rewrite length_fmap.
      unfold gridOk in Hg, Hg3. lia. }
  cbn [mbind result_mbind result_bind].
  eexists. f_equal. f_equal. apply state_eq; cbn [grid topLine hoveredBlock score setGrid
      setTopLine setScore setHoveredBlock setSelectedBlock setFallingAnimation]; try done.
  - unfold cloneGridCells. rewrite <- list_fmap_compose.
    rewrite (list_fmap_ext _ id); [by rewrite list_fmap_id|].
    intros i c _. simpl. by rewrite !copyCell_id.
  - assert (sameControl (suspended s) s4) as (_ & Hnr & Hsm & _ & Hbc & Hrt & Hrc).
    { apply sameControl_trans with s3; [|done].
      apply sameControl_trans with s2; [|done]. by repeat split. }
    repeat split; cbn; try done.
Qed.

(** ** Spawning a row and settling keep the invariant *)

Lemma Core_step v s s' :
  Core v s → sameControl s s' → gridStep v (grid s) (grid s') → Core v s'.
Proof.
  intros (bc0 & [Hc Hb Hn]) (_ & Hnr & _ & _ & Hbc & _) (_ & _ & Hstep).
  exists bc0. rewrite Hnr, Hbc. split; [done|by apply Hstep|done].
Qed.

Lemma startFallAnimation_Some v ms opts s :
  ms ≠ [] →
  ∃ a, startFallAnimation v ms opts s = setFallingAnimation (Some a) s ∧
       finalize a = optFinalize opts.
Proof.
  intros Hms. unfold startFallAnimation. rewrite bool_decide_eq_false_2 by done.
  eexists. split; [done|]. done.
Qed.

Lemma rerollLoop_spec v : ∀ (fuel : nat) attempts s bc0,
  attempts ≤ 20 → 20 - attempts < Z.of_nat fuel →
  CoreOf v bc0 (grid s) (blockCounter s) (nextRow s) → is_Some (nextRow s) →
  ∃ n s' bc0',
    rerollLoop v fuel attempts s = Ok (n, s') ∧
    CoreOf v bc0' (grid s') (blockCounter s') (nextRow s') ∧ is_Some (nextRow s') ∧
    grid s' = grid s ∧ selectedBlock s' = selectedBlock s ∧
    fallingAnimation s' = fallingAnimation s.
Proof.
  induction fuel as [|fuel IH]; intros attempts s bc0 Hle Hfuel Hcore [row Hrow].
  { lia. }
  cbn [rerollLoop]. rewrite Hrow.
  destruct (rowWouldClearLines_restores v row s) as [b Hb].
  { apply (bi_ok _ _ _ (core_board _ _ _ _ _ Hcore)). }
  { apply (ro_length _ _ _ _ (core_next _ _ _ _ _ Hcore row Hrow)). }
  rewrite Hb. cbn [mbind result_mbind result_bind].
  destruct (b && bool_decide (attempts < 20)) eqn:Hgo.
  - apply andb_true_iff in Hgo as [_ Hlt%bool_decide_eq_true].
    destruct (generateNextRow_shape v s) as (row' & s1 & Hgen & Hrow' & Hg1 & Hsel1 & Han1 & _).
    rewrite Hgen. cbn [mbind result_mbind result_bind].
    destruct (IH (attempts + 1) (setNextRow (Some row') s1) (blockCounter s))
      as (n & s' & bc0' & Hloop & Hcore' & Hnext' & Hg' & Hsel' & Han').
    + lia.
    + lia.
    + cbn [grid blockCounter nextRow setNextRow]. rewrite Hg1. split.
      * apply (ro_mono _ _ _ _ Hrow').
      * apply (BoardInv_mono v bc0); [apply Hcore|apply Hcore].
      * intros r [= <-]. done.
    + cbn. eauto.
    + exists n, s', bc0'. cbn [grid selectedBlock fallingAnimation setNextRow] in *.
      split; [done|]. split; [done|]. split; [done|]. split_and!; congruence.
  - exists attempts, s, bc0. split; [done|]. split; [done|]. split; [eauto|done].
Qed.

Lemma settleBoardPlain_spec v animate s bc0 :
  BoardInv v bc0 (grid s) → Idle s →
  ∃ n s',
    settleBoardPlain v animate s = Ok (n, s') ∧
    BoardInv v bc0 (grid s') ∧ blockCounter s' = blockCounter s ∧
    selectedBlock s' = None ∧
    (∀ a, fallingAnimation s' = Some a → finalize a = None) ∧
    (animate = false → fallingAnimation s' = None).
Proof.
  intros Hinv [Hsel Han]. pose proof (bi_ok _ _ _ Hinv) as Hg.
  unfold settleBoardPlain, settleBoardWith. destruct animate; cbn [negb].
  - destruct (settleAnimated_spec v (λ s, Ok s) settleFuel NoCallback s Hg Han
                (settleFuel_enough v _ Hg))
      as (s1 & (_ & _ & Hstep) & (Hsel1 & _ & _ & Han1 & Hbc1 & _) & Hres).
    destruct Hres as [(ms & Hms & Hres)|Hres]; rewrite Hres.
    + destruct (startFallAnimation_Some v ms
                  (mkFallOptions None (Some (SettleAfter NoCallback)) (Some None)) s1 Hms)
        as (a & -> & Hfin).
      eexists _, _. split; [done|]. cbn. split; [by apply Hstep|]. split; [done|].
      split; [congruence|]. split; [|done]. intros a' [= <-]. done.
    + cbn [runOnComplete mbind result_mbind result_bind].
      eexists _, _. split; [done|]. split; [by apply Hstep|]. split; [done|].
      split; [congruence|]. split; [|done]. intros a' Ha'. congruence.
  - destruct (settleSyncLoop_gridStep v settleFuel 0 s Hg (settleFuel_enough v _ Hg))
      as (n & s1 & Hloop & (Hsel1 & _ & _ & Han1 & Hbc1 & _) & (_ & _ & Hstep)).
    rewrite Hloop. cbn [runOnComplete mbind result_mbind result_bind].
    eexists _, _. split; [done|].
    case_bool_decide; cbn [grid blockCounter selectedBlock fallingAnimation setScore].
    + split; [by apply Hstep|]. split; [done|]. split; [congruence|].
      split; [|congruence]. intros a' Ha'. congruence.
    + split; [by apply Hstep|]. split; [done|]. split; [congruence|].
      split; [|congruence]. intros a' Ha'. congruence.
Qed.

(** [spawnBlocks] on a board at rest returns, and leaves a board that
    satisfies the invariant. *)
Lemma spawnBlocks_spec v animate s :
  Core v s → Idle s →
  ∃ s', spawnBlocks v animate s = Ok s' ∧ Quiet v s' ∧
        (animate = false → fallingAnimation s' = None).
Proof.
  intros (bc0 & Hcore) [Hsel Han]. unfold spawnBlocks.
  assert (∃ s1 bc1,
            match nextRow s with
            | Some _ => Ok s
            | None => '(row, s) ← generateNextRow v s; Ok (setNextRow (Some row) s)
            end = Ok s1 ∧
            CoreOf v bc1 (grid s1) (blockCounter s1) (nextRow s1) ∧ is_Some (nextRow s1) ∧
            Idle s1) as (s1 & bc1 & -> & Hcore1 & Hnext1 & Hidle1).
  { destruct (nextRow s) as [row|] eqn:Hrow.
    - exists s, bc0. rewrite Hrow. split; [done|]. split; [done|]. split; [eauto|done].
    - destruct (generateNextRow_shape v s) as (row' & s1 & Hgen & Hrow' & Hg1 & Hsel1 & Han1 & _).
      rewrite Hgen. cbn [mbind result_mbind result_bind].
      eexists _, (blockCounter s). split; [done|].
      cbn [grid blockCounter nextRow setNextRow]. rewrite Hg1. split; [split|].
      + apply (ro_mono _ _ _ _ Hrow').
      + apply (BoardInv_mono v bc0); [apply Hcore|apply Hcore].
      + intros r [= <-]. done.
      + split; [eauto|]. split; cbn; congruence. }
  cbn [mbind result_mbind result_bind].
  destruct (rerollLoop_spec v 21 0 s1 bc1 ltac:(lia) ltac:(lia) Hcore1 Hnext1)
    as (n & s2 & bc2 & -> & Hcore2 & Hnext2 & Hg2 & Hsel2 & Han2).
  cbn [mbind result_mbind result_bind].
  match goal with |- context [moveBlocksUp v ?st] => set (s3 := st) in * end.
  assert (∃ bc3 row, CoreOf v bc3 (grid s3) (blockCounter s3) (nextRow s3) ∧
            nextRow s3 = Some row ∧ Idle s3) as (bc3 & row & Hcore3 & Hrow3 & Hsel3 & Han3).
  { destruct Hidle1 as [? ?]. unfold s3. case_bool_decide.
    - exists (blockCounter s2). eexists. unfold Idle. cbn. split; [split|].
      + done.
      + apply (BoardInv_mono v bc2); [apply Hcore2|apply Hcore2].
      + intros r [= <-]. apply RowOk_empty.
      + split; [done|]. split; congruence.
    - destruct Hnext2 as [row Hrow]. exists bc2, row. split; [done|]. split; [done|].
      split; congruence. }
  clearbody s3.
  pose proof (core_board _ _ _ _ _ Hcore3) as Hinv3.
  pose proof (core_next _ _ _ _ _ Hcore3 row Hrow3) as Hrowok.
  destruct (moveBlocksUp_spec v s3 (bi_ok _ _ _ Hinv3)) as (g4 & -> & Hg4 & Hcell4).
  cbn [mbind result_mbind result_bind nextRow setGrid setTopLine]. rewrite Hrow3.
  cbn [fromOption mbind result_mbind result_bind].
  match goal with |- context [insertRow row ?st] => set (s4 := st) in * end.
  destruct (insertRow_spec row s4 Hg4 (ro_length _ _ _ _ Hrowok)) as (g5 & -> & Hg5 & Hcell5).
  cbn [mbind result_mbind result_bind].
  assert (BoardInv v (blockCounter s3) g5) as Hinv5.
  { destruct (BoardInv_shifted v bc3 (grid s3) g4 Hinv3 Hg4 Hcell4) as [Hinv4 _].
    apply (BoardInv_inserted v bc3 _ g4 g5 row); try done.
    intros p Hon Hy. rewrite Hcell4 by done. by rewrite bool_decide_eq_false_2 by lia. }
  destruct (settleBoardPlain_spec v animate (setGrid g5 s4) (blockCounter s3))
    as (n6 & s6 & -> & Hinv6 & Hbc6 & Hsel6 & Han6 & Hsync); [done|done|].
  cbn [mbind result_mbind result_bind].
  destruct (generateNextRow_shape v s6) as (row7 & s7 & -> & Hrow7 & Hg7 & Hsel7 & Han7 & _).
  cbn [mbind result_mbind result_bind].
  eexists. split; [done|]. cbn in Hbc6. split; [split|].
  - exists (blockCounter s6). cbn [grid blockCounter nextRow setNextRow]. rewrite Hg7. split.
    + apply (ro_mono _ _ _ _ Hrow7).
    + by rewrite Hbc6.
    + intros r [= <-]. done.
  - cbn. split; [congruence|]. intros a Ha. apply Han6. congruence.
  - intros Hfalse. cbn. rewrite Han7. by apply Hsync.
Qed.

(** The animated [settleBoard] with its callback, on a board without held
    block. *)
Lemma settleBoard_Quiet v k s :
  Quiet v s → ∃ n s', settleBoard v true k s = Ok (n, s') ∧ Quiet v s'.
Proof.
  intros (Hcore & Hsel & Hfin). unfold settleBoard, settleBoardWith. cbn [negb].
  destruct (fallingAnimation s) as [a|] eqn:Han.
  { unfold settleFuel. cbn [settleAnimated]. rewrite Han.
    eexists _, _. split; [done|]. split; [done|]. split; [done|].
    cbn. intros a' [= <-]. cbn. by apply Hfin. }
  assert (gridOk (grid s)) as Hg.
  { destruct Hcore as (bc0 & Hc). apply (bi_ok _ _ _ (core_board _ _ _ _ _ Hc)). }
  destruct (settleAnimated_spec v (spawnBlocks v true) settleFuel k s Hg Han
              (settleFuel_enough v _ Hg)) as (s1 & Hstep & Hsc & Hres).
  pose proof (Core_step v s s1 Hcore Hsc Hstep) as Hcore1.
  destruct Hsc as (Hsel1 & _ & _ & Han1 & _).
  destruct Hres as [(ms & Hms & ->) | ->].
  - destruct (startFallAnimation_Some v ms
                (mkFallOptions None (Some (SettleAfter k)) (Some None)) s1 Hms)
      as (a & -> & Hfin1).
    eexists _, _. split; [done|]. split; [done|]. split; [cbn; congruence|].
    cbn. intros a' [= <-]. done.
  - assert (Quiet v s1) as Hq1.
    { split; [done|]. split; [congruence|]. intros a Ha. congruence. }
    destruct k as [|[|]]; cbn [runOnComplete mbind result_mbind result_bind].
    + by eexists _, _.
    + destruct (spawnBlocks_spec v true s1 Hcore1) as (s' & -> & Hq' & _).
      { split; congruence. }
      cbn [mbind result_mbind result_bind]. by eexists _, _.
    + by eexists _, _.
Qed.

(** ** The listeners keep the invariant *)

Lemma Quiet_Inv v s : Quiet v s → Inv v s.
Proof.
  intros ((bc0 & Hcore) & Hsel & Hfin). exists bc0. split; [done|]. split.
  - intros sel Hs. congruence.
  - intros a f Ha Hf. rewrite (Hfin a Ha) in Hf. discriminate.
Qed.

Lemma bool_decide_is_Some {A} (x : A) : bool_decide (is_Some (Some x)) = true.
Proof. apply bool_decide_eq_true_2. eauto. Qed.

Lemma bool_decide_is_None {A} : bool_decide (is_Some (@None A)) = false.
Proof. apply bool_decide_eq_false_2. intros [? ?]. discriminate. Qed.

Lemma shift_zero (cells : list pos) : (λ '(x, y), (x + 0, y)) <$> cells = cells.
Proof.
  induction cells as [|[x y] cells IH]; [done|]. cbn [fmap list_fmap] in *.
  rewrite IH. by rewrite Z.add_0_r.
Qed.

Lemma BlockShape_shift cells o :
  BlockShape cells → BlockShape ((λ '(x, y), (x + o, y)) <$> cells).
Proof.
  intros [Hne Hrow Hrun]. split.
  - intros H%fmap_nil_inv. done.
  - intros p q ([px py] & -> & Hp)%list_elem_of_fmap ([qx qy] & -> & Hq)%list_elem_of_fmap.
    apply (Hrow _ _ Hp Hq).
  - intros p q x ([px py] & -> & Hp)%list_elem_of_fmap ([qx qy] & -> & Hq)%list_elem_of_fmap Hx.
    cbn [fst snd] in *. apply list_elem_of_fmap. exists (x - o, py).
    split; [f_equal; lia|]. apply (Hrun (px, py) (qx, qy) (x - o) Hp Hq). cbn. lia.
Qed.

Lemma Held_selCells v bc0 g sel :
  Held v bc0 g sel →
  selCells sel ≠ [] ∧ BlockShape (selCells sel) ∧
  ∀ p, p ∈ selCells sel →
    onBoard p ∧ ∃ c, cellAt g p = Some c ∧ isEmptyCell v c = true.
Proof.
  intros [Hid Hcol Hshape Hrows Hplace Hcells]. rewrite Hcells. split; [|split].
  - intros H%fmap_nil_inv. by destruct Hshape.
  - by apply BlockShape_shift.
  - intros p ([x y] & -> & Hq)%list_elem_of_fmap.
    destruct (Hplace x y Hq) as [Hx (c & Hc & He)].
    split; [split; cbn; [lia|apply (Hrows x y Hq)]|].
    exists c. split; [by apply cellAt_gridGet|done].
Qed.

Lemma Held_mono v bc0 bc0' g sel : (bc0 ≤ bc0')%nat → Held v bc0 g sel → Held v bc0' g sel.
Proof.
  intros Hle [(id & ? & ? & ?) ? ? ? ? ?]. split; try done. exists id. split; [done|].
  split; [lia|done].
Qed.

Lemma Pending_mono v bc0 bc0' g f : (bc0 ≤ bc0')%nat → Pending v bc0 g f → Pending v bc0' g f.
Proof.
  intros Hle [(id & ? & ? & ?) ? ? ?]. split; try done. exists id. split; [done|].
  split; [lia|done].
Qed.

(** Writing a block that is off the grid, then settling. *)
Lemma finalizePlacement_spec v bc0 s cells c bid d b :
  CoreOf v bc0 (grid s) (blockCounter s) (nextRow s) → Idle s →
  (∃ id, bid = Some id ∧ (id ≤ bc0)%nat ∧ absent (grid s) id) →
  c ≠ COLOR_BACKGROUND v → BlockShape cells →
  (∀ p, p ∈ cells →
     onBoard (p.1, p.2 + d) ∧
     ∃ c', cellAt (grid s) (p.1, p.2 + d) = Some c' ∧ isEmptyCell v c' = true) →
  ∃ s', finalizePlacement v cells c bid d b s = Ok s' ∧ Quiet v s'.
Proof.
  intros Hcore [Hsel Han] (id & -> & Hid & Habs) Hc Hshape Hfree.
  pose proof (core_board _ _ _ _ _ Hcore) as Hboard.
  unfold finalizePlacement.
  destruct (place_spec cells d c (Some id) (grid s) (bi_ok _ _ _ Hboard)) as (-> & Hg' & _).
  { intros p Hp. by destruct (Hfree p Hp). }
  cbn [mbind result_mbind result_bind].
  destruct (BoardInv_place v bc0 (grid s) id cells d c Hboard Habs Hid Hc Hshape)
    as (Hboard' & _).
  { intros p Hp. by destruct (Hfree p Hp). }
  { intros p Hp. by destruct (Hfree p Hp). }
  destruct (settleBoard_Quiet v (SpawnIf b) (setGrid (place cells d c (Some id) (grid s)) s))
    as (n & s' & -> & Hq).
  { split; [|split].
    - exists bc0. split; [apply Hcore|done|apply Hcore].
    - done.
    - cbn. intros a Ha. congruence. }
  cbn [mbind result_mbind result_bind]. eexists. split; [done|]. by destruct v.
Qed.

Lemma forEachM_runContinuation v ks : ∀ s,
  Quiet v s → ∃ s', forEachM (runContinuation v) ks s = Ok s' ∧ Quiet v s'.
Proof.
  induction ks as [|[k] ks IH]; intros s Hq; [by exists s|].
  cbn [forEachM runContinuation].
  destruct (settleBoard_Quiet v k s Hq) as (n & s1 & -> & Hq1).
  cbn [mbind result_mbind result_bind]. by apply IH.
Qed.

Lemma ensureNextRow_Inv v s :
  Inv v s →
  ∃ s1,
    match nextRow s with
    | Some _ => Ok s
    | None => '(row, s) ← generateNextRow v s; Ok (setNextRow (Some row) s)
    end = Ok s1 ∧ Inv v s1.
Proof.
  intros Hinv. destruct (nextRow s) as [row|] eqn:Hrow; [by exists s|].
  destruct Hinv as (bc0 & Hcore & HselInv & HanInv).
  destruct (generateNextRow_shape v s) as (row' & s1 & -> & Hrow' & Hg1 & Hsel1 & Han1 & _).
  cbn [mbind result_mbind result_bind]. eexists. split; [done|].
  pose proof (core_counter _ _ _ _ _ Hcore) as Hle.
  exists (blockCounter s).
  cbn [grid blockCounter nextRow selectedBlock fallingAnimation setNextRow].
  rewrite Hg1, Hsel1, Han1. split; [split|split].
  - apply (ro_mono _ _ _ _ Hrow').
  - apply (BoardInv_mono v bc0); [done|apply Hcore].
  - intros r [= <-]. done.
  - intros sel Hs. destruct (HselInv sel Hs) as [? ?]. split; [done|].
    by apply (Held_mono v bc0).
  - intros a f Ha Hf. by apply (Pending_mono v bc0), (HanInv a f).
Qed.

Lemma trySelectBlock_Inv v button pointer s :
  Inv v s → ∃ s', trySelectBlock v button pointer s = Ok s' ∧ Inv v s'.
Proof.
  intros Hinv. unfold trySelectBlock.
  destruct (selectedBlock s) as [sel|] eqn:Hsel.
  { rewrite bool_decide_is_Some. cbn [orb]. by exists s. }
  destruct (fallingAnimation s) as [an|] eqn:Han.
  { rewrite bool_decide_is_Some, orb_true_r. by exists s. }
  rewrite (@bool_decide_is_None Selection), (@bool_decide_is_None Animation). cbn [orb].
  case_bool_decide as Hb; [by exists s|].
  set (cx := cellOfPointer pointer.1). set (cy := cellOfPointer pointer.2).
  destruct (inBounds cx cy) eqn:Hin; cbn [negb]; [|by exists s].
  apply inBounds_spec in Hin.
  pose proof Hinv as (bc0 & Hcore & _).
  pose proof (core_board _ _ _ _ _ Hcore) as Hboard. pose proof (bi_ok _ _ _ Hboard) as Hg.
  destruct (cellAt_is_Some (grid s) (cx, cy) Hg Hin) as [start Hstart].
  rewrite (proj1 (cellAt_gridGet _ _ _ _) Hstart). cbn [mbind result_mbind result_bind].
  destruct (isEmptyCell v start) eqn:Hempty; [by exists s|].
  destruct (blockId start) as [id|] eqn:Hid.
  2:{ apply (bi_cells _ _ _ Hboard _ _ Hin Hstart) in Hid. congruence. }
  destruct (collectBlockCells_spec (grid s) cx cy id Hg) as (cells & -> & Hcd).
  cbn [mbind result_mbind result_bind].
  case_bool_decide as Hnil; [by exists s|].
  assert (carries (grid s) (Some id) (cx, cy)) as Hcar by (split; [done|by exists start]).
  pose proof (Collected_complete v bc0 _ id _ _ Hboard Hcd Hcar) as Hiff.
  destruct (BoardInv_vacate v bc0 _ id cells Hboard Hiff) as (Hboard' & Habs & _ & _).
  destruct (vacate_spec v cells (grid s) Hg) as (-> & Hg' & Hcell').
  { intros p Hp. by destruct (proj1 (Hiff p) Hp). }
  cbn [mbind result_mbind result_bind].
  eexists. split; [done|]. exists bc0.
  assert (Held v bc0 (vacate v cells (grid s))
            (mkSelection (color start) (Some id) cells cells 0 pointer.1)) as Hheld.
  { split; cbn [selBlockId selColor baseCells selCells offset].
    - exists id. split; [done|]. split; [by apply (bi_ids _ _ _ Hboard (cx, cy))|done].
    - unfold isEmptyCell in Hempty. by apply bool_decide_eq_false in Hempty.
    - by apply (BoardInv_blockShape v bc0 (grid s) id).
    - intros x y Hxy. by destruct (proj1 (Hiff _) Hxy) as [[_ ?] _].
    - intros x y Hxy. destruct (proj1 (Hiff _) Hxy) as [[Hx Hy] _]. cbn [fst snd] in Hx, Hy.
      rewrite Z.add_0_r. split; [lia|]. exists (emptyCell v).
      split; [|apply isEmptyCell_emptyCell]. apply cellAt_gridGet.
      rewrite Hcell' by (split; cbn; lia). by rewrite decide_True.
    - by rewrite shift_zero. }
  destruct v; cbn [grid blockCounter nextRow selectedBlock fallingAnimation setGrid
                   setSelectedBlock setHoveredBlock setSelectionMoved].
  all: split; [split; [apply Hcore|done|apply Hcore]|].
  all: split; [intros sel' [= <-]; by split|].
  all: intros a f Ha; congruence.
Qed.

Lemma applyOffset_Inv v wanted s :
  Inv v s → ∃ s', applyOffset v wanted s = Ok s' ∧ Inv v s'.
Proof.
  intros Hinv. unfold applyOffset.
  destruct (selectedBlock s) as [sel|] eqn:Hsel; [|by exists s].
  case_bool_decide as Hw; [by exists s|].
  pose proof Hinv as (bc0 & Hcore & HselInv & _).
  destruct (HselInv sel Hsel) as [Han Hheld].
  pose proof (bi_ok _ _ _ (core_board _ _ _ _ _ Hcore)) as Hg.
  set (dir := if bool_decide (wanted > offset sel) then 1 else -1).
  destruct (offsetLoop_spec v (grid s) (baseCells sel) dir wanted Hg (held_rows _ _ _ _ Hheld)
              ltac:(unfold dir; case_bool_decide; lia)
              (S (Z.abs_nat (wanted - offset sel))) (Z.abs_nat (wanted - offset sel))
              (offset sel)) as (m & Hm & -> & Hplace & _).
  { unfold dir. case_bool_decide; lia. }
  { lia. }
  cbn [mbind result_mbind result_bind].
  case_bool_decide as Hsame; [by exists s|].
  eexists. split; [done|]. exists bc0.
  assert (Held v bc0 (grid s)
            (mkSelection (selColor sel) (selBlockId sel) (baseCells sel)
               ((λ '(x, y), (x + (offset sel + dir * Z.of_nat m), y)) <$> baseCells sel)
               (offset sel + dir * Z.of_nat m) (pointerStartX sel))) as Hheld'.
  { destruct Hheld. split; cbn [selBlockId selColor baseCells selCells offset]; try done.
    apply Hplace. destruct m; [|lia]. rewrite Z.mul_0_r, Z.add_0_r in Hsame. done. }
  destruct v; cbn [grid blockCounter nextRow selectedBlock fallingAnimation
                   setSelectedBlock setSelectionMoved].
  all: split; [done|].
  all: split; [intros sel' [= <-]; by split|].
  all: intros a f Ha; congruence.
Qed.

Lemma handleDrag_Inv v pointer s :
  Inv v s → ∃ s', handleDrag v pointer s = Ok s' ∧ Inv v s'.
Proof.
  intros Hinv. unfold handleDrag. destruct (selectedBlock s); [|by exists s].
  by apply applyOffset_Inv.
Qed.

Lemma updateHoveredBlock_hover v pointer s :
  gridOk (grid s) → ∃ h, updateHoveredBlock v pointer s = Ok (setHoveredBlock h s).
Proof.
  intros Hg. unfold updateHoveredBlock. case_bool_decide; [by eexists|].
  set (cx := cellOfPointer pointer.1). set (cy := cellOfPointer pointer.2).
  destruct (inBounds cx cy) eqn:Hin; cbn [negb]; [|by eexists].
  apply inBounds_spec in Hin.
  destruct (cellAt_is_Some (grid s) (cx, cy) Hg Hin) as [c Hc].
  rewrite (proj1 (cellAt_gridGet _ _ _ _) Hc). cbn [mbind result_mbind result_bind].
  destruct (isEmptyCell v c); [by eexists|].
  destruct (blockId c) as [id|].
  - destruct (collectBlockCells_spec (grid s) cx cy id Hg) as (cells & -> & _).
    cbn [mbind result_mbind result_bind]. by eexists.
  - cbn [collectBlockCells mbind result_mbind result_bind]. by eexists.
Qed.

Lemma handleMouseUp_Inv v s : Inv v s → ∃ s', handleMouseUp v s = Ok s' ∧ Inv v s'.
Proof.
  intros Hinv. unfold handleMouseUp, dropSelectedBlock.
  destruct (selectedBlock s) as [sel|] eqn:Hsel; [|by exists s].
  pose proof Hinv as (bc0 & Hcore & HselInv & _).
  destruct (HselInv sel Hsel) as [Han Hheld].
  pose proof (bi_ok _ _ _ (core_board _ _ _ _ _ Hcore)) as Hg.
  destruct (Held_selCells _ _ _ _ Hheld) as (Hne & Hshape & Hfree).
  destruct (computeDropDistance_spec v (grid s) (selCells sel) Hg Hne) as (d & -> & Hfalls).
  { intros p Hp. by destruct (Hfree p Hp). }
  cbn [mbind result_mbind result_bind plDropDistance plCells plColor plBlockId shouldSpawn].
  set (s0 := setSelectedBlock None s).
  match goal with |- context [mkFinalize _ _ _ _ ?x] => set (b := x) end.
  assert (CoreOf v bc0 (grid s0) (blockCounter s0) (nextRow s0)) as Hcore0 by done.
  assert (Idle s0) as Hidle0 by (by split).
  case_bool_decide as Hd0.
  - destruct (finalizePlacement_spec v bc0 s0 (selCells sel) (selColor sel) (selBlockId sel)
                d b Hcore0 Hidle0) as (s' & -> & Hq).
    + apply Hheld.
    + apply Hheld.
    + done.
    + intros [x y] Hp. rewrite Hd0. cbn [fst snd]. rewrite Z.add_0_r. by apply Hfree.
    + cbn [mbind result_mbind result_bind]. eexists. split; [done|].
      exact (Quiet_Inv v s' Hq).
  - match goal with |- context [startFallAnimation v ?ms ?opts s0] =>
      destruct (startFallAnimation_Some v ms opts s0) as (a & -> & Hfin); [done|]
    end.
    cbn [mbind result_mbind result_bind optFinalize] in *. eexists. split; [done|].
    exists bc0. unfold clearHover.
    cbn [grid blockCounter nextRow selectedBlock fallingAnimation setHoveredBlock
         setFallingAnimation s0 setSelectedBlock].
    split; [done|]. split; [intros sel' Hs'; discriminate|].
    intros a' f [= <-]. rewrite Hfin. intros [= <-].
    split; cbn [finBlockId finColor finCells finDrop].
    + apply Hheld.
    + apply Hheld.
    + done.
    + intros [x y] Hp. destruct Hfalls as (Hd' & Hall & _).
      destruct (Hall d ltac:(lia) x y Hp) as [Hy (c & Hc & He)].
      destruct (Hfree _ Hp) as [[Hx Hy0] _]. cbn [fst snd] in *.
      split; [split; cbn; lia|]. exists c. split; [by apply cellAt_gridGet|done].
Qed.

Lemma render_Inv v timestamp s : Inv v s → ∃ s', render v timestamp s = Ok s' ∧ Inv v s'.
Proof.
  intros Hinv. unfold render.
  assert (∃ d, match selectedBlock s with
               | Some sel => computeDropDistance v (grid s) (selCells sel)
               | None => Ok 0
               end = Ok d) as [d ->].
  { destruct (selectedBlock s) as [sel|] eqn:Hsel; [|by eexists].
    destruct Hinv as (bc0 & Hcore & HselInv & _). destruct (HselInv sel Hsel) as [_ Hheld].
    destruct (Held_selCells _ _ _ _ Hheld) as (Hne & _ & Hfree).
    destruct (computeDropDistance_spec v (grid s) (selCells sel)) as (d & Hd & _);
      [apply (bi_ok _ _ _ (core_board _ _ _ _ _ Hcore))|done| |by exists d].
    intros p Hp. by destruct (Hfree p Hp). }
  cbn [mbind result_mbind result_bind].
  destruct (ensureNextRow_Inv v s Hinv) as (s1 & -> & Hinv1).
  cbn [mbind result_mbind result_bind].
  destruct (fallingAnimation s1) as [anim|] eqn:Han; [|by exists s1].
  lazy zeta. cbn [finalize after].
  destruct Hinv1 as (bc0 & Hcore & HselInv & HanInv).
  assert (selectedBlock s1 = None) as Hsel.
  { destruct (selectedBlock s1) as [sel|] eqn:Hsel; [|done].
    destruct (HselInv sel eq_refl) as [? _]. congruence. }
  destruct (Qle_bool 1 _).
  2:{ eexists. split; [done|]. exists bc0.
      cbn [grid blockCounter nextRow selectedBlock fallingAnimation setFallingAnimation].
      split; [done|]. split; [intros sel Hs; congruence|].
      intros a f [= <-]. cbn [finalize]. by apply HanInv. }
  match goal with |- context [setFallingAnimation None ?st] =>
    set (s2 := setFallingAnimation None st) end.
  assert (CoreOf v bc0 (grid s2) (blockCounter s2) (nextRow s2)) as Hcore2 by done.
  assert (Idle s2) as Hidle2 by (by split).
  assert (∃ s3, match finalize anim with
                | Some f => runFinalize v f s2
                | None => Ok s2
                end = Ok s3 ∧ Quiet v s3) as (s3 & -> & Hq3).
  { destruct (finalize anim) as [f|] eqn:Hf.
    - destruct (HanInv anim f Han Hf) as [Hid Hcol Hshape Hfree].
      unfold runFinalize. by apply (finalizePlacement_spec v bc0).
    - exists s2. split; [done|]. split; [by exists bc0|]. split; [done|].
      intros a Ha. discriminate. }
  cbn [mbind result_mbind result_bind].
  destruct (forEachM_runContinuation v (after anim) s3 Hq3) as (s4 & -> & Hq4).
  exists s4. split; [done|]. by apply Quiet_Inv.
Qed.

Lemma handleEvent_Inv v e s : Inv v s → ∃ s', handleEvent v e s = Ok s' ∧ Inv v s'.
Proof.
  intros Hinv. destruct e as [button pointer|pointer over| | |timestamp]; cbn [handleEvent].
  - by apply trySelectBlock_Inv.
  - assert (∃ h, (if over then updateHoveredBlock v pointer s else Ok s)
                 = Ok (setHoveredBlock h s)) as [h ->].
    { destruct over.
      - apply updateHoveredBlock_hover. destruct Hinv as (bc0 & Hcore & _).
        apply (bi_ok _ _ _ (core_board _ _ _ _ _ Hcore)).
      - exists (hoveredBlock s). by destruct s. }
    cbn [mbind result_mbind result_bind]. by apply handleDrag_Inv.
  - by exists (clearHover s).
  - by apply handleMouseUp_Inv.
  - by apply render_Inv.
Qed.

Lemma cellAt_replicate n (c x : Cell) p : cellAt (replicate n c) p = Some x → x = c.
Proof.
  unfold cellAt. intros [_ H]%arrayGet_Some. by apply lookup_replicate in H as [-> _].
Qed.

Lemma initialState_Core v tape : Core v (initialState v tape) ∧ Idle (initialState v tape).
Proof.
  split; [|done]. exists O. cbn [initialState grid blockCounter nextRow]. split; [done| |done].
  split.
  - unfold gridOk. rewrite length_replicate. unfold WIDTH, HEIGHT. lia.
  - intros p c _ ->%cellAt_replicate. by rewrite isEmptyCell_emptyCell.
  - intros p id [_ (c & ->%cellAt_replicate & Hid)]. discriminate.
  - intros id p q [_ (c & ->%cellAt_replicate & Hid)]. discriminate.
  - intros id p q x [_ (c & ->%cellAt_replicate & Hid)]. discriminate.
Qed.

(** The script body returns and establishes the invariant. *)
Lemma bootstrap_spec v tape :
  ∃ s, bootstrap v tape = Ok s ∧ Quiet v s ∧ Idle s.
Proof.
  unfold bootstrap.
  destruct (forEachM_inv (λ (_ : list nat) s, Quiet v s ∧ Idle s)
              (λ _ s, spawnBlocks v false s) (seq 0 5) (initialState v tape))
    as (s & Hrun & Hq & Hidle).
  - destruct (initialState_Core v tape) as [Hcore Hidle]. split; [|done].
    split; [done|]. split; [apply Hidle|]. intros a Ha. destruct Hidle. congruence.
  - intros _ rest s [Hq Hidle].
    destruct (spawnBlocks_spec v false s (proj1 Hq) Hidle) as (s' & Hs' & Hq' & Han').
    exists s'. split; [done|]. split; [done|]. split; [apply Hq'|by apply Han'].
  - by exists s.
Qed.

Lemma reachable_Inv v s : reachable v s → Inv v s.
Proof.
  induction 1 as [tape s Hboot|s e s' _ IH Hstep].
  - destruct (bootstrap_spec v tape) as (s0 & Hs0 & Hq & _).
    rewrite Hboot in Hs0. injection Hs0 as ->. by apply Quiet_Inv.
  - destruct (handleEvent_Inv v e s IH) as (s0 & Hs0 & Hinv).
    rewrite Hstep in Hs0. by injection Hs0 as ->.
Qed.

(** No listener fails or runs for ever from a reachable state. *)
Lemma reachable_handleEvent_returns v s e :
  reachable v s → ∃ s', handleEvent v e s = Ok s' ∧ reachable v s'.
Proof.
  intros Hr. destruct (handleEvent_Inv v e s (reachable_Inv v s Hr)) as (s' & Hs' & _).
  exists s'. split; [done|]. by apply (reach_step v s e).
Qed.

Lemma forEachM_reachable v events : ∀ s s',
  reachable v s → forEachM (handleEvent v) events s = Ok s' → reachable v s'.
Proof.
  induction events as [|e events IH]; intros s s' Hr Hrun.
  - cbn [forEachM] in Hrun. by injection Hrun as <-.
  - cbn [forEachM] in Hrun. apply bind_Ok in Hrun as (s1 & Hs1 & Hrun).
    apply (IH s1); [|done]. by apply (reach_step v s e).
Qed.

Lemma play_reachable v tape events s : play v tape events = Ok s → reachable v s.
Proof.
  unfold play. intros (s0 & Hboot & Hrun)%bind_Ok.
  apply (forEachM_reachable v events s0); [|done]. by apply (reach_boot v tape).
Qed.

(** A session never fails: the script body returns, and so does every
    listener after it. *)
Lemma play_returns v tape events : ∃ s, play v tape events = Ok s.
Proof.
  unfold play. destruct (bootstrap_spec v tape) as (s0 & Hboot & Hq & _).
  rewrite Hboot. cbn [mbind result_mbind result_bind].
  assert (reachable v s0) as Hr by (by apply (reach_boot v tape)).
  clear Hboot Hq. revert s0 Hr. induction events as [|e events IH]; intros s0 Hr.
  - by exists s0.
  - cbn [forEachM]. destruct (reachable_handleEvent_returns v s0 e Hr) as (s1 & -> & Hr1).
    cbn [mbind result_mbind result_bind]. by apply IH.
Qed.

(** C10.  In every state that the globals reach between two listeners, that
    is after the script body and after any sequence of pointer events and
    animation frames, the cells of the grid that carry one block id lie in
    one row. *)
Theorem reachable_blocks_in_one_row (v : SourceFile) s :
  reachable v s →
  ∀ id p q, carries (grid s) (Some id) p → carries (grid s) (Some id) q → p.2 = q.2.
Proof.
  intros Hr id p q. destruct (reachable_Inv v s Hr) as (bc0 & Hcore & _).
  apply (bi_row _ _ _ (core_board _ _ _ _ _ Hcore)).
Qed.

Lemma reachable_blocks_in_one_row_witness :
  reachable IndexJs playedState ∧
  carries (grid playedState) (Some 1%nat) (0, 16) ∧
  carries (grid playedState) (Some 1%nat) (3, 16) ∧
  (0, 16).2 = (3, 16).2.
Proof.
  assert (reachable IndexJs playedState) as Hr.
  { apply (play_reachable IndexJs alternatingTape playedEvents). vm_compute. reflexivity. }
  assert (carries (grid playedState) (Some 1%nat) (0, 16)) as Hp.
  { split; [unfold onBoard, WIDTH, HEIGHT; cbn [fst snd]; lia|]. exists (mkCell "green" (Some 1%nat)).
    split; vm_compute; reflexivity. }
  assert (carries (grid playedState) (Some 1%nat) (3, 16)) as Hq.
  { split; [unfold onBoard, WIDTH, HEIGHT; cbn [fst snd]; lia|]. exists (mkCell "green" (Some 1%nat)).
    split; vm_compute; reflexivity. }
  split; [exact Hr|]. split; [exact Hp|]. split; [exact Hq|].
  exact (reachable_blocks_in_one_row IndexJs playedState Hr 1%nat (0, 16) (3, 16) Hp Hq).
Defined.

(** In a reachable state every id labels one connected block, so the flood
    fill from a cell of a block returns the block: the sweep of
    [applyGravity] then moves whole blocks, and a board it leaves alone has no
    block that can go down. *)
Lemma BoardInv_blocksConnected v bc g : BoardInv v bc g → blocksConnected g.
Proof.
  intros Hinv bid x y q cells Hs Hq Hcol.
  destruct (collectBlockCells_spec g x y bid (bi_ok _ _ _ Hinv)) as (cells' & Hcol' & Hcd).
  rewrite Hcol in Hcol'. injection Hcol' as <-.
  by apply (Collected_complete v bc g bid (x, y) cells Hinv Hcd Hs).
Qed.

Lemma reachable_blocksConnected v s : reachable v s → blocksConnected (grid s).
Proof.
  intros Hr. destruct (reachable_Inv v s Hr) as (bc0 & Hcore & _).
  apply (BoardInv_blocksConnected v bc0), Hcore.
Qed.

(** ** What the invariant gives for the other properties *)

Lemma reachable_BoardInv v s : reachable v s → ∃ bc, BoardInv v bc (grid s).
Proof.
  intros Hr. destruct (reachable_Inv v s Hr) as (bc0 & Hcore & _).
  exists bc0. apply Hcore.
Qed.


(** C3.  With no selection and no animation, [applyGravity] returns.  The
    grid it leaves is a fixed point: a second call moves nothing.  The grid
    is the result of a sequence of moves (the moves the call records when
    asked to), each of which empties and writes cells of the board only,
    and writes a block only onto cells that were empty when the move was
    made; no cell of any other block is overwritten.  On a board that
    satisfies the invariant of the data model, each id labelling one stretch
    of one row as in every reachable state, the final grid satisfies it too,
    the flood fill from a coloured cell returns its whole block, and no
    block of the final grid can go down a row, whether its own cells count
    as obstacles or are taken off the grid. *)
Theorem applyGravity_settles (v : SourceFile) collect s :
  gridOk (grid s) → selectedBlock s = None → fallingAnimation s = None →
  ∃ moved ms g',
    applyGravity v collect s = Ok (moved, ms, setGrid g' s) ∧
    gridOk g' ∧
    applyGravity v collect (setGrid g' s) = Ok (false, [], setGrid g' s) ∧
    (∃ log, Replay v (grid s) log g' ∧ (moved = true ↔ log ≠ []) ∧
            ms = if collect then log else []) ∧
    (∀ bc, BoardInv v bc (grid s) →
       BoardInv v bc g' ∧
       ∀ x y cell bid,
         onBoard (x, y) → cellAt g' (x, y) = Some cell →
         isEmptyCell v cell = false → blockId cell = Some bid →
         ∃ cells,
           collectBlockCells g' x y (Some bid) = Ok cells ∧
           (∀ p, p ∈ cells ↔ carries g' (Some bid) p) ∧
           ¬ landsFree v g' cells 1 ∧
           ¬ landsFree v (vacate v cells g') cells 1).
Proof.
  intros Hg Hsel Hanim.
  destruct (applyGravity_spec v collect s Hg Hsel Hanim)
    as (g' & log & Hrun & Hg' & Hrep & Hset & Hfix).
  eexists _, _, g'. split; [exact Hrun|]. split; [done|]. split; [done|]. split.
  { exists log. split; [done|]. split; [|done].
    destruct log; cbn; split; done. }
  intros bc Hinv.
  destruct (Replay_BoardInv v bc (grid s) log g' Hinv Hrep) as [Hinv' _].
  split; [done|].
  intros x y cell bid Hon Hcell He Hbid.
  destruct (Hset (x, y) cell bid Hon Hcell He Hbid)
    as (x0 & y0 & cells0 & Hc0 & Hcol0 & Hcd0 & Hstuck).
  destruct (collectBlockCells_spec g' x y bid Hg') as (cells & Hcol & Hcd).
  exists cells. split; [done|].
  assert (carries g' (Some bid) (x, y)) as Hxy by (split; [done|]; by exists cell).
  pose proof (Collected_complete v bc g' bid (x, y) cells Hinv' Hcd Hxy) as Hall.
  pose proof (Collected_complete v bc g' bid (x0, y0) cells0 Hinv' Hcd0 Hc0) as Hall0.
  split; [done|].
  assert (¬ landsFree v g' cells 1) as Hno.
  { intros Hl. apply Hstuck. apply (landsFree_perm v g' cells cells0 1); [|done].
    intros p. by rewrite Hall, Hall0. }
  split; [done|]. intros Hl. apply Hno.
  apply (landsFree_vacate v g' cells 1); [done| | |lia|done].
  - intros p Hp. by destruct (co_carries _ _ _ _ Hcd p Hp).
  - intros p q Hp Hq. apply (bi_row _ _ _ Hinv' bid); by apply Hall.
Qed.

Lemma applyGravity_settles_witness :
  let s := stateOfGrid (floatingBoard IndexJs) 3 in
  gridOk (grid s) ∧ selectedBlock s = None ∧ fallingAnimation s = None ∧
  ∃ moved ms g',
    applyGravity IndexJs true s = Ok (moved, ms, setGrid g' s) ∧
    applyGravity IndexJs true (setGrid g' s) = Ok (false, [], setGrid g' s).
Proof.
  intros s.
  assert (gridOk (grid s)) as Hg by (vm_compute; reflexivity).
  split; [exact Hg|]. split; [reflexivity|]. split; [reflexivity|].
  destruct (applyGravity_settles IndexJs true s Hg eq_refl eq_refl)
    as (moved & ms & g' & Hrun & _ & Hfix & _).
  exists moved, ms, g'. split; [exact Hrun|exact Hfix].
Defined.

(** ** The counterexamples, met in play *)

(** The return trip of [return_trip_run] after the script body: the block
    is back at offset 0, and the placement of its release carries the
    flag. *)
Example return_trip_in_play :
  ∃ s sel p s',
    play IndexJs alternatingTape returnTripEvents = Ok s ∧
    selectedBlock s = Some sel ∧ offset sel = 0 ∧
    dropSelectedBlock IndexJs s = Ok (Some p, s') ∧
    shouldSpawn p = true.
Proof.
  do 4 eexists.
  split; [vm_compute; reflexivity|].
  split; [vm_compute; reflexivity|].
  split; [vm_compute; reflexivity|].
  split; vm_compute; reflexivity.
Qed.

(** A block held above an overhang, after the script body and a drag: the
    cell below it belongs to block 2, so the drop distance is 0, while the
    cell two rows down, under the overhang, is free. *)
Example release_over_overhang :
  ∃ s sel,
    play IndexJs overhangTape overhangEvents = Ok s ∧
    selectedBlock s = Some sel ∧ selCells sel = [(2, 17)] ∧
    cellAt (grid s) (2, 18) = Some (mkCell "green" (Some 2%nat)) ∧
    computeDropDistance IndexJs (grid s) (selCells sel) = Ok 0 ∧
    landsFree IndexJs (grid s) (selCells sel) 2.
Proof.
  do 2 eexists.
  split; [vm_compute; reflexivity|].
  split; [vm_compute; reflexivity|].
  split; [vm_compute; reflexivity|].
  split; [vm_compute; reflexivity|].
  split; [vm_compute; reflexivity|].
  cbn [selCells]. intros x y [= -> ->]%list_elem_of_singleton.
  split; [unfold HEIGHT; lia|]. eexists. split; [vm_compute; reflexivity|reflexivity].
Qed.

(** So the drop distance at release is not the largest free landing in
    every reachable state either. *)
Lemma drop_not_maximal_in_play :
  ¬ ∀ s sel d,
      reachable IndexJs s → selectedBlock s = Some sel →
      computeDropDistance IndexJs (grid s) (selCells sel) = Ok d →
      maximalLanding IndexJs (grid s) (selCells sel) d.
Proof.
  intros H. destruct release_over_overhang as (s & sel & Hplay & Hsel & _ & _ & Hd & Hfree).
  destruct (H s sel 0 (play_reachable _ _ _ _ Hplay) Hsel Hd) as (_ & _ & Hmax).
  specialize (Hmax 2 ltac:(lia) Hfree). lia.
Qed.

(** The second call of [spawnBlocks] of the script body, with
    [stubbornTape]: the held row and 19 regenerated rows would clear a line,
    the row of the twentieth retry would not, and the all-empty row is
    inserted in its place. *)
Example script_discards_twentieth_retry :
  ∃ s1 s2 c20 s3,
    spawnBlocks IndexJs false (initialState IndexJs stubbornTape) = Ok s1 ∧
    rerollLoop IndexJs 21 0 s1 = Ok (20, s2) ∧
    nextRow s2 = Some c20 ∧
    arrayGet c20 0 = Some (mkCell "green" (Some 42%nat)) ∧
    rowWouldClearLines IndexJs (Some c20) s2 = Ok (false, s2) ∧
    spawnBlocks IndexJs false s1 = Ok s3 ∧
    cellAt (grid s3) (0, 19) = Some (emptyCell IndexJs) ∧
    cellAt (grid s3) (7, 19) = Some (mkCell "green" (Some 1%nat)).
Proof.
  do 4 eexists.
  split; [vm_compute; reflexivity|].
  split; [vm_compute; reflexivity|].
  split; [vm_compute; reflexivity|].
  split; [vm_compute; reflexivity|].
  split; [vm_compute; reflexivity|].
  split; [vm_compute; reflexivity|].
  split; vm_compute; reflexivity.
Qed.

(** * More of the engine *)

(** ** The layout of the grid array *)

(** X1.  [idx] lays the board out row by row: it sends the cells of the
    board onto the indices of the grid array, one to one, and the cell of an
    index is its remainder and quotient by [WIDTH].  Off the board it
    aliases: the column after the last one is the first column of the next
    row, which is why the callers test the column before they index. *)
Theorem idx_row_major :
  (∀ p, onBoard p → 0 ≤ idx p.1 p.2 < WIDTH * HEIGHT) ∧
  (∀ p q, onBoard p → onBoard q → idx p.1 p.2 = idx q.1 q.2 → p = q) ∧
  (∀ i, 0 ≤ i < WIDTH * HEIGHT →
     onBoard (i `mod` WIDTH, i `div` WIDTH) ∧ idx (i `mod` WIDTH) (i `div` WIDTH) = i) ∧
  (∀ y, idx WIDTH y = idx 0 (y + 1) ∧ idx (-1) (y + 1) = idx (WIDTH - 1) y).
Proof.
  split; [|split; [|split]].
  - intros [x y] [Hx Hy]. by apply idx_range.
  - intros [x y] [x' y'] [Hx _] [Hx' _] H. cbn [fst snd] in *.
    destruct (idx_inj x y x' y' Hx Hx' H) as [-> ->]. done.
  - intros i Hi. unfold onBoard, idx, WIDTH, HEIGHT in *. cbn [fst snd].
    pose proof (Z.mod_pos_bound i 10 ltac:(lia)).
    pose proof (Z.div_mod i 10 ltac:(lia)).
    assert (0 ≤ i `div` 10 < 20).
    { split; [apply Z.div_pos; lia|apply Z.div_lt_upper_bound; lia]. }
    lia.
  - intros y. unfold idx, WIDTH. lia.
Qed.

(** ** The flood fill *)

Lemma collectBlockCells_foreign g x y id :
  gridOk g → ¬ carries g (Some id) (x, y) → collectBlockCells g x y (Some id) = Ok [].
Proof.
  intros Hg Hno. unfold collectBlockCells.
  assert (∃ fuel, collectFuel = S (S fuel)) as (fuel & ->) by (exists 264%nat; reflexivity).
  cbn [collectLoop]. destruct (inBounds x y) eqn:Hin; cbn [negb]; [|done].
  apply inBounds_spec in Hin.
  destruct (cellAt_is_Some g (x, y) Hg Hin) as [c Hc].
  rewrite (proj1 (cellAt_gridGet _ _ _ _) Hc). cbn [mbind result_mbind result_bind].
  destruct (decide (blockId c = Some id)) as [Heq|Hne].
  - exfalso. apply Hno. split; [done|]. by exists c.
  - by rewrite bool_decide_eq_true_2 by done.
Qed.

(** X2.  [collectBlockCells] returns on every grid of [WIDTH * HEIGHT] cells
    and from every start, on the board or off it.  For the null id the
    result is empty.  For an id, the result lists cells of the board that
    carry the id, each once; it holds the start when the start carries the
    id, and with a cell each of its four neighbours that carries the id;
    it is empty when the start is off the board or carries another id
    or none. *)
Theorem collectBlockCells_flood g x y :
  gridOk g →
  collectBlockCells g x y None = Ok [] ∧
  ∀ id, ∃ cells,
    collectBlockCells g x y (Some id) = Ok cells ∧
    NoDup cells ∧
    (∀ p, p ∈ cells → carries g (Some id) p) ∧
    (carries g (Some id) (x, y) → (x, y) ∈ cells) ∧
    (∀ p n, p ∈ cells → n ∈ neighbors p.1 p.2 → carries g (Some id) n → n ∈ cells) ∧
    (¬ carries g (Some id) (x, y) → cells = []).
Proof.
  intros Hg. split; [done|]. intros id.
  destruct (collectBlockCells_spec g x y id Hg) as (cells & Hrun & [Hnd Hcar Hstart Hclosed]).
  exists cells. split; [done|]. split; [done|]. split; [done|]. split; [done|].
  split; [done|]. intros Hno.
  rewrite (collectBlockCells_foreign g x y id Hg Hno) in Hrun. by injection Hrun as <-.
Qed.

Lemma collectBlockCells_flood_witness :
  let g := overhangBoard IndexJs in
  gridOk g ∧
  ∃ cells, collectBlockCells g 3 18 (Some 2%nat) = Ok cells ∧ (2, 18) ∈ cells.
Proof.
  intros g. assert (gridOk g) as Hg by (vm_compute; reflexivity).
  split; [exact Hg|].
  destruct (collectBlockCells_flood g 3 18 Hg) as [_ Hfill].
  destruct (Hfill 2%nat) as (cells & Hrun & _ & _ & Hstart & Hclosed & _).
  exists cells. split; [exact Hrun|].
  assert (carries g (Some 2%nat) (3, 18)) as H3.
  { split; [unfold onBoard, WIDTH, HEIGHT; cbn [fst snd]; lia|].
    exists (mkCell "green" (Some 2%nat)). split; vm_compute; reflexivity. }
  assert (carries g (Some 2%nat) (2, 18)) as H2.
  { split; [unfold onBoard, WIDTH, HEIGHT; cbn [fst snd]; lia|].
    exists (mkCell "green" (Some 2%nat)). split; vm_compute; reflexivity. }
  apply (Hclosed (3, 18) (2, 18)); [by apply Hstart| |exact H2].
  unfold neighbors. cbn [fst snd]. apply elem_of_cons. right. apply elem_of_cons. by left.
Defined.

(** ** Dropping no cell *)

(** X3.  With an empty list of cells the loop of [computeDropDistance]
    has no exit: no amount of fuel is enough.  This is the case that
    [trySelectBlock] and the sweep of [applyGravity] exclude with their tests
    of [cells.length]. *)
Theorem computeDropDistance_no_cells (v : SourceFile) g :
  computeDropDistance v g [] = OutOfFuel ∧
  ∀ (fuel : nat) d, dropLoop v fuel g [] d = OutOfFuel.
Proof.
  split; [done|]. induction fuel as [|fuel IH]; intros d; [done|].
  cbn [dropLoop canFall mbind result_mbind result_bind]. apply IH.
Qed.

(** ** Clearing lines *)

Lemma filter_none {A} (P : A → Prop) `{∀ x, Decision (P x)} (l : list A) :
  (∀ x, x ∈ l → ¬ P x) → filter P l = [].
Proof.
  induction l as [|a l IH]; intros Hno; [done|].
  rewrite filter_cons_False by (apply Hno; by left).
  apply IH. intros x Hx. apply Hno. by right.
Qed.

(** X4.  [clearFullLines] returns the number of rows without an empty
    cell.  It empties these rows and leaves every other cell as it is; rows
    above a cleared row are not moved.  The hover is dropped when a row was
    cleared; the score and the other globals are not changed.  No row is full
    afterwards: a second call clears nothing and changes nothing. *)
Theorem clearFullLines_clears_full_rows (v : SourceFile) s :
  gridOk (grid s) →
  ∃ n s',
    clearFullLines v s = Ok (n, s') ∧
    n = fullRowsBelow v (grid s) HEIGHT ∧ 0 ≤ n ≤ HEIGHT ∧
    gridOk (grid s') ∧
    (∀ p, onBoard p →
       cellAt (grid s') p = if rowFullb v (grid s) p.2 then Some (emptyCell v)
                            else cellAt (grid s) p) ∧
    hoveredBlock s' = (if bool_decide (n > 0) then None else hoveredBlock s) ∧
    score s' = score s ∧ topLine s' = topLine s ∧ sameControl s s' ∧
    clearFullLines v s' = Ok (0, s').
Proof.
  intros Hg. destruct (clearFullLines_spec v s Hg) as (g' & n & Hrun & Hg' & Hn & Hcell & _).
  pose proof (fullRowsBelow_range v (grid s) HEIGHT ltac:(unfold HEIGHT; lia)) as Hrange.
  rewrite <- Hn in Hrange.
  eexists n, _. split; [exact Hrun|]. split; [done|]. split; [done|].
  match goal with |- context [grid ?st] => set (s' := st) end.
  assert (grid s' = g') as Hgs' by (unfold s'; by case_bool_decide).
  rewrite Hgs'. split; [done|]. split; [done|].
  split; [unfold s'; by case_bool_decide|].
  split; [unfold s'; by case_bool_decide|].
  split; [unfold s'; by case_bool_decide|].
  split; [unfold s'; case_bool_decide; by repeat split|].
  assert (∀ y, 0 ≤ y < HEIGHT → rowFullb v g' y = false) as Hnone.
  { intros y Hy. destruct (rowFullb v (grid s) y) eqn:Hfull.
    - apply not_true_is_false. intros Hf.
      destruct (proj1 (rowFullb_true v g' y) Hf 0 ltac:(unfold WIDTH; lia)) as (c & Hc & He).
      rewrite Hcell in Hc by (split; cbn [fst snd]; [unfold WIDTH; lia|done]).
      cbn [snd] in Hc. rewrite Hfull in Hc. injection Hc as <-.
      by rewrite isEmptyCell_emptyCell in He.
    - rewrite <- Hfull. apply rowFullb_ext. intros x Hx.
      rewrite Hcell by (by split). cbn [snd]. by rewrite Hfull. }
  assert (gridOk (grid s')) as Hgs by (by rewrite Hgs').
  destruct (clearFullLines_spec v s' Hgs) as (g'' & n' & Hrun' & Hg'' & Hn' & Hcell' & _).
  rewrite Hgs' in Hn', Hcell'.
  assert (n' = 0) as ->.
  { rewrite Hn'. unfold fullRowsBelow. rewrite filter_none; [done|].
    intros y Hy. apply elem_of_seqZ in Hy. rewrite Hnone by lia. done. }
  assert (g'' = grid s') as ->.
  { rewrite Hgs'. apply grid_ext; [done|done|]. intros p Hp. rewrite Hcell' by done.
    rewrite Hnone; [done|]. by destruct Hp. }
  rewrite Hrun'. rewrite bool_decide_eq_false_2 by lia. by rewrite setGrid_id.
Qed.

Lemma clearFullLines_clears_full_rows_witness :
  let s := stateOfGrid (emptyRows IndexJs 19 ++ rowOf IndexJs [1; 1; 1; 1; 2; 2; 2; 3; 3; 3]%nat) 3 in
  gridOk (grid s) ∧
  ∃ s', clearFullLines IndexJs s = Ok (1, s') ∧
        cellAt (grid s') (0, 19) = Some (emptyCell IndexJs).
Proof.
  intros s. assert (gridOk (grid s)) as Hg by (vm_compute; reflexivity).
  split; [exact Hg|].
  destruct (clearFullLines_clears_full_rows IndexJs s Hg)
    as (n & s' & Hrun & Hn & _ & _ & Hcell & _).
  assert (n = 1) as -> by (rewrite Hn; vm_compute; reflexivity).
  exists s'. split; [exact Hrun|].
  rewrite (Hcell (0, 19)) by (unfold onBoard, WIDTH, HEIGHT; cbn [fst snd]; lia).
  assert (rowFullb IndexJs (grid s) 19 = true) as Hfull by (vm_compute; reflexivity).
  cbn [snd]. by rewrite Hfull.
Defined.

(** ** Shifting the rows *)

(** X5.  [moveBlocksUp] adds one to [topLine], moves every row one row up
    and empties the bottom row.  What the top row held is overwritten,
    whether it was empty or not; there is no test for a board that is full to
    the top.  The hover and the other globals are not changed, so a hover
    keeps the coordinates it was taken at. *)
Theorem moveBlocksUp_shifts (v : SourceFile) s :
  gridOk (grid s) →
  ∃ s',
    moveBlocksUp v s = Ok s' ∧ gridOk (grid s') ∧ topLine s' = topLine s + 1 ∧
    (∀ x y, 0 ≤ x < WIDTH → 0 ≤ y < HEIGHT - 1 →
       cellAt (grid s') (x, y) = cellAt (grid s) (x, y + 1)) ∧
    (∀ x, 0 ≤ x < WIDTH → cellAt (grid s') (x, HEIGHT - 1) = Some (emptyCell v)) ∧
    hoveredBlock s' = hoveredBlock s ∧ score s' = score s ∧ sameControl s s'.
Proof.
  intros Hg. destruct (moveBlocksUp_spec v s Hg) as (g' & Hrun & Hg' & Hcell).
  eexists. split; [exact Hrun|]. cbn [grid topLine hoveredBlock score setGrid setTopLine].
  split; [done|]. split; [done|]. split; [|split].
  - intros x y Hx Hy. rewrite Hcell by (split; cbn [fst snd]; lia). cbn [fst snd].
    by rewrite bool_decide_eq_true_2 by lia.
  - intros x Hx. rewrite Hcell by (split; cbn [fst snd]; unfold HEIGHT; lia). cbn [fst snd].
    by rewrite bool_decide_eq_false_2 by lia.
  - split; [done|]. split; [done|]. by repeat split.
Qed.

Lemma moveBlocksUp_shifts_witness :
  let s := stateOfGrid (overhangBoard IndexJs) 2 in
  gridOk (grid s) ∧
  ∃ s', moveBlocksUp IndexJs s = Ok s' ∧
        cellAt (grid s') (0, 18) = Some (mkCell "green" (Some 1%nat)) ∧
        cellAt (grid s') (0, 19) = Some (emptyCell IndexJs).
Proof.
  intros s. assert (gridOk (grid s)) as Hg by (vm_compute; reflexivity).
  split; [exact Hg|].
  destruct (moveBlocksUp_shifts IndexJs s Hg) as (s' & Hrun & _ & _ & Hup & Hbottom & _).
  exists s'. split; [exact Hrun|]. split.
  - rewrite (Hup 0 18) by (unfold WIDTH, HEIGHT; lia). vm_compute. reflexivity.
  - apply (Hbottom 0). unfold WIDTH. lia.
Defined.

(** ** Snapshots of the grid *)

Lemma restoreGridFromSnapshot_prefix snap s (m : Z) :
  0 ≤ m → m ≤ Z.of_nat (length (grid s)) → m ≤ Z.of_nat (length snap) →
  forZ 0 m (λ i g, c ← fromOption (arrayGet snap i); arraySet g i (copyCell c)) (grid s)
  = Ok ((copyCell <$> take (Z.to_nat m) snap) ++ drop (Z.to_nat m) (grid s)).
Proof.
  intros Hm Hmg Hms.
  destruct (forZ_inv
    (λ i gi, gi = (copyCell <$> take (Z.to_nat i) snap) ++ drop (Z.to_nat i) (grid s))
    (λ i g, c ← fromOption (arrayGet snap i); arraySet g i (copyCell c))
    0 m (grid s)) as (g' & Hrun & Hg').
  - lia.
  - done.
  - intros i gi Hi ->.
    assert (is_Some (arrayGet snap i)) as [c Hc].
    { unfold arrayGet. rewrite bool_decide_eq_true_2 by lia. apply lookup_lt_is_Some. lia. }
    rewrite Hc. cbn [fromOption mbind result_mbind result_bind].
    apply arrayGet_Some in Hc as [_ Hc].
    assert (length (copyCell <$> take (Z.to_nat i) snap) = Z.to_nat i) as Hl.
    { rewrite length_fmap, length_take. lia. }
    rewrite arraySet_Ok by (rewrite length_app, Hl, length_drop; lia).
    eexists. split; [done|].
    replace (Z.to_nat (i + 1)) with (S (Z.to_nat i)) by lia.
    rewrite (take_S_r _ _ c) by done. rewrite fmap_app. cbn [fmap list_fmap].
    rewrite <- app_assoc. cbn [app].
    rewrite insert_app_r_alt by lia. rewrite Hl, Nat.sub_diag.
    destruct (drop (Z.to_nat i) (grid s)) as [|c0 rest] eqn:Hd.
    { apply (f_equal length) in Hd. rewrite length_drop in Hd. simpl in Hd. lia. }
    cbn [insert list_insert]. f_equal. f_equal.
    change (S (Z.to_nat i)) with (1 + Z.to_nat i)%nat.
    rewrite Nat.add_comm, <- drop_drop, Hd. done.
  - by rewrite Hrun, Hg'.
Qed.

(** X6.  [restoreGridFromSnapshot] copies the first cells of the snapshot
    over the cells of the grid, as many as the grid has, and touches no other
    global; a snapshot with fewer cells than the grid makes it fail, on the
    first missing cell.  After
    [cloneGridCells] it is a round trip: whatever was done to the cells of
    the grid in between, restoring the clone gives the grid that was
    cloned. *)
Theorem restoreGridFromSnapshot_round_trip snap s :
  ((length (grid s) ≤ length snap)%nat →
     restoreGridFromSnapshot snap s
     = Ok (setGrid (take (length (grid s)) snap) s)) ∧
  ((length snap < length (grid s))%nat →
     restoreGridFromSnapshot snap s = TypeError) ∧
  (∀ s0, length (grid s0) = length (grid s) →
     restoreGridFromSnapshot (cloneGridCells (grid s0)) s = Ok (setGrid (grid s0) s)).
Proof.
  assert (∀ l : list Cell, copyCell <$> l = l) as Hcopy.
  { intros l. rewrite (list_fmap_ext _ id l); [by rewrite list_fmap_id|].
    intros i c _. apply copyCell_id. }
  assert (∀ sn, (length (grid s) ≤ length sn)%nat →
          restoreGridFromSnapshot sn s = Ok (setGrid (take (length (grid s)) sn) s)) as Hle.
  { intros sn Hlen. unfold restoreGridFromSnapshot.
    rewrite restoreGridFromSnapshot_prefix by lia.
    cbn [mbind result_mbind result_bind]. rewrite Nat2Z.id, drop_ge, app_nil_r, Hcopy by lia.
    done. }
  split; [apply Hle|]. split.
  - intros Hlt. unfold restoreGridFromSnapshot, forZ.
    set (body := λ (i : Z) (g : list Cell),
                   c ← fromOption (arrayGet snap i); arraySet g i (copyCell c)).
    set (m := Z.of_nat (length snap)). set (n := Z.of_nat (length (grid s))).
    replace (n - 0) with (m + (n - m)) by lia.
    rewrite seqZ_app by lia. rewrite forEachM_app.
    pose proof (restoreGridFromSnapshot_prefix snap s m ltac:(lia) ltac:(lia) ltac:(lia)) as Hpre.
    unfold forZ in Hpre. rewrite Z.sub_0_r in Hpre. fold body in Hpre. rewrite Hpre.
    cbn [mbind result_mbind result_bind].
    rewrite (seqZ_cons (0 + m)) by lia. cbn [forEachM]. unfold body. cbv beta.
    assert (arrayGet snap (0 + m) = None) as ->.
    { unfold arrayGet. rewrite bool_decide_eq_true_2 by lia. apply lookup_ge_None. lia. }
    done.
  - intros s0 Hlen. rewrite Hle by (unfold cloneGridCells; rewrite length_fmap; lia).
    unfold cloneGridCells. rewrite Hcopy, <- Hlen, firstn_all. done.
Qed.

(** ** Starting an animation *)

(** X7.  [startFallAnimation] does nothing for an empty list of moves.
    Otherwise it installs an animation of these moves, replacing the one in
    the slot if any, with no start time yet.  Its duration is
    [FALL_ANIMATION_PER_ROW] times the longest drop of the moves, and
    [MIN_FALL_DURATION] when that is less, as for moves that do not go down.
    The grid and the other globals are not changed. *)
Theorem startFallAnimation_duration (v : SourceFile) ms opts s :
  (ms = [] → startFallAnimation v ms opts s = s) ∧
  (ms ≠ [] →
   ∃ a,
     startFallAnimation v ms opts s = setFallingAnimation (Some a) s ∧
     moves a = ms ∧ startTime a = None ∧ finalize a = optFinalize opts ∧
     MIN_FALL_DURATION ≤ duration a ∧
     (∀ m, m ∈ ms → dropDistance m * FALL_ANIMATION_PER_ROW ≤ duration a) ∧
     (duration a = MIN_FALL_DURATION ∨
      ∃ m, m ∈ ms ∧ duration a = dropDistance m * FALL_ANIMATION_PER_ROW)).
Proof.
  split.
  - intros ->. done.
  - intros Hms. unfold startFallAnimation. rewrite bool_decide_eq_false_2 by done.
    assert ((λ m, mkMove ((λ c : pos, c) <$> moveCells m) (moveColor m) (moveBlockId m)
                    (dropDistance m)) <$> ms = ms) as ->.
    { rewrite (list_fmap_ext _ id ms); [by rewrite list_fmap_id|].
      intros i [cells c b d] _. cbn. by rewrite list_fmap_id. }
    eexists. split; [done|]. cbn [moves startTime finalize duration].
    split; [done|]. split; [done|]. split; [done|].
    assert (∀ (l : list Move) (acc : Z),
              acc ≤ foldl (λ mx m, Z.max mx (dropDistance m)) acc l ∧
              (∀ m, m ∈ l → dropDistance m ≤ foldl (λ mx m, Z.max mx (dropDistance m)) acc l) ∧
              (foldl (λ mx m, Z.max mx (dropDistance m)) acc l = acc ∨
               ∃ m, m ∈ l ∧ foldl (λ mx m, Z.max mx (dropDistance m)) acc l = dropDistance m))
      as Hmax.
    { induction l as [|m l IH]; intros acc; cbn [foldl].
      - split; [lia|]. split; [|by left]. intros m Hm. by apply elem_of_nil in Hm.
      - destruct (IH (Z.max acc (dropDistance m))) as (Hacc & Hall & Hone).
        split; [lia|]. split.
        + intros m' [->|Hm']%elem_of_cons; [lia|by apply Hall].
        + destruct Hone as [Heq|(m' & Hm' & Heq)].
          * destruct (Z.max_spec acc (dropDistance m)) as [[_ Hmx]|[_ Hmx]].
            -- right. exists m. split; [by left|]. lia.
            -- left. lia.
          * right. exists m'. split; [by right|done]. }
    destruct (Hmax ms 0) as (H0 & Hall & Hone).
    set (mx := foldl (λ mx m, Z.max mx (dropDistance m)) 0 ms) in *.
    unfold MIN_FALL_DURATION, FALL_ANIMATION_PER_ROW. split; [lia|]. split.
    + intros m Hm. specialize (Hall m Hm). lia.
    + destruct Hone as [Heq|(m & Hm & Heq)]; [left; lia|].
      destruct (decide (mx ≤ 1)); [left; lia|right]. exists m. split; [done|]. lia.
Qed.

(** ** The listeners *)

Lemma settledState_reachable : reachable IndexJs settledState.
Proof. apply (play_reachable IndexJs alternatingTape []). vm_compute. reflexivity. Qed.

Lemma heldState_reachable : reachable IndexJs heldState.
Proof. apply (play_reachable IndexJs alternatingTape heldEvents). vm_compute. reflexivity. Qed.

Lemma fallingState_reachable : reachable IndexJs fallingState.
Proof.
  apply (play_reachable IndexJs alternatingTape (heldEvents ++ [MouseUp])).
  vm_compute. reflexivity.
Qed.

Lemma trySelectBlock_skip v button pointer s :
  gridOk (grid s) →
  is_Some (selectedBlock s) ∨ is_Some (fallingAnimation s) ∨ button ≠ 0 ∨
  ¬ onBoard (cellOfPointer pointer.1, cellOfPointer pointer.2) ∨
  (∃ c, cellAt (grid s) (cellOfPointer pointer.1, cellOfPointer pointer.2) = Some c ∧
        isEmptyCell v c = true) →
  trySelectBlock v button pointer s = Ok s.
Proof.
  intros Hg Hcase. unfold trySelectBlock.
  destruct (selectedBlock s) as [sel|] eqn:Hsel.
  { by rewrite bool_decide_is_Some. }
  destruct (fallingAnimation s) as [an|] eqn:Han.
  { by rewrite bool_decide_is_Some, orb_true_r. }
  rewrite (@bool_decide_is_None Selection), (@bool_decide_is_None Animation). cbn [orb].
  case_bool_decide as Hb; [done|].
  destruct (inBounds _ _) eqn:Hin; cbn [negb]; [|done].
  apply inBounds_spec in Hin.
  destruct Hcase as [[? ?]|[[? ?]|[?|[?|(c & Hc & He)]]]]; try done.
  rewrite (proj1 (cellAt_gridGet _ _ _ _) Hc). cbn [mbind result_mbind result_bind].
  by rewrite He.
Qed.

Lemma trySelectBlock_lift v bc pointer s c :
  BoardInv v bc (grid s) → selectedBlock s = None → fallingAnimation s = None →
  onBoard (cellOfPointer pointer.1, cellOfPointer pointer.2) →
  cellAt (grid s) (cellOfPointer pointer.1, cellOfPointer pointer.2) = Some c →
  isEmptyCell v c = false →
  ∃ id cells,
    blockId c = Some id ∧ NoDup cells ∧ cells ≠ [] ∧
    (∀ q, q ∈ cells ↔ carries (grid s) (Some id) q) ∧
    trySelectBlock v 0 pointer s =
      Ok (let s1 := setHoveredBlock None
                      (setSelectedBlock
                         (Some (mkSelection (color c) (Some id) cells cells 0 pointer.1))
                         (setGrid (vacate v cells (grid s)) s)) in
          match v with IndexJs => setSelectionMoved false s1 | Part000 => s1 end).
Proof.
  intros Hboard Hsel Han Hin Hc Hempty. pose proof (bi_ok _ _ _ Hboard) as Hg.
  unfold trySelectBlock. rewrite Hsel, Han.
  rewrite (@bool_decide_is_None Selection), (@bool_decide_is_None Animation). cbn [orb].
  rewrite bool_decide_eq_false_2 by (intros H; by apply H).
  rewrite (proj2 (inBounds_spec _ _) Hin). cbn [negb].
  rewrite (proj1 (cellAt_gridGet _ _ _ _) Hc). cbn [mbind result_mbind result_bind].
  rewrite Hempty.
  destruct (blockId c) as [id|] eqn:Hid.
  2:{ apply (bi_cells _ _ _ Hboard _ _ Hin Hc) in Hid. congruence. }
  destruct (collectBlockCells_spec (grid s) (cellOfPointer pointer.1) (cellOfPointer pointer.2)
              id Hg) as (cells & -> & Hcd).
  cbn [mbind result_mbind result_bind].
  assert (carries (grid s) (Some id) (cellOfPointer pointer.1, cellOfPointer pointer.2))
    as Hcar by (split; [done|by exists c]).
  pose proof (Collected_complete v bc _ id _ _ Hboard Hcd Hcar) as Hiff.
  assert (cells ≠ []) as Hne.
  { intros ->. apply Hiff in Hcar. by apply elem_of_nil in Hcar. }
  rewrite bool_decide_eq_false_2 by done.
  destruct (vacate_spec v cells (grid s) Hg) as (-> & _ & _).
  { intros p Hp. by destruct (proj1 (Hiff p) Hp). }
  cbn [mbind result_mbind result_bind].
  exists id, cells. split; [done|]. split; [apply Hcd|]. split; [done|]. split; [done|].
  by destruct v.
Qed.

(** X8.  [trySelectBlock] in a reachable state.  It changes nothing while
    a block is held or an animation runs, for a button other than the main
    one, for a pointer off the board and for a pointer over an empty cell.
    Otherwise it lifts the whole block under the pointer: the selection
    holds every cell that carries the id of that cell, each once, with the
    colour of that cell, at offset 0, and anchored at the pointer; these
    cells are emptied on the grid and no other cell changes; the hover is
    dropped, and in [index.js] the moved flag is cleared. *)
Theorem trySelectBlock_lifts_block (v : SourceFile) button pointer s :
  reachable v s →
  ∃ s',
    trySelectBlock v button pointer s = Ok s' ∧
    (is_Some (selectedBlock s) ∨ is_Some (fallingAnimation s) ∨ button ≠ 0 ∨
     ¬ onBoard (cellOfPointer pointer.1, cellOfPointer pointer.2) ∨
     (∃ c, cellAt (grid s) (cellOfPointer pointer.1, cellOfPointer pointer.2) = Some c ∧
           isEmptyCell v c = true) → s' = s) ∧
    (selectedBlock s = None → fallingAnimation s = None → button = 0 →
     ∀ c, onBoard (cellOfPointer pointer.1, cellOfPointer pointer.2) →
          cellAt (grid s) (cellOfPointer pointer.1, cellOfPointer pointer.2) = Some c →
          isEmptyCell v c = false →
     ∃ id cells,
       blockId c = Some id ∧ NoDup cells ∧
       (∀ q, q ∈ cells ↔ carries (grid s) (Some id) q) ∧
       selectedBlock s' = Some (mkSelection (color c) (Some id) cells cells 0 pointer.1) ∧
       hoveredBlock s' = None ∧
       (v = IndexJs → selectionMoved s' = false) ∧
       gridOk (grid s') ∧
       (∀ q, onBoard q →
          cellAt (grid s') q = if decide (q ∈ cells) then Some (emptyCell v)
                               else cellAt (grid s) q) ∧
       fallingAnimation s' = None ∧ nextRow s' = nextRow s ∧ score s' = score s ∧
       topLine s' = topLine s ∧ blockCounter s' = blockCounter s).
Proof.
  intros Hr. destruct (reachable_BoardInv v s Hr) as (bc & Hboard).
  pose proof (bi_ok _ _ _ Hboard) as Hg.
  destruct (handleEvent_Inv v (MouseDown button pointer) s (reachable_Inv v s Hr))
    as (s' & Hrun & _).
  cbn [handleEvent] in Hrun. exists s'. split; [done|]. split.
  - intros Hcase. rewrite (trySelectBlock_skip v button pointer s Hg Hcase) in Hrun.
    by injection Hrun as <-.
  - intros Hsel Han -> c Hin Hc Hempty.
    destruct (trySelectBlock_lift v bc pointer s c Hboard Hsel Han Hin Hc Hempty)
      as (id & cells & Hid & Hnd & Hne & Hiff & Hlift).
    rewrite Hlift in Hrun. injection Hrun as <-.
    destruct (vacate_spec v cells (grid s) Hg) as (_ & Hg' & Hcell').
    { intros p Hp. by destruct (proj1 (Hiff p) Hp). }
    exists id, cells. split; [done|]. split; [done|]. split; [done|].
    destruct v; cbn; repeat split; try done.
Qed.

Lemma trySelectBlock_lifts_block_witness :
  reachable IndexJs settledState ∧
  ∃ s', trySelectBlock IndexJs 0 (pointerAt 4 15) settledState = Ok s' ∧
        is_Some (selectedBlock s') ∧ hoveredBlock s' = None.
Proof.
  split; [exact settledState_reachable|].
  destruct (trySelectBlock_lifts_block IndexJs 0 (pointerAt 4 15) settledState
              settledState_reachable) as (s' & Hrun & _ & Hlift).
  exists s'. split; [exact Hrun|].
  assert (cellOfPointer (pointerAt 4 15).1 = 4) as Hx by (vm_compute; reflexivity).
  assert (cellOfPointer (pointerAt 4 15).2 = 15) as Hy by (vm_compute; reflexivity).
  rewrite Hx, Hy in Hlift.
  destruct (Hlift ltac:(vm_compute; reflexivity) ltac:(vm_compute; reflexivity) eq_refl
              (mkCell "green" (Some 2%nat)))
    as (id & cells & _ & _ & _ & Hsel & Hhov & _).
  - unfold onBoard, WIDTH, HEIGHT. cbn [fst snd]. lia.
  - vm_compute. reflexivity.
  - reflexivity.
  - rewrite Hsel. split; [eauto|exact Hhov].
Defined.

(** X9.  [updateHoveredBlock] in a reachable state changes the hover and
    nothing else.  The hover is dropped while an animation runs, for a
    pointer off the board and for a pointer over an empty cell.  Otherwise
    it holds the colour and the id of the cell under the pointer and every
    cell that carries this id, each once.  A held block does not prevent
    it: the blocks left on the grid are hovered during a drag. *)
Theorem updateHoveredBlock_hovers_block (v : SourceFile) pointer s :
  reachable v s →
  ∃ h,
    updateHoveredBlock v pointer s = Ok (setHoveredBlock h s) ∧
    (is_Some (fallingAnimation s) ∨
     ¬ onBoard (cellOfPointer pointer.1, cellOfPointer pointer.2) ∨
     (∃ c, cellAt (grid s) (cellOfPointer pointer.1, cellOfPointer pointer.2) = Some c ∧
           isEmptyCell v c = true) → h = None) ∧
    (fallingAnimation s = None →
     ∀ c, onBoard (cellOfPointer pointer.1, cellOfPointer pointer.2) →
          cellAt (grid s) (cellOfPointer pointer.1, cellOfPointer pointer.2) = Some c →
          isEmptyCell v c = false →
     ∃ id cells,
       blockId c = Some id ∧ h = Some (mkHover (color c) (Some id) cells) ∧
       NoDup cells ∧ ∀ q, q ∈ cells ↔ carries (grid s) (Some id) q).
Proof.
  intros Hr. destruct (reachable_BoardInv v s Hr) as (bc & Hboard).
  pose proof (bi_ok _ _ _ Hboard) as Hg. unfold updateHoveredBlock.
  destruct (fallingAnimation s) as [an|] eqn:Han.
  { rewrite bool_decide_is_Some. exists None. split; [done|]. split; [done|].
    intros; discriminate. }
  rewrite bool_decide_is_None.
  destruct (inBounds _ _) eqn:Hin; cbn [negb].
  2:{ apply inBounds_false in Hin. exists None. split; [done|]. split; [done|].
      intros _ c Hon. done. }
  apply inBounds_spec in Hin.
  destruct (cellAt_is_Some (grid s) _ Hg Hin) as [c0 Hc0].
  rewrite (proj1 (cellAt_gridGet _ _ _ _) Hc0). cbn [mbind result_mbind result_bind].
  destruct (isEmptyCell v c0) eqn:He.
  { exists None. split; [done|]. split; [done|]. intros _ c _ Hc Hce.
    rewrite Hc0 in Hc. injection Hc as <-. congruence. }
  destruct (blockId c0) as [id|] eqn:Hid.
  2:{ apply (bi_cells _ _ _ Hboard _ _ Hin Hc0) in Hid. congruence. }
  destruct (collectBlockCells_spec (grid s) (cellOfPointer pointer.1) (cellOfPointer pointer.2)
              id Hg) as (cells & -> & Hcd).
  cbn [mbind result_mbind result_bind]. eexists. split; [done|]. split.
  - intros [[? ?]|[?|(c & Hc & Hce)]]; [discriminate|done|].
    rewrite Hc0 in Hc. injection Hc as <-. congruence.
  - intros _ c _ Hc Hce. rewrite Hc0 in Hc. injection Hc as <-.
    exists id, cells. split; [done|]. split; [done|]. split; [apply Hcd|].
    apply (Collected_complete v bc _ id _ _ Hboard Hcd). split; [done|]. by exists c0.
Qed.

Lemma updateHoveredBlock_hovers_block_witness :
  reachable IndexJs heldState ∧
  ∃ h, updateHoveredBlock IndexJs (pointerAt 0 15) heldState = Ok (setHoveredBlock h heldState)
       ∧ is_Some h.
Proof.
  split; [exact heldState_reachable|].
  destruct (updateHoveredBlock_hovers_block IndexJs (pointerAt 0 15) heldState
              heldState_reachable) as (h & Hrun & _ & Hhov).
  exists h. split; [exact Hrun|].
  assert (cellOfPointer (pointerAt 0 15).1 = 0) as Hx by (vm_compute; reflexivity).
  assert (cellOfPointer (pointerAt 0 15).2 = 15) as Hy by (vm_compute; reflexivity).
  rewrite Hx, Hy in Hhov.
  destruct (Hhov ltac:(vm_compute; reflexivity) (mkCell "green" (Some 1%nat)))
    as (id & cells & _ & -> & _).
  - unfold onBoard, WIDTH, HEIGHT. cbn [fst snd]. lia.
  - vm_compute. reflexivity.
  - reflexivity.
  - eauto.
Defined.




(** X11.  The [mouseup] listener in a reachable state.  Without a held
    block it does nothing.  With one it always lets go: afterwards no block
    is held and the hover is dropped.  When the block can fall, the grid and
    the score are left as they are and an animation of that one move is
    installed, bordered like a selection, with the placement to finish, no
    continuation, and a duration of [FALL_ANIMATION_PER_ROW] per row of the
    fall; the block itself is written only when the animation ends. *)
Theorem handleMouseUp_releases (v : SourceFile) s :
  reachable v s →
  ∃ s',
    handleMouseUp v s = Ok s' ∧ selectedBlock s' = None ∧
    (selectedBlock s = None → s' = s) ∧
    ∀ sel, selectedBlock s = Some sel →
      hoveredBlock s' = None ∧
      ∃ d, computeDropDistance v (grid s) (selCells sel) = Ok d ∧ 0 ≤ d ∧
           (0 < d →
            grid s' = grid s ∧ score s' = score s ∧ nextRow s' = nextRow s ∧
            topLine s' = topLine s ∧
            ∃ flag,
              fallingAnimation s' =
                Some (mkAnimation
                        [mkMove (selCells sel) (selColor sel) (selBlockId sel) d]
                        (Some (mkFinalize (selCells sel) (selColor sel) (selBlockId sel)
                                 d flag))
                        [] (Some (BORDER_SELECTED v)) None (d * FALL_ANIMATION_PER_ROW))).
Proof.
  intros Hr.
  destruct (handleEvent_Inv v MouseUp s (reachable_Inv v s Hr)) as (s' & Hrun & Hinv').
  cbn [handleEvent] in Hrun. exists s'. split; [done|].
  destruct (selectedBlock s) as [sel|] eqn:Hsel.
  2:{ unfold handleMouseUp in Hrun. rewrite Hsel in Hrun. injection Hrun as <-.
      split; [done|]. split; [done|]. intros; discriminate. }
  destruct (reachable_Inv v s Hr) as (bc0 & Hcore & HselInv & _).
  destruct (HselInv sel Hsel) as [Han Hheld].
  pose proof (bi_ok _ _ _ (core_board _ _ _ _ _ Hcore)) as Hg.
  destruct (Held_selCells _ _ _ _ Hheld) as (Hne & Hshape & Hfree).
  destruct (computeDropDistance_spec v (grid s) (selCells sel) Hg Hne) as (d & Hd & Hfalls).
  { intros p Hp. by destruct (Hfree p Hp). }
  unfold handleMouseUp, dropSelectedBlock in Hrun. rewrite Hsel, Hd in Hrun.
  cbn [mbind result_mbind result_bind plDropDistance plCells plColor plBlockId shouldSpawn]
    in Hrun.
  set (flag := match v with
               | IndexJs => selectionMoved s
               | Part000 => bool_decide (offset sel ≠ 0)
               end) in *.
  case_bool_decide as Hd0.
  - destruct (finalizePlacement_spec v bc0 (setSelectedBlock None s) (selCells sel)
                (selColor sel) (selBlockId sel) d flag) as (s1 & Hfin & Hq); try done.
    + apply Hheld.
    + apply Hheld.
    + intros [x y] Hp. rewrite Hd0. cbn [fst snd]. rewrite Z.add_0_r. by apply Hfree.
    + rewrite Hfin in Hrun. cbn [mbind result_mbind result_bind] in Hrun.
      injection Hrun as <-. split; [apply Hq|]. split; [intros; discriminate|].
      intros sel0 [= <-]. split; [done|]. exists d. split; [done|]. split; [lia|]. lia.
  - cbn [mbind result_mbind result_bind] in Hrun. injection Hrun as <-.
    destruct Hfalls as (Hd' & _ & _).
    unfold startFallAnimation. rewrite bool_decide_eq_false_2 by done.
    cbn [fmap list_fmap foldl moveCells moveColor moveBlockId dropDistance optFinalize optAfter
         optStrokeStyle]. rewrite list_fmap_id.
    split; [done|]. split; [intros; discriminate|].
    intros sel0 [= <-]. split; [done|]. exists d. split; [done|]. split; [done|]. intros _.
    cbn [clearHover grid score nextRow topLine fallingAnimation setHoveredBlock
         setFallingAnimation setSelectedBlock].
    repeat (split; [done|]). exists flag. do 2 f_equal.
    unfold MIN_FALL_DURATION, FALL_ANIMATION_PER_ROW. lia.
Qed.

Lemma handleMouseUp_releases_witness :
  reachable IndexJs heldState ∧
  ∃ s', handleMouseUp IndexJs heldState = Ok s' ∧ selectedBlock s' = None.
Proof.
  split; [exact heldState_reachable|].
  destruct (handleMouseUp_releases IndexJs heldState heldState_reachable)
    as (s' & Hrun & Hsel & _).
  exists s'. split; [exact Hrun|exact Hsel].
Defined.

(** ** The animated settle *)

(** X12.  [settleBoard({ animate: true, onComplete })] on a board without
    animation.  Whatever it does it returns 0, also when it cleared lines.
    It runs gravity and the line clear in turn; the first gravity that moves
    a block ends the call with an animation of its moves, without border
    colour of its own, without placement to finish, and with the rest of
    the settling as its one continuation; when a turn neither moves a block
    nor clears a line, [onComplete] is called.  The selection, the preview
    row and the counter of ids are left alone up to that point. *)
Theorem settleBoard_animated (v : SourceFile) k s :
  gridOk (grid s) → fallingAnimation s = None →
  (∀ n s', settleBoard v true k s = Ok (n, s') → n = 0) ∧
  ∃ s1,
    sameControl s s1 ∧ gridOk (grid s1) ∧ usedCells v (grid s1) ≤ usedCells v (grid s) ∧
    ((∃ ms dur,
        ms ≠ [] ∧ MIN_FALL_DURATION ≤ dur ∧
        settleBoard v true k s =
          Ok (0, setFallingAnimation
                   (Some (mkAnimation ms None [SettleAfter k] None None dur)) s1)) ∨
     settleBoard v true k s = (s' ← runOnComplete (spawnBlocks v true) k s1; Ok (0, s'))).
Proof.
  intros Hg Han.
  destruct (settleAnimated_spec v (spawnBlocks v true) settleFuel k s Hg Han
              (settleFuel_enough v _ Hg)) as (s1 & (Hg1 & Hu1 & _) & Hsc & Hres).
  assert (∀ n s', settleBoard v true k s = Ok (n, s') → n = 0) as Hzero.
  { intros n s' Hrun. unfold settleBoard, settleBoardWith in Hrun. cbn [negb] in Hrun.
    destruct Hres as [(ms & _ & Hres)|Hres]; rewrite Hres in Hrun.
    - by injection Hrun as <- _.
    - apply bind_Ok in Hrun as (s2 & _ & Hrun). by injection Hrun as <- _. }
  split; [done|]. exists s1. split; [done|]. split; [done|]. split; [done|].
  unfold settleBoard, settleBoardWith. cbn [negb].
  destruct Hres as [(ms & Hms & ->) | ->]; [left|by right].
  unfold startFallAnimation. rewrite bool_decide_eq_false_2 by done.
  cbn [optFinalize optAfter optStrokeStyle].
  assert ((λ m, mkMove ((λ c : pos, c) <$> moveCells m) (moveColor m) (moveBlockId m)
                  (dropDistance m)) <$> ms = ms) as ->.
  { rewrite (list_fmap_ext _ id ms); [by rewrite list_fmap_id|].
    intros i [cells c b d] _. cbn. by rewrite list_fmap_id. }
  eexists ms, _. split; [done|]. split; [|done]. unfold MIN_FALL_DURATION. lia.
Qed.

Lemma settleBoard_animated_witness :
  let s := stateOfGrid (floatingBoard IndexJs) 3 in
  gridOk (grid s) ∧ fallingAnimation s = None ∧
  ∃ s', settleBoard IndexJs true NoCallback s = Ok (0, s') ∧ is_Some (fallingAnimation s').
Proof.
  intros s. assert (gridOk (grid s)) as Hg by (vm_compute; reflexivity).
  split; [exact Hg|]. split; [reflexivity|].
  destruct (settleBoard_animated IndexJs NoCallback s Hg eq_refl) as [Hzero _].
  assert (∃ n s', settleBoard IndexJs true NoCallback s = Ok (n, s') ∧
                  is_Some (fallingAnimation s')) as (n & s' & Hrun & Han).
  { eexists _, _. split; [vm_compute; reflexivity|]. vm_compute. eauto. }
  rewrite (Hzero n s' Hrun) in Hrun. exists s'. split; [exact Hrun|exact Han].
Defined.

(** ** The reachable states *)

(** X13.  In a reachable state a block is never held while an animation
    runs.  A held block is off the grid: no cell of the grid carries its id;
    it has a colour and at least one cell; its cells lie on the board, in one
    row, over empty cells, and are its base cells shifted by its offset.
    The block of a placement that an animation has to finish is off the grid
    too, and the cells it will be written to are empty cells of the
    board. *)
Theorem reachable_block_off_grid (v : SourceFile) s :
  reachable v s →
  (∀ sel, selectedBlock s = Some sel →
     fallingAnimation s = None ∧
     selCells sel ≠ [] ∧ selColor sel ≠ COLOR_BACKGROUND v ∧
     (∃ id, selBlockId sel = Some id ∧ (id ≤ blockCounter s)%nat ∧
            ∀ p, ¬ carries (grid s) (Some id) p) ∧
     selCells sel = (λ '(x, y), (x + offset sel, y)) <$> baseCells sel ∧
     sameRow (selCells sel) ∧
     ∀ p, p ∈ selCells sel →
       onBoard p ∧ ∃ c, cellAt (grid s) p = Some c ∧ isEmptyCell v c = true) ∧
  (∀ a f, fallingAnimation s = Some a → finalize a = Some f →
     selectedBlock s = None ∧
     finCells f ≠ [] ∧ finColor f ≠ COLOR_BACKGROUND v ∧
     (∃ id, finBlockId f = Some id ∧ (id ≤ blockCounter s)%nat ∧
            ∀ p, ¬ carries (grid s) (Some id) p) ∧
     sameRow (finCells f) ∧
     ∀ p, p ∈ finCells f →
       onBoard (p.1, p.2 + finDrop f) ∧
       ∃ c, cellAt (grid s) (p.1, p.2 + finDrop f) = Some c ∧ isEmptyCell v c = true).
Proof.
  intros Hr. destruct (reachable_Inv v s Hr) as (bc0 & Hcore & HselInv & HanInv).
  pose proof (core_counter _ _ _ _ _ Hcore) as Hle. split.
  - intros sel Hsel. destruct (HselInv sel Hsel) as [Han Hheld].
    destruct (Held_selCells _ _ _ _ Hheld) as (Hne & Hshape & Hfree).
    destruct Hheld as [(id & Hid & Hbc & Habs) Hcol _ _ _ Hcells].
    split; [done|]. split; [done|]. split; [done|]. split.
    { exists id. split; [done|]. split; [lia|done]. }
    split; [done|]. split; [apply Hshape|done].
  - intros a f Ha Hf. destruct (HanInv a f Ha Hf) as [(id & Hid & Hbc & Habs) Hcol Hshape Hfree].
    split.
    { destruct (selectedBlock s) as [sel|] eqn:Hsel; [|done].
      destruct (HselInv sel eq_refl) as [? _]. congruence. }
    split; [apply Hshape|]. split; [done|]. split.
    { exists id. split; [done|]. split; [lia|done]. }
    split; [apply Hshape|done].
Qed.

Lemma reachable_block_off_grid_witness :
  reachable IndexJs heldState ∧ is_Some (selectedBlock heldState) ∧
  fallingAnimation heldState = None.
Proof.
  split; [exact heldState_reachable|].
  assert (is_Some (selectedBlock heldState)) as Hsome by (vm_compute; eauto).
  split; [exact Hsome|]. destruct Hsome as [sel Hsel].
  destruct (reachable_block_off_grid IndexJs heldState heldState_reachable) as [Hheld _].
  by destruct (Hheld sel Hsel) as [Han _].
Defined.

(** X14.  In a reachable state the grid has its [WIDTH * HEIGHT] cells;
    a cell is empty exactly when it has no id; the cells that carry one id
    are one stretch of one row, without a gap; no id on the grid or in the
    preview row is above the counter of ids; and the ids of the preview row
    are on no cell of the grid, nor the id of the held block: an id names one
    block. *)
Theorem reachable_ids_name_one_block (v : SourceFile) s :
  reachable v s →
  gridOk (grid s) ∧
  (∀ p c, onBoard p → cellAt (grid s) p = Some c →
     (isEmptyCell v c = true ↔ blockId c = None)) ∧
  (∀ p id, carries (grid s) (Some id) p → (id ≤ blockCounter s)%nat) ∧
  (∀ id p q x, carries (grid s) (Some id) p → carries (grid s) (Some id) q →
     p.1 ≤ x ≤ q.1 → carries (grid s) (Some id) (x, p.2)) ∧
  (∀ row k c id, nextRow s = Some row → row !! k = Some c → blockId c = Some id →
     (id ≤ blockCounter s)%nat ∧ color c ≠ COLOR_BACKGROUND v ∧
     (∀ p, ¬ carries (grid s) (Some id) p) ∧
     (∀ sel, selectedBlock s = Some sel → selBlockId sel ≠ Some id)).
Proof.
  intros Hr. destruct (reachable_Inv v s Hr) as (bc0 & Hcore & HselInv & _).
  destruct Hcore as [Hle Hboard Hnext]. split; [apply Hboard|]. split; [apply Hboard|].
  split.
  { intros p id Hp. pose proof (bi_ids _ _ _ Hboard p id Hp). lia. }
  split; [apply Hboard|].
  intros row k c id Hrow Hk Hid.
  destruct (ro_cells _ _ _ _ (Hnext row Hrow) k c Hk) as [[Hn _]|(id' & Hid' & Hcol & Hr')];
    [congruence|].
  assert (id' = id) as -> by congruence.
  split; [lia|]. split; [done|]. split.
  - intros p Hp. pose proof (bi_ids _ _ _ Hboard p id Hp). lia.
  - intros sel Hsel Heq. destruct (HselInv sel Hsel) as [_ [(id0 & Hid0 & Hbc & _) _ _ _ _ _]].
    assert (id0 = id) as -> by congruence. lia.
Qed.

Lemma reachable_ids_name_one_block_witness :
  reachable IndexJs heldState ∧ gridOk (grid heldState).
Proof.
  split; [exact heldState_reachable|].
  by destruct (reachable_ids_name_one_block IndexJs heldState heldState_reachable) as [Hg _].
Defined.

(** X15.  No listener fails.  For every tape of [Math.random()] the
    script body returns; from the state it leaves, every sequence of pointer
    events and animation frames is handled: each listener returns, having
    read no cell outside the grid and left no loop unfinished. *)
Theorem listeners_return (v : SourceFile) :
  (∀ tape, ∃ s, bootstrap v tape = Ok s ∧ reachable v s) ∧
  (∀ s events, reachable v s →
     ∃ s', forEachM (handleEvent v) events s = Ok s' ∧ reachable v s').
Proof.
  split.
  - intros tape. destruct (bootstrap_spec v tape) as (s & Hs & _).
    exists s. split; [done|]. by apply (reach_boot v tape).
  - intros s events. revert s. induction events as [|e events IH]; intros s Hr.
    + by exists s.
    + destruct (handleEvent_Inv v e s (reachable_Inv v s Hr)) as (s1 & Hs1 & _).
      destruct (IH s1 (reach_step v s e s1 Hr Hs1)) as (s' & Hs' & Hr').
      exists s'. split; [|done]. cbn [forEachM]. rewrite Hs1. done.
Qed.

(** ** The counters *)

Lemma Advances_refl s : Advances s s.
Proof. unfold Advances. repeat split; try lia. done. Qed.

Lemma Advances_trans s1 s2 s3 : Advances s1 s2 → Advances s2 s3 → Advances s1 s3.
Proof.
  intros (? & ? & ? & Hn1) (? & ? & ? & Hn2). unfold Advances.
  repeat split; try lia. intros Hn. by apply Hn2, Hn1.
Qed.

Lemma Advances_same s s' :
  score s' = score s → topLine s' = topLine s → blockCounter s' = blockCounter s →
  nextRow s' = nextRow s → Advances s s'.
Proof. intros Hsc Htop Hbc Hnr. unfold Advances. rewrite Hsc, Htop, Hbc, Hnr. by repeat split. Qed.

Ltac advances_frame :=
  solve [ apply Advances_refl
        | apply Advances_same; reflexivity
        | match goal with
          | v : SourceFile |- _ => destruct v; apply Advances_same; reflexivity
          end ].

Lemma sameControl_Advances s s' :
  sameControl s s' → score s ≤ score s' → topLine s ≤ topLine s' → Advances s s'.
Proof.
  intros (_ & Hnr & _ & _ & Hbc & _) ? ?. unfold Advances. rewrite Hnr, Hbc.
  repeat split; try lia. done.
Qed.

Lemma generateNextRow_full v s :
  ∃ row s',
    generateNextRow v s = Ok (row, s') ∧
    RowOk v (blockCounter s) (blockCounter s') row ∧
    grid s' = grid s ∧ selectedBlock s' = selectedBlock s ∧
    fallingAnimation s' = fallingAnimation s ∧ nextRow s' = nextRow s ∧
    score s' = score s ∧ topLine s' = topLine s ∧ hoveredBlock s' = hoveredBlock s.
Proof.
  unfold generateNextRow.
  destruct (generateLoop_spec v (blockCounter s) (S (Z.to_nat WIDTH))
              (replicate (Z.to_nat WIDTH) (makeCell (COLOR_BACKGROUND v) None)) 0 0 s [])
    as (row & s' & sp & Hrun & Hsp & Hshape & Hlen & Hg & Htop & Hsel & Hhov & Hsc & Hnr & _
        & Han & _).
  - simpl. done.
  - done.
  - unfold WIDTH; lia.
  - unfold MAX_BLOCK_SPAWN; lia.
  - apply RowShape_nil.
  - unfold WIDTH; lia.
  - exists row, s'. split; [done|]. split; [by apply (RowShape_RowOk v _ _ sp)|]. done.
Qed.

Lemma rerollLoop_counters v : ∀ (fuel : nat) attempts s n s',
  gridOk (grid s) → (∀ row, nextRow s = Some row → Z.of_nat (length row) = WIDTH) →
  rerollLoop v fuel attempts s = Ok (n, s') →
  score s' = score s ∧ topLine s' = topLine s ∧ (blockCounter s ≤ blockCounter s')%nat ∧
  (is_Some (nextRow s) → is_Some (nextRow s')).
Proof.
  induction fuel as [|fuel IH]; intros attempts s n s' Hg Hlen Hrun; [done|].
  cbn [rerollLoop] in Hrun.
  destruct (nextRow s) as [row|] eqn:Hrow.
  2:{ rewrite rowWouldClearLines_null in Hrun. cbn in Hrun. injection Hrun as <- <-.
      rewrite Hrow. repeat split; try lia. done. }
  destruct (rowWouldClearLines_restores v row s Hg (Hlen row eq_refl)) as [b Hb].
  rewrite Hb in Hrun. cbn [mbind result_mbind result_bind] in Hrun.
  destruct (b && bool_decide (attempts < 20)).
  - destruct (generateNextRow_full v s)
      as (row' & s1 & Hgen & Hrow' & Hg1 & _ & _ & _ & Hsc & Htop & _).
    rewrite Hgen in Hrun. cbn [mbind result_mbind result_bind] in Hrun.
    apply IH in Hrun as (Hsc' & Htop' & Hbc' & Hnr').
    + cbn [score topLine blockCounter nextRow setNextRow] in *.
      pose proof (ro_mono _ _ _ _ Hrow'). repeat split; try lia; try congruence.
      intros _. apply Hnr'. eauto.
    + cbn. by rewrite Hg1.
    + cbn. intros r [= <-]. apply (ro_length _ _ _ _ Hrow').
  - injection Hrun as <- <-. rewrite Hrow. repeat split; try lia. done.
Qed.

Lemma startFallAnimation_Advances v ms opts s : Advances s (startFallAnimation v ms opts s).
Proof.
  unfold startFallAnimation. case_bool_decide; advances_frame.
Qed.

Lemma Single_none s : fallingAnimation s = None → Single s.
Proof. intros Hnone a Ha. congruence. Qed.

Lemma Single_same s s' : fallingAnimation s' = fallingAnimation s → Single s → Single s'.
Proof. intros Heq Hs a Ha. apply Hs. by rewrite <- Heq. Qed.

Lemma startFallAnimation_Single v ms fin k st s :
  fallingAnimation s = None → (is_Some fin → k = None) →
  Single (startFallAnimation v ms (mkFallOptions fin k st) s) ∧
  topLine (startFallAnimation v ms (mkFallOptions fin k st) s) = topLine s.
Proof.
  intros Hnone Hk. unfold startFallAnimation. case_bool_decide; [by split; [apply Single_none|]|].
  split; [|done]. intros a [= <-]. cbn. split.
  - destruct k; cbn; lia.
  - intros Hfin. by rewrite (Hk Hfin).
Qed.

(** The animated settle started without animation, for a callback that
    spawns at most one row: at most one row is spawned, and the animation
    left has one continuation at most. *)
Lemma settleAnimated_once v spawn (R : State → Prop) :
  (∀ s s', R s → sameControl s s' → gridStep v (grid s) (grid s') → R s') →
  (∀ s0 s0', R s0 → fallingAnimation s0 = None → spawn s0 = Ok s0' →
     Single s0' ∧ topLine s0 ≤ topLine s0' ≤ topLine s0 + 1) →
  ∀ (fuel : nat) k s n s',
    gridOk (grid s) → R s → fallingAnimation s = None →
    settleAnimated v spawn fuel k s = Ok (n, s') →
    Single s' ∧ topLine s ≤ topLine s' ≤ topLine s + 1 ∧
    (k ≠ SpawnIf true → topLine s' = topLine s).
Proof.
  intros HR Hspawn. induction fuel as [|fuel IH]; intros k s n s' Hg Hs Han Hrun; [done|].
  cbn [settleAnimated] in Hrun. rewrite Han in Hrun.
  destruct (applyGravity_gridStep v true s Hg) as (mv & ms & g1 & Hgrav & Hs1).
  rewrite Hgrav in Hrun. cbn [mbind result_mbind result_bind] in Hrun.
  case_bool_decide as Hms.
  { injection Hrun as <- <-.
    destruct (startFallAnimation_Single v ms None (Some (SettleAfter k)) (Some None)
                (setHoveredBlock None (setGrid g1 s))) as [Hsingle Htop]; [done|by intros []|].
    rewrite Htop. cbn [topLine setHoveredBlock setGrid]. split; [done|]. split; [lia|done]. }
  destruct (clearFullLines_gridStep v (setGrid g1 s) (proj1 Hs1))
    as (g2 & c & Hclr & Hs2 & Hc & _).
  cbn [grid setGrid] in Hs2.
  rewrite Hclr in Hrun. cbn [mbind result_mbind result_bind] in Hrun.
  pose proof (gridStep_trans v _ _ _ Hs1 Hs2) as Hs12.
  match type of Hclr with _ = Ok (_, ?st) => set (s2 := st) in * end.
  assert (grid s2 = g2 ∧ sameControl s s2 ∧ topLine s2 = topLine s ∧
          fallingAnimation s2 = None) as (Hgs2 & Hsc & Htop & Han2).
  { unfold s2. case_bool_decide; cbn; repeat split; done. }
  assert (R s2) as HR2 by (apply (HR s); [done|done|by rewrite Hgs2]).
  case_bool_decide as Hc0.
  - apply IH in Hrun.
    + cbn [topLine setScore] in Hrun. by rewrite Htop in Hrun.
    + cbn [grid setScore]. rewrite Hgs2. apply Hs2.
    + apply (HR s2); [done|by repeat split|]. cbn [grid setScore]. rewrite Hgs2.
      apply gridStep_refl, Hs2.
    + done.
  - apply bind_Ok in Hrun as (s3 & Hcb & Hrun). injection Hrun as <- <-.
    destruct k as [|[|]]; cbn [runOnComplete] in Hcb.
    + injection Hcb as <-. split; [by apply Single_none|]. split; [lia|done].
    + destruct (Hspawn s2 s3 HR2 Han2 Hcb) as [Hsingle Hbound].
      split; [done|]. split; [lia|done].
    + injection Hcb as <-. split; [by apply Single_none|]. split; [lia|done].
Qed.

(** The animated settle, for a callback that keeps the counters on the
    boards [R] it is called on. *)
Lemma settleAnimated_advances v spawn (R : State → Prop) :
  (∀ s s', R s → sameControl s s' → gridStep v (grid s) (grid s') → R s') →
  (∀ s0 s0', R s0 → fallingAnimation s0 = None → spawn s0 = Ok s0' → Advances s0 s0') →
  ∀ (fuel : nat) k s n s',
    gridOk (grid s) → R s → settleAnimated v spawn fuel k s = Ok (n, s') → Advances s s'.
Proof.
  intros HR Hspawn. induction fuel as [|fuel IH]; intros k s n s' Hg Hs Hrun; [done|].
  cbn [settleAnimated] in Hrun.
  destruct (fallingAnimation s) as [a|] eqn:Han.
  { injection Hrun as <- <-. advances_frame. }
  destruct (applyGravity_gridStep v true s Hg) as (mv & ms & g1 & Hgrav & Hs1).
  rewrite Hgrav in Hrun. cbn [mbind result_mbind result_bind] in Hrun.
  case_bool_decide as Hms.
  { injection Hrun as <- <-. apply (Advances_trans _ (setHoveredBlock None (setGrid g1 s)));
      [advances_frame|apply startFallAnimation_Advances]. }
  destruct (clearFullLines_gridStep v (setGrid g1 s) (proj1 Hs1))
    as (g2 & c & Hclr & Hs2 & Hc & _).
  cbn [grid setGrid] in Hs2.
  rewrite Hclr in Hrun. cbn [mbind result_mbind result_bind] in Hrun.
  pose proof (gridStep_trans v _ _ _ Hs1 Hs2) as Hs12.
  match type of Hclr with _ = Ok (_, ?st) => set (s2 := st) in * end.
  assert (grid s2 = g2 ∧ sameControl s s2 ∧ score s2 = score s ∧ topLine s2 = topLine s ∧
          fallingAnimation s2 = None) as (Hgs2 & Hsc & Hscore & Htop & Han2).
  { unfold s2. case_bool_decide; cbn; repeat split; done. }
  assert (R s2) as HR2 by (apply (HR s); [done|done|by rewrite Hgs2]).
  assert (Advances s s2) as Hadv by (apply sameControl_Advances; [done|lia|lia]).
  case_bool_decide as Hc0.
  - apply IH in Hrun.
    + apply (Advances_trans _ s2); [done|].
      apply (Advances_trans _ (setScore (score s2 + c) s2)); [|done].
      unfold Advances. cbn. repeat split; try lia. done.
    + cbn [grid setScore]. rewrite Hgs2. apply Hs2.
    + apply (HR s2); [done|by repeat split|]. cbn [grid setScore]. rewrite Hgs2.
      apply gridStep_refl, Hs2.
  - apply bind_Ok in Hrun as (s3 & Hcb & Hrun). injection Hrun as <- <-.
    apply (Advances_trans _ s2); [done|].
    destruct k as [|[|]]; cbn [runOnComplete] in Hcb.
    + injection Hcb as <-. advances_frame.
    + by apply Hspawn.
    + injection Hcb as <-. advances_frame.
Qed.

Lemma settleBoardPlain_advances v animate s n s' :
  gridOk (grid s) → settleBoardPlain v animate s = Ok (n, s') →
  Advances s s' ∧ topLine s' = topLine s.
Proof.
  intros Hg Hrun. unfold settleBoardPlain, settleBoardWith in Hrun.
  destruct animate; cbn [negb] in Hrun.
  - split.
    + apply (settleAnimated_advances v (λ s, Ok s) (λ _, True)) in Hrun; try done.
      intros s0 s0' _ _ [= <-]. advances_frame.
    + revert Hrun. generalize settleFuel. intros fuel. revert s n s' Hg.
      induction fuel as [|fuel IH]; intros s n s' Hg Hrun; [done|].
      cbn [settleAnimated] in Hrun.
      destruct (fallingAnimation s) as [a|] eqn:Han.
      { by injection Hrun as <- <-. }
      destruct (applyGravity_gridStep v true s Hg) as (mv & ms & g1 & Hgrav & Hs1).
      rewrite Hgrav in Hrun. cbn [mbind result_mbind result_bind] in Hrun.
      case_bool_decide as Hms.
      { injection Hrun as <- <-. unfold startFallAnimation. by case_bool_decide. }
      destruct (clearFullLines_gridStep v (setGrid g1 s) (proj1 Hs1))
        as (g2 & c & Hclr & Hs2 & Hc & _).
      cbn [grid setGrid] in Hs2.
      rewrite Hclr in Hrun. cbn [mbind result_mbind result_bind] in Hrun.
      match type of Hclr with _ = Ok (_, ?st) => set (s2 := st) in * end.
      assert (grid s2 = g2 ∧ topLine s2 = topLine s) as (Hgs2 & Htop).
      { unfold s2. by case_bool_decide. }
      case_bool_decide as Hc0.
      * apply IH in Hrun; [cbn [topLine setScore] in Hrun; lia|]. cbn [grid setScore].
        rewrite Hgs2. apply Hs2.
      * cbn [runOnComplete mbind result_mbind result_bind] in Hrun.
        injection Hrun as <- <-. done.
  - destruct (settleSyncLoop_spec v settleFuel 0 s Hg (settleFuel_enough v _ Hg))
      as (ns & s1 & Hloop & _ & Hpos & _ & Hsc & Hscore & Htop & _).
    rewrite Hloop in Hrun. cbn [runOnComplete mbind result_mbind result_bind] in Hrun.
    injection Hrun as <- <-.
    assert (0 ≤ foldr Z.add 0 ns) as Hsum.
    { clear -Hpos. induction Hpos; simpl; lia. }
    case_bool_decide; cbn [score topLine setScore].
    + split; [|done]. apply (Advances_trans _ s1).
      * apply sameControl_Advances; [done|lia|lia].
      * unfold Advances. cbn. repeat split; try lia. done.
    + split; [|done]. apply sameControl_Advances; [done|lia|lia].
Qed.

Lemma settleBoardPlain_single v animate s n s' :
  gridOk (grid s) → fallingAnimation s = None → settleBoardPlain v animate s = Ok (n, s') →
  Single s'.
Proof.
  intros Hg Han Hrun. unfold settleBoardPlain, settleBoardWith in Hrun.
  destruct animate; cbn [negb] in Hrun.
  - apply (settleAnimated_once v (λ s, Ok s) (λ _, True)) in Hrun; try done.
    + apply Hrun.
    + intros s0 s0' _ Hnone [= <-]. split; [by apply Single_none|lia].
  - destruct (settleSyncLoop_spec v settleFuel 0 s Hg (settleFuel_enough v _ Hg))
      as (ns & s1 & Hloop & _ & _ & _ & Hsc & _).
    rewrite Hloop in Hrun. cbn [runOnComplete mbind result_mbind result_bind] in Hrun.
    injection Hrun as <- <-. apply Single_none.
    destruct Hsc as (_ & _ & _ & Han1 & _). case_bool_decide; cbn; congruence.
Qed.

Lemma spawnBlocks_full v animate s :
  Core v s → Idle s →
  ∃ s', spawnBlocks v animate s = Ok s' ∧
        Advances s s' ∧ topLine s' = topLine s + 1 ∧ is_Some (nextRow s') ∧ Single s'.
Proof.
  intros (bc0 & Hcore) [Hsel Han]. unfold spawnBlocks.
  assert (∃ s1 bc1,
            match nextRow s with
            | Some _ => Ok s
            | None => '(row, s) ← generateNextRow v s; Ok (setNextRow (Some row) s)
            end = Ok s1 ∧
            CoreOf v bc1 (grid s1) (blockCounter s1) (nextRow s1) ∧ is_Some (nextRow s1) ∧
            Idle s1 ∧ score s1 = score s ∧ topLine s1 = topLine s ∧
            (blockCounter s ≤ blockCounter s1)%nat)
    as (s1 & bc1 & -> & Hcore1 & Hnext1 & Hidle1 & Hsc1 & Htop1 & Hbc1).
  { destruct (nextRow s) as [row|] eqn:Hrow.
    - exists s, bc0. rewrite Hrow. split; [done|]. split; [done|]. split; [eauto|done].
    - destruct (generateNextRow_full v s)
        as (row' & s1 & Hgen & Hrow' & Hg1 & Hsel1 & Han1 & _ & Hsc & Htop & _).
      rewrite Hgen. cbn [mbind result_mbind result_bind].
      eexists _, (blockCounter s). split; [done|].
      cbn [grid blockCounter nextRow score topLine setNextRow]. rewrite Hg1.
      pose proof (ro_mono _ _ _ _ Hrow'). split; [split|].
      + done.
      + apply (BoardInv_mono v bc0); [apply Hcore|apply Hcore].
      + intros r [= <-]. done.
      + split; [eauto|]. split; [split; cbn; congruence|done]. }
  cbn [mbind result_mbind result_bind].
  destruct (rerollLoop_spec v 21 0 s1 bc1 ltac:(lia) ltac:(lia) Hcore1 Hnext1)
    as (n & s2 & bc2 & Hloop & Hcore2 & Hnext2 & Hg2 & Hsel2 & Han2).
  destruct (rerollLoop_counters v 21 0 s1 n s2) as (Hsc2 & Htop2 & Hbc2 & _); [| |done|].
  { apply (bi_ok _ _ _ (core_board _ _ _ _ _ Hcore1)). }
  { intros r Hr. apply (ro_length _ _ _ _ (core_next _ _ _ _ _ Hcore1 r Hr)). }
  rewrite Hloop. cbn [mbind result_mbind result_bind].
  match goal with |- context [moveBlocksUp v ?st] => set (s3 := st) in * end.
  assert (∃ bc3 row, CoreOf v bc3 (grid s3) (blockCounter s3) (nextRow s3) ∧
            nextRow s3 = Some row ∧ Idle s3 ∧ score s3 = score s2 ∧ topLine s3 = topLine s2 ∧
            blockCounter s3 = blockCounter s2)
    as (bc3 & row & Hcore3 & Hrow3 & Hidle3 & Hsc3 & Htop3 & Hbc3).
  { destruct Hidle1 as [? ?]. unfold s3. case_bool_decide.
    - exists (blockCounter s2). eexists. unfold Idle. cbn. split; [split|].
      + done.
      + apply (BoardInv_mono v bc2); [apply Hcore2|apply Hcore2].
      + intros r [= <-]. apply RowOk_empty.
      + split; [done|]. split; [split; congruence|done].
    - destruct Hnext2 as [row Hrow]. exists bc2, row. split; [done|]. split; [done|].
      split; [split; congruence|done]. }
  clearbody s3.
  pose proof (core_board _ _ _ _ _ Hcore3) as Hinv3.
  pose proof (core_next _ _ _ _ _ Hcore3 row Hrow3) as Hrowok.
  destruct (moveBlocksUp_spec v s3 (bi_ok _ _ _ Hinv3)) as (g4 & -> & Hg4 & Hcell4).
  cbn [mbind result_mbind result_bind nextRow setGrid setTopLine]. rewrite Hrow3.
  cbn [fromOption mbind result_mbind result_bind].
  match goal with |- context [insertRow row ?st] => set (s4 := st) in * end.
  destruct (insertRow_spec row s4 Hg4 (ro_length _ _ _ _ Hrowok)) as (g5 & -> & Hg5 & Hcell5).
  cbn [mbind result_mbind result_bind].
  assert (BoardInv v (blockCounter s3) g5) as Hinv5.
  { destruct (BoardInv_shifted v bc3 (grid s3) g4 Hinv3 Hg4 Hcell4) as [Hinv4 _].
    apply (BoardInv_inserted v bc3 _ g4 g5 row); try done.
    intros p Hon Hy. rewrite Hcell4 by done. by rewrite bool_decide_eq_false_2 by lia. }
  destruct (settleBoardPlain_spec v animate (setGrid g5 s4) (blockCounter s3))
    as (n6 & s6 & Hplain & _); [done|done|].
  destruct (settleBoardPlain_advances v animate (setGrid g5 s4) n6 s6 Hg5 Hplain)
    as ((Hsc6 & _ & Hbc6 & _) & Htop6).
  assert (Single s6) as Hsingle6.
  { apply (settleBoardPlain_single v animate (setGrid g5 s4) n6 s6 Hg5); [|done].
    destruct Hidle3 as [_ Han3]. exact Han3. }
  rewrite Hplain. cbn [mbind result_mbind result_bind].
  destruct (generateNextRow_full v s6)
    as (row7 & s7 & -> & Hrow7 & _ & _ & Han7 & _ & Hsc7 & Htop7 & _).
  cbn [mbind result_mbind result_bind].
  eexists. split; [done|].
  cbn [score topLine blockCounter setGrid setTopLine s4] in Hsc6, Hbc6, Htop6.
  pose proof (ro_mono _ _ _ _ Hrow7).
  split; [|split; [|split]].
  - unfold Advances. cbn [score topLine blockCounter nextRow setNextRow].
    repeat split; try lia; eauto.
  - cbn [topLine setNextRow]. lia.
  - cbn [nextRow setNextRow]. eauto.
  - by apply (Single_same s6).
Qed.

Lemma settleBoard_advances v k s n s' :
  Quiet v s → settleBoard v true k s = Ok (n, s') → Advances s s'.
Proof.
  intros (Hcore & Hsel & _) Hrun. unfold settleBoard, settleBoardWith in Hrun.
  cbn [negb] in Hrun.
  apply (settleAnimated_advances v (spawnBlocks v true)
           (λ s, Core v s ∧ selectedBlock s = None)) in Hrun; try done.
  - intros s0 s0' [Hc Hs] Hsc Hstep. split; [by apply (Core_step v s0)|].
    destruct Hsc as (-> & _). done.
  - intros s0 s0' [Hc Hs] Ha Hsp.
    destruct (spawnBlocks_full v true s0 Hc (conj Hs Ha)) as (s1 & Hs1 & Hadv & _).
    rewrite Hsp in Hs1. by injection Hs1 as <-.
  - destruct Hcore as (bc0 & Hc). apply (bi_ok _ _ _ (core_board _ _ _ _ _ Hc)).
Qed.

Lemma settleBoard_once v k s n s' :
  Quiet v s → fallingAnimation s = None → settleBoard v true k s = Ok (n, s') →
  Single s' ∧ topLine s ≤ topLine s' ≤ topLine s + 1 ∧
  (k ≠ SpawnIf true → topLine s' = topLine s).
Proof.
  intros (Hcore & Hsel & _) Han Hrun. unfold settleBoard, settleBoardWith in Hrun.
  cbn [negb] in Hrun.
  apply (settleAnimated_once v (spawnBlocks v true)
           (λ s, Core v s ∧ selectedBlock s = None)) in Hrun; try done.
  - intros s0 s0' [Hc Hs] Hsc Hstep. split; [by apply (Core_step v s0)|].
    destruct Hsc as (-> & _). done.
  - intros s0 s0' [Hc Hs] Ha Hsp.
    destruct (spawnBlocks_full v true s0 Hc (conj Hs Ha)) as (s1 & Hs1 & _ & Htop & _ & Hsg).
    rewrite Hsp in Hs1. injection Hs1 as <-. split; [done|lia].
  - destruct Hcore as (bc0 & Hc). apply (bi_ok _ _ _ (core_board _ _ _ _ _ Hc)).
Qed.

Lemma finalizePlacement_advances v bc0 s cells c bid d b s' :
  CoreOf v bc0 (grid s) (blockCounter s) (nextRow s) → Idle s →
  (∃ id, bid = Some id ∧ (id ≤ bc0)%nat ∧ absent (grid s) id) →
  c ≠ COLOR_BACKGROUND v → BlockShape cells →
  (∀ p, p ∈ cells →
     onBoard (p.1, p.2 + d) ∧
     ∃ c', cellAt (grid s) (p.1, p.2 + d) = Some c' ∧ isEmptyCell v c' = true) →
  finalizePlacement v cells c bid d b s = Ok s' → Advances s s'.
Proof.
  intros Hcore [Hsel Han] (id & -> & Hid & Habs) Hc Hshape Hfree Hrun.
  pose proof (core_board _ _ _ _ _ Hcore) as Hboard.
  unfold finalizePlacement in Hrun.
  destruct (place_spec cells d c (Some id) (grid s) (bi_ok _ _ _ Hboard)) as (Hw & Hg' & _).
  { intros p Hp. by destruct (Hfree p Hp). }
  rewrite Hw in Hrun. cbn [mbind result_mbind result_bind] in Hrun.
  destruct (BoardInv_place v bc0 (grid s) id cells d c Hboard Habs Hid Hc Hshape)
    as (Hboard' & _).
  { intros p Hp. by destruct (Hfree p Hp). }
  { intros p Hp. by destruct (Hfree p Hp). }
  apply bind_Ok in Hrun as ([n s1] & Hsettle & Hrun). injection Hrun as <-.
  apply settleBoard_advances in Hsettle.
  - apply (Advances_trans _ (setGrid (place cells d c (Some id) (grid s)) s));
      [advances_frame|].
    apply (Advances_trans _ s1); [done|]. advances_frame.
  - split; [|split].
    + exists bc0. split; [apply Hcore|done|apply Hcore].
    + done.
    + cbn. intros a Ha. congruence.
Qed.

Lemma finalizePlacement_once v bc0 s cells c bid d b s' :
  CoreOf v bc0 (grid s) (blockCounter s) (nextRow s) → Idle s →
  (∃ id, bid = Some id ∧ (id ≤ bc0)%nat ∧ absent (grid s) id) →
  c ≠ COLOR_BACKGROUND v → BlockShape cells →
  (∀ p, p ∈ cells →
     onBoard (p.1, p.2 + d) ∧
     ∃ c', cellAt (grid s) (p.1, p.2 + d) = Some c' ∧ isEmptyCell v c' = true) →
  finalizePlacement v cells c bid d b s = Ok s' →
  Single s' ∧ topLine s ≤ topLine s' ≤ topLine s + 1 ∧ (b = false → topLine s' = topLine s).
Proof.
  intros Hcore [Hsel Han] (id & -> & Hid & Habs) Hc Hshape Hfree Hrun.
  pose proof (core_board _ _ _ _ _ Hcore) as Hboard.
  unfold finalizePlacement in Hrun.
  destruct (place_spec cells d c (Some id) (grid s) (bi_ok _ _ _ Hboard)) as (Hw & Hg' & _).
  { intros p Hp. by destruct (Hfree p Hp). }
  rewrite Hw in Hrun. cbn [mbind result_mbind result_bind] in Hrun.
  destruct (BoardInv_place v bc0 (grid s) id cells d c Hboard Habs Hid Hc Hshape)
    as (Hboard' & _).
  { intros p Hp. by destruct (Hfree p Hp). }
  { intros p Hp. by destruct (Hfree p Hp). }
  apply bind_Ok in Hrun as ([n s1] & Hsettle & Hrun). injection Hrun as <-.
  apply settleBoard_once in Hsettle as (Hsingle & Hbound & Hsame).
  - cbn [topLine setGrid] in Hbound, Hsame.
    assert (∀ st, fallingAnimation (match v with IndexJs => setSelectionMoved false st
                                    | Part000 => st end) = fallingAnimation st ∧
                  topLine (match v with IndexJs => setSelectionMoved false st
                           | Part000 => st end) = topLine st) as Hframe
      by (intros st; by destruct v).
    destruct (Hframe s1) as [Ha Ht]. rewrite Ht.
    split; [by apply (Single_same s1)|]. split; [done|].
    intros ->. by apply Hsame.
  - split; [|split].
    + exists bc0. split; [apply Hcore|done|apply Hcore].
    + done.
    + cbn. intros a Ha. congruence.
  - done.
Qed.

Lemma forEachM_runContinuation_advances v ks : ∀ s s',
  Quiet v s → forEachM (runContinuation v) ks s = Ok s' → Advances s s'.
Proof.
  induction ks as [|[k] ks IH]; intros s s' Hq Hrun; cbn [forEachM runContinuation] in Hrun.
  { injection Hrun as <-. advances_frame. }
  destruct (settleBoard_Quiet v k s Hq) as (n & s1 & Hs1 & Hq1).
  rewrite Hs1 in Hrun. cbn [mbind result_mbind result_bind] in Hrun.
  apply (Advances_trans _ s1); [by apply (settleBoard_advances v k s n)|by apply IH].
Qed.

Ltac unfold_run H :=
  repeat match type of H with
  | (if ?b then _ else _) = _ => destruct b
  | (_ ≫= _) = Ok _ => apply bind_Ok in H as (? & ? & H)
  | match ?x with _ => _ end = _ => destruct x eqn:?
  end.

Lemma trySelectBlock_advances v button pointer s s' :
  trySelectBlock v button pointer s = Ok s' → Advances s s'.
Proof.
  intros Hrun. unfold trySelectBlock in Hrun. unfold_run Hrun;
    injection Hrun as <-; advances_frame.
Qed.

Lemma applyOffset_advances v wanted s s' :
  applyOffset v wanted s = Ok s' → Advances s s'.
Proof.
  intros Hrun. unfold applyOffset in Hrun. unfold_run Hrun;
    injection Hrun as <-; advances_frame.
Qed.

Lemma updateHoveredBlock_advances v pointer s s' :
  updateHoveredBlock v pointer s = Ok s' → Advances s s'.
Proof.
  intros Hrun. unfold updateHoveredBlock in Hrun. unfold_run Hrun;
    injection Hrun as <-; advances_frame.
Qed.

Lemma handleMouseUp_advances v s s' :
  Inv v s → handleMouseUp v s = Ok s' → Advances s s'.
Proof.
  intros (bc0 & Hcore & HselInv & _) Hrun.
  unfold handleMouseUp, dropSelectedBlock in Hrun.
  destruct (selectedBlock s) as [sel|] eqn:Hsel.
  2:{ injection Hrun as <-. advances_frame. }
  destruct (HselInv sel eq_refl) as [Han Hheld].
  destruct (Held_selCells _ _ _ _ Hheld) as (Hne & Hshape & Hfree).
  apply bind_Ok in Hrun as ([pl s0] & Hdrop & Hrun).
  apply bind_Ok in Hdrop as (d & Hd & Hdrop). injection Hdrop as <- <-.
  cbn [plDropDistance plCells plColor plBlockId shouldSpawn] in Hrun.
  apply bind_Ok in Hrun as (s1 & Hrun & Hfin). injection Hfin as <-.
  apply (Advances_trans _ s1); [|advances_frame].
  case_bool_decide as Hd0.
  - apply (Advances_trans _ (setSelectedBlock None s)); [advances_frame|].
    apply finalizePlacement_advances with (bc0 := bc0) in Hrun; try done.
    + apply Hheld.
    + apply Hheld.
    + intros [x y] Hp. rewrite Hd0. cbn [fst snd]. rewrite Z.add_0_r. by apply Hfree.
  - injection Hrun as <-.
    apply (Advances_trans _ (setSelectedBlock None s)); [advances_frame|].
    apply startFallAnimation_Advances.
Qed.

Lemma render_advances v timestamp s s' :
  Inv v s → render v timestamp s = Ok s' → Advances s s'.
Proof.
  intros Hinv Hrun. unfold render in Hrun.
  apply bind_Ok in Hrun as (d & _ & Hrun).
  destruct (ensureNextRow_Inv v s Hinv) as (s1 & Hs1 & Hinv1).
  assert (Advances s s1) as Hadv1.
  { destruct (nextRow s) as [row|] eqn:Hrow.
    - injection Hs1 as <-. advances_frame.
    - destruct (generateNextRow_full v s)
        as (row' & s0 & Hgen & Hrow' & _ & _ & _ & _ & Hsc & Htop & _).
      rewrite Hgen in Hs1. cbn [mbind result_mbind result_bind] in Hs1. injection Hs1 as <-.
      pose proof (ro_mono _ _ _ _ Hrow'). unfold Advances. cbn.
      repeat split; try lia. eauto. }
  rewrite Hs1 in Hrun. cbn [mbind result_mbind result_bind] in Hrun.
  apply (Advances_trans _ s1); [done|].
  destruct (fallingAnimation s1) as [anim|] eqn:Han.
  2:{ injection Hrun as <-. advances_frame. }
  lazy zeta in Hrun. cbn [finalize after] in Hrun.
  destruct Hinv1 as (bc0 & Hcore & HselInv & HanInv).
  assert (selectedBlock s1 = None) as Hsel.
  { destruct (selectedBlock s1) as [sel|] eqn:Hsel; [|done].
    destruct (HselInv sel eq_refl) as [? _]. congruence. }
  destruct (Qle_bool 1 _).
  2:{ injection Hrun as <-. advances_frame. }
  match type of Hrun with context [setFallingAnimation None ?st] =>
    set (s2 := setFallingAnimation None st) in * end.
  assert (CoreOf v bc0 (grid s2) (blockCounter s2) (nextRow s2)) as Hcore2 by done.
  assert (Idle s2) as Hidle2 by (by split).
  apply bind_Ok in Hrun as (s3 & Hfin & Hrun).
  assert (Quiet v s3 ∧ Advances s2 s3) as [Hq3 Hadv3].
  { destruct (finalize anim) as [f|] eqn:Hf.
    - destruct (HanInv anim f Han Hf) as [Hid Hcol Hshape Hfree].
      unfold runFinalize in Hfin. split.
      + destruct (finalizePlacement_spec v bc0 s2 (finCells f) (finColor f) (finBlockId f)
                    (finDrop f) (finShouldSpawn f)) as (s3' & Hs3' & Hq); try done.
        rewrite Hfin in Hs3'. by injection Hs3' as <-.
      + by apply (finalizePlacement_advances v bc0 s2 (finCells f) (finColor f) (finBlockId f)
                    (finDrop f) (finShouldSpawn f)).
    - injection Hfin as <-. split; [|advances_frame].
      split; [by exists bc0|]. split; [done|]. intros a Ha. discriminate. }
  apply (Advances_trans _ s2); [advances_frame|].
  apply (Advances_trans _ s3); [done|].
  by apply (forEachM_runContinuation_advances v (after anim)).
Qed.

Lemma handleEvent_advances v e s s' :
  Inv v s → handleEvent v e s = Ok s' → Advances s s'.
Proof.
  intros Hinv Hrun. destruct e as [button pointer|pointer over| | |timestamp];
    cbn [handleEvent] in Hrun.
  - by apply (trySelectBlock_advances v button pointer).
  - apply bind_Ok in Hrun as (s1 & Hhov & Hrun).
    apply (Advances_trans _ s1).
    + destruct over; [by apply (updateHoveredBlock_advances v pointer)|].
      injection Hhov as <-. advances_frame.
    + unfold handleDrag in Hrun. destruct (selectedBlock s1).
      * by apply applyOffset_advances in Hrun.
      * injection Hrun as <-. advances_frame.
  - injection Hrun as <-. advances_frame.
  - by apply (handleMouseUp_advances v).
  - by apply (render_advances v timestamp).
Qed.

Lemma pointer_frame v e s s' :
  (∀ timestamp, e ≠ Frame timestamp) → e ≠ MouseUp → handleEvent v e s = Ok s' →
  score s' = score s ∧ topLine s' = topLine s ∧ blockCounter s' = blockCounter s ∧
  nextRow s' = nextRow s ∧ fallingAnimation s' = fallingAnimation s.
Proof.
  intros Hframe Hup Hrun. destruct e as [button pointer|pointer over| | |timestamp];
    cbn [handleEvent] in Hrun.
  - unfold trySelectBlock in Hrun. unfold_run Hrun; injection Hrun as <-; by destruct v.
  - apply bind_Ok in Hrun as (s1 & Hhov & Hrun).
    assert (score s1 = score s ∧ topLine s1 = topLine s ∧ blockCounter s1 = blockCounter s ∧
            nextRow s1 = nextRow s ∧ fallingAnimation s1 = fallingAnimation s)
      as (<- & <- & <- & <- & <-).
    { destruct over; [|by injection Hhov as <-].
      unfold updateHoveredBlock in Hhov. unfold_run Hhov; by injection Hhov as <-. }
    unfold handleDrag, applyOffset in Hrun. unfold_run Hrun; injection Hrun as <-;
      by destruct v.
  - by injection Hrun as <-.
  - done.
  - by destruct (Hframe timestamp).
Qed.

Lemma handleMouseUp_once v s s' :
  Inv v s → Single s → handleMouseUp v s = Ok s' →
  Single s' ∧ topLine s ≤ topLine s' ≤ topLine s + 1.
Proof.
  intros (bc0 & Hcore & HselInv & _) Hsingle Hrun.
  unfold handleMouseUp, dropSelectedBlock in Hrun.
  destruct (selectedBlock s) as [sel|] eqn:Hsel.
  2:{ injection Hrun as <-. split; [done|lia]. }
  destruct (HselInv sel eq_refl) as [Han Hheld].
  destruct (Held_selCells _ _ _ _ Hheld) as (Hne & Hshape & Hfree).
  apply bind_Ok in Hrun as ([pl s0] & Hdrop & Hrun).
  apply bind_Ok in Hdrop as (d & Hd & Hdrop). injection Hdrop as <- <-.
  cbn [plDropDistance plCells plColor plBlockId shouldSpawn] in Hrun.
  apply bind_Ok in Hrun as (s1 & Hrun & Hfin). injection Hfin as <-.
  assert (Single s1 ∧ topLine s ≤ topLine s1 ≤ topLine s + 1) as [Hs1 Hb1].
  { case_bool_decide as Hd0.
    - apply finalizePlacement_once with (bc0 := bc0) in Hrun as (? & ? & _); try done.
      + apply Hheld.
      + apply Hheld.
      + intros [x y] Hp. rewrite Hd0. cbn [fst snd]. rewrite Z.add_0_r. by apply Hfree.
    - injection Hrun as <-.
      match goal with |- context [startFallAnimation v ?ms (mkFallOptions ?f ?k ?st) ?s0] =>
        destruct (startFallAnimation_Single v ms f k st s0) as [Hsg Htop] end; [done|done|].
      rewrite Htop. split; [done|]. cbn [topLine setSelectedBlock]. lia. }
  split; [by apply (Single_same s1)|done].
Qed.

Lemma render_once v timestamp s s' :
  Inv v s → Single s → is_Some (nextRow s) → render v timestamp s = Ok s' →
  Single s' ∧ topLine s ≤ topLine s' ≤ topLine s + 1.
Proof.
  intros Hinv Hsingle [row Hrow] Hrun. unfold render in Hrun.
  apply bind_Ok in Hrun as (d & _ & Hrun). rewrite Hrow in Hrun.
  cbn [mbind result_mbind result_bind] in Hrun.
  destruct (fallingAnimation s) as [anim|] eqn:Han.
  2:{ injection Hrun as <-. split; [by apply Single_none|lia]. }
  destruct (Hsingle anim Han) as [Hlen Hexcl].
  lazy zeta in Hrun. cbn [finalize after] in Hrun.
  destruct Hinv as (bc0 & Hcore & HselInv & HanInv).
  assert (selectedBlock s = None) as Hsel.
  { destruct (selectedBlock s) as [sel|] eqn:Hsel; [|done].
    destruct (HselInv sel eq_refl) as [? _]. congruence. }
  destruct (Qle_bool 1 _).
  2:{ injection Hrun as <-. split; [|cbn; lia]. intros a [= <-]. cbn. done. }
  match type of Hrun with context [setFallingAnimation None ?st] =>
    set (s2 := setFallingAnimation None st) in * end.
  assert (CoreOf v bc0 (grid s2) (blockCounter s2) (nextRow s2)) as Hcore2 by done.
  assert (Idle s2) as Hidle2 by (by split).
  assert (topLine s2 = topLine s) as Htop2 by done.
  apply bind_Ok in Hrun as (s3 & Hfin & Hrun).
  destruct (finalize anim) as [f|] eqn:Hf.
  - rewrite (Hexcl ltac:(eauto)) in Hrun. cbn [forEachM] in Hrun. injection Hrun as <-.
    destruct (HanInv anim f Han Hf) as [Hid Hcol Hshape Hfree].
    unfold runFinalize in Hfin.
    apply finalizePlacement_once with (bc0 := bc0) in Hfin as (? & ? & _); try done;
      try (split; [done|lia]).
  - injection Hfin as <-.
    destruct (after anim) as [|[k] [|k' ks]] eqn:Hafter; cbn [length] in Hlen; [| |lia].
    + cbn [forEachM] in Hrun. injection Hrun as <-. split; [by apply Single_none|lia].
    + cbn [forEachM runContinuation] in Hrun.
      apply bind_Ok in Hrun as (s4 & Hk & Hrun). injection Hrun as <-.
      apply bind_Ok in Hk as ([n s5] & Hk & Hret). injection Hret as <-.
      apply settleBoard_once in Hk as (? & ? & _).
      * split; [done|lia].
      * split; [by exists bc0|]. split; [done|]. intros a Ha. discriminate.
      * done.
Qed.


Lemma bootstrap_counters v tape s :
  bootstrap v tape = Ok s →
  topLine s = 4 ∧ 0 ≤ score s ∧ is_Some (nextRow s) ∧ fallingAnimation s = None.
Proof.
  intros Hboot. unfold bootstrap in Hboot.
  destruct (forEachM_inv
              (λ (l : list nat) s,
                 Core v s ∧ Idle s ∧ topLine s + Z.of_nat (length l) = 4 ∧ 0 ≤ score s ∧
                 ((length l < 5)%nat → is_Some (nextRow s)))
              (λ _ s, spawnBlocks v false s) (seq 0 5) (initialState v tape))
    as (s0 & Hrun & _ & [_ Han0] & Htop & Hsc & Hnr).
  - destruct (initialState_Core v tape) as [Hcore Hidle]. split; [done|]. split; [done|].
    cbn. split; [done|]. split; [done|]. lia.
  - intros a rest s1 (Hcore & Hidle & Htop & Hsc & _).
    destruct (spawnBlocks_spec v false s1 Hcore Hidle) as (s2 & Hs2 & Hq & Han).
    destruct (spawnBlocks_full v false s1 Hcore Hidle)
      as (s2' & Hs2' & (Hsc2 & _) & Htop2 & Hnr2 & _).
    rewrite Hs2 in Hs2'. injection Hs2' as <-.
    exists s2. split; [done|]. split; [apply Hq|]. split; [split; [apply Hq|by apply Han]|].
    cbn [length] in Htop. split; [lia|]. split; [lia|done].
  - rewrite Hrun in Hboot. injection Hboot as <-. cbn in Htop, Hnr.
    split; [lia|]. split; [done|]. split; [apply Hnr; lia|done].
Qed.

Lemma reachable_counters v s :
  reachable v s → is_Some (nextRow s) ∧ 4 ≤ topLine s ∧ 0 ≤ score s.
Proof.
  induction 1 as [tape s Hboot|s e s' Hr IH Hstep].
  - destruct (bootstrap_counters v tape s Hboot) as (? & ? & ? & _). split; [done|]. lia.
  - destruct IH as (Hnr & Htop & Hsc).
    destruct (handleEvent_advances v e s s' (reachable_Inv v s Hr) Hstep)
      as (? & ? & _ & Hnr').
    split; [by apply Hnr'|]. lia.
Qed.

Lemma handleEvent_once v e s s' :
  Inv v s → Single s → is_Some (nextRow s) → handleEvent v e s = Ok s' →
  Single s' ∧ topLine s ≤ topLine s' ≤ topLine s + 1.
Proof.
  intros Hinv Hsingle Hnr Hrun.
  assert ((∀ timestamp, e ≠ Frame timestamp) → e ≠ MouseUp →
          Single s' ∧ topLine s ≤ topLine s' ≤ topLine s + 1) as Hpointer.
  { intros Hframe Hup.
    destruct (pointer_frame v e s s' Hframe Hup Hrun) as (_ & -> & _ & _ & Han).
    split; [by apply (Single_same s)|lia]. }
  destruct e as [button pointer|pointer over| | |timestamp]; try (by apply Hpointer).
  - by apply (handleMouseUp_once v s).
  - by apply (render_once v timestamp s).
Qed.

Lemma reachable_Single v s : reachable v s → Single s.
Proof.
  induction 1 as [tape s Hboot|s e s' Hr IH Hstep].
  - destruct (bootstrap_counters v tape s Hboot) as (_ & _ & _ & Han). by apply Single_none.
  - destruct (reachable_counters v s Hr) as (Hnr & _).
    by destruct (handleEvent_once v e s s' (reachable_Inv v s Hr) IH Hnr Hstep).
Qed.

(** X16.  A listener never lowers the score, the count of rows spawned or
    the counter of ids, from any reachable state. *)
Theorem counters_never_go_back (v : SourceFile) s e s' :
  reachable v s → handleEvent v e s = Ok s' →
  score s ≤ score s' ∧ topLine s ≤ topLine s' ∧ (blockCounter s ≤ blockCounter s')%nat.
Proof.
  intros Hr Hstep.
  destruct (handleEvent_advances v e s s' (reachable_Inv v s Hr) Hstep) as (? & ? & ? & _).
  done.
Qed.

Lemma counters_never_go_back_witness :
  reachable IndexJs heldState ∧ handleEvent IndexJs MouseUp heldState = Ok fallingState ∧
  score heldState ≤ score fallingState.
Proof.
  assert (handleEvent IndexJs MouseUp heldState = Ok fallingState) as Hstep
    by (vm_compute; reflexivity).
  split; [exact heldState_reachable|]. split; [exact Hstep|].
  by destruct (counters_never_go_back IndexJs heldState MouseUp fallingState
                 heldState_reachable Hstep) as (Hsc & _).
Defined.

(** X17.  In every reachable state the preview row is there: the script
    body leaves one and nothing takes it away, so that the test for a
    missing preview row in [render] never fires after the script body.  The
    script body has spawned five rows, which makes [topLine] at least 4, and
    the score is never negative. *)
Theorem reachable_preview_row (v : SourceFile) s :
  reachable v s →
  (∃ row, nextRow s = Some row ∧ Z.of_nat (length row) = WIDTH) ∧
  4 ≤ topLine s ∧ 0 ≤ score s ∧
  ∀ tape s0, bootstrap v tape = Ok s0 → topLine s0 = 4.
Proof.
  intros Hr. destruct (reachable_counters v s Hr) as ([row Hrow] & Htop & Hsc).
  split.
  { exists row. split; [done|]. destruct (reachable_Inv v s Hr) as (bc0 & Hcore & _).
    apply (ro_length _ _ _ _ (core_next _ _ _ _ _ Hcore row Hrow)). }
  split; [done|]. split; [done|]. intros tape s0 Hboot.
  by destruct (bootstrap_counters v tape s0 Hboot) as (? & _).
Qed.

Lemma reachable_preview_row_witness :
  reachable IndexJs fallingState ∧ is_Some (nextRow fallingState).
Proof.
  split; [exact fallingState_reachable|].
  destruct (reachable_preview_row IndexJs fallingState fallingState_reachable)
    as ((row & Hrow & _) & _).
  rewrite Hrow. eauto.
Defined.



(** ** Frames *)





(** ** One row at a time *)

(** X20.  The queue of an animation never grows in play.  In a reachable
    state a running animation has at most one continuation, and none when it
    has a placement to finish. *)
Theorem reachable_animation_queue (v : SourceFile) s a :
  reachable v s → fallingAnimation s = Some a →
  (length (after a) ≤ 1)%nat ∧ (is_Some (finalize a) → after a = []).
Proof. intros Hr Ha. apply (reachable_Single v s Hr a Ha). Qed.

Lemma reachable_animation_queue_witness :
  reachable IndexJs fallingState ∧
  ∃ a, fallingAnimation fallingState = Some a ∧ is_Some (finalize a) ∧ after a = [].
Proof.
  split; [exact fallingState_reachable|].
  assert (∃ a, fallingAnimation fallingState = Some a ∧ is_Some (finalize a))
    as (a & Ha & Hfin) by (eexists; split; [vm_compute; reflexivity|vm_compute; eauto]).
  exists a. split; [exact Ha|]. split; [exact Hfin|].
  destruct (reachable_animation_queue IndexJs fallingState a fallingState_reachable Ha)
    as [_ Hexcl].
  exact (Hexcl Hfin).
Defined.

(** X21.  A listener spawns one row at most: from a reachable state,
    [topLine] goes up by 0 or 1 over one call of a listener.  The listeners
    of [mousedown], [mousemove] and [mouseleave] change neither the score,
    nor [topLine], nor the counter of ids, nor the preview row, nor the
    animation; only a release and a frame do. *)
Theorem listener_spawns_one_row_at_most (v : SourceFile) s e s' :
  reachable v s → handleEvent v e s = Ok s' →
  topLine s ≤ topLine s' ≤ topLine s + 1 ∧
  (e ≠ MouseUp → (∀ timestamp, e ≠ Frame timestamp) →
   score s' = score s ∧ topLine s' = topLine s ∧ blockCounter s' = blockCounter s ∧
   nextRow s' = nextRow s ∧ fallingAnimation s' = fallingAnimation s).
Proof.
  intros Hr Hstep. destruct (reachable_counters v s Hr) as (Hnr & _).
  destruct (handleEvent_once v e s s' (reachable_Inv v s Hr) (reachable_Single v s Hr)
              Hnr Hstep) as [_ Hbound].
  split; [done|]. intros Hup Hframe. by apply (pointer_frame v e).
Qed.

Lemma listener_spawns_one_row_at_most_witness :
  reachable IndexJs heldState ∧ handleEvent IndexJs MouseUp heldState = Ok fallingState ∧
  topLine fallingState ≤ topLine heldState + 1.
Proof.
  assert (handleEvent IndexJs MouseUp heldState = Ok fallingState) as Hstep
    by (vm_compute; reflexivity).
  split; [exact heldState_reachable|]. split; [exact Hstep|].
  by destruct (listener_spawns_one_row_at_most IndexJs heldState MouseUp fallingState
                 heldState_reachable Hstep) as [[_ Hle] _].
Defined.

(** ** Cell margins and draw rectangles *)

Lemma restyledState_reachable : reachable Part000 restyledState.
Proof. apply (play_reachable Part000 alternatingTape []). vm_compute. reflexivity. Qed.

Lemma isSameBlockNeighbor_carries bc g cell id x y :
  BoardInv Part000 bc g → blockId cell = Some id →
  isSameBlockNeighbor g cell x y = true ↔ carries g (Some id) (x, y).
Proof.
  intros Hinv Hid. unfold isSameBlockNeighbor, carries, onBoard, cellAt. cbn [fst snd].
  repeat case_bool_decide; cbn [orb]; try (split; [done|intros [? _]; lia]).
  destruct (arrayGet g (idx x y)) as [n|] eqn:Hn.
  2:{ split; [done|]. by intros (_ & c & ? & _). }
  assert (isEmptyCell Part000 n = true ↔ blockId n = None) as Hempty.
  { apply (bi_cells _ _ _ Hinv (x, y)); [|done]. unfold onBoard. cbn. lia. }
  destruct (isEmptyCell Part000 n) eqn:He; cbn [orb].
  - split; [done|]. intros (_ & c & [= <-] & Hc).
    destruct Hempty as [Hn0 _]. rewrite Hn0 in Hc by done. done.
  - case_bool_decide as Hnone; [destruct Hempty as [_ Hn0]; by specialize (Hn0 Hnone)|].
    rewrite Hid. case_bool_decide as Hsame.
    + split; [|done]. intros _. split; [lia|]. by exists n.
    + split; [done|]. intros (_ & c & [= <-] & Hc). done.
Qed.

Lemma computeGridCellMargins_sides bc g x y :
  BoardInv Part000 bc g → onBoard (x, y) →
  let m := computeGridCellMargins g x y in
  let side (p : pos) (margin : Z) :=
    (∃ id, carries g (Some id) (x, y) ∧ carries g (Some id) p) ∧ margin = 0 ∨
    ¬ (∃ id, carries g (Some id) (x, y) ∧ carries g (Some id) p) ∧ margin = CELL_MARGIN in
  side (x - 1, y) (marginLeft m) ∧ side (x + 1, y) (marginRight m) ∧
  side (x, y - 1) (marginTop m) ∧ side (x, y + 1) (marginBottom m).
Proof.
  intros Hinv Hon m side. subst m side. cbv beta. unfold computeGridCellMargins.
  pose proof (bi_ok _ _ _ Hinv) as Hg.
  destruct (arrayGet g (idx x y)) as [cell|] eqn:Hcell.
  2:{ assert (∀ id, ¬ carries g (Some id) (x, y)) as Hno.
      { intros id (_ & c & Hc & _). unfold cellAt in Hc. cbn in Hc. congruence. }
      cbn. repeat split; right; (split; [|done]); intros (id & ?%Hno & _); done. }
  assert (isEmptyCell Part000 cell = true ↔ blockId cell = None) as Hempty
    by (by apply (bi_cells _ _ _ Hinv (x, y))).
  assert (∀ id, carries g (Some id) (x, y) ↔ blockId cell = Some id) as Hhere.
  { intros id. split.
    - intros (_ & c & Hc & Hid). unfold cellAt in Hc. cbn in Hc. congruence.
    - intros Hid. split; [done|]. by exists cell. }
  destruct (isEmptyCell Part000 cell || bool_decide (blockId cell = None)) eqn:Hskip.
  - assert (blockId cell = None) as Hnone.
    { apply orb_true_iff in Hskip as [He|Hn]; [by apply Hempty|].
      by apply bool_decide_eq_true in Hn. }
    cbn. repeat split; right; (split; [|done]); intros (id & Hc%Hhere & _); congruence.
  - apply orb_false_iff in Hskip as [He Hn]. apply bool_decide_eq_false in Hn.
    destruct (blockId cell) as [id|] eqn:Hid; [|done].
    cbn [marginLeft marginRight marginTop marginBottom].
    assert (∀ p,
      (∃ id0, carries g (Some id0) (x, y) ∧ carries g (Some id0) p) ∧
        (if isSameBlockNeighbor g cell p.1 p.2 then 0 else CELL_MARGIN) = 0 ∨
      ¬ (∃ id0, carries g (Some id0) (x, y) ∧ carries g (Some id0) p) ∧
        (if isSameBlockNeighbor g cell p.1 p.2 then 0 else CELL_MARGIN) = CELL_MARGIN)
      as Hside.
    { intros [px py]. cbn [fst snd].
      pose proof (isSameBlockNeighbor_carries bc g cell id px py Hinv Hid) as Hiff.
      destruct (isSameBlockNeighbor g cell px py).
      - left. split; [|done]. exists id. split; [by apply Hhere|by apply Hiff].
      - right. split; [|done]. intros (id0 & Hc%Hhere & Hp).
        injection Hc as <-. apply Hiff in Hp. done. }
    split; [apply (Hside (x - 1, y))|]. split; [apply (Hside (x + 1, y))|].
    split; [apply (Hside (x, y - 1))|apply (Hside (x, y + 1))].
Qed.

(** X22.  The cells of a block are drawn as one strip.  On a reachable
    board of the restyled twin the margin of a cell toward the cell above
    and toward the cell below is always [CELL_MARGIN]; its margin toward
    the cell on the left (right) is 0 when the two cells carry the same
    block id and [CELL_MARGIN] otherwise.  The rectangle of the cell is 27
    pixels high and 27 to 35 wide, so none of the tests for an empty
    rectangle fires and the stroke has its upper and its lower side.  Two
    cells side by side have the same margin toward each other, and the gap
    between their rectangles is twice that margin: none inside a block. *)
Theorem computeGridCellMargins_strip s x y :
  reachable Part000 s → 0 ≤ x < WIDTH → 0 ≤ y < HEIGHT →
  let g := grid s in
  let m := computeGridCellMargins g x y in
  let r := computeDrawRect (inject_Z x) (inject_Z y) m in
  let sameBlock (p q : pos) := ∃ id, carries g (Some id) p ∧ carries g (Some id) q in
  marginTop m = CELL_MARGIN ∧ marginBottom m = CELL_MARGIN ∧
  (sameBlock (x, y) (x - 1, y) ∧ marginLeft m = 0 ∨
   ¬ sameBlock (x, y) (x - 1, y) ∧ marginLeft m = CELL_MARGIN) ∧
  (sameBlock (x, y) (x + 1, y) ∧ marginRight m = 0 ∨
   ¬ sameBlock (x, y) (x + 1, y) ∧ marginRight m = CELL_MARGIN) ∧
  rectHeight r = 27 ∧ 27 ≤ rectWidth r ≤ 35 ∧
  (∃ upper lower, upper ∈ strokeRectWithMargins r m ∧ lower ∈ strokeRectWithMargins r m ∧
                  upper.1.2 = rectY r ∧ lower.1.2 = (rectY r + 27)%Q) ∧
  (x + 1 < WIDTH →
   let m' := computeGridCellMargins g (x + 1) y in
   let r' := computeDrawRect (inject_Z (x + 1)) (inject_Z y) m' in
   marginLeft m' = marginRight m ∧
   (rectX r' - (rectX r + inject_Z (rectWidth r)) == inject_Z (2 * marginRight m))%Q).
Proof.
  intros Hr Hx Hy g m r sameBlock.
  destruct (reachable_BoardInv Part000 s Hr) as [bc Hinv]. fold g in Hinv.
  assert (onBoard (x, y)) as Hon by done.
  destruct (computeGridCellMargins_sides bc g x y Hinv Hon) as (Hleft & Hright & Ht & Hb).
  fold m in Hleft, Hright, Ht, Hb. fold (sameBlock (x, y) (x - 1, y)) in Hleft.
  fold (sameBlock (x, y) (x + 1, y)) in Hright.
  assert (∀ p q, (∃ id, carries g (Some id) p ∧ carries g (Some id) q) → p.2 = q.2) as Hrow.
  { intros p q (id & Hp & Hq). apply (bi_row _ _ _ Hinv id p q Hp Hq). }
  assert (marginTop m = CELL_MARGIN) as Htop.
  { destruct Ht as [[Hs%Hrow _]|[_ ?]]; [cbn in Hs; lia|done]. }
  assert (marginBottom m = CELL_MARGIN) as Hbot.
  { destruct Hb as [[Hs%Hrow _]|[_ ?]]; [cbn in Hs; lia|done]. }
  assert (rectHeight r = 27) as Hh.
  { subst r. cbn [computeDrawRect rectHeight]. rewrite Htop, Hbot. done. }
  assert (rectWidth r = CELL_SIZE - marginLeft m - marginRight m ∧ 27 ≤ rectWidth r ≤ 35)
    as [Hw Hwb].
  { subst r. cbn [computeDrawRect rectWidth]. unfold CELL_SIZE, CELL_MARGIN in *.
    destruct Hleft as [[_ ->]|[_ ->]], Hright as [[_ ->]|[_ ->]]; lia. }
  split; [done|]. split; [done|]. split; [done|]. split; [done|].
  split; [done|]. split; [done|]. split.
  { unfold strokeRectWithMargins. rewrite Hh, Htop, Hbot.
    rewrite (bool_decide_eq_false_2 (rectWidth r ≤ 0)) by lia.
    rewrite (bool_decide_eq_false_2 (27 ≤ 0)) by lia. cbn [orb]. cbv zeta.
    rewrite (bool_decide_eq_true_2 (CELL_MARGIN > 0)) by done.
    eexists _, _. split; [apply elem_of_app; left; apply list_elem_of_singleton; reflexivity|].
    split; [apply elem_of_app; right; apply elem_of_app; right; apply elem_of_app; left;
            apply list_elem_of_singleton; reflexivity|].
    split; reflexivity. }
  intros Hx1 m' r'.
  assert (onBoard (x + 1, y)) as Hon' by (unfold onBoard; cbn; lia).
  destruct (computeGridCellMargins_sides bc g (x + 1) y Hinv Hon') as (Hl' & _).
  fold m' in Hl'. replace (x + 1 - 1) with x in Hl' by lia.
  assert (marginLeft m' = marginRight m) as Hsym.
  { destruct Hl' as [[Hs ->]|[Hs ->]], Hright as [[Hs' ->]|[Hs' ->]]; try done; exfalso.
    - apply Hs'. destruct Hs as (id & ? & ?). by exists id.
    - apply Hs. destruct Hs' as (id & ? & ?). by exists id. }
  split; [done|]. subst r'. cbn [computeDrawRect rectX]. rewrite Hsym, Hw.
  subst r. cbn [computeDrawRect rectX].
  unfold Qminus. rewrite <- !inject_Z_mult, <- !inject_Z_plus, <- inject_Z_opp, <- inject_Z_plus.
  apply inject_Z_injective. unfold CELL_SIZE. lia.
Qed.

Lemma computeGridCellMargins_strip_witness :
  reachable Part000 restyledState ∧
  marginRight (computeGridCellMargins (grid restyledState) 2 19) = 0 ∧
  marginRight (computeGridCellMargins (grid restyledState) 3 19) = CELL_MARGIN.
Proof.
  split; [exact restyledState_reachable|].
  destruct (computeGridCellMargins_strip restyledState 2 19 restyledState_reachable
              ltac:(unfold WIDTH; lia) ltac:(unfold HEIGHT; lia))
    as (_ & _ & _ & _ & _ & _ & _ & Hnext).
  split; [vm_compute; reflexivity|].
  destruct (Hnext ltac:(unfold WIDTH; lia)) as [Hsym _]. cbn [Z.add Pos.add Pos.succ] in Hsym.
  destruct (computeGridCellMargins_strip restyledState 3 19 restyledState_reachable
              ltac:(unfold WIDTH; lia) ltac:(unfold HEIGHT; lia))
    as (_ & _ & _ & [[Hsame _]|[_ Hm]] & _).
  - exfalso. destruct Hsame as (id & (_ & c & Hc & Hid) & (_ & c' & Hc' & Hid')).
    vm_compute in Hc, Hc'. injection Hc as <-. injection Hc' as <-. cbn in Hid, Hid'. congruence.
  - exact Hm.
Defined.

Lemma cellSetFromCells_loop (ox oy : Z) (cells : list pos) : ∀ acc : list pos,
  let set := foldl (λ set '(x, y),
                      let key := (x + ox, y + oy) in
                      if bool_decide (key ∈ set) then set else set ++ [key]) acc cells in
  (∀ p, p ∈ set ↔ p ∈ acc ∨ ∃ q, q ∈ cells ∧ p = (q.1 + ox, q.2 + oy)) ∧
  (NoDup acc → NoDup set).
Proof.
  induction cells as [|[x y] cells IH]; intros acc; cbn [foldl].
  - split; [|done]. intros p. split; [by left|]. intros [?|(q & ?%elem_of_nil & _)]; done.
  - cbv zeta. case_bool_decide as Hin.
    + destruct (IH acc) as [Hiff Hnd]. split; [|done]. intros p. rewrite Hiff. split.
      * intros [?|(q & Hq & ->)]; [by left|]. right. exists q. split; [by right|done].
      * intros [?|(q & Hq & ->)]; [by left|]. apply elem_of_cons in Hq as [->|Hq].
        -- by left.
        -- right. by exists q.
    + destruct (IH (acc ++ [(x + ox, y + oy)])) as [Hiff Hnd]. split.
      * intros p. rewrite Hiff, elem_of_app, list_elem_of_singleton. split.
        -- intros [[?| ->]|(q & Hq & ->)]; [by left| |].
           ++ right. exists (x, y). split; [by left|done].
           ++ right. exists q. split; [by right|done].
        -- intros [?|(q & Hq & ->)]; [by left; left|]. apply elem_of_cons in Hq as [->|Hq].
           ++ left. by right.
           ++ right. by exists q.
      * intros Hacc. apply Hnd. apply NoDup_app. split; [done|]. split.
        -- intros p Hp ->%list_elem_of_singleton. done.
        -- apply NoDup_singleton.
Qed.

Lemma cellSetFromCells_elem cells offset p :
  p ∈ cellSetFromCells cells offset ↔
  ∃ q, q ∈ cells ∧
       p = (q.1 + match offset with Some o => o.1 | None => 0 end,
            q.2 + match offset with Some o => o.2 | None => 0 end).
Proof.
  unfold cellSetFromCells.
  destruct (cellSetFromCells_loop (match offset with Some o => o.1 | None => 0 end)
              (match offset with Some o => o.2 | None => 0 end) cells []) as [Hiff _].
  cbv zeta in Hiff. rewrite Hiff. split; [|by right].
  intros [?%elem_of_nil|?]; done.
Qed.

Lemma cellSetFromCells_plain cells p : p ∈ cellSetFromCells cells None ↔ p ∈ cells.
Proof.
  rewrite cellSetFromCells_elem. split.
  - intros ([qx qy] & Hq & ->). cbn. by rewrite !Z.add_0_r.
  - intros Hp. exists p. split; [done|]. destruct p as [px py]. cbn. by rewrite !Z.add_0_r.
Qed.

Lemma cellSetFromCells_shift (ox oy : Z) (cells : list pos) : ∀ acc : list pos,
  foldl (λ set '(x, y),
           let key := (x + ox, y + oy) in
           if bool_decide (key ∈ set) then set else set ++ [key]) acc cells =
  foldl (λ set '(x, y),
           let key := (x + 0, y + 0) in
           if bool_decide (key ∈ set) then set else set ++ [key]) acc
    ((λ p : pos, (p.1 + ox, p.2 + oy)) <$> cells).
Proof.
  induction cells as [|[x y] cells IH]; intros acc; [done|].
  cbn [foldl fmap list_fmap fst snd]. cbv zeta. rewrite !Z.add_0_r. apply IH.
Qed.

Lemma computeMarginsForCellInSet_ext cell cell' set set' :
  (set = [] ↔ set' = []) →
  (∀ dx dy, (cell.1 + dx, cell.2 + dy) ∈ set ↔ (cell'.1 + dx, cell'.2 + dy) ∈ set') →
  computeMarginsForCellInSet cell (Some set) = computeMarginsForCellInSet cell' (Some set').
Proof.
  intros Hnil Hiff. unfold computeMarginsForCellInSet.
  assert (bool_decide (length set = 0%nat) = bool_decide (length set' = 0%nat)) as ->.
  { apply bool_decide_ext. rewrite !length_zero_iff_nil. done. }
  case_bool_decide; [done|]. cbv zeta.
  by rewrite (bool_decide_ext _ _ (Hiff (-1) 0)), (bool_decide_ext _ _ (Hiff 1 0)),
    (bool_decide_ext _ _ (Hiff 0 (-1))), (bool_decide_ext _ _ (Hiff 0 1)).
Qed.

(** X23.  The margins of a cell in a set of cells depend on the shape
    only: moving the cell and the cells by the same offset leaves them as
    they are, so that the ghost, made of the cells of the held block lowered
    by the drop distance, has the outline of the held block.  The set built
    with an offset is the set of the cells moved by the offset; a set holds
    the cells it is built from, each once.  Without a set, or in the set of
    no cells, the margins are the default ones. *)
Theorem computeMarginsForCellInSet_shape (cells : list pos) (cell : pos) (dx dy : Z) :
  let moved (p : pos) : pos := (p.1 + dx, p.2 + dy) in
  computeMarginsForCellInSet (moved cell) (Some (cellSetFromCells (moved <$> cells) None)) =
    computeMarginsForCellInSet cell (Some (cellSetFromCells cells None)) ∧
  cellSetFromCells cells (Some (dx, dy)) = cellSetFromCells (moved <$> cells) None ∧
  (∀ p, p ∈ cellSetFromCells cells None ↔ p ∈ cells) ∧
  NoDup (cellSetFromCells cells None) ∧
  computeMarginsForCellInSet cell None = defaultCellMargins ∧
  computeMarginsForCellInSet cell (Some (cellSetFromCells [] None)) = defaultCellMargins.
Proof.
  intros moved. split; [|split; [|split; [|split; [|done]]]].
  - apply computeMarginsForCellInSet_ext.
    + split; intros Hnil.
      * destruct cells as [|q cells]; [done|]. exfalso.
        assert (moved q ∈ cellSetFromCells (moved <$> q :: cells) None) as Hin
          by (apply cellSetFromCells_plain; by left).
        rewrite Hnil in Hin. by apply elem_of_nil in Hin.
      * destruct cells as [|q cells]; [done|]. exfalso.
        assert (q ∈ cellSetFromCells (q :: cells) None) as Hin
          by (apply cellSetFromCells_plain; by left).
        rewrite Hnil in Hin. by apply elem_of_nil in Hin.
    + intros ex ey. rewrite !cellSetFromCells_plain, list_elem_of_fmap. subst moved.
      cbn [fst snd]. split.
      * intros ([qx qy] & Heq & Hq). cbn [fst snd] in Heq.
        replace (cell.1 + ex, cell.2 + ey) with (qx, qy); [done|].
        injection Heq as ? ?. f_equal; lia.
      * intros Hq. exists (cell.1 + ex, cell.2 + ey). split; [|done]. cbn [fst snd].
        f_equal; lia.
  - unfold cellSetFromCells. cbn [fst snd]. apply cellSetFromCells_shift.
  - apply cellSetFromCells_plain.
  - unfold cellSetFromCells.
    destruct (cellSetFromCells_loop 0 0 cells []) as [_ Hnd]. apply Hnd, NoDup_nil_2.
Qed.

(** X24.  A block has the same outline on the grid and off it.  In a
    reachable state of the restyled twin, for the cells that
    [collectBlockCells] gathers from a cell of a block (the cells a
    selection, a hover or a move holds), the margins of each cell in the set
    of these cells are the margins [computeGridCellMargins] gives it on the
    grid. *)
Theorem computeMarginsForCellInSet_as_on_grid s x y id :
  reachable Part000 s → carries (grid s) (Some id) (x, y) →
  ∃ cells,
    collectBlockCells (grid s) x y (Some id) = Ok cells ∧ (x, y) ∈ cells ∧
    ∀ p, p ∈ cells →
      computeMarginsForCellInSet p (Some (cellSetFromCells cells None)) =
      computeGridCellMargins (grid s) p.1 p.2.
Proof.
  intros Hr Hstart. destruct (reachable_BoardInv Part000 s Hr) as [bc Hinv].
  destruct (collectBlockCells_spec (grid s) x y id (bi_ok _ _ _ Hinv)) as (cells & Hrun & Hcol).
  pose proof (Collected_complete Part000 bc (grid s) id (x, y) cells Hinv Hcol Hstart) as Hiff.
  exists cells. split; [done|]. split; [by apply Hiff|]. intros [px py] Hp. cbn [fst snd].
  pose proof (proj1 (Hiff _) Hp) as Hcar.
  destruct (computeGridCellMargins_sides bc (grid s) px py Hinv (proj1 Hcar))
    as (Hl & Hrt & Ht & Hb).
  assert (∀ q, (∃ id0, carries (grid s) (Some id0) (px, py) ∧ carries (grid s) (Some id0) q) ↔
               q ∈ cellSetFromCells cells None) as Hsame.
  { intros q. rewrite cellSetFromCells_plain, Hiff. split.
    - intros (id0 & (_ & c & Hc & Hid) & Hq). destruct Hcar as (_ & c' & Hc' & Hid').
      rewrite Hc in Hc'. injection Hc' as <-. rewrite Hid in Hid'. by injection Hid' as ->.
    - intros Hq. by exists id. }
  unfold computeMarginsForCellInSet.
  rewrite bool_decide_eq_false_2.
  2:{ intros Hlen%length_zero_iff_nil. apply cellSetFromCells_plain in Hp.
      rewrite Hlen in Hp. by apply elem_of_nil in Hp. }
  cbv zeta. cbn [fst snd].
  replace (px + -1, py + 0) with (px - 1, py) by (f_equal; lia).
  replace (px + 1, py + 0) with (px + 1, py) by (f_equal; lia).
  replace (px + 0, py + -1) with (px, py - 1) by (f_equal; lia).
  replace (px + 0, py + 1) with (px, py + 1) by (f_equal; lia).
  destruct (computeGridCellMargins (grid s) px py) as [ml mr mt mb].
  cbn [marginLeft marginRight marginTop marginBottom] in Hl, Hrt, Ht, Hb.
  f_equal.
  - destruct Hl as [[Hs ->]|[Hs ->]].
    + rewrite bool_decide_eq_true_2; [done|]. by apply Hsame.
    + rewrite bool_decide_eq_false_2; [done|]. by rewrite <- Hsame.
  - destruct Hrt as [[Hs ->]|[Hs ->]].
    + rewrite bool_decide_eq_true_2; [done|]. by apply Hsame.
    + rewrite bool_decide_eq_false_2; [done|]. by rewrite <- Hsame.
  - destruct Ht as [[Hs ->]|[Hs ->]].
    + rewrite bool_decide_eq_true_2; [done|]. by apply Hsame.
    + rewrite bool_decide_eq_false_2; [done|]. by rewrite <- Hsame.
  - destruct Hb as [[Hs ->]|[Hs ->]].
    + rewrite bool_decide_eq_true_2; [done|]. by apply Hsame.
    + rewrite bool_decide_eq_false_2; [done|]. by rewrite <- Hsame.
Qed.

Lemma computeMarginsForCellInSet_as_on_grid_witness :
  reachable Part000 restyledState ∧ carries (grid restyledState) (Some 9%nat) (1, 19) ∧
  ∃ cells, collectBlockCells (grid restyledState) 1 19 (Some 9%nat) = Ok cells ∧
           (1, 19) ∈ cells.
Proof.
  assert (carries (grid restyledState) (Some 9%nat) (1, 19)) as Hcar.
  { split; [unfold onBoard, WIDTH, HEIGHT; cbn [fst snd]; lia|].
    eexists. split; [vm_compute; reflexivity|reflexivity]. }
  split; [exact restyledState_reachable|]. split; [exact Hcar|].
  destruct (computeMarginsForCellInSet_as_on_grid restyledState 1 19 9
              restyledState_reachable Hcar) as (cells & Hrun & Hin & _).
  exists cells. split; [exact Hrun|exact Hin].
Defined.
